(** * IRReceiver: a verification development for the IR decode pipeline

    The definitions below are a shallow embedding of the C++ class
    [IRReceiver] (IRReceiver.h / IRReceiver.cpp).  [int] and [uint32_t]
    are modelled as [Z] with the 32-bit wrap-around written out where the
    source relies on it or an operand can take any value, C arrays with a
    separate element count are lists indexed with stdpp's lookup and
    insert, and [float] is IEEE binary32 through the Standard Library's
    [SpecFloat] (precision 24, emax 128).  The hardware
    collaborators ([millis], [micros], [digitalRead], [digitalPinToInterrupt])
    are explicit arguments of the operations that call them. *)

From Stdlib Require Import ZArith Lia Bool List.
From Stdlib Require Import Floats.SpecFloat.
From stdpp Require Import base list strings.
Import ListNotations.

Local Open Scope Z_scope.

(** ** Machine arithmetic *)

(** Arithmetic on [uint32_t] is modulo 2^32. *)
Definition wrap32 (x : Z) : Z := x mod 2 ^ 32.

(** Conversion [uint32_t -> int] (two's complement, 32-bit [int]). *)
Definition int_of_uint32 (x : Z) : Z :=
  if x <? 2 ^ 31 then x else x - 2 ^ 32.

(** The cast [(uint8_t)x]. *)
Definition uint8_of_int (x : Z) : Z := x mod 256.

(** The range of a 32-bit [int]. *)
Definition INT_MIN : Z := - 2 ^ 31.
Definition INT_MAX : Z := 2 ^ 31 - 1.
Definition is_int (x : Z) : Prop := INT_MIN <= x <= INT_MAX.

(** Arithmetic on [int] is kept in 32 bits, two's complement: a result that
    leaves the range wraps around. *)
Definition int_wrap (x : Z) : Z := int_of_uint32 (wrap32 x).

(** Arduino's [abs] on [int], the macro [((x)>0?(x):-(x))]. *)
Definition abs (x : Z) : Z := if x >? 0 then x else int_wrap (- x).

(** ** IEEE binary32 *)

Definition float : Type := spec_float.
Definition float_prec : Z := 24.
Definition float_emax : Z := 128.

(** Conversion [int -> float], round to nearest even. *)
Definition float_of_int (z : Z) : float :=
  binary_normalize float_prec float_emax z 0 false.

Definition float_mul (x y : float) : float := SFmul float_prec float_emax x y.
Definition float_le (x y : float) : bool := SFleb x y.

(** ** Configuration constants (IRReceiver.h) *)

Definition IR_LIB_MAX_TRANSITIONS : nat := 300.
Definition IR_LIB_IDLE_TIMEOUT_MS : Z := 100.
Definition IR_LIB_MAX_DECODED_SEGMENTS : nat := 10.

Record PulseSpacePair : Type := { pulse : Z; space : Z }.

Inductive RemoteBrand : Type := UNKNOWN | JVC | SONY | NEC.

(** The enumerator values; [NUM_BRANDS] is the one after [NEC]. *)
Definition brandIndex (b : RemoteBrand) : nat :=
  match b with UNKNOWN => 0 | JVC => 1 | SONY => 2 | NEC => 3 end.
Definition NUM_BRANDS : nat := 4.

(** The cast [(RemoteBrand)i]. *)
Definition brandOfIndex (i : nat) : RemoteBrand :=
  match i with 1%nat => JVC | 2%nat => SONY | 3%nat => NEC | _ => UNKNOWN end.

Definition brand_eqb (a b : RemoteBrand) : bool :=
  Nat.eqb (brandIndex a) (brandIndex b).

Record DecodedIR : Type := { brand : RemoteBrand; command : Z; address : Z }.

(** The value-initialised [DecodedIR()]. *)
Definition DecodedIR_empty : DecodedIR :=
  {| brand := UNKNOWN; command := -1; address := -1 |}.

Record DecodedNECInternal : Type :=
  { base : DecodedIR; checksumValid : bool }.

#[global] Instance PulseSpacePair_inhabited : Inhabited PulseSpacePair :=
  populate {| pulse := 0; space := 0 |}.
#[global] Instance DecodedIR_inhabited : Inhabited DecodedIR :=
  populate DecodedIR_empty.

(** ** Button tables (IRButtonDefs.h, IRButtonDefs.cpp) *)

Record IrButton : Type := { commandCode : Z; name : string }.

Definition SCEPTRE_BUTTONS : list IrButton :=
  [ {| commandCode := 0; name := "sceptreOne" |};
    {| commandCode := 1; name := "sceptreTwo" |};
    {| commandCode := 2; name := "sceptreThree" |};
    {| commandCode := 3; name := "sceptreFour" |};
    {| commandCode := 4; name := "sceptreFive" |};
    {| commandCode := 5; name := "sceptreSix" |};
    {| commandCode := 6; name := "sceptreSeven" |};
    {| commandCode := 7; name := "sceptreEight" |};
    {| commandCode := 8; name := "sceptreNine" |};
    {| commandCode := 9; name := "sceptreZero" |};
    {| commandCode := 11; name := "sceptreEnter" |};
    {| commandCode := 16; name := "sceptreCh+" |};
    {| commandCode := 17; name := "sceptreCh-" |};
    {| commandCode := 18; name := "sceptreVol+" |};
    {| commandCode := 19; name := "sceptreVol-" |};
    {| commandCode := 20; name := "sceptreMute" |};
    {| commandCode := 21; name := "sceptrePower" |};
    {| commandCode := 22; name := "sceptreExit" |};
    {| commandCode := 24; name := "sceptreFav" |};
    {| commandCode := 35; name := "sceptreCc" |};
    {| commandCode := 36; name := "sceptreFavAdd" |};
    {| commandCode := 37; name := "sceptreSource" |};
    {| commandCode := 41; name := "sceptreStandard" |};
    {| commandCode := 46; name := "sceptrePwrOn" |};
    {| commandCode := 47; name := "sceptrePwrOff" |};
    {| commandCode := 51; name := "sceptreRight" |};
    {| commandCode := 52; name := "sceptreLeft" |};
    {| commandCode := 54; name := "sceptreSleep" |};
    {| commandCode := 57; name := "sceptreHdmi" |};
    {| commandCode := 60; name := "sceptreInfo" |};
    {| commandCode := 64; name := "sceptreAir" |};
    {| commandCode := 65; name := "sceptreAv" |};
    {| commandCode := 67; name := "sceptreHdmi3" |};
    {| commandCode := 68; name := "sceptreHdmi4" |};
    {| commandCode := 69; name := "sceptreYpbpr" |};
    {| commandCode := 72; name := "sceptreHdmi1" |};
    {| commandCode := 90; name := "sceptreUser" |};
    {| commandCode := 96; name := "sceptreMenu" |};
    {| commandCode := 98; name := "sceptreFull" |};
    {| commandCode := 99; name := "sceptreUsb" |};
    {| commandCode := 100; name := "sceptreFreeze" |};
    {| commandCode := 101; name := "sceptreGuide" |};
    {| commandCode := 110; name := "sceptreAir2" |};
    {| commandCode := 111; name := "sceptreAir3" |};
    {| commandCode := 116; name := "sceptreUp" |};
    {| commandCode := 117; name := "sceptreDown" |};
    {| commandCode := 123; name := "sceptreVoice" |} ].

Definition JVC_BUTTONS : list IrButton :=
  [ {| commandCode := 0; name := "jvcPwr" |};
    {| commandCode := 1; name := "jvcVol+" |};
    {| commandCode := 2; name := "jvcVol-" |};
    {| commandCode := 13; name := "jvcAux" |} ].

Definition NEC_BUTTONS : list IrButton :=
  [ {| commandCode := 0; name := "necPwr" |};
    {| commandCode := 16; name := "necPlay" |};
    {| commandCode := 19; name := "necStop" |};
    {| commandCode := 64; name := "nvcTray" |} ].

(** ** The C library's [itoa]

    [itoa] is not code of the repository.  It is modelled after the
    library the sketch links (newlib, avr-libc): the digits of [value] in
    [radix], most significant first, with lower-case letters from ten on; a
    negative [value] gets a minus sign only for radix 10 and is otherwise
    read as [unsigned]. *)

Definition digitChar (d : Z) : Ascii.ascii :=
  Ascii.ascii_of_nat (Z.to_nat (if d <? 10 then 48 + d else 87 + d)).

Fixpoint utoaDigits (fuel : nat) (radix value : Z) (acc : string) : string :=
  match fuel with
  | O => acc
  | S fuel' =>
    let acc := String (digitChar (value mod radix)) acc in
    if value / radix =? 0 then acc
    else utoaDigits fuel' radix (value / radix) acc
  end.

(** 32 digits are enough for a 32-bit value in any radix from 2. *)
Definition utoa (value radix : Z) : string := utoaDigits 32 radix value "".

Definition itoa (value radix : Z) : string :=
  if (radix =? 10) && (value <? 0)
  then "-" +:+ utoa (wrap32 (- value)) radix
  else utoa (wrap32 value) radix.

Module IRReceiver.

(** *** Protocol definitions *)

Definition JVC_PREAMBLE_PULSE : Z := 8400.
Definition JVC_PREAMBLE_SPACE : Z := 4200.
Definition JVC_BIT_PULSE : Z := 526.
Definition JVC_ZERO_SPACE : Z := 526.
Definition JVC_ONE_SPACE : Z := 1574.
Definition JVC_REPEAT_DELAY : Z := 22000.
Definition JVC_REPEAT_PREAMBLE_PULSE : Z := 0.
Definition JVC_REPEAT_PREAMBLE_SPACE : Z := 0.
Definition JVC_INITIAL_BITS : Z := 17.
Definition JVC_REPEAT_BITS : Z := 16.

Definition SONY_PREAMBLE_PULSE : Z := 2400.
Definition SONY_PREAMBLE_SPACE : Z := 600.
Definition SONY_ZERO_PULSE : Z := 600.
Definition SONY_ONE_PULSE : Z := 1200.
Definition SONY_BIT_SPACE : Z := 600.
Definition SONY_REPEAT_DELAY : Z := 25000.
Definition SONY_REPEAT_PREAMBLE_PULSE : Z := 2400.
Definition SONY_REPEAT_PREAMBLE_SPACE : Z := 600.
Definition SONY_INITIAL_BITS : Z := 13.
Definition SONY_REPEAT_BITS : Z := 13.

Definition NEC_PREAMBLE_PULSE : Z := 9000.
Definition NEC_PREAMBLE_SPACE : Z := 4500.
Definition NEC_BIT_PULSE : Z := 563.
Definition NEC_ZERO_SPACE : Z := 563.
Definition NEC_ONE_SPACE : Z := 563 * 3.
Definition NEC_REPEAT_DELAY : Z := 42000.
Definition NEC_REPEAT_PREAMBLE_PULSE : Z := 8900.
Definition NEC_REPEAT_PREAMBLE_SPACE : Z := 2200.
Definition NEC_INITIAL_BITS : Z := 33.
Definition NEC_REPEAT_BITS : Z := 1.

(** *** Analysis configuration *)

Definition TIMING_TOLERANCE : Z := 200.
(** [0.10f]: the binary32 number nearest to one tenth, 13421773 * 2^-27. *)
Definition PERCENTAGE_TOLERANCE : float := S754_finite false 13421773 (-27).
Definition MIN_REPEAT_GAP : Z := 10000.

(** *** Time/direction packing *)

Definition TIME_VALUE_MASK : Z := 0x7FFFFFFF.
Definition DIRECTION_FLAG_H_TO_L : Z := 0x80000000.

(** *** Helper methods *)

(** [abs(captured - expected) <= tolerance] on [int]: the subtraction, like
    the negation in [abs], wraps around in 32 bits when it overflows. *)
Definition isWithinTolerance (captured expected tolerance : Z) : bool :=
  abs (int_wrap (captured - expected)) <=? tolerance.

(** [abs(captured - expected) <= expected * tolerance_percent]: both
    [int]s are converted to [float], the product and the comparison are
    binary32. *)
Definition isWithinPercentageTolerance
    (captured expected : Z) (tolerance_percent : float) : bool :=
  if expected =? 0 then captured =? 0
  else float_le (float_of_int (abs (int_wrap (captured - expected))))
                (float_mul (float_of_int expected) tolerance_percent).

Definition matchPreamble (pulse space : Z) (isRepeatPreamble : bool)
    : RemoteBrand :=
  if isRepeatPreamble then
    if isWithinTolerance pulse JVC_REPEAT_PREAMBLE_PULSE TIMING_TOLERANCE
       && isWithinTolerance space JVC_REPEAT_PREAMBLE_SPACE TIMING_TOLERANCE
    then JVC
    else if isWithinTolerance pulse SONY_REPEAT_PREAMBLE_PULSE TIMING_TOLERANCE
       && isWithinTolerance space SONY_REPEAT_PREAMBLE_SPACE TIMING_TOLERANCE
    then SONY
    else if isWithinTolerance pulse NEC_REPEAT_PREAMBLE_PULSE TIMING_TOLERANCE
       && isWithinTolerance space NEC_REPEAT_PREAMBLE_SPACE TIMING_TOLERANCE
    then NEC
    else UNKNOWN
  else
    if isWithinTolerance pulse JVC_PREAMBLE_PULSE TIMING_TOLERANCE
       && isWithinTolerance space JVC_PREAMBLE_SPACE TIMING_TOLERANCE
    then JVC
    else if isWithinTolerance pulse SONY_PREAMBLE_PULSE TIMING_TOLERANCE
       && isWithinTolerance space SONY_PREAMBLE_SPACE TIMING_TOLERANCE
    then SONY
    else if isWithinTolerance pulse NEC_PREAMBLE_PULSE TIMING_TOLERANCE
       && isWithinTolerance space NEC_PREAMBLE_SPACE TIMING_TOLERANCE
    then NEC
    else UNKNOWN.


(** *** Scoring functions

    The scorers read [pairs[j]] for [j < count] only.  A [for] loop over an
    index range is a fold over [seq]; an inner loop that leaves with [break]
    on the first failing element is [forallb], and a search that stops at the
    first hit is [find]. *)

(** The indices [a, a+1, ..., e] of [for (j = a; j <= e; ++j)]. *)
Definition fromTo (a e : nat) : list nat := seq a (S e - a).

(** [space != -1 && isWithinTolerance(space, delay, 5000)] *)
Definition isRepeatGap (sp delay : Z) : bool :=
  negb (sp =? -1) && isWithinTolerance sp delay 5000.

(** The search for [firstValidDataSpace]; [-1] when no pair qualifies. *)
Definition firstValidDataSpaceFrom
    (pairs : list PulseSpacePair) (a e : nat) (delay : Z) : Z :=
  match find (fun j => negb (space (pairs !!! j) =? -1)
                       && negb (isWithinTolerance (space (pairs !!! j)) delay 5000))
             (fromTo a e) with
  | Some j => space (pairs !!! j)
  | None => -1
  end.

Record ScoreState : Type :=
  { score : Z; currentSegmentStartPairIndex : nat; segmentCount : Z }.

Definition scoreSony_iter (pairs : list PulseSpacePair) (count : nat)
    (st : ScoreState) (i : nat) : ScoreState :=
  let isSegmentEnd :=
    isRepeatGap (space (pairs !!! i)) SONY_REPEAT_DELAY
    || (Z.of_nat i =? Z.of_nat count - 1) in
  if isSegmentEnd then
    let start := currentSegmentStartPairIndex st in
    let segmentEndPairIndex := i in
    let segmentPairCount := Z.of_nat segmentEndPairIndex - Z.of_nat start + 1 in
    if segmentPairCount >? 0 then
      let segmentCount := segmentCount st + 1 in
      let isInitialFrame := segmentCount =? 1 in
      (* preamble check *)
      let '(score1, segmentDataPairsStartIndex) :=
        if (segmentPairCount >? 0) && negb (space (pairs !!! start) =? -1) then
          let preambleMatch :=
            matchPreamble (pulse (pairs !!! start)) (space (pairs !!! start))
                          (negb isInitialFrame) in
          if isInitialFrame && brand_eqb preambleMatch SONY
          then (score st + 1, S start)
          else if negb isInitialFrame && brand_eqb preambleMatch SONY
          then (score st + 1, S start)
          else (score st, start)
        else (score st, start) in
      let dataPairCountInSegment :=
        Z.of_nat segmentEndPairIndex - Z.of_nat segmentDataPairsStartIndex + 1 in
      let score3 :=
        if dataPairCountInSegment >? 0 then
          let score2 :=
            if isInitialFrame then
              if isWithinTolerance dataPairCountInSegment (SONY_INITIAL_BITS - 1) 2
              then score1 + 1 else score1
            else
              if isWithinTolerance dataPairCountInSegment (SONY_REPEAT_BITS - 1) 2
              then score1 + 1 else score1 in
          if dataPairCountInSegment >? 1 then
            let firstDataMark := pulse (pairs !!! segmentDataPairsStartIndex) in
            let allMarksFixed :=
              forallb (fun j => isWithinTolerance (pulse (pairs !!! j))
                                                  firstDataMark TIMING_TOLERANCE)
                      (fromTo (S segmentDataPairsStartIndex) segmentEndPairIndex) in
            let marksAreVariable := negb allMarksFixed in
            let firstValidDataSpace :=
              firstValidDataSpaceFrom pairs segmentDataPairsStartIndex
                                      segmentEndPairIndex SONY_REPEAT_DELAY in
            let spacesAreFixed :=
              if negb (firstValidDataSpace =? -1) then
                forallb (fun j =>
                  let sp := space (pairs !!! j) in
                  if negb (sp =? -1) && negb (isWithinTolerance sp SONY_REPEAT_DELAY 5000)
                  then isWithinTolerance sp firstValidDataSpace TIMING_TOLERANCE
                  else if negb (sp =? -1) && isWithinTolerance sp SONY_REPEAT_DELAY 5000
                          && negb (Nat.eqb j segmentEndPairIndex)
                  then false
                  else true)
                  (fromTo segmentDataPairsStartIndex segmentEndPairIndex)
              else false in
            if marksAreVariable && spacesAreFixed then score2 + 1 else score2
          else score2
        else score1 in
      {| score := score3; currentSegmentStartPairIndex := S i;
         segmentCount := segmentCount |}
    else st
  else st.

Definition scoreSonySIRC12 (pairs : list PulseSpacePair) (count : nat) : Z :=
  if Nat.eqb count 0 then 0
  else score (fold_left (scoreSony_iter pairs count) (seq 0 count)
                {| score := 0; currentSegmentStartPairIndex := 0%nat;
                   segmentCount := 0 |}).

Definition scoreJVC_iter (pairs : list PulseSpacePair) (count : nat)
    (st : ScoreState) (i : nat) : ScoreState :=
  let isSegmentEnd :=
    isRepeatGap (space (pairs !!! i)) JVC_REPEAT_DELAY
    || (Z.of_nat i =? Z.of_nat count - 1) in
  if isSegmentEnd then
    let start := currentSegmentStartPairIndex st in
    let segmentEndPairIndex := i in
    let segmentPairCount := Z.of_nat segmentEndPairIndex - Z.of_nat start + 1 in
    if segmentPairCount >? 0 then
      let segmentCount := segmentCount st + 1 in
      let isInitialFrame := segmentCount =? 1 in
      let '(score1, segmentDataPairsStartIndex) :=
        if isInitialFrame && (segmentPairCount >? 0)
           && negb (pulse (pairs !!! start) =? -1)
           && negb (space (pairs !!! start) =? -1) then
          let preambleMatch :=
            matchPreamble (pulse (pairs !!! start)) (space (pairs !!! start)) false in
          if brand_eqb preambleMatch JVC then (score st + 1, S start)
          else (score st, start)
        else if negb isInitialFrame then
          let expectedRepeatPairCount := JVC_INITIAL_BITS in
          let actualRepeatPairCount :=
            Z.of_nat segmentEndPairIndex - Z.of_nat start + 1 in
          if isWithinTolerance actualRepeatPairCount expectedRepeatPairCount 2
          then (score st + 1, start) else (score st, start)
        else (score st, start) in
      let score2 :=
        if isInitialFrame then
          let expectedDataPairCount := JVC_INITIAL_BITS - 1 in
          let actualDataPairCountInSegment :=
            Z.of_nat segmentEndPairIndex - Z.of_nat segmentDataPairsStartIndex + 1 in
          if isWithinTolerance actualDataPairCountInSegment expectedDataPairCount 2
          then score1 + 1 else score1
        else score1 in
      let score3 :=
        if segmentPairCount >? 1 then
          let bitStructureCheckStartIndex :=
            if isInitialFrame then segmentDataPairsStartIndex else start in
          let firstDataMark := pulse (pairs !!! bitStructureCheckStartIndex) in
          let marksAreFixed :=
            forallb (fun j =>
                       (pulse (pairs !!! j) =? -1)
                       || isWithinTolerance (pulse (pairs !!! j))
                                            firstDataMark TIMING_TOLERANCE)
                    (fromTo bitStructureCheckStartIndex segmentEndPairIndex) in
          let spacesCheckStartIndex :=
            if isInitialFrame then segmentDataPairsStartIndex else start in
          let firstValidDataSpace :=
            firstValidDataSpaceFrom pairs spacesCheckStartIndex
                                    segmentEndPairIndex JVC_REPEAT_DELAY in
          let allSpacesFixed :=
            if negb (firstValidDataSpace =? -1) then
              forallb (fun j =>
                let sp := space (pairs !!! j) in
                if negb (sp =? -1) && negb (isWithinTolerance sp JVC_REPEAT_DELAY 5000)
                then isWithinTolerance sp firstValidDataSpace TIMING_TOLERANCE
                else true)
                (fromTo spacesCheckStartIndex segmentEndPairIndex)
            else false in
          let spacesAreVariable := negb allSpacesFixed in
          if marksAreFixed && spacesAreVariable then score2 + 1 else score2
        else score2 in
      {| score := score3; currentSegmentStartPairIndex := S i;
         segmentCount := segmentCount |}
    else st
  else st.

Definition scoreJVC (pairs : list PulseSpacePair) (count : nat) : Z :=
  if Nat.eqb count 0 then 0
  else score (fold_left (scoreJVC_iter pairs count) (seq 0 count)
                {| score := 0; currentSegmentStartPairIndex := 0%nat;
                   segmentCount := 0 |}).

Definition scoreNEC_iter (pairs : list PulseSpacePair) (count : nat)
    (st : ScoreState) (i : nat) : ScoreState :=
  let isSegmentEnd :=
    isRepeatGap (space (pairs !!! i)) NEC_REPEAT_DELAY
    || (Z.of_nat i =? Z.of_nat count - 1) in
  if isSegmentEnd then
    let start := currentSegmentStartPairIndex st in
    let segmentEndPairIndex := i in
    let segmentPairCount := Z.of_nat segmentEndPairIndex - Z.of_nat start + 1 in
    if segmentPairCount >? 0 then
      let segmentCount := segmentCount st + 1 in
      let isInitialFrame := segmentCount =? 1 in
      let '(score1, segmentDataPairsStartIndex) :=
        if (segmentPairCount >? 0)
           && negb (pulse (pairs !!! start) =? -1)
           && negb (space (pairs !!! start) =? -1) then
          let preambleMatch :=
            matchPreamble (pulse (pairs !!! start)) (space (pairs !!! start))
                          (negb isInitialFrame) in
          if isInitialFrame && brand_eqb preambleMatch NEC
          then (score st + 1, S start)
          else if negb isInitialFrame && brand_eqb preambleMatch NEC
          then (score st + 1, S start)
          else (score st, start)
        else (score st, start) in
      let dataPairCountInSegment :=
        Z.of_nat segmentEndPairIndex - Z.of_nat segmentDataPairsStartIndex + 1 in
      let score3 :=
        if (dataPairCountInSegment >? 0)
           || (negb isInitialFrame && (dataPairCountInSegment =? NEC_REPEAT_BITS)) then
          let score2 :=
            if isInitialFrame then
              if isWithinTolerance dataPairCountInSegment (NEC_INITIAL_BITS - 1) 2
              then score1 + 1 else score1
            else
              if isWithinTolerance dataPairCountInSegment NEC_REPEAT_BITS 1
              then score1 + 1 else score1 in
          if (dataPairCountInSegment >? 1) && isInitialFrame then
            let firstDataMark := pulse (pairs !!! segmentDataPairsStartIndex) in
            let marksAreFixed :=
              forallb (fun j =>
                         (pulse (pairs !!! j) =? -1)
                         || isWithinTolerance (pulse (pairs !!! j))
                                              firstDataMark TIMING_TOLERANCE)
                      (fromTo segmentDataPairsStartIndex segmentEndPairIndex) in
            let spacesAreVariable0 := if marksAreFixed then true else false in
            let firstValidDataSpace :=
              firstValidDataSpaceFrom pairs segmentDataPairsStartIndex
                                      segmentEndPairIndex NEC_REPEAT_DELAY in
            let allSpacesFixed :=
              if negb (firstValidDataSpace =? -1) then
                forallb (fun j =>
                  let sp := space (pairs !!! j) in
                  if negb (sp =? -1) && negb (isWithinTolerance sp NEC_REPEAT_DELAY 5000)
                  then isWithinTolerance sp firstValidDataSpace TIMING_TOLERANCE
                  else if negb (sp =? -1) && isWithinTolerance sp NEC_REPEAT_DELAY 5000
                          && negb (Nat.eqb j segmentEndPairIndex)
                  then false
                  else true)
                  (fromTo segmentDataPairsStartIndex segmentEndPairIndex)
              else false in
            let spacesAreVariable :=
              if negb allSpacesFixed then true else spacesAreVariable0 in
            if marksAreFixed && spacesAreVariable then score2 + 1 else score2
          else score2
        else score1 in
      {| score := score3; currentSegmentStartPairIndex := S i;
         segmentCount := segmentCount |}
    else st
  else st.

Definition scoreNEC (pairs : list PulseSpacePair) (count : nat) : Z :=
  if Nat.eqb count 0 then 0
  else score (fold_left (scoreNEC_iter pairs count) (seq 0 count)
                {| score := 0; currentSegmentStartPairIndex := 0%nat;
                   segmentCount := 0 |}).

(** *** Decoding functions

    A decoder receives the slice [dataPairs[0 .. dataPairCount-1]] as a list.
    The bit loop runs over that list; [rest = []] is the source's test
    [i == dataPairCount - 1], and leaving the recursion is [break]. *)

(** [rawBits |= (b << bitCount)] on [uint32_t]. *)
Definition setBit (rawBits b bitCount : Z) : Z :=
  wrap32 (Z.lor rawBits (wrap32 (Z.shiftl b bitCount))).

Fixpoint sonyBitLoop (maxBitsToDecode : Z) (dataPairs : list PulseSpacePair)
    (rawBits bitCount : Z) : Z * Z :=
  match dataPairs with
  | [] => (rawBits, bitCount)
  | p :: rest =>
    if bitCount <? maxBitsToDecode then
      if negb (pulse p =? -1) then
        if isWithinTolerance (pulse p) SONY_ZERO_PULSE TIMING_TOLERANCE then
          let rawBits := setBit rawBits 0 bitCount in
          let bitCount := bitCount + 1 in
          if (bitCount =? maxBitsToDecode) && negb (space p =? -1)
             && isWithinTolerance (space p) SONY_REPEAT_DELAY 5000
          then (rawBits, bitCount)
          else if (bitCount =? maxBitsToDecode) && negb (space p =? -1)
             && isWithinTolerance (space p) SONY_BIT_SPACE TIMING_TOLERANCE
          then (rawBits, bitCount)
          else sonyBitLoop maxBitsToDecode rest rawBits bitCount
        else if isWithinTolerance (pulse p) SONY_ONE_PULSE TIMING_TOLERANCE then
          let rawBits := setBit rawBits 1 bitCount in
          let bitCount := bitCount + 1 in
          if (bitCount =? maxBitsToDecode) && negb (space p =? -1)
             && isWithinTolerance (space p) SONY_REPEAT_DELAY 5000
          then (rawBits, bitCount)
          else if (bitCount =? maxBitsToDecode) && negb (space p =? -1)
             && isWithinTolerance (space p) SONY_BIT_SPACE TIMING_TOLERANCE
          then (rawBits, bitCount)
          else sonyBitLoop maxBitsToDecode rest rawBits bitCount
        else (rawBits, bitCount)
      else (rawBits, bitCount)
    else (rawBits, bitCount)
  end.

(** The bit loop shared, text for text, by the JVC branch of
    [decodeWinningSegment] and by [decodeNECData]. *)
Fixpoint spaceBitLoop (expectedPulse zeroSpace oneSpace maxBitsToDecode : Z)
    (dataPairs : list PulseSpacePair) (rawBits bitCount : Z) : Z * Z :=
  match dataPairs with
  | [] => (rawBits, bitCount)
  | p :: rest =>
    if bitCount <? maxBitsToDecode then
      let pulse := pulse p in
      let space :=
        if (match rest with [] => true | _ => false end) && (space p =? -1)
        then zeroSpace else space p in
      if isWithinTolerance pulse expectedPulse TIMING_TOLERANCE then
        if negb (space =? -1) then
          if isWithinTolerance space zeroSpace TIMING_TOLERANCE then
            spaceBitLoop expectedPulse zeroSpace oneSpace maxBitsToDecode rest
                         (setBit rawBits 0 bitCount) (bitCount + 1)
          else if isWithinTolerance space oneSpace TIMING_TOLERANCE then
            spaceBitLoop expectedPulse zeroSpace oneSpace maxBitsToDecode rest
                         (setBit rawBits 1 bitCount) (bitCount + 1)
          else (rawBits, bitCount)
        else (rawBits, bitCount)
      else (rawBits, bitCount)
    else (rawBits, bitCount)
  end.

Definition decodeWinningSegment (brand : RemoteBrand)
    (dataPairs : list PulseSpacePair) : DecodedIR :=
  let dataPairCount := length dataPairs in
  if brand_eqb brand UNKNOWN || Nat.eqb dataPairCount 0 then DecodedIR_empty
  else
    if brand_eqb brand SONY then
      let maxBitsToDecode := SONY_INITIAL_BITS - 1 in
      let '(rawBits, bitCount) := sonyBitLoop maxBitsToDecode dataPairs 0 0 in
      {| brand := brand;
         command := if bitCount >=? 7
                    then Z.land (Z.shiftr rawBits 0) 0x7F else -1;
         address := if bitCount >=? 12
                    then Z.land (Z.shiftr rawBits 7) 0x1F else -1 |}
    else if brand_eqb brand JVC then
      let maxBitsToDecode := 16 in
      let '(rawBits, bitCount) :=
        spaceBitLoop JVC_BIT_PULSE JVC_ZERO_SPACE JVC_ONE_SPACE maxBitsToDecode
                     dataPairs 0 0 in
      {| brand := brand;
         command := if bitCount >=? 16
                    then Z.land (Z.shiftr rawBits 8) 0xFF else -1;
         address := if bitCount >=? 8
                    then Z.land (Z.shiftr rawBits 0) 0xFF else -1 |}
    else {| brand := brand; command := -1; address := -1 |}.

(** The bit loop of [decodeNECData]: the accumulated [rawBits] and
    [bitCount]. *)
Definition necBits (dataPairs : list PulseSpacePair) : Z * Z :=
  spaceBitLoop NEC_BIT_PULSE NEC_ZERO_SPACE NEC_ONE_SPACE (NEC_INITIAL_BITS - 1)
               dataPairs 0 0.

Definition decodeNECData (dataPairs : list PulseSpacePair)
    : DecodedNECInternal :=
  let '(rawBits, bitCount) := necBits dataPairs in
  let addressByte1 :=
    if bitCount >=? 8 then Z.land (Z.shiftr rawBits 0) 0xFF else -1 in
  let addressByte2 :=
    if bitCount >=? 16 then Z.land (Z.shiftr rawBits 8) 0xFF else -1 in
  let commandByte1 :=
    if bitCount >=? 24 then Z.land (Z.shiftr rawBits 16) 0xFF else -1 in
  let commandByte2 :=
    if bitCount >=? 32 then Z.land (Z.shiftr rawBits 24) 0xFF else -1 in
  let address :=
    if negb (addressByte1 =? -1) && negb (addressByte2 =? -1)
       && (uint8_of_int (addressByte1 + addressByte2) =? 0xFF)
    then addressByte1
    else if negb (addressByte1 =? -1) && negb (addressByte2 =? -1)
    then Z.lor (Z.shiftl addressByte2 8) addressByte1
    else if negb (addressByte1 =? -1)
    then addressByte1
    else -1 in
  let '(command, checksumValid) :=
    if negb (commandByte1 =? -1) then
      if negb (commandByte2 =? -1) then
        if uint8_of_int (commandByte1 + commandByte2) =? 0xFF
        then (commandByte1, true)
        else (commandByte1, false)
      else (commandByte1, false)
    else (-1, false) in
  {| base := {| brand := NEC; command := command; address := address |};
     checksumValid := checksumValid |}.

(** *** Winner determination *)

Record DecodedCount : Type :=
  { data : DecodedIR; count : Z; checksumValidForNEC : bool }.

#[global] Instance DecodedCount_inhabited : Inhabited DecodedCount :=
  populate {| data := DecodedIR_empty; count := 0;
              checksumValidForNEC := false |}.

(** [segments[i].brand != UNKNOWN && segments[i].command != -1] *)
Definition isValidDecode (seg : DecodedIR) : bool :=
  negb (brand_eqb (brand seg) UNKNOWN) && negb (command seg =? -1).

(** The [match] flag of the inner loop. *)
Definition segmentMatches (seg : DecodedIR) (chk : bool) (c : DecodedCount)
    : bool :=
  let match_ :=
    brand_eqb (brand seg) (brand (data c))
    && (command seg =? command (data c))
    && (address seg =? address (data c)) in
  if brand_eqb (brand seg) NEC
  then match_ && Bool.eqb chk (checksumValidForNEC c)
  else match_.

(** The inner loop over [counts[0 .. uniqueCount-1]]: the first matching
    group is incremented ([found]); [None] when no group matches. *)
Fixpoint incrementMatching (seg : DecodedIR) (chk : bool)
    (counts : list DecodedCount) : option (list DecodedCount) :=
  match counts with
  | [] => None
  | c :: rest =>
    if segmentMatches seg chk c
    then Some ({| data := data c; count := count c + 1;
                  checksumValidForNEC := checksumValidForNEC c |} :: rest)
    else match incrementMatching seg chk rest with
         | Some rest' => Some (c :: rest')
         | None => None
         end
  end.

(** One iteration of the grouping loop; [counts] holds the first
    [uniqueCount] entries of the local array, so [uniqueCount] is its
    length. *)
Definition countSegment (counts : list DecodedCount)
    (seg : DecodedIR * bool) : list DecodedCount :=
  let '(s, chk) := seg in
  if isValidDecode s then
    match incrementMatching s chk counts with
    | Some counts' => counts'
    | None =>
      if (length counts <? IR_LIB_MAX_DECODED_SEGMENTS)%nat then
        counts ++ [ {| data := s; count := 1;
                       checksumValidForNEC :=
                         if brand_eqb (brand s) NEC then chk else false |} ]
      else counts
    end
  else counts.

(** The loop that picks [maxCount] and [winnerIndex]. *)
Fixpoint maxLoop (counts : list DecodedCount) (i : nat)
    (maxCount winnerIndex : Z) : Z * Z :=
  match counts with
  | [] => (maxCount, winnerIndex)
  | c :: rest =>
    if count c >? maxCount
    then maxLoop rest (S i) (count c) (Z.of_nat i)
    else maxLoop rest (S i) maxCount winnerIndex
  end.

(** The groups built from [segments[0 .. count-1]] and
    [segmentChecksums[0 .. count-1]], read in step. *)
Definition groupSegments (segments : list DecodedIR) (count : nat)
    (segmentChecksums : list bool) : list DecodedCount :=
  fold_left countSegment
            (zip (take count segments) (take count segmentChecksums)) [].

(** [determineWinner] returns the value it leaves in [m_finalResultCode]. *)
Definition determineWinner (segments : list DecodedIR) (count : nat)
    (segmentChecksums : list bool) : DecodedIR :=
  if Nat.eqb count 0 then DecodedIR_empty
  else
    let counts := groupSegments segments count segmentChecksums in
    let '(maxCount, winnerIndex) := maxLoop counts 0 0 (-1) in
    if negb (winnerIndex =? -1)
    then data (counts !!! Z.to_nat winnerIndex)
    else DecodedIR_empty.

(** *** The receiver object *)

Definition HIGH : Z := 1.
Definition LOW : Z := 0.

(** What the hardware collaborators answer during one call. *)
Record Hardware : Type :=
  { millis : Z;                          (* millis(), an unsigned long *)
    micros : Z;                          (* micros() *)
    digitalRead : Z -> Z;                (* digitalRead(pin) *)
    isInterruptPin : Z -> bool }.        (* digitalPinToInterrupt(pin) != NOT_AN_INTERRUPT *)

Record State : Type :=
  { m_irPin : Z;
    m_rawTransitions : list Z;
    m_rawTransitionIndex : nat;
    m_lastTransitionMillis : Z;
    m_lastPinState : Z;
    m_rawBurstCopied : bool;
    m_pulseSpacePairs : list PulseSpacePair;
    m_pulseSpacePairCount : nat;
    m_brandScores : list Z;
    m_decodedSegments : list DecodedIR;
    m_decodedSegmentCount : nat;
    m_finalResultCode : DecodedIR;
    m_codeResultIsReady : bool;
    m_isInterruptAttached : bool }.

(** The constructor.  [m_rawTransitions] and [m_pulseSpacePairs] are left
    indeterminate by C++; no element of them is read before it is written,
    and they are filled with zeros here. *)
Definition new : State :=
  {| m_irPin := -1;
     m_rawTransitions := replicate IR_LIB_MAX_TRANSITIONS 0;
     m_rawTransitionIndex := 0;
     m_lastTransitionMillis := 0;
     m_lastPinState := HIGH;
     m_rawBurstCopied := false;
     m_pulseSpacePairs :=
       replicate (IR_LIB_MAX_TRANSITIONS / 2) {| pulse := 0; space := 0 |};
     m_pulseSpacePairCount := 0;
     m_brandScores := replicate NUM_BRANDS 0;
     m_decodedSegments := replicate IR_LIB_MAX_DECODED_SEGMENTS DecodedIR_empty;
     m_decodedSegmentCount := 0;
     m_finalResultCode := DecodedIR_empty;
     m_codeResultIsReady := false;
     m_isInterruptAttached := false |}.

(** *** ISR and raw capture *)

Definition handleIrInterrupt_priv (hw : Hardware) (s : State) : State :=
  let currentTimeMicros := wrap32 (micros hw) in
  let currentState := digitalRead hw (m_irPin s) in
  if negb (currentState =? m_lastPinState s)
     && (m_rawTransitionIndex s <? IR_LIB_MAX_TRANSITIONS)%nat then
    let timeValue := Z.land currentTimeMicros TIME_VALUE_MASK in
    let timeValue :=
      if (currentState =? LOW) && (m_lastPinState s =? HIGH)
      then Z.lor timeValue DIRECTION_FLAG_H_TO_L else timeValue in
    {| m_irPin := m_irPin s;
       m_rawTransitions :=
         <[m_rawTransitionIndex s := timeValue]> (m_rawTransitions s);
       m_rawTransitionIndex := S (m_rawTransitionIndex s);
       m_lastTransitionMillis := wrap32 (millis hw);
       m_lastPinState := currentState;
       m_rawBurstCopied := m_rawBurstCopied s;
       m_pulseSpacePairs := m_pulseSpacePairs s;
       m_pulseSpacePairCount := m_pulseSpacePairCount s;
       m_brandScores := m_brandScores s;
       m_decodedSegments := m_decodedSegments s;
       m_decodedSegmentCount := m_decodedSegmentCount s;
       m_finalResultCode := m_finalResultCode s;
       m_codeResultIsReady := m_codeResultIsReady s;
       m_isInterruptAttached := m_isInterruptAttached s |}
  else s.

Definition enable (hw : Hardware) (s : State) : State :=
  if m_irPin s =? -1 then s
  else
    {| m_irPin := m_irPin s;
       m_rawTransitions := m_rawTransitions s;
       m_rawTransitionIndex := 0;
       m_lastTransitionMillis := wrap32 (millis hw);
       m_lastPinState := digitalRead hw (m_irPin s);
       m_rawBurstCopied := false;
       m_pulseSpacePairs := m_pulseSpacePairs s;
       m_pulseSpacePairCount := m_pulseSpacePairCount s;
       m_brandScores := m_brandScores s;
       m_decodedSegments := m_decodedSegments s;
       m_decodedSegmentCount := m_decodedSegmentCount s;
       m_finalResultCode := m_finalResultCode s;
       m_codeResultIsReady := false;
       m_isInterruptAttached :=
         if isInterruptPin hw (m_irPin s) then true else false |}.

Definition disable (hw : Hardware) (s : State) : State :=
  if (m_irPin s =? -1) || negb (m_isInterruptAttached s) then s
  else
    {| m_irPin := m_irPin s;
       m_rawTransitions := m_rawTransitions s;
       m_rawTransitionIndex := 0;
       m_lastTransitionMillis := m_lastTransitionMillis s;
       m_lastPinState := m_lastPinState s;
       m_rawBurstCopied := false;
       m_pulseSpacePairs := m_pulseSpacePairs s;
       m_pulseSpacePairCount := m_pulseSpacePairCount s;
       m_brandScores := m_brandScores s;
       m_decodedSegments := m_decodedSegments s;
       m_decodedSegmentCount := m_decodedSegmentCount s;
       m_finalResultCode := m_finalResultCode s;
       m_codeResultIsReady := false;
       m_isInterruptAttached :=
         if isInterruptPin hw (m_irPin s) then false else false |}.

Definition set_irPin (pin : Z) (s : State) : State :=
  {| m_irPin := pin;
     m_rawTransitions := m_rawTransitions s;
     m_rawTransitionIndex := m_rawTransitionIndex s;
     m_lastTransitionMillis := m_lastTransitionMillis s;
     m_lastPinState := m_lastPinState s;
     m_rawBurstCopied := m_rawBurstCopied s;
     m_pulseSpacePairs := m_pulseSpacePairs s;
     m_pulseSpacePairCount := m_pulseSpacePairCount s;
     m_brandScores := m_brandScores s;
     m_decodedSegments := m_decodedSegments s;
     m_decodedSegmentCount := m_decodedSegmentCount s;
     m_finalResultCode := m_finalResultCode s;
     m_codeResultIsReady := m_codeResultIsReady s;
     m_isInterruptAttached := m_isInterruptAttached s |}.

Definition begin (hw : Hardware) (pin : Z) (s : State) : bool * State :=
  let s :=
    if m_isInterruptAttached s && negb (m_irPin s =? -1)
    then disable hw s else s in
  let s := set_irPin pin s in
  let s := enable hw s in
  if negb (m_isInterruptAttached s) && negb (m_irPin s =? -1)
  then (false, s)
  else (true, s).

(** *** Raw transitions to pulse/space pairs *)

(** The modular subtraction of two timestamps, computed on [uint32_t]. *)
Definition deltaTime (currentTimeVal previousTimeVal : Z) : Z :=
  if currentTimeVal >=? previousTimeVal
  then wrap32 (currentTimeVal - previousTimeVal)
  else wrap32 (wrap32 (wrap32 (TIME_VALUE_MASK - previousTimeVal)
                       + currentTimeVal) + 1).

Record PairState : Type :=
  { previousTimeVal : Z;
    currentPulse : Z;
    pairBuffer : list PulseSpacePair;    (* m_pulseSpacePairs *)
    pairCount : nat }.                   (* m_pulseSpacePairCount *)

Definition pairs_iter (localTransitions : list Z) (st : PairState) (i : nat)
    : PairState :=
  let value := localTransitions !!! i in
  let currentTimeVal := Z.land value TIME_VALUE_MASK in
  let deltaTime := deltaTime currentTimeVal (previousTimeVal st) in
  if currentPulse st =? -1 then
    {| previousTimeVal := currentTimeVal;
       currentPulse := int_of_uint32 deltaTime;
       pairBuffer := pairBuffer st;
       pairCount := pairCount st |}
  else
    let space := int_of_uint32 deltaTime in
    if space >? IR_LIB_IDLE_TIMEOUT_MS * 1000 then
      {| previousTimeVal := currentTimeVal;
         currentPulse := -1;
         pairBuffer := <[pairCount st := {| pulse := currentPulse st; space := -1 |}]>
                         (pairBuffer st);
         pairCount := S (pairCount st) |}
    else
      {| previousTimeVal := currentTimeVal;
         currentPulse := -1;
         pairBuffer := <[pairCount st := {| pulse := currentPulse st; space := space |}]>
                         (pairBuffer st);
         pairCount := S (pairCount st) |}.

(** The loop [for (i = 1; i < capturedCount; i++)], left by [break] once
    the pair buffer is full. *)
Fixpoint pairsLoop (localTransitions : list Z) (indices : list nat)
    (st : PairState) : PairState :=
  match indices with
  | [] => st
  | i :: rest =>
    if (IR_LIB_MAX_TRANSITIONS / 2 <=? pairCount st)%nat then st
    else pairsLoop localTransitions rest (pairs_iter localTransitions st i)
  end.

(** Returns the new [m_pulseSpacePairs] and [m_pulseSpacePairCount]. *)
Definition _processRawTransitionsToPairs (m_pulseSpacePairs : list PulseSpacePair)
    (localTransitions : list Z) (capturedCount : nat)
    : list PulseSpacePair * nat :=
  if (capturedCount <? 2)%nat then (m_pulseSpacePairs, 0%nat)
  else
    let st :=
      pairsLoop localTransitions (seq 1 (capturedCount - 1))
        {| previousTimeVal := Z.land (localTransitions !!! 0%nat) TIME_VALUE_MASK;
           currentPulse := -1;
           pairBuffer := m_pulseSpacePairs;
           pairCount := 0 |} in
    if negb (currentPulse st =? -1)
       && (pairCount st <? IR_LIB_MAX_TRANSITIONS / 2)%nat
    then (<[pairCount st := {| pulse := currentPulse st; space := -1 |}]>
            (pairBuffer st), S (pairCount st))
    else (pairBuffer st, pairCount st).

(** *** Burst analysis *)

(** The loop over [i = 1 .. NUM_BRANDS-1] that picks [winningBrand] and
    [maxScore], followed by [if (maxScore == 0) winningBrand = UNKNOWN]. *)
Definition selectWinningBrand (m_brandScores : list Z) : RemoteBrand * Z :=
  let '(winningBrand, maxScore) :=
    fold_left (fun (acc : RemoteBrand * Z) (i : nat) =>
                 let '(winningBrand, maxScore) := acc in
                 if m_brandScores !!! i >? maxScore
                 then (brandOfIndex i, m_brandScores !!! i)
                 else (winningBrand, maxScore))
              (seq 1 (NUM_BRANDS - 1)) (UNKNOWN, 0) in
  if maxScore =? 0 then (UNKNOWN, maxScore) else (winningBrand, maxScore).

Record SegmentState : Type :=
  { decodedSegments : list DecodedIR;        (* m_decodedSegments *)
    segmentChecksums : list bool;
    decodedSegmentCount : nat;               (* m_decodedSegmentCount *)
    segmentStart : nat;                      (* currentSegmentStartPairIndex *)
    dataStartForCurrentSegment : nat }.

Definition segment_iter (winningBrand : RemoteBrand)
    (pairs : list PulseSpacePair) (pairCount : nat)
    (st : SegmentState) (i : nat) : SegmentState :=
  let brand_repeat_delay :=
    if brand_eqb winningBrand SONY then SONY_REPEAT_DELAY
    else if brand_eqb winningBrand NEC then NEC_REPEAT_DELAY
    else if brand_eqb winningBrand JVC then JVC_REPEAT_DELAY
    else 0 in
  let isSegmentEnd :=
    if (brand_repeat_delay >? 0) && negb (space (pairs !!! i) =? -1)
       && isWithinTolerance (space (pairs !!! i)) brand_repeat_delay 5000
    then true
    else if Z.of_nat i =? Z.of_nat pairCount - 1 then true
    else false in
  if isSegmentEnd then
    let dataOffset := (segmentStart st + dataStartForCurrentSegment st)%nat in
    let numDataPairsInSegment := Z.of_nat i - Z.of_nat dataOffset + 1 in
    let '(segs, checks, cnt) :=
      if numDataPairsInSegment >? 0 then
        let segmentData :=
          take (Z.to_nat numDataPairsInSegment) (drop dataOffset pairs) in
        let '(segs, checks) :=
          if brand_eqb winningBrand NEC then
            let necResult := decodeNECData segmentData in
            (<[decodedSegmentCount st := base necResult]> (decodedSegments st),
             <[decodedSegmentCount st := checksumValid necResult]>
               (segmentChecksums st))
          else
            (<[decodedSegmentCount st := decodeWinningSegment winningBrand segmentData]>
               (decodedSegments st),
             segmentChecksums st) in
        if negb (brand_eqb (brand (segs !!! decodedSegmentCount st)) UNKNOWN)
        then (segs, checks, S (decodedSegmentCount st))
        else (segs, checks, decodedSegmentCount st)
      else (decodedSegments st, segmentChecksums st, decodedSegmentCount st) in
    let currentSegmentStartPairIndex := S i in
    let dataStart :=
      if (currentSegmentStartPairIndex <? pairCount)%nat
         && negb (pulse (pairs !!! currentSegmentStartPairIndex) =? -1)
         && negb (space (pairs !!! currentSegmentStartPairIndex) =? -1) then
        if brand_eqb
             (matchPreamble (pulse (pairs !!! currentSegmentStartPairIndex))
                            (space (pairs !!! currentSegmentStartPairIndex)) true)
             winningBrand
        then 1%nat else 0%nat
      else 0%nat in
    {| decodedSegments := segs;
       segmentChecksums := checks;
       decodedSegmentCount := cnt;
       segmentStart := currentSegmentStartPairIndex;
       dataStartForCurrentSegment := dataStart |}
  else st.

(** The segment loop: it runs while [i < m_pulseSpacePairCount] and
    [m_decodedSegmentCount < IR_LIB_MAX_DECODED_SEGMENTS]. *)
Fixpoint segmentLoop (winningBrand : RemoteBrand)
    (pairs : list PulseSpacePair) (pairCount : nat)
    (indices : list nat) (st : SegmentState) : SegmentState :=
  match indices with
  | [] => st
  | i :: rest =>
    if (decodedSegmentCount st <? IR_LIB_MAX_DECODED_SEGMENTS)%nat
    then segmentLoop winningBrand pairs pairCount rest
                     (segment_iter winningBrand pairs pairCount st i)
    else st
  end.

(** The fields [_analyzeAndDecodeBurst] writes. *)
Definition set_analysis (scores : list Z) (segs : list DecodedIR) (cnt : nat)
    (final : DecodedIR) (ready : bool) (s : State) : State :=
  {| m_irPin := m_irPin s;
     m_rawTransitions := m_rawTransitions s;
     m_rawTransitionIndex := m_rawTransitionIndex s;
     m_lastTransitionMillis := m_lastTransitionMillis s;
     m_lastPinState := m_lastPinState s;
     m_rawBurstCopied := m_rawBurstCopied s;
     m_pulseSpacePairs := m_pulseSpacePairs s;
     m_pulseSpacePairCount := m_pulseSpacePairCount s;
     m_brandScores := scores;
     m_decodedSegments := segs;
     m_decodedSegmentCount := cnt;
     m_finalResultCode := final;
     m_codeResultIsReady := ready;
     m_isInterruptAttached := m_isInterruptAttached s |}.

(** The second half of [_analyzeAndDecodeBurst]: segmentation under the
    winning brand, decoding of every segment, and the vote.  [s] is the
    state after scoring. *)
Definition decodeSegmentsAndVote (winningBrand : RemoteBrand)
    (s : State) : State :=
  let pairs := m_pulseSpacePairs s in
  let pairCount := m_pulseSpacePairCount s in
  let initialPreambleOffset :=
    if (0 <? pairCount)%nat
       && negb (pulse (pairs !!! 0%nat) =? -1)
       && negb (space (pairs !!! 0%nat) =? -1) then
      let preambleMatch :=
        matchPreamble (pulse (pairs !!! 0%nat)) (space (pairs !!! 0%nat)) false in
      if negb (brand_eqb preambleMatch UNKNOWN)
         && brand_eqb preambleMatch winningBrand
      then 1%nat else 0%nat
    else 0%nat in
  let st :=
    segmentLoop winningBrand pairs pairCount (seq 0 pairCount)
      {| decodedSegments := m_decodedSegments s;
         segmentChecksums := replicate IR_LIB_MAX_DECODED_SEGMENTS false;
         decodedSegmentCount := m_decodedSegmentCount s;
         segmentStart := 0;
         dataStartForCurrentSegment := initialPreambleOffset |} in
  let s := set_analysis (m_brandScores s) (decodedSegments st)
                        (decodedSegmentCount st)
                        (m_finalResultCode s) (m_codeResultIsReady s) s in
  if (0 <? m_decodedSegmentCount s)%nat then
    let final :=
      determineWinner (m_decodedSegments s) (m_decodedSegmentCount s)
                      (segmentChecksums st) in
    let s := set_analysis (m_brandScores s) (m_decodedSegments s)
                          (m_decodedSegmentCount s) final
                          (m_codeResultIsReady s) s in
    if negb (brand_eqb (brand (m_finalResultCode s)) UNKNOWN)
       && negb (command (m_finalResultCode s) =? -1)
    then set_analysis (m_brandScores s) (m_decodedSegments s)
                      (m_decodedSegmentCount s) (m_finalResultCode s) true s
    else s
  else s.

Definition _analyzeAndDecodeBurst (s : State) : State :=
  let pairs := m_pulseSpacePairs s in
  let pairCount := m_pulseSpacePairCount s in
  let scores :=
    fold_left (fun sc i => <[i := 0]> sc) (seq 0 NUM_BRANDS) (m_brandScores s) in
  let s := set_analysis scores (m_decodedSegments s) 0 DecodedIR_empty false s in
  if Nat.eqb pairCount 0 then s
  else
    let scores := <[brandIndex SONY := scoreSonySIRC12 pairs pairCount]> scores in
    let scores := <[brandIndex JVC := scoreJVC pairs pairCount]> scores in
    let scores := <[brandIndex NEC := scoreNEC pairs pairCount]> scores in
    let s := set_analysis scores (m_decodedSegments s) 0 DecodedIR_empty false s in
    let '(winningBrand, maxScore) := selectWinningBrand (m_brandScores s) in
    if brand_eqb winningBrand UNKNOWN then s
    else decodeSegmentsAndVote winningBrand s.

(** *** Polling and retrieval *)

Definition set_capture (raw : list Z) (idx : nat) (copied : bool)
    (pairs : list PulseSpacePair) (pairCount : nat) (s : State) : State :=
  {| m_irPin := m_irPin s;
     m_rawTransitions := raw;
     m_rawTransitionIndex := idx;
     m_lastTransitionMillis := m_lastTransitionMillis s;
     m_lastPinState := m_lastPinState s;
     m_rawBurstCopied := copied;
     m_pulseSpacePairs := pairs;
     m_pulseSpacePairCount := pairCount;
     m_brandScores := m_brandScores s;
     m_decodedSegments := m_decodedSegments s;
     m_decodedSegmentCount := m_decodedSegmentCount s;
     m_finalResultCode := m_finalResultCode s;
     m_codeResultIsReady := m_codeResultIsReady s;
     m_isInterruptAttached := m_isInterruptAttached s |}.

Definition isCode (hw : Hardware) (s : State) : bool * State :=
  if negb (m_isInterruptAttached s) then
    if m_codeResultIsReady s then (true, s) else (false, s)
  else if m_codeResultIsReady s then (true, s)
  else if (0 <? m_rawTransitionIndex s)%nat
          && (wrap32 (wrap32 (millis hw) - m_lastTransitionMillis s)
              >? IR_LIB_IDLE_TIMEOUT_MS)
          && negb (m_rawBurstCopied s) then
    (* cli() ... sei(): the snapshot *)
    let capturedCount := m_rawTransitionIndex s in
    let capturedCount :=
      if (IR_LIB_MAX_TRANSITIONS <? capturedCount)%nat
      then IR_LIB_MAX_TRANSITIONS else capturedCount in
    let localTransitions := take capturedCount (m_rawTransitions s) in
    let '(pairs, pairCount) :=
      _processRawTransitionsToPairs (m_pulseSpacePairs s)
                                    localTransitions capturedCount in
    let s := set_capture (m_rawTransitions s) 0 true pairs pairCount s in
    let s :=
      if (0 <? m_pulseSpacePairCount s)%nat then _analyzeAndDecodeBurst s
      else set_capture (m_rawTransitions s) (m_rawTransitionIndex s) false
                       (m_pulseSpacePairs s) (m_pulseSpacePairCount s) s in
    (m_codeResultIsReady s, s)
  else if Nat.eqb (m_rawTransitionIndex s) 0 && m_rawBurstCopied s then
    (false, set_capture (m_rawTransitions s) (m_rawTransitionIndex s) false
                        (m_pulseSpacePairs s) (m_pulseSpacePairCount s) s)
  else (false, s).

Definition getCode (s : State) : DecodedIR * State :=
  if m_codeResultIsReady s then
    (m_finalResultCode s,
     set_analysis (m_brandScores s) (m_decodedSegments s)
                  (m_decodedSegmentCount s) (m_finalResultCode s) false s)
  else (DecodedIR_empty, s).

(** *** Executions

    One step is a call of the public interface or, while the interrupt is
    attached, one run of the interrupt handler; the hardware may answer
    anything. *)
Inductive step : State -> State -> Prop :=
  | step_begin hw pin s : step s (snd (begin hw pin s))
  | step_enable hw s : step s (enable hw s)
  | step_disable hw s : step s (disable hw s)
  | step_isCode hw s : step s (snd (isCode hw s))
  | step_getCode s : step s (snd (getCode s))
  | step_interrupt hw s :
      m_isInterruptAttached s = true -> step s (handleIrInterrupt_priv hw s).

Inductive reachable : State -> Prop :=
  | reachable_new : reachable new
  | reachable_step s s' : reachable s -> step s s' -> reachable s'.

(** *** Names *)

Definition brandToString (brand : RemoteBrand) : string :=
  match brand with
  | JVC => "JVC"
  | SONY => "SONY"
  | NEC => "NEC"
  | UNKNOWN => "UNKNOWN"
  end.

(** The search loop of [getButtonName]: the name of the first entry with
    the command code. *)
Fixpoint findButton (buttonArray : list IrButton) (code : Z) : option string :=
  match buttonArray with
  | [] => None
  | b :: rest =>
    if commandCode b =? code then Some (name b) else findButton rest code
  end.

(** [getButtonName] returns a name of the table or the contents of its
    static buffer [unknownCmdBuf] after [strcpy] and [strcat]. *)
Definition getButtonName (brand : RemoteBrand) (code : Z) : string :=
  let buttonArray :=
    match brand with
    | SONY => SCEPTRE_BUTTONS
    | JVC => JVC_BUTTONS
    | NEC => NEC_BUTTONS
    | UNKNOWN => []
    end in
  match findButton buttonArray code with
  | Some n => n
  | None =>
    let numBuf := itoa code 6 in
    let unknownCmdBuf :=
      match brand with
      | SONY => "SONY_CMD_"
      | JVC => "JVC_CMD_"
      | NEC => "NEC_CMD_"
      | UNKNOWN => "CMD_"
      end in
    unknownCmdBuf +:+ numBuf
  end.

End IRReceiver.

Import IRReceiver.

(** * Executable traces

    A trace is a list of calls; [run] replays it.  An interrupt can only
    fire while the handler is attached. *)

Inductive Call : Type :=
  | CallBegin (hw : Hardware) (pin : Z)
  | CallEnable (hw : Hardware)
  | CallDisable (hw : Hardware)
  | CallIsCode (hw : Hardware)
  | CallGetCode
  | Interrupt (hw : Hardware).

Definition exec (c : Call) (s : State) : State :=
  match c with
  | CallBegin hw pin => snd (begin hw pin s)
  | CallEnable hw => enable hw s
  | CallDisable hw => disable hw s
  | CallIsCode hw => snd (isCode hw s)
  | CallGetCode => snd (getCode s)
  | Interrupt hw => handleIrInterrupt_priv hw s
  end.

Definition canOccur (c : Call) (s : State) : bool :=
  match c with
  | Interrupt _ => m_isInterruptAttached s
  | _ => true
  end.

Fixpoint run (cs : list Call) (s : State) : State :=
  match cs with
  | [] => s
  | c :: rest => run rest (exec c s)
  end.

Fixpoint feasible (cs : list Call) (s : State) : bool :=
  match cs with
  | [] => true
  | c :: rest => canOccur c s && feasible rest (exec c s)
  end.

(** ** Sample sessions

    The receiver output idles HIGH and a mark pulls it LOW. *)

(** The hardware as seen during one call: the clocks and the pin level. *)
Definition hwAt (ms us level : Z) : Hardware :=
  {| millis := ms; micros := us; digitalRead := fun _ => level;
     isInterruptPin := fun _ => true |}.

(** The edges of one frame: each pair is a mark of [p] microseconds and a
    space of [sp] microseconds, starting at time [t]. *)
Fixpoint edges (t : Z) (frame : list (Z * Z)) : list Call :=
  match frame with
  | [] => []
  | (p, sp) :: rest =>
    Interrupt (hwAt 0 t LOW) :: Interrupt (hwAt 0 (t + p) HIGH)
      :: edges (t + p + sp) rest
  end.

(** One SONY frame: command 21, address 1. *)
Definition sonyFrame_21_1 : list (Z * Z) :=
  [(2400, 600);
   (1200, 600); (600, 600); (1200, 600); (600, 600); (1200, 600);
   (600, 600); (600, 600);
   (1200, 600); (600, 600); (600, 600); (600, 600); (600, 600)].

Definition sonySession : list Call :=
  CallBegin (hwAt 0 0 HIGH) 4 :: edges 1000 sonyFrame_21_1
    ++ [CallIsCode (hwAt 500 0 HIGH)].

(** Eleven SONY frames in one burst, 25 ms apart. *)
Definition sonyFrameWithGap : list (Z * Z) :=
  [(2400, 600);
   (1200, 600); (600, 600); (1200, 600); (600, 600); (1200, 600);
   (600, 600); (600, 600);
   (1200, 600); (600, 600); (600, 600); (600, 600); (600, 25000)].

Definition elevenFrames : list Call :=
  CallBegin (hwAt 0 0 HIGH) 4
    :: edges 1000 (concat (replicate 11 sonyFrameWithGap))
    ++ [CallIsCode (hwAt 500 0 HIGH)].

(** A burst of twelve 600 us marks 600 us apart: the body of a SONY frame
    of zeros whose header was missed. *)
Definition tieSession : list Call :=
  CallBegin (hwAt 0 0 HIGH) 4 :: edges 1000 (repeat (600, 600) 12)
    ++ [CallIsCode (hwAt 500 0 HIGH)].

(** The state [isCode] hands to the analysis for that burst. *)
Definition tieBurst : State :=
  set_capture (m_rawTransitions new) 0 true
    (map (fun ps : Z * Z => {| pulse := ps.1; space := ps.2 |})
         (repeat (600, 600) 11 ++ [(600, -1)])
     ++ replicate 138 {| pulse := 0; space := 0 |})
    12 new.

(** The pairs of the first [n] bits of [v], least significant bit first,
    with NEC timing. *)
Definition necPairs (v : Z) (n : nat) : list PulseSpacePair :=
  map (fun i => {| pulse := NEC_BIT_PULSE;
                   space := if Z.testbit v (Z.of_nat i)
                            then NEC_ONE_SPACE else NEC_ZERO_SPACE |})
      (seq 0 n).

(** Sample decoded frames. *)
Definition sony_21 : DecodedIR := {| brand := SONY; command := 21; address := 1 |}.
Definition sony_20 : DecodedIR := {| brand := SONY; command := 20; address := 1 |}.
Definition nec_12 : DecodedIR := {| brand := NEC; command := 12; address := 0 |}.

(** * Specification vocabulary *)

(** ** Voting groups *)

(** The value a group stands for: its frame and, for NEC, its checksum
    flag. *)
Definition rep (g : DecodedCount) : DecodedIR * bool :=
  (data g, checksumValidForNEC g).

(** Two decoded segments vote for the same outcome: equal protocol,
    command and address and, when the protocol is NEC, equal checksum
    flags. *)
Definition sameGroup (x y : DecodedIR * bool) : bool :=
  brand_eqb (brand x.1) (brand y.1)
  && (command x.1 =? command y.1)
  && (address x.1 =? address y.1)
  && (if brand_eqb (brand x.1) NEC then Bool.eqb x.2 y.2 else true).

(** How many segments of [l] vote with [x]. *)
Definition occurrences (x : DecodedIR * bool) (l : list (DecodedIR * bool))
    : nat :=
  length (List.filter (sameGroup x) l).

Definition bump (g : DecodedCount) : DecodedCount :=
  {| data := data g; count := count g + 1;
     checksumValidForNEC := checksumValidForNEC g |}.

(** The representative of the group opened for a segment. *)
Definition openedGroup (s : DecodedIR) (c : bool) : DecodedCount :=
  {| data := s; count := 1;
     checksumValidForNEC := if brand_eqb (brand s) NEC then c else false |}.

(** The invariant of the grouping loop: [l] is the list of segments read
    so far, [counts] the groups built from them. *)
Record GroupInv (l : list (DecodedIR * bool)) (counts : list DecodedCount)
    : Prop :=
  { g_distinct : forall (i j : nat) (gi gj : DecodedCount),
      (i < j)%nat -> counts !! i = Some gi -> counts !! j = Some gj ->
      sameGroup (rep gi) (rep gj) = false;
    g_count : forall (j : nat) (g : DecodedCount),
      counts !! j = Some g -> count g = Z.of_nat (occurrences (rep g) l);
    g_valid : forall (j : nat) (g : DecodedCount),
      counts !! j = Some g -> isValidDecode (data g) = true;
    g_first : forall (j : nat) (g : DecodedCount),
      counts !! j = Some g ->
      exists pre w post,
        l = pre ++ w :: post /\ sameGroup w (rep g) = true /\ w.1 = data g
        /\ forall y, y ∈ pre -> isValidDecode y.1 = true ->
             exists (m : nat) (g' : DecodedCount),
               (m < j)%nat /\ counts !! m = Some g'
               /\ sameGroup y (rep g') = true;
    g_cover :
      (length counts < IR_LIB_MAX_DECODED_SEGMENTS)%nat
      \/ (length l <= IR_LIB_MAX_DECODED_SEGMENTS)%nat ->
      forall x, x ∈ l -> isValidDecode x.1 = true ->
        exists (m : nat) (g : DecodedCount),
          counts !! m = Some g /\ sameGroup x (rep g) = true;
    g_length : (length counts <= length l)%nat }.

(** ** Invariants of the receiver *)

(** The arrays have their declared sizes. *)
Definition wellFormed (s : State) : Prop :=
  length (m_rawTransitions s) = IR_LIB_MAX_TRANSITIONS
  /\ length (m_pulseSpacePairs s) = (IR_LIB_MAX_TRANSITIONS / 2)%nat
  /\ length (m_brandScores s) = NUM_BRANDS
  /\ length (m_decodedSegments s) = IR_LIB_MAX_DECODED_SEGMENTS.

(** What holds of the receiver between any two calls. *)
Record Inv (s : State) : Prop :=
  { inv_wellFormed : wellFormed s;
    inv_segments : (m_decodedSegmentCount s <= IR_LIB_MAX_DECODED_SEGMENTS)%nat;
    inv_ready_valid :
      m_codeResultIsReady s = true -> isValidDecode (m_finalResultCode s) = true;
    inv_final :
      m_finalResultCode s = DecodedIR_empty
      \/ isValidDecode (m_finalResultCode s) = true;
    inv_ready_attached :
      m_codeResultIsReady s = true -> m_isInterruptAttached s = true;
    inv_attached_pin :
      m_isInterruptAttached s = true -> m_irPin s <> -1 }.

(** Reduce the projections of a rebuilt state, and nothing else. *)
Ltac state_simpl :=
  unfold wellFormed;
  cbn [m_irPin m_rawTransitions m_rawTransitionIndex m_lastTransitionMillis
       m_lastPinState m_rawBurstCopied m_pulseSpacePairs m_pulseSpacePairCount
       m_brandScores m_decodedSegments m_decodedSegmentCount m_finalResultCode
       m_codeResultIsReady m_isInterruptAttached
       set_analysis set_capture set_irPin].

(** ** Checking a range of durations *)

(** [forallFrom p lo f] checks [f] on [lo, lo+1, ..., lo+p-1]. *)
Fixpoint forallFrom (p : positive) (lo : Z) (f : Z -> bool) : bool :=
  match p with
  | xH => f lo
  | xO q => forallFrom q lo f && forallFrom q (lo + Zpos q) f
  | xI q => f lo && forallFrom q (lo + 1) f && forallFrom q (lo + 1 + Zpos q) f
  end.

(** The percentage check at the boundary of [expected]: the largest whole
    number of microseconds within ten per cent is accepted, the next one is
    rejected. *)
Definition percentageBoundaryHolds (expected : Z) : bool :=
  isWithinPercentageTolerance (expected + expected / 10) expected
                              PERCENTAGE_TOLERANCE
  && negb (isWithinPercentageTolerance (expected + expected / 10 + 1) expected
                                       PERCENTAGE_TOLERANCE).

(** ** Binary32 rounding *)

(** What [n] right shifts keep of a mantissa [m0]: the quotient, and the
    place of the remainder against half of [2 ^ n]. *)
Definition shifted (m0 n : Z) (mrs : shr_record) : Prop :=
  0 <= shr_m mrs
  /\ 0 <= m0 - shr_m mrs * 2 ^ n < 2 ^ n
  /\ (shr_r mrs = true <-> 2 ^ n <= 2 * (m0 - shr_m mrs * 2 ^ n))
  /\ (shr_s mrs = false
      <-> m0 - shr_m mrs * 2 ^ n = 0 \/ 2 * (m0 - shr_m mrs * 2 ^ n) = 2 ^ n).

(** ** Reading a number back *)

(** The value of a digit character, as [strtol] reads it. *)
Definition digitValue (c : Ascii.ascii) : Z :=
  let n := Z.of_nat (Ascii.nat_of_ascii c) in
  if (48 <=? n) && (n <=? 57) then n - 48
  else if (97 <=? n) && (n <=? 122) then n - 87
  else -1.

(** The number a string of digits denotes in [radix]. *)
Fixpoint digitsValue (radix : Z) (acc : Z) (s : string) : Z :=
  match s with
  | EmptyString => acc
  | String c rest => digitsValue radix (acc * radix + digitValue c) rest
  end.

(** The table [getButtonName] searches for a brand. *)
Definition buttonTable (brand : RemoteBrand) : list IrButton :=
  match brand with
  | SONY => SCEPTRE_BUTTONS
  | JVC => JVC_BUTTONS
  | NEC => NEC_BUTTONS
  | UNKNOWN => []
  end.

(** ** Invariants of the pair extractor *)

(** What the loop of the extractor keeps: the previous timestamp is a
    31-bit value, a pending pulse is a 31-bit value, and the pairs written
    so far have a 31-bit pulse and a space that is missing or at most the
    idle timeout. *)
Definition pairInRange (p : PulseSpacePair) : Prop :=
  0 <= pulse p < 2 ^ 31
  /\ (space p = -1 \/ 0 <= space p <= IR_LIB_IDLE_TIMEOUT_MS * 1000).

Record PairInv (st : PairState) : Prop :=
  { pi_prev : 0 <= previousTimeVal st < 2 ^ 31;
    pi_pulse : currentPulse st = -1 \/ 0 <= currentPulse st < 2 ^ 31;
    pi_count : (pairCount st <= IR_LIB_MAX_TRANSITIONS / 2)%nat;
    pi_pairs : Forall pairInRange (take (pairCount st) (pairBuffer st)) }.

(** The number of deltas consumed so far: two for each pair and one for a
    pending pulse. *)
Definition deltasConsumed (st : PairState) : Z :=
  2 * Z.of_nat (pairCount st) + (if currentPulse st =? -1 then 0 else 1).

(** ** Bursts as durations *)

(** The times of the edges that follow an edge at time [t] when the line
    then shows the given marks and spaces in turn. *)
Fixpoint edgeTimesAfter (t : Z) (fullPairs : list PulseSpacePair) : list Z :=
  match fullPairs with
  | [] => []
  | p :: rest =>
    (t + pulse p) :: (t + pulse p + space p)
      :: edgeTimesAfter (t + pulse p + space p) rest
  end.

(** The time of the last of those edges. *)
Fixpoint lastEdgeTime (t : Z) (fullPairs : list PulseSpacePair) : Z :=
  match fullPairs with
  | [] => t
  | p :: rest => lastEdgeTime (t + pulse p + space p) rest
  end.

(** The edge times of a burst that starts at [t], shows [fullPairs] and
    ends with a mark of [lastPulse] microseconds. *)
Definition burstTimes (t : Z) (fullPairs : list PulseSpacePair)
    (lastPulse : Z) : list Z :=
  t :: edgeTimesAfter t fullPairs ++ [lastEdgeTime t fullPairs + lastPulse].

(** A captured value carries the time [T]: its low 31 bits are [T] modulo
    2^31, whatever its direction flag. *)
Definition carriesTime (v T : Z) : Prop :=
  Z.land v TIME_VALUE_MASK = T mod 2 ^ 31.

(** ** Edges of a burst as interrupts *)

Definition otherLevel (level : Z) : Z := if level =? LOW then HIGH else LOW.

(** One interrupt for each edge: the handler reads [level], then the other
    level, and so on; an edge comes with the values [millis()] and
    [micros()] return in the handler. *)
Fixpoint burstCalls (level : Z) (stamps : list (Z * Z)) : list Call :=
  match stamps with
  | [] => []
  | (ms, us) :: rest =>
    Interrupt (hwAt ms us level) :: burstCalls (otherLevel level) rest
  end.

(** The receiver listens on an idle (HIGH) line with an empty edge
    buffer. *)
Record Idle (s : State) : Prop :=
  { idle_attached : m_isInterruptAttached s = true;
    idle_index : m_rawTransitionIndex s = 0%nat;
    idle_level : m_lastPinState s = HIGH;
    idle_raw : length (m_rawTransitions s) = IR_LIB_MAX_TRANSITIONS;
    idle_pairs : length (m_pulseSpacePairs s) = (IR_LIB_MAX_TRANSITIONS / 2)%nat }.

(** The state of a receiver that is armed and waits for the first edge of a
    burst on an idle (HIGH) line. *)
Record Armed (s : State) : Prop :=
  { armed_attached : m_isInterruptAttached s = true;
    armed_index : m_rawTransitionIndex s = 0%nat;
    armed_level : m_lastPinState s = HIGH;
    armed_copied : m_rawBurstCopied s = false;
    armed_ready : m_codeResultIsReady s = false;
    armed_raw : length (m_rawTransitions s) = IR_LIB_MAX_TRANSITIONS;
    armed_pairs : length (m_pulseSpacePairs s) = (IR_LIB_MAX_TRANSITIONS / 2)%nat }.

(** [micros()] returned [us] at the true time [T]: the two agree modulo
    2^31, the part of the clock the receiver keeps. *)
Definition microsAt (us T : Z) : Prop := us mod 2 ^ 31 = T mod 2 ^ 31.

(** ** Polling *)

(** Calls that neither attach nor detach the interrupt: polls, reads and
    runs of the handler. *)
Definition isPollOrEdge (c : Call) : bool :=
  match c with
  | CallIsCode _ | CallGetCode | Interrupt _ => true
  | _ => false
  end.

(** A burst has been copied, its result is gone, and edges wait in the
    buffer. *)
Record Blocked (s : State) : Prop :=
  { blocked_copied : m_rawBurstCopied s = true;
    blocked_ready : m_codeResultIsReady s = false;
    blocked_index : (0 < m_rawTransitionIndex s)%nat }.

(** The indices stay inside their arrays, and so do the durations inside
    their ranges. *)
Record InBounds (s : State) : Prop :=
  { bound_index : (m_rawTransitionIndex s <= IR_LIB_MAX_TRANSITIONS)%nat;
    bound_pairs : (m_pulseSpacePairCount s <= IR_LIB_MAX_TRANSITIONS / 2)%nat;
    bound_durations :
      Forall pairInRange (take (m_pulseSpacePairCount s) (m_pulseSpacePairs s)) }.

(** ** Frames as bits *)

(** The bits [k .. k+n-1] of [v], least significant first: the order in
    which the three protocols send them. *)
Definition bitsFrom (k n : nat) (v : Z) : list bool :=
  map (fun i => Z.testbit v (Z.of_nat i)) (seq k n).

(** A pair that carries the bit [b] in the length of its space (JVC, NEC):
    mark and space are within TIMING_TOLERANCE of the nominal durations. *)
Definition spaceCodes (expectedPulse zeroSpace oneSpace : Z)
    (p : PulseSpacePair) (b : bool) : Prop :=
  Z.abs (pulse p - expectedPulse) <= TIMING_TOLERANCE
  /\ Z.abs (space p - (if b then oneSpace else zeroSpace)) <= TIMING_TOLERANCE.

(** A pair that carries the bit [b] in the length of its mark (SONY); the
    space is not constrained. *)
Definition pulseCodes (zeroPulse onePulse : Z)
    (p : PulseSpacePair) (b : bool) : Prop :=
  Z.abs (pulse p - (if b then onePulse else zeroPulse)) <= TIMING_TOLERANCE.

(** The nominal pairs of a list of bits. *)
Definition spaceCoded (expectedPulse zeroSpace oneSpace : Z)
    (bits : list bool) : list PulseSpacePair :=
  map (fun b : bool =>
         {| pulse := expectedPulse;
            space := if b then oneSpace else zeroSpace |}) bits.

Definition pulseCoded (zeroPulse onePulse bitSpace : Z)
    (bits : list bool) : list PulseSpacePair :=
  map (fun b : bool =>
         {| pulse := if b then onePulse else zeroPulse;
            space := bitSpace |}) bits.

(** ** Segments of the winning brand *)

(** The segments counted so far carry the winning brand. *)
Definition segmentsOfBrand (w : RemoteBrand) (st : SegmentState) : Prop :=
  Forall (fun d => brand d = w)
         (take (decodedSegmentCount st) (decodedSegments st)).

(** ** Bursts of one frame *)

(** No space before the last pair of the burst is a repeat gap for
    [delay]: the burst is one segment. *)
Definition singleSegment (pairs : list PulseSpacePair) (count : nat)
    (delay : Z) : Prop :=
  forall i : nat,
    (S i < count)%nat -> isRepeatGap (space (pairs !!! i)) delay = false.

(** Some mark up to index [e] is present and differs from the first mark by
    more than TIMING_TOLERANCE (and by no more than an [int] holds). *)
Definition marksDiffer (pairs : list PulseSpacePair) (e : nat) : Prop :=
  exists j : nat,
    (j <= e)%nat /\ pulse (pairs !!! j) <> -1
    /\ TIMING_TOLERANCE
       < Z.abs (pulse (pairs !!! j) - pulse (pairs !!! 0%nat)) <= INT_MAX.

(** The first space is present and no repeat gap for [delay], and some
    space up to index [e] that is present and no repeat gap differs from
    it by more than TIMING_TOLERANCE (and by no more than an [int]
    holds). *)
Definition spacesDiffer (pairs : list PulseSpacePair) (e : nat) (delay : Z)
    : Prop :=
  space (pairs !!! 0%nat) <> -1
  /\ isWithinTolerance (space (pairs !!! 0%nat)) delay 5000 = false
  /\ exists j : nat,
       (j <= e)%nat /\ space (pairs !!! j) <> -1
       /\ isWithinTolerance (space (pairs !!! j)) delay 5000 = false
       /\ TIMING_TOLERANCE
          < Z.abs (space (pairs !!! j) - space (pairs !!! 0%nat)) <= INT_MAX.

(** The repeat delay [_analyzeAndDecodeBurst] uses for the winning brand. *)
Definition repeatDelay (w : RemoteBrand) : Z :=
  match w with
  | SONY => SONY_REPEAT_DELAY
  | NEC => NEC_REPEAT_DELAY
  | JVC => JVC_REPEAT_DELAY
  | UNKNOWN => 0
  end.

(** The decoder [_analyzeAndDecodeBurst] calls for the winning brand. *)
Definition decodeFor (w : RemoteBrand) (dataPairs : list PulseSpacePair)
    : DecodedIR :=
  if brand_eqb w NEC then base (decodeNECData dataPairs)
  else decodeWinningSegment w dataPairs.

(** The number of data pairs each scorer expects in a first frame. *)
Definition expectedDataPairs (b : RemoteBrand) : Z :=
  match b with
  | JVC => JVC_INITIAL_BITS - 1
  | SONY => SONY_INITIAL_BITS - 1
  | NEC => NEC_INITIAL_BITS - 1
  | UNKNOWN => 0
  end.

(** A space that is missing or too short for any repeat gap. *)
Definition shortSpace (sp : Z) : Prop := sp = -1 \/ Z.abs sp <= 5000.

(** ** A burst seen by an ideal clock *)

(** What [millis()] and [micros()] return at the times [times], given in
    microseconds since the start of the clock. *)
Definition stampsAt (times : list Z) : list (Z * Z) :=
  map (fun T => (T / 1000, T)) times.

(** The complete pairs of a nominal NEC frame: the preamble and the 32
    data pairs of [v]; the stop mark follows. *)
Definition necFramePairs (v : Z) : list PulseSpacePair :=
  {| pulse := NEC_PREAMBLE_PULSE; space := NEC_PREAMBLE_SPACE |}
    :: spaceCoded NEC_BIT_PULSE NEC_ZERO_SPACE NEC_ONE_SPACE (bitsFrom 0 32 v).

(** The complete pairs of a nominal JVC frame: the preamble and the 16
    data pairs of [v]; the stop mark follows. *)
Definition jvcFramePairs (v : Z) : list PulseSpacePair :=
  {| pulse := JVC_PREAMBLE_PULSE; space := JVC_PREAMBLE_SPACE |}
    :: spaceCoded JVC_BIT_PULSE JVC_ZERO_SPACE JVC_ONE_SPACE (bitsFrom 0 16 v).

(** The complete pairs of a nominal SONY frame: the preamble and the first
    eleven data pairs of [v]; the mark of the twelfth bit follows. *)
Definition sonyFramePairs (v : Z) : list PulseSpacePair :=
  {| pulse := SONY_PREAMBLE_PULSE; space := SONY_PREAMBLE_SPACE |}
    :: pulseCoded SONY_ZERO_PULSE SONY_ONE_PULSE SONY_BIT_SPACE
                  (bitsFrom 0 11 v).

(** The receiver is started on pin 2 and sees one burst that begins 5 ms
    later. *)
Definition armedOnPin2 : State := (begin (hwAt 0 0 HIGH) 2 new).2.

Definition pressCalls (fullPairs : list PulseSpacePair) (lastPulse : Z)
    : list Call :=
  burstCalls LOW (stampsAt (burstTimes 5000 fullPairs lastPulse)).

(** An NEC frame (address 0, command 16), then a poll after one second. *)
Definition necSession : list Call :=
  CallBegin (hwAt 0 0 HIGH) 2
    :: pressCalls (necFramePairs (0 + 256 * 255 + 65536 * 16 + 16777216 * 239))
                  NEC_BIT_PULSE
    ++ [CallIsCode (hwAt 1000 0 HIGH)].

(** A JVC frame (address 3, command 13), then a poll after one second. *)
Definition jvcSession : list Call :=
  CallBegin (hwAt 0 0 HIGH) 2
    :: pressCalls (jvcFramePairs (3 + 256 * 13)) JVC_BIT_PULSE
    ++ [CallIsCode (hwAt 1000 0 HIGH)].

(** ** Ranges of decoded fields *)

(** The values the fields of a decoded frame can take: a field is -1 or
    fits the bits its protocol gives it, and the field decoded second is
    present only with the one decoded first. *)
Definition fieldsInRange (d : DecodedIR) : Prop :=
  match brand d with
  | SONY => -1 <= command d <= 127 /\ -1 <= address d <= 31
            /\ (address d <> -1 -> command d <> -1)
  | JVC => -1 <= command d <= 255 /\ -1 <= address d <= 255
           /\ (command d <> -1 -> address d <> -1)
  | NEC => -1 <= command d <= 255 /\ -1 <= address d <= 65535
           /\ (command d <> -1 -> address d <> -1)
  | UNKNOWN => command d = -1 /\ address d = -1
  end.

(** ** A repeated SONY frame *)

(** The pairs [13 m .. 13 m + 12] of the burst are a SONY frame that
    carries the twelve bits of [v]: a preamble and twelve marks within
    TIMING_TOLERANCE of the nominal timing, the spaces between the marks
    nominal or missing. *)
Record SonyFrameAt (pairs : list PulseSpacePair) (v : Z) (m : nat) : Prop :=
  { sf_pre_pulse :
      Z.abs (pulse (pairs !!! (13 * m)%nat) - SONY_PREAMBLE_PULSE)
      <= TIMING_TOLERANCE;
    sf_pre_space :
      Z.abs (space (pairs !!! (13 * m)%nat) - SONY_PREAMBLE_SPACE)
      <= TIMING_TOLERANCE;
    sf_marks : forall r : nat, (r < 12)%nat ->
      pulseCodes SONY_ZERO_PULSE SONY_ONE_PULSE
                 (pairs !!! (13 * m + 1 + r)%nat) (Z.testbit v (Z.of_nat r));
    sf_spaces : forall r : nat, (r < 11)%nat ->
      space (pairs !!! (13 * m + 1 + r)%nat) = -1
      \/ Z.abs (space (pairs !!! (13 * m + 1 + r)%nat) - SONY_BIT_SPACE)
         <= TIMING_TOLERANCE }.

(** The burst is the same SONY frame [k] times, one repeat gap (within
    5000 us of SONY_REPEAT_DELAY) after each frame but the last. *)
Record SonyRepeats (pairs : list PulseSpacePair) (v : Z) (k : nat) : Prop :=
  { sr_frames : forall m : nat, (m < k)%nat -> SonyFrameAt pairs v m;
    sr_gaps : forall m : nat, (S m < k)%nat ->
      Z.abs (space (pairs !!! (13 * m + 12)%nat) - SONY_REPEAT_DELAY) <= 5000 }.

(** What the segment loop keeps while it reads a repeated frame, before
    index [i]: the segment in progress starts at the frame of [i], after a
    preamble; the segments counted so far are all [d]; and one is counted
    for every complete frame. *)
Record SegmentsAt (d : DecodedIR) (k i : nat) (st : SegmentState) : Prop :=
  { sa_start : segmentStart st = (13 * (i / 13))%nat;
    sa_data : (i < 13 * k)%nat -> dataStartForCurrentSegment st = 1%nat;
    sa_all : Forall (fun x => x = d)
                    (take (decodedSegmentCount st) (decodedSegments st));
    sa_length : length (decodedSegments st) = IR_LIB_MAX_DECODED_SEGMENTS;
    sa_checks : segmentChecksums st = replicate IR_LIB_MAX_DECODED_SEGMENTS false;
    sa_count : (decodedSegmentCount st <= IR_LIB_MAX_DECODED_SEGMENTS)%nat;
    sa_some : (13 <= i)%nat -> (1 <= decodedSegmentCount st)%nat }.

(** What the JVC scorer keeps while it reads a repeated SONY frame, before
    index [i]: no point yet, and its segment starts with a frame. *)
Record NoJvcPoints (i : nat) (st : ScoreState) : Prop :=
  { nj_score : score st = 0;
    nj_start : exists m : nat,
        currentSegmentStartPairIndex st = (13 * m)%nat /\ (13 * m <= i)%nat;
    nj_count : 0 <= segmentCount st }.

(** Two SONY frames (command 21, address 1) in one burst, then a poll. *)
Definition twoFrames : list Call :=
  CallBegin (hwAt 0 0 HIGH) 4
    :: edges 1000 (sonyFrameWithGap ++ sonyFrame_21_1)
    ++ [CallIsCode (hwAt 500 0 HIGH)].

(** The complete pairs of a nominal SONY frame sent twice: the first frame
    with its repeat gap, and the second without its last mark. *)
Definition sonyHeldTwice (v : Z) : list PulseSpacePair :=
  (sonyFramePairs v
     ++ [ {| pulse := if Z.testbit v 11 then SONY_ONE_PULSE else SONY_ZERO_PULSE;
             space := SONY_REPEAT_DELAY |} ])
    ++ sonyFramePairs v.

(** * Properties *)

(** ** Machine arithmetic *)

Lemma int_wrap_id (x : Z) : - 2147483648 <= x <= 2147483647 -> int_wrap x = x.
Proof.
  intros H. unfold int_wrap, int_of_uint32, wrap32.
  change (2 ^ 32) with 4294967296. change (2 ^ 31) with 2147483648.
  destruct (Z.ltb_spec (x mod 4294967296) 2147483648) as [Hlt | Hge];
    Z.div_mod_to_equations; lia.
Qed.

(** Where the negation does not overflow, [abs] is the absolute value. *)
Lemma abs_spec (x : Z) : Z.abs x <= 2147483647 -> abs x = Z.abs x.
Proof.
  intros H. unfold abs. destruct (Z.gtb_spec x 0); [lia|].
  rewrite int_wrap_id; lia.
Qed.

(** Where the subtraction does not overflow, the check compares the
    distance of the two durations with the tolerance. *)
Lemma isWithinTolerance_spec (captured expected tolerance : Z) :
  Z.abs (captured - expected) <= 2147483647 ->
  isWithinTolerance captured expected tolerance = true
  <-> Z.abs (captured - expected) <= tolerance.
Proof.
  intros H. unfold isWithinTolerance.
  rewrite int_wrap_id, abs_spec by lia. apply Z.leb_le.
Qed.

Lemma isWithinTolerance_true (captured expected tolerance : Z) :
  Z.abs (captured - expected) <= tolerance -> tolerance <= 2147483647 ->
  isWithinTolerance captured expected tolerance = true.
Proof. intros H Ht. apply isWithinTolerance_spec; lia. Qed.

Lemma isWithinTolerance_false (captured expected tolerance : Z) :
  tolerance < Z.abs (captured - expected) <= 2147483647 ->
  isWithinTolerance captured expected tolerance = false.
Proof.
  intros H. apply not_true_iff_false. rewrite isWithinTolerance_spec; lia.
Qed.

Lemma brand_eqb_eq (a b : RemoteBrand) : brand_eqb a b = true <-> a = b.
Proof. destruct a, b; cbn; split; intros H; try reflexivity; discriminate. Qed.

Lemma brand_eqb_refl (a : RemoteBrand) : brand_eqb a a = true.
Proof. now apply brand_eqb_eq. Qed.

Lemma isValidDecode_spec (d : DecodedIR) :
  isValidDecode d = true <-> brand d <> UNKNOWN /\ command d <> -1.
Proof.
  unfold isValidDecode. rewrite andb_true_iff, !negb_true_iff.
  split; intros [Hb Hc]; split.
  - intros E. rewrite E in Hb. discriminate.
  - apply Z.eqb_neq, Hc.
  - destruct (brand_eqb (brand d) UNKNOWN) eqn:E; [|reflexivity].
    apply brand_eqb_eq in E. contradiction.
  - apply Z.eqb_neq, Hc.
Qed.

(** [PERCENTAGE_TOLERANCE] is a binary32 number, the one nearest to one
    tenth: its distance to 1/10 is below half a unit in the last place. *)
Lemma PERCENTAGE_TOLERANCE_is_nearest_tenth :
  valid_binary float_prec float_emax PERCENTAGE_TOLERANCE = true
  /\ Z.abs (13421773 * 10 - 2 ^ 27) * 2 < 10.
Proof. split; [reflexivity | vm_compute; reflexivity]. Qed.

(** ** The pair extractor's timestamp difference *)

(** C6.  For two 31-bit timestamps the difference the pair extractor
    computes on [uint32_t] is the elapsed time modulo 2^31, also when the
    later timestamp has wrapped past the mask. *)
Theorem deltaTime_is_elapsed_mod_2_31 (prev next : Z) :
  0 <= prev <= TIME_VALUE_MASK ->
  0 <= next <= TIME_VALUE_MASK ->
  deltaTime next prev = (next - prev) mod 2 ^ 31
  /\ (next >= prev -> deltaTime next prev = next - prev)
  /\ (next < prev -> deltaTime next prev = (TIME_VALUE_MASK - prev) + next + 1).
Proof.
  unfold deltaTime, wrap32, TIME_VALUE_MASK. intros Hp Hn.
  destruct (Z.geb_spec next prev) as [Hge | Hlt].
  - rewrite (Z.mod_small (next - prev) (2 ^ 32)) by lia.
    rewrite (Z.mod_small (next - prev) (2 ^ 31)) by lia.
    repeat split; intros; lia.
  - rewrite (Z.mod_small (2147483647 - prev) (2 ^ 32)) by lia.
    rewrite (Z.mod_small (2147483647 - prev + next) (2 ^ 32)) by lia.
    rewrite (Z.mod_small (2147483647 - prev + next + 1) (2 ^ 32)) by lia.
    split; [apply Z.mod_unique with (q := -1); lia | split; intros; lia].
Qed.

(** The later timestamp has wrapped: from 0x7FFFFFF0 to 0x10 is 0x20
    microseconds. *)
Lemma deltaTime_wraparound_example :
  deltaTime 0x00000010 0x7FFFFFF0 = (0x00000010 - 0x7FFFFFF0) mod 2 ^ 31
  /\ deltaTime 0x00000010 0x7FFFFFF0 = 0x20.
Proof.
  split.
  - apply (deltaTime_is_elapsed_mod_2_31 0x7FFFFFF0 0x00000010);
      unfold TIME_VALUE_MASK; lia.
  - reflexivity.
Defined.

(** ** Retrieval *)

(** C5.  [getCode] consumes the pending result: with a result ready the
    first call returns it and clears the flag (and nothing else), a second
    call returns the empty value and changes nothing; with no result
    pending the call returns the empty value and changes nothing. *)
Theorem getCode_consumes_pending_result (s : State) :
  (m_codeResultIsReady s = true ->
     let (first, s1) := getCode s in
     let (second, s2) := getCode s1 in
     first = m_finalResultCode s
     /\ m_codeResultIsReady s1 = false
     /\ s1 = set_analysis (m_brandScores s) (m_decodedSegments s)
                          (m_decodedSegmentCount s) (m_finalResultCode s) false s
     /\ second = {| brand := UNKNOWN; command := -1; address := -1 |}
     /\ s2 = s1)
  /\ (m_codeResultIsReady s = false ->
      getCode s = ({| brand := UNKNOWN; command := -1; address := -1 |}, s)).
Proof.
  split; intros H.
  - unfold getCode. rewrite H. cbn. repeat split; reflexivity.
  - unfold getCode. rewrite H. reflexivity.
Qed.

(** After the SONY session the first [getCode] returns the decoded frame and
    the second the empty value; on a fresh receiver [getCode] returns the
    empty value. *)
Lemma getCode_consumes_example :
  (let (first, s1) := getCode (run sonySession new) in
   let (second, s2) := getCode s1 in
   first = {| brand := SONY; command := 21; address := 1 |}
   /\ second = {| brand := UNKNOWN; command := -1; address := -1 |}
   /\ s2 = s1)
  /\ getCode new = ({| brand := UNKNOWN; command := -1; address := -1 |}, new).
Proof.
  split.
  - pose proof (proj1 (getCode_consumes_pending_result (run sonySession new))
                  eq_refl) as H.
    destruct (getCode (run sonySession new)) as [first s1].
    destruct (getCode s1) as [second s2].
    destruct H as (H1 & _ & _ & H4 & H5).
    repeat split; [rewrite H1; vm_compute; reflexivity | exact H4 | exact H5].
  - apply (proj2 (getCode_consumes_pending_result new)). reflexivity.
Defined.

(** ** Voting groups *)

Lemma sameGroup_spec (x y : DecodedIR * bool) :
  sameGroup x y = true
  <-> brand x.1 = brand y.1 /\ command x.1 = command y.1
      /\ address x.1 = address y.1 /\ (brand x.1 = NEC -> x.2 = y.2).
Proof.
  unfold sameGroup. rewrite !andb_true_iff, brand_eqb_eq, !Z.eqb_eq.
  split.
  - intros [[[Hb Hc] Ha] Hk]. repeat split; try assumption.
    intros HN. apply brand_eqb_eq in HN. rewrite HN in Hk.
    now apply Bool.eqb_prop.
  - intros (Hb & Hc & Ha & Hk). repeat split; try assumption.
    destruct (brand_eqb (brand x.1) NEC) eqn:E; [|reflexivity].
    apply brand_eqb_eq in E. rewrite (Hk E). apply Bool.eqb_reflx.
Qed.

Lemma sameGroup_refl (x : DecodedIR * bool) : sameGroup x x = true.
Proof. apply sameGroup_spec. repeat split; reflexivity. Qed.

Lemma sameGroup_sym (x y : DecodedIR * bool) :
  sameGroup x y = true -> sameGroup y x = true.
Proof.
  rewrite !sameGroup_spec. intros (Hb & Hc & Ha & Hk).
  repeat split; try (symmetry; assumption).
  intros HN. symmetry. apply Hk. congruence.
Qed.

Lemma sameGroup_trans (x y z : DecodedIR * bool) :
  sameGroup x y = true -> sameGroup y z = true -> sameGroup x z = true.
Proof.
  rewrite !sameGroup_spec. intros (Hb & Hc & Ha & Hk) (Hb' & Hc' & Ha' & Hk').
  repeat split; try congruence.
  intros HN. rewrite (Hk HN). apply Hk'. congruence.
Qed.

Lemma sameGroup_false_l (x y z : DecodedIR * bool) :
  sameGroup x y = true -> sameGroup x z = false -> sameGroup y z = false.
Proof.
  intros Hxy Hxz. destruct (sameGroup y z) eqn:E; [|reflexivity].
  rewrite (sameGroup_trans _ _ _ Hxy E) in Hxz. discriminate.
Qed.

Lemma sameGroup_valid (x y : DecodedIR * bool) :
  sameGroup x y = true -> isValidDecode x.1 = isValidDecode y.1.
Proof.
  rewrite sameGroup_spec. intros (Hb & Hc & _). unfold isValidDecode.
  now rewrite Hb, Hc.
Qed.

Lemma segmentMatches_sameGroup (s : DecodedIR) (c : bool) (g : DecodedCount) :
  segmentMatches s c g = sameGroup (s, c) (rep g).
Proof.
  unfold segmentMatches, sameGroup, rep. cbn.
  destruct (brand_eqb (brand s) NEC); [reflexivity|].
  now rewrite andb_true_r.
Qed.

Lemma occurrences_snoc (r x : DecodedIR * bool) (l : list (DecodedIR * bool)) :
  occurrences r (l ++ [x])
  = (occurrences r l + (if sameGroup r x then 1 else 0))%nat.
Proof.
  unfold occurrences. rewrite List.filter_app, length_app. cbn.
  destruct (sameGroup r x); reflexivity.
Qed.

Lemma occurrences_sameGroup (x y : DecodedIR * bool) (l : list (DecodedIR * bool)) :
  sameGroup x y = true -> occurrences x l = occurrences y l.
Proof.
  intros Hxy. unfold occurrences. f_equal.
  apply List.filter_ext. intros z.
  destruct (sameGroup y z) eqn:E.
  - now apply sameGroup_trans with y.
  - now apply sameGroup_false_l with y; [apply sameGroup_sym|].
Qed.

Lemma occurrences_middle (w : DecodedIR * bool) (pre post : list (DecodedIR * bool)) :
  (1 <= occurrences w (pre ++ w :: post))%nat.
Proof.
  unfold occurrences. rewrite List.filter_app, length_app. cbn.
  rewrite sameGroup_refl. cbn. lia.
Qed.

(** *** The inner search *)

Lemma incrementMatching_None (s : DecodedIR) (c : bool) (counts : list DecodedCount) :
  incrementMatching s c counts = None ->
  forall g, g ∈ counts -> segmentMatches s c g = false.
Proof.
  induction counts as [|g0 rest IH]; cbn; intros H g Hg.
  - inversion Hg.
  - destruct (segmentMatches s c g0) eqn:E; [discriminate|].
    destruct (incrementMatching s c rest) eqn:E'; [discriminate|].
    apply elem_of_cons in Hg as [-> | Hg]; [assumption | now apply IH].
Qed.

Lemma incrementMatching_Some (s : DecodedIR) (c : bool)
    (counts counts' : list DecodedCount) :
  incrementMatching s c counts = Some counts' ->
  exists (j0 : nat) (g0 : DecodedCount),
    counts !! j0 = Some g0
    /\ segmentMatches s c g0 = true
    /\ (forall (m : nat) (g : DecodedCount),
          (m < j0)%nat -> counts !! m = Some g -> segmentMatches s c g = false)
    /\ counts' = <[j0 := bump g0]> counts.
Proof.
  revert counts'. induction counts as [|g rest IH]; cbn; intros counts' H.
  - discriminate.
  - destruct (segmentMatches s c g) eqn:E.
    + injection H as <-. exists 0%nat, g. repeat split; try assumption.
      intros m g' Hm. lia.
    + destruct (incrementMatching s c rest) as [rest'|] eqn:E'; [|discriminate].
      injection H as <-.
      destruct (IH rest' eq_refl) as (j0 & g0 & Hl & Hm & Hbefore & ->).
      exists (S j0), g0. repeat split; try assumption.
      intros [|m] g' Hlt Hg'; cbn in Hg'.
      * now injection Hg' as <-.
      * apply (Hbefore m); [lia | assumption].
Qed.

Lemma lookup_bumped (counts : list DecodedCount) (j0 j : nat) (g0 g : DecodedCount) :
  counts !! j0 = Some g0 ->
  <[j0 := bump g0]> counts !! j = Some g ->
  exists g_old, counts !! j = Some g_old /\ rep g = rep g_old
    /\ count g = count g_old + (if Nat.eqb j j0 then 1 else 0).
Proof.
  intros H0 H. destruct (Nat.eqb_spec j j0) as [-> | Hne].
  - rewrite list_lookup_insert_eq in H by (now apply lookup_lt_Some in H0).
    injection H as <-. exists g0. repeat split; assumption.
  - rewrite list_lookup_insert_ne in H by congruence.
    exists g. repeat split; [assumption | lia].
Qed.

Lemma lookup_bumped_inv (counts : list DecodedCount) (j0 j : nat) (g0 g : DecodedCount) :
  counts !! j0 = Some g0 ->
  counts !! j = Some g ->
  exists g_new, <[j0 := bump g0]> counts !! j = Some g_new /\ rep g_new = rep g.
Proof.
  intros H0 H. destruct (Nat.eqb_spec j j0) as [-> | Hne].
  - exists (bump g0).
    rewrite list_lookup_insert_eq by (now apply lookup_lt_Some in H0).
    split; [reflexivity|]. rewrite H0 in H. now injection H as <-.
  - exists g. rewrite list_lookup_insert_ne by congruence. now split.
Qed.

Lemma sameGroup_comm (x y : DecodedIR * bool) : sameGroup x y = sameGroup y x.
Proof.
  destruct (sameGroup x y) eqn:E1, (sameGroup y x) eqn:E2; try reflexivity.
  - apply sameGroup_sym in E1. congruence.
  - apply sameGroup_sym in E2. congruence.
Qed.

Lemma occurrences_none (r : DecodedIR * bool) (l : list (DecodedIR * bool)) :
  (forall y, y ∈ l -> sameGroup r y = false) -> occurrences r l = 0%nat.
Proof.
  unfold occurrences. induction l as [|y l IH]; cbn; intros H; [reflexivity|].
  rewrite (H y) by apply elem_of_cons, or_introl, eq_refl.
  apply IH. intros z Hz. apply H, elem_of_cons. now right.
Qed.

Lemma sameGroup_opened (s : DecodedIR) (c : bool) :
  sameGroup (s, c) (rep (openedGroup s c)) = true.
Proof.
  apply sameGroup_spec. cbn. repeat split.
  intros HN. apply brand_eqb_eq in HN. now rewrite HN.
Qed.

(** *** The grouping loop keeps its invariant *)

Lemma GroupInv_nil : GroupInv [] [].
Proof.
  split; try (intros; discriminate).
  - intros _ x Hx. inversion Hx.
  - reflexivity.
Qed.

(** Reading a segment that opens no group and joins none. *)
Lemma GroupInv_skip (l : list (DecodedIR * bool)) (counts : list DecodedCount)
    (x : DecodedIR * bool) :
  GroupInv l counts ->
  (forall (j : nat) (g : DecodedCount),
     counts !! j = Some g -> sameGroup (rep g) x = false) ->
  (isValidDecode x.1 = true ->
   (length counts < IR_LIB_MAX_DECODED_SEGMENTS)%nat
   \/ (length (l ++ [x]) <= IR_LIB_MAX_DECODED_SEGMENTS)%nat -> False) ->
  GroupInv (l ++ [x]) counts.
Proof.
  intros [Hd Hc Hv Hf Hcov Hlen] Hno Hfull. split.
  - exact Hd.
  - intros j g Hg. rewrite occurrences_snoc, (Hno j g Hg), Nat.add_0_r.
    now apply Hc with j.
  - exact Hv.
  - intros j g Hg. destruct (Hf j g Hg) as (pre & w & post & -> & Hw & Hdata & Hpre).
    exists pre, w, (post ++ [x]). rewrite <- app_assoc. now repeat split.
  - intros Hroom y Hy Hval. apply elem_of_app in Hy as [Hy | Hy].
    + apply Hcov; try assumption.
      destruct Hroom as [Hroom | Hroom]; [now left | right].
      rewrite length_app in Hroom. cbn in Hroom. lia.
    + apply list_elem_of_singleton in Hy as ->. now destruct (Hfull Hval Hroom).
  - rewrite length_app. lia.
Qed.

(** Reading a segment that joins the group at index [j0]. *)
Lemma GroupInv_join (l : list (DecodedIR * bool)) (counts : list DecodedCount)
    (x : DecodedIR * bool) (j0 : nat) (g0 : DecodedCount) :
  GroupInv l counts ->
  counts !! j0 = Some g0 ->
  sameGroup x (rep g0) = true ->
  GroupInv (l ++ [x]) (<[j0 := bump g0]> counts).
Proof.
  intros [Hd Hc Hv Hf Hcov Hlen] H0 Hx. split.
  - intros i j gi gj Hij Hi Hj.
    destruct (lookup_bumped _ _ _ _ _ H0 Hi) as (gi' & Hi' & -> & _).
    destruct (lookup_bumped _ _ _ _ _ H0 Hj) as (gj' & Hj' & -> & _).
    now apply Hd with i j.
  - intros j g Hg.
    destruct (lookup_bumped _ _ _ _ _ H0 Hg) as (g' & Hg' & Hrep & Hcnt).
    rewrite Hcnt, Hrep, occurrences_snoc, (Hc j g' Hg').
    destruct (Nat.eqb_spec j j0) as [-> | Hne].
    + rewrite H0 in Hg'. injection Hg' as <-.
      rewrite sameGroup_comm, Hx. lia.
    + assert (sameGroup (rep g') x = false) as ->; [|lia].
      rewrite sameGroup_comm. apply sameGroup_false_l with (rep g0).
      * now apply sameGroup_sym.
      * destruct (Nat.lt_total j j0) as [Hlt | [Heq | Hgt]]; [| congruence |].
        -- rewrite sameGroup_comm. now apply Hd with j j0.
        -- now apply Hd with j0 j.
  - intros j g Hg.
    destruct (lookup_bumped _ _ _ _ _ H0 Hg) as (g' & Hg' & Hrep & _).
    injection Hrep as -> _. now apply Hv with j.
  - intros j g Hg.
    destruct (lookup_bumped _ _ _ _ _ H0 Hg) as (g' & Hg' & Hrep & _).
    destruct (Hf j g' Hg') as (pre & w & post & -> & Hw & Hdata & Hpre).
    exists pre, w, (post ++ [x]). rewrite <- app_assoc, Hrep.
    repeat split; try assumption.
    + injection Hrep as -> _. assumption.
    + intros y Hy Hval.
      destruct (Hpre y Hy Hval) as (m & gm & Hm & Hgm & Hym).
      destruct (lookup_bumped_inv _ _ _ _ _ H0 Hgm) as (gm' & Hgm' & Hrep').
      exists m, gm'. rewrite Hrep'. now repeat split.
  - intros Hroom y Hy Hval. apply elem_of_app in Hy as [Hy | Hy].
    + destruct (Hcov) with (x := y) as (m & gm & Hgm & Hym); try assumption.
      { rewrite length_insert, length_app in Hroom. cbn in Hroom. lia. }
      destruct (lookup_bumped_inv _ _ _ _ _ H0 Hgm) as (gm' & Hgm' & Hrep').
      exists m, gm'. rewrite Hrep'. now split.
    + apply list_elem_of_singleton in Hy as ->.
      destruct (lookup_bumped_inv _ _ _ _ _ H0 H0) as (g0' & Hg0' & Hrep').
      exists j0, g0'. rewrite Hrep'. now split.
  - rewrite length_insert, length_app. lia.
Qed.

(** Reading a valid segment that matches no group while there is room. *)
Lemma GroupInv_open (l : list (DecodedIR * bool)) (counts : list DecodedCount)
    (s : DecodedIR) (c : bool) :
  GroupInv l counts ->
  isValidDecode s = true ->
  (forall g, g ∈ counts -> sameGroup (s, c) (rep g) = false) ->
  (length counts < IR_LIB_MAX_DECODED_SEGMENTS)%nat ->
  GroupInv (l ++ [(s, c)]) (counts ++ [openedGroup s c]).
Proof.
  intros [Hd Hc Hv Hf Hcov Hlen] Hval Hno Hroom.
  pose proof (sameGroup_opened s c) as Hnew.
  assert (Hfresh : forall y, y ∈ l -> sameGroup (s, c) y = false).
  { intros y Hy. destruct (sameGroup (s, c) y) eqn:E; [|reflexivity].
    destruct (Hcov (or_introl Hroom) y Hy) as (m & g & Hg & Hyg).
    - now rewrite <- (sameGroup_valid _ _ E).
    - rewrite <- (Hno g (list_elem_of_lookup_2 _ _ _ Hg)).
      symmetry. now apply sameGroup_trans with y. }
  split.
  - intros i j gi gj Hij Hi Hj.
    apply lookup_snoc_Some in Hi as [[Hi1 Hi] | [-> <-]];
      apply lookup_snoc_Some in Hj as [[Hj1 Hj] | [-> <-]].
    + now apply Hd with i j.
    + rewrite sameGroup_comm. apply sameGroup_false_l with (s, c); [assumption|].
      apply Hno. now apply list_elem_of_lookup_2 with i.
    + lia.
    + lia.
  - intros j g Hg. rewrite occurrences_snoc.
    apply lookup_snoc_Some in Hg as [[_ Hg] | [-> <-]].
    + rewrite sameGroup_comm, (Hno g (list_elem_of_lookup_2 _ _ _ Hg)), Nat.add_0_r.
      now apply Hc with j.
    + rewrite sameGroup_comm, Hnew.
      rewrite (occurrences_none (rep (openedGroup s c)) l); [reflexivity|].
      intros y Hy. apply sameGroup_false_l with (s, c); [assumption|].
      now apply Hfresh.
  - intros j g Hg. apply lookup_snoc_Some in Hg as [[_ Hg] | [-> <-]].
    + now apply Hv with j.
    + assumption.
  - intros j g Hg. apply lookup_snoc_Some in Hg as [[_ Hg] | [-> <-]].
    + destruct (Hf j g Hg) as (pre & w & post & -> & Hw & Hdata & Hpre).
      exists pre, w, (post ++ [(s, c)]). rewrite <- app_assoc.
      repeat split; try assumption.
      intros y Hy Hvy. destruct (Hpre y Hy Hvy) as (m & gm & Hm & Hgm & Hym).
      exists m, gm. repeat split; try assumption.
      now apply lookup_app_l_Some.
    + exists l, (s, c), []. repeat split; try assumption.
      intros y Hy Hvy.
      destruct (Hcov (or_introl Hroom) y Hy Hvy) as (m & gm & Hgm & Hym).
      exists m, gm. repeat split; try assumption.
      * now apply lookup_lt_Some in Hgm.
      * now apply lookup_app_l_Some.
  - intros _ y Hy Hvy. apply elem_of_app in Hy as [Hy | Hy].
    + destruct (Hcov (or_introl Hroom) y Hy Hvy) as (m & gm & Hgm & Hym).
      exists m, gm. split; [now apply lookup_app_l_Some | assumption].
    + apply list_elem_of_singleton in Hy as ->.
      exists (length counts), (openedGroup s c). split; [|assumption].
      apply lookup_snoc_Some. now right.
  - rewrite !length_app. cbn. lia.
Qed.

(** One iteration of the grouping loop keeps the invariant. *)
Lemma GroupInv_countSegment (l : list (DecodedIR * bool))
    (counts : list DecodedCount) (x : DecodedIR * bool) :
  GroupInv l counts -> GroupInv (l ++ [x]) (countSegment counts x).
Proof.
  intros Hinv. destruct x as [s c]. unfold countSegment.
  destruct (isValidDecode s) eqn:Hval.
  - destruct (incrementMatching s c counts) as [counts'|] eqn:Hinc.
    + destruct (incrementMatching_Some _ _ _ _ Hinc) as (j0 & g0 & H0 & Hm & _ & ->).
      apply GroupInv_join; [assumption | assumption |].
      now rewrite <- segmentMatches_sameGroup.
    + pose proof (incrementMatching_None _ _ _ Hinc) as Hno.
      assert (Hno' : forall g, g ∈ counts -> sameGroup (s, c) (rep g) = false).
      { intros g Hg. rewrite <- segmentMatches_sameGroup. now apply Hno. }
      destruct (Nat.ltb_spec (length counts) IR_LIB_MAX_DECODED_SEGMENTS) as [Hroom | Hfull].
      * now apply GroupInv_open.
      * apply GroupInv_skip; [assumption | |].
        -- intros j g Hg. rewrite sameGroup_comm.
           apply Hno'. now apply list_elem_of_lookup_2 with j.
        -- intros _ [Hroom | Hroom]; [lia|].
           pose proof (g_length _ _ Hinv) as Hlen.
           rewrite length_app in Hroom. cbn in Hroom. lia.
  - apply GroupInv_skip; [assumption | |].
    + intros j g Hg. destruct (sameGroup (rep g) (s, c)) eqn:E; [|reflexivity].
      apply sameGroup_valid in E. cbn in E.
      rewrite (g_valid _ _ Hinv j g Hg), Hval in E. discriminate.
    + cbn. congruence.
Qed.

Lemma GroupInv_fold (l : list (DecodedIR * bool)) :
  GroupInv l (fold_left countSegment l []).
Proof.
  induction l as [|x l IH] using rev_ind.
  - apply GroupInv_nil.
  - rewrite fold_left_app. cbn. now apply GroupInv_countSegment.
Qed.

Lemma groupSegments_zip (l : list (DecodedIR * bool)) :
  groupSegments (l.*1) (length l) (l.*2) = fold_left countSegment l [].
Proof.
  unfold groupSegments.
  rewrite !take_ge by (rewrite length_fmap; lia).
  now rewrite zip_fst_snd.
Qed.

(** *** The second loop: the first group with the greatest count *)

Lemma maxLoop_spec (counts : list DecodedCount) :
  forall (i : nat) (maxCount winnerIndex maxCount' winnerIndex' : Z),
  maxLoop counts i maxCount winnerIndex = (maxCount', winnerIndex') ->
  (maxCount' = maxCount /\ winnerIndex' = winnerIndex
   /\ forall g, g ∈ counts -> count g <= maxCount)
  \/ (exists cs1 g cs2,
        counts = cs1 ++ g :: cs2
        /\ winnerIndex' = Z.of_nat (i + length cs1)
        /\ maxCount' = count g
        /\ maxCount < count g
        /\ (forall g', g' ∈ cs1 -> count g' < count g)
        /\ (forall g', g' ∈ cs2 -> count g' <= count g)).
Proof.
  induction counts as [|c rest IH]; cbn; intros i m w m' w' H.
  - injection H as <- <-. left. repeat split. intros g Hg. inversion Hg.
  - destruct (Z.gtb_spec (count c) m) as [Hgt | Hle].
    + apply IH in H as [(-> & -> & Hall) | (cs1 & g & cs2 & -> & -> & -> & Hlt & H1 & H2)].
      * right. exists [], c, rest. cbn. repeat split; try lia; try assumption.
        intros g' Hg'. inversion Hg'.
      * right. exists (c :: cs1), g, cs2. cbn. repeat split; try lia; try assumption.
        intros g' Hg'. apply elem_of_cons in Hg' as [-> | Hg']; [lia | now apply H1].
    + apply IH in H as [(-> & -> & Hall) | (cs1 & g & cs2 & -> & -> & -> & Hlt & H1 & H2)].
      * left. repeat split. intros g Hg.
        apply elem_of_cons in Hg as [-> | Hg]; [lia | now apply Hall].
      * right. exists (c :: cs1), g, cs2. cbn. repeat split; try lia; try assumption.
        intros g' Hg'. apply elem_of_cons in Hg' as [-> | Hg']; [lia | now apply H1].
Qed.

Lemma group_count_positive (l : list (DecodedIR * bool))
    (counts : list DecodedCount) (j : nat) (g : DecodedCount) :
  GroupInv l counts -> counts !! j = Some g -> 1 <= count g.
Proof.
  intros Hinv Hg. rewrite (g_count _ _ Hinv j g Hg).
  destruct (g_first _ _ Hinv j g Hg) as (pre & w & post & -> & Hw & _).
  rewrite <- (occurrences_sameGroup _ _ _ Hw).
  pose proof (occurrences_middle w pre post). lia.
Qed.

Lemma determineWinner_unfold (l : list (DecodedIR * bool)) :
  l <> [] ->
  determineWinner (l.*1) (length l) (l.*2)
  = let counts := fold_left countSegment l [] in
    let '(maxCount, winnerIndex) := maxLoop counts 0 0 (-1) in
    if negb (winnerIndex =? -1)
    then data (counts !!! Z.to_nat winnerIndex)
    else DecodedIR_empty.
Proof.
  intros Hne. unfold determineWinner. rewrite groupSegments_zip.
  destruct l; [contradiction | reflexivity].
Qed.

(** C2.  For a non-empty list of valid decoded segments (at most the ten
    the segment array holds) the vote returns the frame of a segment [w]
    that no segment out-votes, and every segment read before the first
    member of the winning group has strictly fewer votes: the first group
    to reach the greatest count wins.  In particular A, A, B yields A. *)
Theorem determineWinner_first_majority_group :
  (forall l : list (DecodedIR * bool),
     l <> [] ->
     (length l <= IR_LIB_MAX_DECODED_SEGMENTS)%nat ->
     Forall (fun x => brand x.1 <> UNKNOWN /\ command x.1 <> -1) l ->
     exists pre w post,
       l = pre ++ w :: post
       /\ determineWinner (l.*1) (length l) (l.*2) = w.1
       /\ (forall x, x ∈ l -> (occurrences x l <= occurrences w l)%nat)
       /\ (forall y, y ∈ pre -> (occurrences y l < occurrences w l)%nat))
  /\ (forall (A B : DecodedIR) (cA cB : bool),
        brand A <> UNKNOWN /\ command A <> -1 ->
        brand B <> UNKNOWN /\ command B <> -1 ->
        determineWinner [A; A; B] 3 [cA; cA; cB] = A).
Proof.
  assert (General : forall l : list (DecodedIR * bool),
     l <> [] ->
     (length l <= IR_LIB_MAX_DECODED_SEGMENTS)%nat ->
     Forall (fun x => brand x.1 <> UNKNOWN /\ command x.1 <> -1) l ->
     exists pre w post,
       l = pre ++ w :: post
       /\ determineWinner (l.*1) (length l) (l.*2) = w.1
       /\ (forall x, x ∈ l -> (occurrences x l <= occurrences w l)%nat)
       /\ (forall y, y ∈ pre -> (occurrences y l < occurrences w l)%nat)).
  { intros l Hne Hlen Hvalid.
    rewrite determineWinner_unfold by assumption. cbv zeta.
    pose proof (GroupInv_fold l) as Hinv.
    set (counts := fold_left countSegment l []) in *.
    assert (Hcover : forall x, x ∈ l ->
              exists (m : nat) (g : DecodedCount),
                counts !! m = Some g /\ sameGroup x (rep g) = true).
    { intros x Hx. apply (g_cover _ _ Hinv); [now right | assumption |].
      apply isValidDecode_spec. rewrite Forall_forall in Hvalid.
      now apply Hvalid. }
    destruct (maxLoop counts 0 0 (-1)) as [m w] eqn:E.
    apply maxLoop_spec in E
      as [(-> & -> & Hall) | (cs1 & g & cs2 & Hcounts & -> & -> & Hlt & H1 & H2)].
    - exfalso. destruct l as [|x l']; [contradiction|].
      destruct (Hcover x) as (j & g & Hg & _); [apply elem_of_cons; now left|].
      pose proof (group_count_positive _ _ _ _ Hinv Hg).
      pose proof (Hall g (list_elem_of_lookup_2 _ _ _ Hg)). lia.
    - assert (Hg : counts !! length cs1 = Some g).
      { rewrite Hcounts. now apply list_lookup_middle. }
      destruct (g_first _ _ Hinv _ _ Hg) as (pre & w0 & post & Hl & Hw0 & Hdata & Hpre).
      assert (Hocc : count g = Z.of_nat (occurrences w0 l)).
      { rewrite (g_count _ _ Hinv _ _ Hg).
        now rewrite (occurrences_sameGroup _ _ l Hw0). }
      exists pre, w0, post. split; [assumption|]. split; [|split].
      + replace (negb (Z.of_nat (0 + length cs1) =? -1)) with true
          by (symmetry; apply negb_true_iff, Z.eqb_neq; lia).
        rewrite Nat2Z.id, Hcounts. cbn [Nat.add].
        rewrite list_lookup_total_middle by reflexivity. now symmetry.
      + intros x Hx. destruct (Hcover x Hx) as (j & gx & Hgx & Hxg).
        rewrite (occurrences_sameGroup _ _ l Hxg).
        pose proof (g_count _ _ Hinv _ _ Hgx) as Hcx.
        assert (count gx <= count g); [|lia].
        apply list_elem_of_lookup_2 in Hgx. rewrite Hcounts in Hgx.
        apply elem_of_app in Hgx as [Hin | Hin].
        * apply H1 in Hin. lia.
        * apply elem_of_cons in Hin as [-> | Hin]; [lia | now apply H2].
      + intros y Hy.
        destruct (Hpre y Hy) as (j & gy & Hj & Hgy & Hyg).
        { apply isValidDecode_spec. rewrite Forall_forall in Hvalid.
          apply Hvalid. rewrite Hl. apply elem_of_app. now left. }
        rewrite (occurrences_sameGroup _ _ l Hyg).
        pose proof (g_count _ _ Hinv _ _ Hgy) as Hcy.
        assert (count gy < count g); [|lia].
        apply H1. rewrite Hcounts, lookup_app_l in Hgy by assumption.
        now apply list_elem_of_lookup_2 with j. }
  split; [exact General|].
  intros A B cA cB HA HB.
  destruct (General [(A, cA); (A, cA); (B, cB)]) as (pre & w & post & Hl & Hres & Hmax & _).
  { discriminate. }
  { cbn. unfold IR_LIB_MAX_DECODED_SEGMENTS. lia. }
  { repeat (apply List.Forall_cons; [assumption|]). apply List.Forall_nil. }
  change (determineWinner [A; A; B] 3 [cA; cA; cB] = w.1) in Hres.
  rewrite Hres.
  assert (HA2 : (2 <= occurrences (A, cA) [(A, cA); (A, cA); (B, cB)])%nat).
  { unfold occurrences. cbn. rewrite sameGroup_refl. cbn.
    destruct (sameGroup (A, cA) (B, cB)); cbn; lia. }
  assert (Hw : w ∈ [(A, cA); (A, cA); (B, cB)]).
  { rewrite Hl. apply elem_of_app. right. apply elem_of_cons. now left. }
  rewrite !elem_of_cons in Hw. destruct Hw as [-> | [-> | [-> | Hw]]];
    [reflexivity | reflexivity | | inversion Hw].
  pose proof (Hmax (A, cA)) as HmA. cbn.
  destruct (sameGroup (B, cB) (A, cA)) eqn:E.
  - apply sameGroup_spec in E as (Hb & Hc & Ha & _). cbn in Hb, Hc, Ha.
    destruct A, B. cbn in *. congruence.
  - exfalso.
    assert ((occurrences (B, cB) [(A, cA); (A, cA); (B, cB)] = 1)%nat).
    { unfold occurrences. cbn. now rewrite E, sameGroup_refl. }
    assert ((occurrences (A, cA) [(A, cA); (A, cA); (B, cB)]
             <= occurrences (B, cB) [(A, cA); (A, cA); (B, cB)])%nat).
    { apply HmA. apply elem_of_cons. now left. }
    lia.
Qed.

(** Two segments for command 21 and one for command 20. *)
Lemma determineWinner_AAB_example :
  (exists pre w post,
     [(sony_21, false); (sony_21, false); (sony_20, false)] = pre ++ w :: post
     /\ determineWinner [sony_21; sony_21; sony_20] 3 [false; false; false] = w.1
     /\ (forall x, x ∈ [(sony_21, false); (sony_21, false); (sony_20, false)] ->
           (occurrences x [(sony_21, false); (sony_21, false); (sony_20, false)]
            <= occurrences w [(sony_21, false); (sony_21, false); (sony_20, false)])%nat)
     /\ (forall y, y ∈ pre ->
           (occurrences y [(sony_21, false); (sony_21, false); (sony_20, false)]
            < occurrences w [(sony_21, false); (sony_21, false); (sony_20, false)])%nat))
  /\ determineWinner [sony_21; sony_21; sony_20] 3 [false; false; false] = sony_21.
Proof.
  split.
  - apply (proj1 determineWinner_first_majority_group
             [(sony_21, false); (sony_21, false); (sony_20, false)]).
    + discriminate.
    + vm_compute. lia.
    + repeat (apply List.Forall_cons; [split; discriminate|]). apply List.Forall_nil.
  - apply (proj2 determineWinner_first_majority_group sony_21 sony_20 false false);
      split; discriminate.
Defined.

(** C4.  In the groups the vote builds, the count of a group is the number
    of segments with its protocol, command and address and, for NEC, its
    checksum flag; an NEC segment and a segment with the same protocol,
    command and address but the opposite checksum flag never match the same
    group, and alone they form two groups of count one.  For the other
    protocols the checksum flag plays no part in the match. *)
Theorem nec_checksum_separates_groups :
  (forall (segs : list (DecodedIR * bool)) (g : DecodedCount),
     g ∈ groupSegments (segs.*1) (length segs) (segs.*2) ->
     count g = Z.of_nat (occurrences (rep g) segs)
     /\ forall (s : DecodedIR) (c : bool),
          brand s = NEC ->
          sameGroup (s, c) (rep g) = true ->
          sameGroup (s, negb c) (rep g) = false)
  /\ (forall (s : DecodedIR) (c : bool) (g : DecodedCount),
        brand s = NEC ->
        segmentMatches s c g = true -> segmentMatches s (negb c) g = false)
  /\ (forall (s : DecodedIR) (c : bool),
        brand s = NEC -> command s <> -1 ->
        groupSegments [s; s] 2 [c; negb c]
        = [ {| data := s; count := 1; checksumValidForNEC := c |};
            {| data := s; count := 1; checksumValidForNEC := negb c |} ])
  /\ (forall (s : DecodedIR) (c1 c2 : bool) (g : DecodedCount),
        brand s <> NEC ->
        segmentMatches s c1 g = segmentMatches s c2 g)
  /\ (forall (s : DecodedIR) (c1 c2 : bool),
        brand s <> NEC -> brand s <> UNKNOWN -> command s <> -1 ->
        groupSegments [s; s] 2 [c1; c2]
        = [ {| data := s; count := 2; checksumValidForNEC := false |} ]).
Proof.
  assert (Hsep : forall (s : DecodedIR) (c : bool) (r : DecodedIR * bool),
            brand s = NEC ->
            sameGroup (s, c) r = true -> sameGroup (s, negb c) r = false).
  { intros s c r HN H. apply sameGroup_spec in H as (Hb & Hc & Ha & Hk).
    destruct (sameGroup (s, negb c) r) eqn:E; [|reflexivity].
    apply sameGroup_spec in E as (_ & _ & _ & Hk').
    cbn in Hk, Hk'. specialize (Hk HN). specialize (Hk' HN).
    destruct c; cbn in Hk'; congruence. }
  split; [|split; [|split; [|split]]].
  - intros segs g Hg. rewrite groupSegments_zip in Hg.
    apply list_elem_of_lookup_1 in Hg as [j Hg].
    split.
    + now apply (g_count _ _ (GroupInv_fold segs) j).
    + intros s c HN. now apply Hsep.
  - intros s c g HN. rewrite !segmentMatches_sameGroup. now apply Hsep.
  - intros s c HN Hcmd.
    assert (Hval : isValidDecode s = true).
    { apply isValidDecode_spec. split; [congruence | assumption]. }
    unfold groupSegments. cbn. rewrite Hval. cbn.
    unfold segmentMatches. cbn.
    rewrite HN. cbn. rewrite !Z.eqb_refl. cbn.
    destruct c; reflexivity.
  - intros s c1 c2 g HN. unfold segmentMatches.
    destruct (brand_eqb (brand s) NEC) eqn:E; [|reflexivity].
    apply brand_eqb_eq in E. contradiction.
  - intros s c1 c2 HN HU Hcmd.
    assert (Hval : isValidDecode s = true).
    { apply isValidDecode_spec. now split. }
    assert (HnN : brand_eqb (brand s) NEC = false).
    { destruct (brand_eqb (brand s) NEC) eqn:E; [|reflexivity].
      apply brand_eqb_eq in E. contradiction. }
    unfold groupSegments. cbn. rewrite Hval. cbn.
    unfold segmentMatches. cbn.
    rewrite HnN, brand_eqb_refl, !Z.eqb_refl. reflexivity.
Qed.

(** The same NEC frame with and without a valid checksum forms two groups;
    the same SONY frame with two different flags forms one. *)
Lemma nec_checksum_separates_example :
  groupSegments [nec_12; nec_12] 2 [true; false]
  = [ {| data := nec_12; count := 1; checksumValidForNEC := true |};
      {| data := nec_12; count := 1; checksumValidForNEC := false |} ]
  /\ groupSegments [sony_21; sony_21] 2 [true; false]
     = [ {| data := sony_21; count := 2; checksumValidForNEC := false |} ].
Proof.
  split.
  - apply (proj1 (proj2 (proj2 nec_checksum_separates_groups)) nec_12 true);
      [reflexivity | discriminate].
  - apply (proj2 (proj2 (proj2 (proj2 nec_checksum_separates_groups)))
             sony_21 true false); discriminate.
Defined.

(** ** Partial NEC decodes *)

Lemma groupSegments_nec_pair (b : DecodedIR) (c1 c2 : bool) :
  brand b = NEC -> command b <> -1 ->
  groupSegments [b; b] 2 [c1; c2]
  = if Bool.eqb c1 c2
    then [ {| data := b; count := 2; checksumValidForNEC := c1 |} ]
    else [ {| data := b; count := 1; checksumValidForNEC := c1 |};
           {| data := b; count := 1; checksumValidForNEC := c2 |} ].
Proof.
  intros HN Hcmd.
  assert (Hval : isValidDecode b = true).
  { apply isValidDecode_spec. split; [congruence | assumption]. }
  unfold groupSegments. cbn. rewrite Hval. cbn.
  unfold segmentMatches. cbn. rewrite HN. cbn. rewrite !Z.eqb_refl. cbn.
  destruct c1, c2; reflexivity.
Qed.

(** C10.  An NEC segment whose bit loop stops with at least 24 and fewer
    than 32 bits decodes to a frame with the first command byte as command
    and the address taken from the two address bytes, with the checksum
    flag false.  The frame is a valid decode, so it votes; with a full
    32-bit decode of the same frame it forms one group of count two when
    that decode's checksum failed and two groups when it held. *)
Theorem nec_partial_decode_votes_as_checksum_failed
    (dataPairs : list PulseSpacePair) :
  24 <= snd (necBits dataPairs) < 32 ->
  let rawBits := fst (necBits dataPairs) in
  let addressByte1 := Z.land (Z.shiftr rawBits 0) 0xFF in
  let addressByte2 := Z.land (Z.shiftr rawBits 8) 0xFF in
  let r := decodeNECData dataPairs in
  brand (base r) = NEC
  /\ command (base r) = Z.land (Z.shiftr rawBits 16) 0xFF
  /\ address (base r)
     = (if (addressByte1 + addressByte2) mod 256 =? 0xFF
        then addressByte1
        else Z.lor (Z.shiftl addressByte2 8) addressByte1)
  /\ checksumValid r = false
  /\ isValidDecode (base r) = true
  /\ forall full : list PulseSpacePair,
       snd (necBits full) = 32 ->
       base (decodeNECData full) = base r ->
       groupSegments [base r; base (decodeNECData full)] 2
                     [checksumValid r; checksumValid (decodeNECData full)]
       = if checksumValid (decodeNECData full)
         then [ {| data := base r; count := 1; checksumValidForNEC := false |};
                {| data := base r; count := 1; checksumValidForNEC := true |} ]
         else [ {| data := base r; count := 2; checksumValidForNEC := false |} ].
Proof.
  intros Hbits rawBits addressByte1 addressByte2 r.
  assert (Hland : forall x, 0 <= Z.land x 0xFF).
  { intros x. apply Z.land_nonneg. right. lia. }
  assert (Hne : forall x, (Z.land x 0xFF =? -1) = false).
  { intros x. apply Z.eqb_neq. specialize (Hland x). lia. }
  assert (Hr : r = {| base := {| brand := NEC;
                                 command := Z.land (Z.shiftr rawBits 16) 0xFF;
                                 address :=
                                   if (addressByte1 + addressByte2) mod 256 =? 0xFF
                                   then addressByte1
                                   else Z.lor (Z.shiftl addressByte2 8) addressByte1 |};
                      checksumValid := false |}).
  { subst r rawBits addressByte1 addressByte2. unfold decodeNECData.
    destruct (necBits dataPairs) as [raw n]. cbn [fst snd] in *.
    replace (n >=? 8) with true by (symmetry; apply Z.geb_le; lia).
    replace (n >=? 16) with true by (symmetry; apply Z.geb_le; lia).
    replace (n >=? 24) with true by (symmetry; apply Z.geb_le; lia).
    replace (n >=? 32) with false
      by (symmetry; destruct (Z.geb_spec n 32); [lia | reflexivity]).
    rewrite !Hne. cbn [negb andb]. unfold uint8_of_int.
    rewrite Z.eqb_refl. cbn [negb].
    destruct (_ =? 255); reflexivity. }
  rewrite Hr. cbn [base checksumValid brand command address].
  repeat split.
  - apply isValidDecode_spec. cbn. split; [discriminate|].
    specialize (Hland (Z.shiftr rawBits 16)). lia.
  - intros full _ ->.
    rewrite groupSegments_nec_pair.
    + now destruct (checksumValid (decodeNECData full)).
    + reflexivity.
    + cbn. specialize (Hland (Z.shiftr rawBits 16)). lia.
Qed.

(** Address 0x00, its complement and command 0x0C, cut after 24 bits: the
    decode groups with a full decode whose last byte is wrong, not with the
    full decode whose checksum holds. *)
Lemma nec_partial_decode_example :
  let partial := necPairs 0xF30CFF00 24 in
  let r := decodeNECData partial in
  base r = {| brand := NEC; command := 12; address := 0 |}
  /\ checksumValid r = false
  /\ groupSegments
       [base r; base (decodeNECData (necPairs 0xF30CFF00 32))] 2
       [checksumValid r; checksumValid (decodeNECData (necPairs 0xF30CFF00 32))]
     = [ {| data := base r; count := 1; checksumValidForNEC := false |};
         {| data := base r; count := 1; checksumValidForNEC := true |} ]
  /\ groupSegments
       [base r; base (decodeNECData (necPairs 0x000CFF00 32))] 2
       [checksumValid r; checksumValid (decodeNECData (necPairs 0x000CFF00 32))]
     = [ {| data := base r; count := 2; checksumValidForNEC := false |} ].
Proof.
  intros partial r.
  assert (Hbits : 24 <= snd (necBits partial) < 32).
  { replace (snd (necBits partial)) with 24 by (vm_compute; reflexivity). lia. }
  destruct (nec_partial_decode_votes_as_checksum_failed partial Hbits)
    as (Hb & Hc & Ha & Hk & _ & Hfull).
  fold r in Hb, Hc, Ha, Hk, Hfull.
  split; [|split; [assumption | split]].
  - vm_compute. reflexivity.
  - apply (Hfull (necPairs 0xF30CFF00 32)); vm_compute; reflexivity.
  - apply (Hfull (necPairs 0x000CFF00 32)); vm_compute; reflexivity.
Defined.

(** ** What the vote can return *)

Lemma determineWinner_empty_or_valid (segments : list DecodedIR) (n : nat)
    (segmentChecksums : list bool) :
  determineWinner segments n segmentChecksums = DecodedIR_empty
  \/ isValidDecode (determineWinner segments n segmentChecksums) = true.
Proof.
  unfold determineWinner. destruct (Nat.eqb n 0); [now left|].
  unfold groupSegments.
  set (l := zip (take n segments) (take n segmentChecksums)).
  pose proof (GroupInv_fold l) as Hinv.
  set (counts := fold_left countSegment l []) in *.
  destruct (maxLoop counts 0 0 (-1)) as [m w] eqn:E.
  apply maxLoop_spec in E
    as [(-> & -> & _) | (cs1 & g & cs2 & Hcounts & -> & _)].
  - now left.
  - right.
    replace (negb (Z.of_nat (0 + length cs1) =? -1)) with true
      by (symmetry; apply negb_true_iff, Z.eqb_neq; lia).
    rewrite Nat2Z.id, Hcounts. cbn [Nat.add].
    rewrite list_lookup_total_middle by reflexivity.
    apply (g_valid _ _ Hinv (length cs1)).
    rewrite Hcounts. now apply list_lookup_middle.
Qed.

(** ** The segment loop *)

Lemma segment_iter_count (w : RemoteBrand) (pairs : list PulseSpacePair)
    (pairCount : nat) (st : SegmentState) (i : nat) :
  (decodedSegmentCount st
   <= decodedSegmentCount (segment_iter w pairs pairCount st i)
   <= S (decodedSegmentCount st))%nat
  /\ length (decodedSegments (segment_iter w pairs pairCount st i))
     = length (decodedSegments st).
Proof.
  unfold segment_iter.
  repeat case_match; simplify_eq; cbn; rewrite ?length_insert; lia.
Qed.

Lemma segmentLoop_stops_when_full (w : RemoteBrand) (pairs : list PulseSpacePair)
    (pairCount : nat) (indices : list nat) (st : SegmentState) :
  (IR_LIB_MAX_DECODED_SEGMENTS <= decodedSegmentCount st)%nat ->
  segmentLoop w pairs pairCount indices st = st.
Proof.
  intros Hfull. destruct indices as [|i rest]; [reflexivity|].
  cbn [segmentLoop].
  destruct (Nat.ltb_spec (decodedSegmentCount st) IR_LIB_MAX_DECODED_SEGMENTS);
    [lia | reflexivity].
Qed.

Lemma segmentLoop_count (w : RemoteBrand) (pairs : list PulseSpacePair)
    (pairCount : nat) (indices : list nat) :
  forall st : SegmentState,
  (decodedSegmentCount st <= IR_LIB_MAX_DECODED_SEGMENTS)%nat ->
  (decodedSegmentCount (segmentLoop w pairs pairCount indices st)
   <= IR_LIB_MAX_DECODED_SEGMENTS)%nat
  /\ length (decodedSegments (segmentLoop w pairs pairCount indices st))
     = length (decodedSegments st).
Proof.
  induction indices as [|i rest IH]; intros st Hst; cbn [segmentLoop];
    [now split|].
  destruct (Nat.ltb_spec (decodedSegmentCount st) IR_LIB_MAX_DECODED_SEGMENTS)
    as [Hlt | Hge]; [|now split].
  destruct (segment_iter_count w pairs pairCount st i) as [Hc Hl].
  destruct (IH (segment_iter w pairs pairCount st i)) as [Hc' Hl']; [lia|].
  split; [assumption | congruence].
Qed.

(** ** The pair extractor keeps its buffer's size *)

Lemma pairsLoop_length (localTransitions : list Z) (indices : list nat) :
  forall st : PairState,
  length (pairBuffer (pairsLoop localTransitions indices st))
  = length (pairBuffer st).
Proof.
  induction indices as [|i rest IH]; intros st; cbn [pairsLoop]; [reflexivity|].
  case_match; [reflexivity|]. rewrite IH. unfold pairs_iter.
  repeat case_match; cbn; rewrite ?length_insert; reflexivity.
Qed.

Lemma processRawTransitionsToPairs_length (buf : list PulseSpacePair)
    (localTransitions : list Z) (capturedCount : nat) :
  length (_processRawTransitionsToPairs buf localTransitions capturedCount).1
  = length buf.
Proof.
  unfold _processRawTransitionsToPairs.
  repeat case_match; cbn; rewrite ?length_insert, ?pairsLoop_length; reflexivity.
Qed.

(** ** The receiver keeps its invariants *)

(** What [_analyzeAndDecodeBurst] can do to the state. *)
Lemma decodeSegmentsAndVote_shape (w : RemoteBrand) (s : State) :
  (m_decodedSegmentCount s <= IR_LIB_MAX_DECODED_SEGMENTS)%nat ->
  m_codeResultIsReady s = false ->
  m_finalResultCode s = DecodedIR_empty ->
  exists segs cnt final ready,
    decodeSegmentsAndVote w s
    = set_analysis (m_brandScores s) segs cnt final ready s
    /\ (cnt <= IR_LIB_MAX_DECODED_SEGMENTS)%nat
    /\ length segs = length (m_decodedSegments s)
    /\ (ready = true -> isValidDecode final = true)
    /\ (final = DecodedIR_empty \/ isValidDecode final = true).
Proof.
  intros Hcnt Hready Hfinal. unfold decodeSegmentsAndVote.
  match goal with
  | |- context [segmentLoop ?a ?b ?c ?d ?e] =>
      set (st := segmentLoop a b c d e);
      destruct (segmentLoop_count a b c d e) as [Hc Hl]; [exact Hcnt|];
      fold st in Hc, Hl; cbn in Hl
  end.
  cbn [m_decodedSegmentCount m_decodedSegments m_finalResultCode
       m_codeResultIsReady m_brandScores set_analysis].
  rewrite Hready, Hfinal.
  destruct (0 <? decodedSegmentCount st)%nat.
  - match goal with
    | |- context [determineWinner ?a ?b ?c] =>
        destruct (determineWinner_empty_or_valid a b c) as [He | Hv];
        set (final := determineWinner a b c) in *
    end.
    + rewrite He. cbn.
      exists (decodedSegments st), (decodedSegmentCount st), DecodedIR_empty, false.
      split; [reflexivity|]. split; [assumption|]. split; [assumption|].
      split; [discriminate | now left].
    + pose proof Hv as Hv'. unfold isValidDecode in Hv'. rewrite Hv'.
      exists (decodedSegments st), (decodedSegmentCount st), final, true.
      split; [reflexivity|]. split; [assumption|]. split; [assumption|].
      split; [intros _; assumption | now right].
  - exists (decodedSegments st), (decodedSegmentCount st), DecodedIR_empty, false.
    split; [reflexivity|]. split; [assumption|]. split; [assumption|].
      split; [discriminate | now left].
Qed.

Lemma scores_reset_length (sc : list Z) :
  length (fold_left (fun sc i => <[i := 0]> sc) (seq 0 NUM_BRANDS) sc) = length sc.
Proof. cbn. now rewrite !length_insert. Qed.

Lemma analyzeAndDecodeBurst_shape (s : State) :
  exists scores segs cnt final ready,
    _analyzeAndDecodeBurst s = set_analysis scores segs cnt final ready s
    /\ length scores = length (m_brandScores s)
    /\ (cnt <= IR_LIB_MAX_DECODED_SEGMENTS)%nat
    /\ length segs = length (m_decodedSegments s)
    /\ (ready = true -> isValidDecode final = true)
    /\ (final = DecodedIR_empty \/ isValidDecode final = true).
Proof.
  unfold _analyzeAndDecodeBurst.
  set (zeros := fold_left _ _ (m_brandScores s)).
  assert (Hz : length zeros = length (m_brandScores s)) by apply scores_reset_length.
  destruct (Nat.eqb (m_pulseSpacePairCount s) 0).
  - exists zeros, (m_decodedSegments s), 0%nat, DecodedIR_empty, false.
    split; [reflexivity|]. split; [assumption|].
    split; [unfold IR_LIB_MAX_DECODED_SEGMENTS; lia|]. split; [reflexivity|].
    split; [discriminate | now left].
  - set (scores := <[brandIndex NEC := _]> _).
    assert (Hs : length scores = length (m_brandScores s)).
    { subst scores. now rewrite !length_insert. }
    cbn [m_brandScores set_analysis].
    destruct (selectWinningBrand scores) as [w m].
    destruct (brand_eqb w UNKNOWN).
    + exists scores, (m_decodedSegments s), 0%nat, DecodedIR_empty, false.
      split; [reflexivity|]. split; [assumption|].
      split; [unfold IR_LIB_MAX_DECODED_SEGMENTS; lia|]. split; [reflexivity|].
      split; [discriminate | now left].
    + match goal with
      | |- context [decodeSegmentsAndVote w ?s0] =>
          destruct (decodeSegmentsAndVote_shape w s0)
            as (segs & cnt & final & ready & E & Hc & Hl & Hr & Hf);
          [cbn; unfold IR_LIB_MAX_DECODED_SEGMENTS; lia
          | reflexivity | reflexivity |]
      end.
      rewrite E. exists scores, segs, cnt, final, ready.
      repeat split; assumption.
Qed.

Lemma Inv_new : Inv new.
Proof.
  split; cbn; try discriminate; try (now left).
  - repeat split.
  - unfold IR_LIB_MAX_DECODED_SEGMENTS. lia.
Qed.

Lemma Inv_analyze (s : State) :
  Inv s -> m_isInterruptAttached s = true -> Inv (_analyzeAndDecodeBurst s).
Proof.
  intros [(Hw1 & Hw2 & Hw3 & Hw4) Hs Hrv Hf Hra Hap] Hatt.
  destruct (analyzeAndDecodeBurst_shape s)
    as (scores & segs & cnt & final & ready & -> & Hls & Hc & Hl & Hr & Hfin).
  split; state_simpl; try assumption.
  - repeat split; congruence.
  - intros _. assumption.
Qed.

Lemma Inv_set_capture (raw : list Z) (idx : nat) (copied : bool)
    (pairs : list PulseSpacePair) (pairCount : nat) (s : State) :
  Inv s ->
  length raw = IR_LIB_MAX_TRANSITIONS ->
  length pairs = (IR_LIB_MAX_TRANSITIONS / 2)%nat ->
  Inv (set_capture raw idx copied pairs pairCount s).
Proof.
  intros [(Hw1 & Hw2 & Hw3 & Hw4) Hs Hrv Hf Hra Hap] Hraw Hpairs.
  split; state_simpl; try assumption. repeat split; assumption.
Qed.

Lemma Inv_isCode (hw : Hardware) (s : State) : Inv s -> Inv (isCode hw s).2.
Proof.
  intros Hinv. pose proof (inv_wellFormed _ Hinv) as (Hw1 & Hw2 & Hw3 & Hw4).
  unfold isCode.
  destruct (m_isInterruptAttached s) eqn:Hatt; cbn [negb].
  2: { destruct (m_codeResultIsReady s); assumption. }
  destruct (m_codeResultIsReady s) eqn:Hready; [assumption|].
  match goal with |- context [if ?b then _ else _] => destruct b end.
  - destruct (_processRawTransitionsToPairs _ _ _) as [pairs pairCount] eqn:E.
    assert (Hlen : length pairs = (IR_LIB_MAX_TRANSITIONS / 2)%nat).
    { pose proof (processRawTransitionsToPairs_length
                    (m_pulseSpacePairs s)
                    (take (if (IR_LIB_MAX_TRANSITIONS <? m_rawTransitionIndex s)%nat
                           then IR_LIB_MAX_TRANSITIONS else m_rawTransitionIndex s)
                          (m_rawTransitions s))
                    (if (IR_LIB_MAX_TRANSITIONS <? m_rawTransitionIndex s)%nat
                     then IR_LIB_MAX_TRANSITIONS else m_rawTransitionIndex s)) as H.
      rewrite E in H. cbn in H. congruence. }
    cbn [snd].
    match goal with |- context [if ?b then _ else _] => destruct b end.
    + apply Inv_analyze; [now apply Inv_set_capture | exact Hatt].
    + apply Inv_set_capture; [now apply Inv_set_capture | assumption | assumption].
  - match goal with |- context [if ?b then _ else _] => destruct b end;
      [|assumption].
    now apply Inv_set_capture.
Qed.

Lemma Inv_getCode (s : State) : Inv s -> Inv (getCode s).2.
Proof.
  intros Hinv. unfold getCode. destruct (m_codeResultIsReady s); [|assumption].
  destruct Hinv as [(Hw1 & Hw2 & Hw3 & Hw4) Hs Hrv Hf Hra Hap].
  split; state_simpl; try assumption; try discriminate. repeat split; assumption.
Qed.

Lemma Inv_enable (hw : Hardware) (s : State) : Inv s -> Inv (enable hw s).
Proof.
  intros Hinv. unfold enable. destruct (Z.eqb_spec (m_irPin s) (-1)); [assumption|].
  destruct Hinv as [(Hw1 & Hw2 & Hw3 & Hw4) Hs Hrv Hf Hra Hap].
  split; state_simpl; try assumption; try discriminate.
  - repeat split; assumption.
  - intros _. assumption.
Qed.

Lemma Inv_disable (hw : Hardware) (s : State) : Inv s -> Inv (disable hw s).
Proof.
  intros Hinv. unfold disable.
  match goal with |- context [if ?b then _ else _] => destruct b end;
    [assumption|].
  destruct Hinv as [(Hw1 & Hw2 & Hw3 & Hw4) Hs Hrv Hf Hra Hap].
  split; state_simpl; try assumption; try discriminate.
  - repeat split; assumption.
  - destruct (isInterruptPin hw (m_irPin s)); discriminate.
Qed.

Lemma disable_detaches (hw : Hardware) (s : State) :
  Inv s ->
  m_isInterruptAttached (disable hw s) = false
  /\ m_codeResultIsReady (disable hw s) = false.
Proof.
  intros Hinv. unfold disable.
  destruct (Z.eqb_spec (m_irPin s) (-1)) as [Hpin | Hpin]; cbn [orb].
  - destruct (m_isInterruptAttached s) eqn:Hatt.
    + now destruct (inv_attached_pin _ Hinv Hatt).
    + split; [reflexivity|].
      destruct (m_codeResultIsReady s) eqn:Hr; [|reflexivity].
      rewrite (inv_ready_attached _ Hinv Hr) in Hatt. discriminate.
  - destruct (m_isInterruptAttached s) eqn:Hatt; cbn.
    + split; [|reflexivity]. now destruct (isInterruptPin hw (m_irPin s)).
    + split; [assumption|].
      destruct (m_codeResultIsReady s) eqn:Hr; [|reflexivity].
      rewrite (inv_ready_attached _ Hinv Hr) in Hatt. discriminate.
Qed.

Lemma Inv_begin (hw : Hardware) (pin : Z) (s : State) :
  Inv s -> Inv (begin hw pin s).2.
Proof.
  intros Hinv. unfold begin.
  set (s1 := if m_isInterruptAttached s && negb (m_irPin s =? -1)
             then disable hw s else s).
  assert (H1 : Inv s1 /\ m_isInterruptAttached s1 = false
               /\ m_codeResultIsReady s1 = false).
  { subst s1. destruct (m_isInterruptAttached s) eqn:Hatt; cbn [andb].
    - destruct (Z.eqb_spec (m_irPin s) (-1)) as [Hpin | Hpin]; cbn [negb].
      + now destruct (inv_attached_pin _ Hinv Hatt).
      + split; [now apply Inv_disable | now apply disable_detaches].
    - split; [assumption | split; [assumption|]].
      destruct (m_codeResultIsReady s) eqn:Hr; [|reflexivity].
      rewrite (inv_ready_attached _ Hinv Hr) in Hatt. discriminate. }
  destruct H1 as (Hinv1 & Hatt1 & Hr1).
  assert (H2 : Inv (enable hw (set_irPin pin s1))).
  { apply Inv_enable.
    destruct Hinv1 as [(Hw1 & Hw2 & Hw3 & Hw4) Hs Hrv Hf Hra Hap].
    split; state_simpl; try assumption.
    - repeat split; assumption.
    - congruence. }
  match goal with |- context [if ?b then _ else _] => destruct b end; exact H2.
Qed.

Lemma Inv_interrupt (hw : Hardware) (s : State) :
  Inv s -> Inv (handleIrInterrupt_priv hw s).
Proof.
  intros Hinv. unfold handleIrInterrupt_priv.
  match goal with |- context [if ?b then _ else _] => destruct b end;
    [|assumption].
  destruct Hinv as [(Hw1 & Hw2 & Hw3 & Hw4) Hs Hrv Hf Hra Hap].
  split; state_simpl; try assumption.
  repeat split; try assumption. now rewrite length_insert.
Qed.

Lemma Inv_step (s s' : State) : Inv s -> step s s' -> Inv s'.
Proof.
  intros Hinv Hstep. destruct Hstep.
  - now apply Inv_begin.
  - now apply Inv_enable.
  - now apply Inv_disable.
  - now apply Inv_isCode.
  - now apply Inv_getCode.
  - now apply Inv_interrupt.
Qed.

Lemma reachable_Inv (s : State) : reachable s -> Inv s.
Proof.
  induction 1 as [|s s' _ IH Hstep]; [apply Inv_new | now apply Inv_step with s].
Qed.

Lemma reachable_run (cs : list Call) :
  forall s : State, reachable s -> feasible cs s = true -> reachable (run cs s).
Proof.
  induction cs as [|c rest IH]; intros s Hs Hf; cbn in *; [assumption|].
  apply andb_true_iff in Hf as [Hc Hrest].
  apply IH; [|assumption].
  apply reachable_step with s; [assumption|].
  destruct c; cbn in *; constructor. assumption.
Qed.

(** ** The result slot *)

(** The sample sessions are executions of the receiver. *)
Lemma sonySession_reachable : reachable (run sonySession new).
Proof.
  apply reachable_run; [apply reachable_new | vm_compute; reflexivity].
Qed.

(** C7.  In every reachable state a set result-ready flag comes with a
    stored result of known protocol and command other than -1, and the
    result slot holds either the empty value it is reset to or such a
    frame.  The two writers of the slot obey this on every input: the vote
    returns the empty value or such a frame, and the analysis sets the flag
    only over such a frame. *)
Theorem ready_result_has_protocol_and_command :
  (forall s : State,
     reachable s ->
     (m_codeResultIsReady s = true ->
      brand (m_finalResultCode s) <> UNKNOWN
      /\ command (m_finalResultCode s) <> -1)
     /\ (m_finalResultCode s = DecodedIR_empty
         \/ (brand (m_finalResultCode s) <> UNKNOWN
             /\ command (m_finalResultCode s) <> -1)))
  /\ (forall (segments : list DecodedIR) (n : nat) (segmentChecksums : list bool),
        let final := determineWinner segments n segmentChecksums in
        final = DecodedIR_empty
        \/ (brand final <> UNKNOWN /\ command final <> -1))
  /\ (forall s : State,
        let s' := _analyzeAndDecodeBurst s in
        m_codeResultIsReady s' = true ->
        brand (m_finalResultCode s') <> UNKNOWN
        /\ command (m_finalResultCode s') <> -1).
Proof.
  split; [|split].
  - intros s Hreach. apply reachable_Inv in Hreach as Hinv. split.
    + intros Hready. apply isValidDecode_spec.
      now apply (inv_ready_valid _ Hinv).
    + destruct (inv_final _ Hinv) as [He | Hv]; [now left | right].
      now apply isValidDecode_spec.
  - intros segments n segmentChecksums final.
    destruct (determineWinner_empty_or_valid segments n segmentChecksums)
      as [He | Hv]; [now left | right].
    now apply isValidDecode_spec.
  - intros s s' Hready. subst s'.
    destruct (analyzeAndDecodeBurst_shape s)
      as (scores & segs & cnt & final & ready & E & _ & _ & _ & Hr & _).
    rewrite E in *. cbn in Hready |- *.
    apply isValidDecode_spec. now apply Hr.
Qed.

(** After the SONY session the flag is set and the stored frame is a
    decoded one. *)
Lemma ready_result_example :
  m_codeResultIsReady (run sonySession new) = true
  /\ brand (m_finalResultCode (run sonySession new)) <> UNKNOWN
  /\ command (m_finalResultCode (run sonySession new)) <> -1.
Proof.
  assert (Hready : m_codeResultIsReady (run sonySession new) = true)
    by (vm_compute; reflexivity).
  split; [assumption|].
  exact (proj1 (proj1 ready_result_has_protocol_and_command _
                        sonySession_reachable) Hready).
Defined.

(** ** The segment array *)

Lemma elevenFrames_reachable : reachable (run elevenFrames new).
Proof.
  apply reachable_run; [apply reachable_new | vm_compute; reflexivity].
Qed.

(** C9.  The number of decoded segments never exceeds
    IR_LIB_MAX_DECODED_SEGMENTS, which is 10: in every reachable state, after
    the analysis of any burst, and at every turn of the segment loop; once
    the count has reached the bound the loop leaves the state as it is,
    whatever pairs remain. *)
Theorem decoded_segments_never_exceed_ten :
  (forall s : State,
     reachable s ->
     (m_decodedSegmentCount s <= IR_LIB_MAX_DECODED_SEGMENTS)%nat
     /\ length (m_decodedSegments s) = IR_LIB_MAX_DECODED_SEGMENTS)
  /\ (forall (w : RemoteBrand) (pairs : list PulseSpacePair) (pairCount : nat)
             (indices : list nat) (st : SegmentState),
        (decodedSegmentCount st <= IR_LIB_MAX_DECODED_SEGMENTS)%nat ->
        (decodedSegmentCount (segmentLoop w pairs pairCount indices st)
         <= IR_LIB_MAX_DECODED_SEGMENTS)%nat)
  /\ (forall (w : RemoteBrand) (pairs : list PulseSpacePair) (pairCount : nat)
             (indices : list nat) (st : SegmentState),
        decodedSegmentCount st = IR_LIB_MAX_DECODED_SEGMENTS ->
        segmentLoop w pairs pairCount indices st = st)
  /\ (forall s : State,
        (m_decodedSegmentCount (_analyzeAndDecodeBurst s)
         <= IR_LIB_MAX_DECODED_SEGMENTS)%nat)
  /\ IR_LIB_MAX_DECODED_SEGMENTS = 10%nat.
Proof.
  split; [|split; [|split; [|split]]].
  - intros s Hreach. apply reachable_Inv in Hreach as Hinv. split.
    + apply (inv_segments _ Hinv).
    + apply (inv_wellFormed _ Hinv).
  - intros w pairs pairCount indices st Hst.
    now apply segmentLoop_count.
  - intros w pairs pairCount indices st Hst.
    apply segmentLoop_stops_when_full. lia.
  - intros s.
    destruct (analyzeAndDecodeBurst_shape s)
      as (scores & segs & cnt & final & ready & -> & _ & Hc & _).
    exact Hc.
  - reflexivity.
Qed.

(** Eleven frames give 143 pairs and eleven segments; ten are recorded. *)
Lemma decoded_segments_example :
  m_pulseSpacePairCount (run elevenFrames new) = 143%nat
  /\ m_decodedSegmentCount (run elevenFrames new) = 10%nat
  /\ (m_decodedSegmentCount (run elevenFrames new)
      <= IR_LIB_MAX_DECODED_SEGMENTS)%nat.
Proof.
  split; [vm_compute; reflexivity|]. split; [vm_compute; reflexivity|].
  exact (proj1 (proj1 decoded_segments_never_exceed_ten _ elevenFrames_reachable)).
Defined.

(** ** Disabling with a result pending *)

(** C3.  [disable] clears the result-ready flag: from any reachable state
    with a result pending, after [disable] the next [isCode] answers false
    and [getCode] returns the empty value.  The branch of [isCode] that
    reports a pending result while the interrupt is detached is never
    taken. *)
Theorem disable_discards_pending_result (hw hw' : Hardware) (s : State) :
  reachable s ->
  m_codeResultIsReady s = true ->
  isCode hw' (disable hw s) = (false, disable hw s)
  /\ getCode (disable hw s) = (DecodedIR_empty, disable hw s)
  /\ (forall s0 : State,
        reachable s0 -> m_isInterruptAttached s0 = false ->
        m_codeResultIsReady s0 = false).
Proof.
  intros Hreach Hready. apply reachable_Inv in Hreach as Hinv.
  destruct (disable_detaches hw s Hinv) as [Hatt Hr].
  split; [|split].
  - unfold isCode. now rewrite Hatt, Hr.
  - unfold getCode. now rewrite Hr.
  - intros s0 H0 Hatt0. apply reachable_Inv in H0.
    destruct (m_codeResultIsReady s0) eqn:E; [|reflexivity].
    rewrite (inv_ready_attached _ H0 E) in Hatt0. discriminate.
Qed.

(** The SONY session leaves command 21 pending; after [disable] it is
    gone. *)
Lemma disable_discards_example :
  fst (getCode (run sonySession new)) = sony_21
  /\ isCode (hwAt 600 0 HIGH) (disable (hwAt 550 0 HIGH) (run sonySession new))
     = (false, disable (hwAt 550 0 HIGH) (run sonySession new))
  /\ getCode (disable (hwAt 550 0 HIGH) (run sonySession new))
     = (DecodedIR_empty, disable (hwAt 550 0 HIGH) (run sonySession new)).
Proof.
  split; [vm_compute; reflexivity|].
  assert (Hready : m_codeResultIsReady (run sonySession new) = true)
    by (vm_compute; reflexivity).
  destruct (disable_discards_pending_result (hwAt 550 0 HIGH) (hwAt 600 0 HIGH)
              _ sonySession_reachable Hready) as (H1 & H2 & _).
  split; assumption.
Defined.

(** ** Scores and the winning brand *)

Lemma scoreSony_iter_mono (pairs : list PulseSpacePair) (n : nat)
    (st : ScoreState) (i : nat) :
  score st <= score (scoreSony_iter pairs n st i).
Proof. unfold scoreSony_iter. repeat case_match; simplify_eq; cbn; lia. Qed.

Lemma scoreJVC_iter_mono (pairs : list PulseSpacePair) (n : nat)
    (st : ScoreState) (i : nat) :
  score st <= score (scoreJVC_iter pairs n st i).
Proof. unfold scoreJVC_iter. repeat case_match; simplify_eq; cbn; lia. Qed.

Lemma scoreNEC_iter_mono (pairs : list PulseSpacePair) (n : nat)
    (st : ScoreState) (i : nat) :
  score st <= score (scoreNEC_iter pairs n st i).
Proof. unfold scoreNEC_iter. repeat case_match; simplify_eq; cbn; lia. Qed.

Lemma fold_score_mono (iter : ScoreState -> nat -> ScoreState) (indices : list nat) :
  (forall st i, score st <= score (iter st i)) ->
  forall st, score st <= score (fold_left iter indices st).
Proof.
  intros Hmono. induction indices as [|i rest IH]; intros st; cbn; [lia|].
  specialize (IH (iter st i)). specialize (Hmono st i). lia.
Qed.

Lemma scores_nonneg (pairs : list PulseSpacePair) (n : nat) :
  0 <= scoreJVC pairs n /\ 0 <= scoreSonySIRC12 pairs n /\ 0 <= scoreNEC pairs n.
Proof.
  unfold scoreJVC, scoreSonySIRC12, scoreNEC.
  destruct (Nat.eqb n 0); [lia|]. repeat split.
  - exact (fold_score_mono _ _ (scoreJVC_iter_mono pairs n)
             {| score := 0; currentSegmentStartPairIndex := 0%nat;
                segmentCount := 0 |}).
  - exact (fold_score_mono _ _ (scoreSony_iter_mono pairs n)
             {| score := 0; currentSegmentStartPairIndex := 0%nat;
                segmentCount := 0 |}).
  - exact (fold_score_mono _ _ (scoreNEC_iter_mono pairs n)
             {| score := 0; currentSegmentStartPairIndex := 0%nat;
                segmentCount := 0 |}).
Qed.

Lemma selectWinningBrand_cases (z sJ sS sN : Z) :
  let winner := fst (selectWinningBrand [z; sJ; sS; sN]) in
  (sJ <= 0 -> sS <= 0 -> sN <= 0 -> winner = UNKNOWN)
  /\ (0 < sJ -> sS <= sJ -> sN <= sJ -> winner = JVC)
  /\ (0 < sS -> sJ < sS -> sN <= sS -> winner = SONY)
  /\ (0 < sN -> sJ < sN -> sS < sN -> winner = NEC).
Proof.
  unfold selectWinningBrand. cbn.
  repeat split; intros;
    repeat match goal with
           | |- context [?a >? ?b] => destruct (Z.gtb_spec a b); try lia; cbn
           | |- context [?a =? ?b] => destruct (Z.eqb_spec a b); try lia; cbn
           end; reflexivity.
Qed.

(** In that burst SONY and NEC both score 1 and JVC 0, and the burst is
    decoded as SONY: one segment, command 0, address 0, result ready. *)
Lemma tied_scores_still_decode :
  let s := run tieSession new in
  feasible tieSession new = true
  /\ scoreJVC (m_pulseSpacePairs s) (m_pulseSpacePairCount s) = 0
  /\ scoreSonySIRC12 (m_pulseSpacePairs s) (m_pulseSpacePairCount s) = 1
  /\ scoreNEC (m_pulseSpacePairs s) (m_pulseSpacePairCount s) = 1
  /\ m_decodedSegmentCount s = 1%nat
  /\ m_finalResultCode s = {| brand := SONY; command := 0; address := 0 |}
  /\ m_codeResultIsReady s = true.
Proof. vm_compute. repeat split; reflexivity. Qed.

(** C1 (amended).  For a burst with at least one pair, the scores are not
    negative; when all three are zero the burst is dropped: no segment is
    decoded, the result stays empty and not ready.  Otherwise the burst is
    decoded under the protocol with the greatest score, a tie for the
    greatest score going to the first of JVC, SONY, NEC that has it. *)
Theorem winning_brand_is_first_greatest_score (s : State) :
  wellFormed s ->
  m_pulseSpacePairCount s <> 0%nat ->
  let sJ := scoreJVC (m_pulseSpacePairs s) (m_pulseSpacePairCount s) in
  let sS := scoreSonySIRC12 (m_pulseSpacePairs s) (m_pulseSpacePairCount s) in
  let sN := scoreNEC (m_pulseSpacePairs s) (m_pulseSpacePairCount s) in
  let scored :=
    set_analysis [0; sJ; sS; sN] (m_decodedSegments s) 0 DecodedIR_empty false s in
  0 <= sJ /\ 0 <= sS /\ 0 <= sN
  /\ (sJ = 0 -> sS = 0 -> sN = 0 -> _analyzeAndDecodeBurst s = scored)
  /\ (0 < sJ -> sS <= sJ -> sN <= sJ ->
      _analyzeAndDecodeBurst s = decodeSegmentsAndVote JVC scored)
  /\ (0 < sS -> sJ < sS -> sN <= sS ->
      _analyzeAndDecodeBurst s = decodeSegmentsAndVote SONY scored)
  /\ (0 < sN -> sJ < sN -> sS < sN ->
      _analyzeAndDecodeBurst s = decodeSegmentsAndVote NEC scored).
Proof.
  intros (_ & _ & Hscores & _) Hcount sJ sS sN scored.
  destruct (scores_nonneg (m_pulseSpacePairs s) (m_pulseSpacePairCount s))
    as (HJ & HS & HN).
  fold sJ in HJ. fold sS in HS. fold sN in HN.
  split; [assumption|]. split; [assumption|]. split; [assumption|].
  assert (Hunfold : _analyzeAndDecodeBurst s
            = if brand_eqb (fst (selectWinningBrand [0; sJ; sS; sN])) UNKNOWN
              then scored
              else decodeSegmentsAndVote (fst (selectWinningBrand [0; sJ; sS; sN]))
                                         scored).
  { unfold _analyzeAndDecodeBurst.
    destruct (Nat.eqb_spec (m_pulseSpacePairCount s) 0) as [E | _];
      [contradiction|].
    destruct (m_brandScores s) as [|a [|b [|c [|d [|e rest]]]]];
      try discriminate Hscores.
    cbn [fold_left seq NUM_BRANDS brandIndex].
    change (<[3%nat:=0]> (<[2%nat:=0]> (<[1%nat:=0]> (<[0%nat:=0]> [a; b; c; d]))))
      with [0; 0; 0; 0].
    change (<[3%nat:=?x]> (<[1%nat:=?y]> (<[2%nat:=?z]> [0; 0; 0; 0])))
      with [0; y; z; x].
    fold sJ sS sN. cbn [m_brandScores set_analysis].
    fold scored.
    destruct (selectWinningBrand [0; sJ; sS; sN]) as [w m]. reflexivity. }
  destruct (selectWinningBrand_cases 0 sJ sS sN) as (H0 & H1 & H2 & H3).
  rewrite Hunfold. repeat split; intros.
  - rewrite H0 by lia. reflexivity.
  - rewrite H1 by assumption. reflexivity.
  - rewrite H2 by assumption. reflexivity.
  - rewrite H3 by assumption. reflexivity.
Qed.

(** The tie between SONY and NEC goes to SONY. *)
Lemma winning_brand_tie_example :
  _analyzeAndDecodeBurst tieBurst
  = decodeSegmentsAndVote SONY
      (set_analysis [0; 0; 1; 1] (m_decodedSegments tieBurst) 0
                    DecodedIR_empty false tieBurst).
Proof.
  assert (Hwf : wellFormed tieBurst) by (repeat split).
  assert (Hcount : m_pulseSpacePairCount tieBurst <> 0%nat) by discriminate.
  destruct (winning_brand_is_first_greatest_score tieBurst Hwf Hcount)
    as (_ & _ & _ & _ & _ & HS & _).
  apply HS; vm_compute; first [reflexivity | discriminate].
Defined.

(** ** Tolerance boundaries *)

Lemma forallFrom_spec (f : Z -> bool) (p : positive) :
  forall lo : Z,
  forallFrom p lo f = true ->
  forall x : Z, lo <= x < lo + Zpos p -> f x = true.
Proof.
  induction p as [q IH | q IH |]; intros lo H x Hx; cbn in H.
  - apply andb_true_iff in H as [H H2]. apply andb_true_iff in H as [H0 H1].
    destruct (Z.eq_dec x lo) as [-> | Hne]; [assumption|].
    destruct (Z_lt_ge_dec x (lo + 1 + Zpos q)).
    + apply (IH (lo + 1)); [assumption | lia].
    + apply (IH (lo + 1 + Zpos q)); [assumption | lia].
  - apply andb_true_iff in H as [H1 H2].
    destruct (Z_lt_ge_dec x (lo + Zpos q)).
    + apply (IH lo); [assumption | lia].
    + apply (IH (lo + Zpos q)); [assumption | lia].
  - assert (x = lo) as -> by lia. assumption.
Qed.

Lemma percentageBoundary_short :
  forallFrom 10 0 percentageBoundaryHolds = true.
Proof. vm_compute. reflexivity. Qed.

(** From [2 ^ 24] on the conversion of the expected duration rounds; the
    boundary still holds at the first three durations. *)
Lemma percentageBoundary_rounded :
  forallFrom 3 16777216 percentageBoundaryHolds = true.
Proof. vm_compute. reflexivity. Qed.

(** ** Binary32 rounding *)

Lemma digits2_pos_bounds (p : positive) :
  2 ^ (Z.pos (digits2_pos p) - 1) <= Z.pos p < 2 ^ Z.pos (digits2_pos p).
Proof.
  induction p as [p IH | p IH |]; cbn [digits2_pos].
  - rewrite Pos2Z.inj_succ, Pos2Z.inj_xI.
    replace (Z.succ (Z.pos (digits2_pos p)) - 1)
      with (Z.succ (Z.pos (digits2_pos p) - 1)) by lia.
    rewrite !Z.pow_succ_r by lia. lia.
  - rewrite Pos2Z.inj_succ. change (Z.pos p~0) with (2 * Z.pos p).
    replace (Z.succ (Z.pos (digits2_pos p)) - 1)
      with (Z.succ (Z.pos (digits2_pos p) - 1)) by lia.
    rewrite !Z.pow_succ_r by lia. lia.
  - cbn. lia.
Qed.

Lemma digits2_pos_unique (p : positive) (k : Z) :
  0 <= k -> 2 ^ k <= Z.pos p < 2 ^ (k + 1) -> Z.pos (digits2_pos p) = k + 1.
Proof.
  intros Hk Hp. pose proof (digits2_pos_bounds p) as Hd.
  assert (H1 : Z.pos (digits2_pos p) - 1 < k + 1).
  { apply (Z.pow_lt_mono_r_iff 2); lia. }
  assert (H2 : k < Z.pos (digits2_pos p)).
  { apply (Z.pow_lt_mono_r_iff 2); lia. }
  lia.
Qed.

Lemma iter_pos_nat {A : Type} (f : A -> A) (n : positive) :
  forall x : A, SpecFloat.iter_pos f n x = Nat.iter (Pos.to_nat n) f x.
Proof.
  induction n as [n IH | n IH |]; intros x; cbn [SpecFloat.iter_pos].
  - rewrite !IH, Pos2Nat.inj_xI.
    replace (S (2 * Pos.to_nat n)) with (Pos.to_nat n + (Pos.to_nat n + 1))%nat
      by lia.
    rewrite !Nat.iter_add. reflexivity.
  - rewrite !IH, Pos2Nat.inj_xO.
    replace (2 * Pos.to_nat n)%nat with (Pos.to_nat n + Pos.to_nat n)%nat by lia.
    rewrite Nat.iter_add. reflexivity.
  - reflexivity.
Qed.

Lemma shifted_shr_1 (m0 n : Z) (mrs : shr_record) :
  0 <= n -> shifted m0 n mrs -> shifted m0 (n + 1) (shr_1 mrs).
Proof.
  intros Hn (Hm & Hrem & Hr & Hs). unfold shifted.
  rewrite !Z.pow_add_r, !Z.pow_1_r by lia.
  assert (Hu : 0 < 2 ^ n) by (apply Z.pow_pos_nonneg; lia).
  set (u := 2 ^ n) in *.
  destruct mrs as [m r s]. cbn [shr_m shr_r shr_s] in *.
  assert (Hrs : r || s = false <-> m0 - m * u = 0).
  { rewrite orb_false_iff. split.
    - intros [Er Es]. subst r. apply Hs in Es.
      assert (~ u <= 2 * (m0 - m * u)).
      { intros E. apply Hr in E. discriminate. }
      lia.
    - intros E. split.
      + destruct r; [|reflexivity]. destruct Hr as [Hr _].
        specialize (Hr eq_refl). lia.
      + apply Hs. now left. }
  destruct m as [|[p|p|]|p]; cbn [shr_1 shr_m shr_r shr_s]; try lia;
    try change (Z.pos p~1) with (2 * Z.pos p + 1) in *;
    try change (Z.pos p~0) with (2 * Z.pos p) in *;
    repeat split; try lia; try discriminate;
    try (intros E; apply Hrs in E; lia); intros E; apply Hrs; lia.
Qed.

Lemma shifted_iter (m0 : Z) (n : nat) :
  0 <= m0 ->
  shifted m0 (Z.of_nat n)
          (Nat.iter n shr_1 {| shr_m := m0; shr_r := false; shr_s := false |}).
Proof.
  intros Hm. induction n as [|n IH].
  - unfold shifted. cbn. repeat split; try lia; try discriminate.
  - rewrite Nat2Z.inj_succ, <- Z.add_1_r. cbn [Nat.iter].
    apply shifted_shr_1; [lia | exact IH].
Qed.

(** Rounding to nearest after [n] shifts stays within half of [2 ^ n]. *)
Lemma round_nearest_even_bound (m0 n : Z) (mrs : shr_record) :
  0 <= n -> shifted m0 n mrs ->
  let r := round_nearest_even (shr_m mrs) (loc_of_shr_record mrs) in
  shr_m mrs <= r <= shr_m mrs + 1
  /\ 2 * Z.abs (r * 2 ^ n - m0) <= 2 ^ n.
Proof.
  intros Hn (Hm & Hrem & Hr & Hs).
  assert (Hu : 0 < 2 ^ n) by (apply Z.pow_pos_nonneg; lia).
  set (u := 2 ^ n) in *.
  destruct mrs as [m r s]. cbn [shr_m shr_r shr_s] in *.
  destruct r, s; cbn [loc_of_shr_record round_nearest_even].
  - destruct Hr as [Hr _]. specialize (Hr eq_refl).
    assert (m0 - m * u <> 0 /\ 2 * (m0 - m * u) <> u).
    { split; intros E; assert (true = false) by (apply Hs; lia); discriminate. }
    split; lia.
  - destruct Hr as [Hr _]. specialize (Hr eq_refl).
    destruct Hs as [Hs _]. specialize (Hs eq_refl).
    destruct (Z.even m); split; lia.
  - assert (~ u <= 2 * (m0 - m * u)).
    { intros E. apply Hr in E. discriminate. }
    split; lia.
  - assert (~ u <= 2 * (m0 - m * u)).
    { intros E. apply Hr in E. discriminate. }
    split; lia.
Qed.

Lemma shr_fexp_canonical (r : positive) (e : Z) :
  Z.pos (digits2_pos r) = 24 -> -149 <= e ->
  shr_fexp 24 128 (Z.pos r) e loc_Exact
  = ({| shr_m := Z.pos r; shr_r := false; shr_s := false |}, e).
Proof.
  intros Hd He. unfold shr_fexp. cbn [Zdigits2]. rewrite Hd.
  replace (fexp 24 128 (24 + e) - e) with 0 by (unfold fexp, emin; lia).
  reflexivity.
Qed.

Lemma shr_fexp_carry (e : Z) :
  -149 <= e ->
  shr_fexp 24 128 16777216 e loc_Exact
  = ({| shr_m := 8388608; shr_r := false; shr_s := false |}, e + 1).
Proof.
  intros He. unfold shr_fexp.
  change (Zdigits2 16777216) with 25.
  replace (fexp 24 128 (25 + e) - e) with 1 by (unfold fexp, emin; lia).
  reflexivity.
Qed.

(** Rounding a mantissa of [d >= 24] digits to binary32: the result has 24
    digits, and is within half a unit in the last place of the input. *)
Lemma binary_round_aux_bound (P : positive) (e d : Z) :
  Z.pos (digits2_pos P) = d -> 24 <= d ->
  -149 <= e + d - 24 -> e + d - 24 < 104 ->
  exists (R : positive) (n : Z),
    binary_round_aux 24 128 false (Z.pos P) e loc_Exact
    = S754_finite false R (e + n)
    /\ 2 ^ 23 <= Z.pos R < 2 ^ 24
    /\ d - 24 <= n <= d - 23
    /\ 2 * Z.abs (Z.pos R * 2 ^ n - Z.pos P) <= 2 ^ n.
Proof.
  intros Hd Hd24 Hlo Hhi.
  pose proof (digits2_pos_bounds P) as HP. rewrite Hd in HP.
  set (k := d - 24).
  assert (Hk : 0 <= k) by (subst k; lia).
  assert (Hpow : 2 ^ d = 2 ^ 24 * 2 ^ k /\ 2 ^ (d - 1) = 2 ^ 23 * 2 ^ k).
  { split; rewrite <- Z.pow_add_r by lia; f_equal; subst k; lia. }
  destruct Hpow as [Hpd Hpd1]. rewrite Hpd, Hpd1 in HP.
  assert (Hu : 0 < 2 ^ k) by (apply Z.pow_pos_nonneg; lia).
  (* the first shift *)
  assert (Hfirst : exists mrs,
            shr_fexp 24 128 (Z.pos P) e loc_Exact = (mrs, e + k)
            /\ shifted (Z.pos P) k mrs).
  { unfold shr_fexp. cbn [Zdigits2]. rewrite Hd.
    replace (fexp 24 128 (d + e) - e) with k by (unfold fexp, emin; subst k; lia).
    cbn [shr_record_of_loc].
    destruct k as [|kp|kp] eqn:Ek; [| |lia].
    - eexists. split; [cbn [shr]; now rewrite Z.add_0_r|].
      apply (shifted_iter (Z.pos P) 0). lia.
    - eexists. split; [cbn [shr]; reflexivity|].
      rewrite iter_pos_nat. rewrite <- (positive_nat_Z kp).
      apply shifted_iter. lia. }
  destruct Hfirst as (mrs & Hshr & Hinv).
  pose proof (round_nearest_even_bound _ _ _ Hk Hinv) as [Hr Hb].
  cbv zeta in Hr, Hb.
  destruct Hinv as (Hm & Hrem & _).
  set (r0 := round_nearest_even (shr_m mrs) (loc_of_shr_record mrs)) in *.
  set (u := 2 ^ k) in *.
  assert (Hm' : 2 ^ 23 <= shr_m mrs < 2 ^ 24) by nia.
  unfold binary_round_aux. rewrite Hshr. fold r0.
  destruct (Z.eq_dec r0 (2 ^ 24)) as [E | Hne].
  - (* the rounded mantissa needs one more shift *)
    rewrite E. change (2 ^ 24) with 16777216.
    rewrite shr_fexp_carry by lia. cbn [shr_m].
    replace (e + k + 1 <=? 128 - 24) with true by (symmetry; apply Z.leb_le; lia).
    exists 8388608%positive, (k + 1). split; [f_equal; lia|].
    split; [vm_compute; split; [discriminate | reflexivity]|].
    split; [subst k; lia|].
    rewrite Z.pow_add_r, Z.pow_1_r by lia. fold u.
    change (2 ^ 24) with 16777216 in E. lia.
  - destruct r0 as [|r|r] eqn:Er; [lia| |lia].
    rewrite shr_fexp_canonical;
      [|apply (digits2_pos_unique r 23); lia|lia].
    cbn [shr_m].
    replace (e + k <=? 128 - 24) with true by (symmetry; apply Z.leb_le; lia).
    exists r, k. split; [reflexivity|]. split; [lia|]. split; [subst k; lia|].
    exact Hb.
Qed.

Lemma binary_round_aux_canonical (m : positive) (e : Z) :
  Z.pos (digits2_pos m) = 24 -> -149 <= e <= 104 ->
  binary_round_aux 24 128 false (Z.pos m) e loc_Exact = S754_finite false m e.
Proof.
  intros Hd He. unfold binary_round_aux.
  rewrite shr_fexp_canonical by (assumption || lia).
  cbn [shr_m shr_r shr_s loc_of_shr_record round_nearest_even].
  rewrite shr_fexp_canonical by (assumption || lia).
  cbn [shr_m].
  replace (e <=? 128 - 24) with true by (symmetry; apply Z.leb_le; lia).
  reflexivity.
Qed.

(** An [int] below [2 ^ 24] converts without rounding: the mantissa is the
    number shifted to 24 digits. *)
Lemma float_of_int_canonical (z : Z) :
  1 <= z < 2 ^ 24 ->
  exists (m : positive) (a : Z),
    float_of_int z = S754_finite false m (- a)
    /\ 0 <= a <= 23
    /\ Z.pos m = z * 2 ^ a
    /\ 2 ^ 23 <= Z.pos m < 2 ^ 24.
Proof.
  intros Hz. destruct z as [|p|p]; try lia.
  unfold float_of_int, float_prec, float_emax, binary_normalize, binary_round.
  pose proof (digits2_pos_bounds p) as HP.
  set (d := Z.pos (digits2_pos p)) in *.
  assert (Hd1 : 1 <= d) by (subst d; lia).
  assert (Hd24 : d - 1 < 24).
  { apply (Z.pow_lt_mono_r_iff 2); lia. }
  replace (fexp 24 128 (d + 0)) with (d - 24) by (unfold fexp, emin; lia).
  unfold shl_align.
  destruct (d - 24 - 0) as [|k|k] eqn:Ek; [| lia |].
  - assert (d = 24) by lia.
    rewrite binary_round_aux_canonical by (assumption || lia).
    exists p, 0. change (- 0) with 0. rewrite Z.pow_0_r, Z.mul_1_r.
    replace d with 24 in HP by lia. repeat split; try lia.
  - assert (Hk : Z.pos k = 24 - d) by lia.
    assert (Hmz : Z.pos (Pos.iter xO p k) = Z.pos p * 2 ^ (24 - d)).
    { rewrite <- Hk. change (Pos.iter xO p k) with (shift_pos k p).
      rewrite shift_pos_correct. change (Z.pow_pos 2 k) with (2 ^ Z.pos k).
      lia. }
    assert (Hu : 0 < 2 ^ (24 - d)) by (apply Z.pow_pos_nonneg; lia).
    assert (H23 : 2 ^ (d - 1) * 2 ^ (24 - d) = 2 ^ 23).
    { rewrite <- Z.pow_add_r by lia. f_equal. lia. }
    assert (H24 : 2 ^ d * 2 ^ (24 - d) = 2 ^ 24).
    { rewrite <- Z.pow_add_r by lia. f_equal. lia. }
    assert (Hrange : 2 ^ 23 <= Z.pos (Pos.iter xO p k) < 2 ^ 24).
    { rewrite Hmz, <- H23, <- H24. split.
      - apply Z.mul_le_mono_nonneg_r; lia.
      - apply Z.mul_lt_mono_pos_r; lia. }
    rewrite binary_round_aux_canonical;
      [| apply (digits2_pos_unique _ 23); lia | lia].
    exists (Pos.iter xO p k), (24 - d).
    split; [f_equal; lia|]. repeat split; lia.
Qed.

(** The binary32 product of two numbers with 24-digit mantissas: a 24-digit
    mantissa within half a unit in the last place of the exact product. *)
Lemma float_mul_bound (mx my : positive) (ex ey : Z) :
  2 ^ 23 <= Z.pos mx < 2 ^ 24 ->
  2 ^ 23 <= Z.pos my < 2 ^ 24 ->
  -172 <= ex + ey <= 50 ->
  exists (R : positive) (n : Z),
    float_mul (S754_finite false mx ex) (S754_finite false my ey)
    = S754_finite false R (ex + ey + n)
    /\ 2 ^ 23 <= Z.pos R < 2 ^ 24
    /\ 23 <= n <= 25
    /\ 2 * Z.abs (Z.pos R * 2 ^ n - Z.pos mx * Z.pos my) <= 2 ^ n.
Proof.
  intros Hx Hy He. unfold float_mul, float_prec, float_emax, SFmul.
  cbn [xorb].
  pose proof (digits2_pos_bounds (mx * my)) as HP.
  set (d := Z.pos (digits2_pos (mx * my))) in *.
  rewrite Pos2Z.inj_mul in HP.
  assert (H46 : 2 ^ 46 <= Z.pos mx * Z.pos my < 2 ^ 48).
  { change (2 ^ 46) with (2 ^ 23 * 2 ^ 23). change (2 ^ 48) with (2 ^ 24 * 2 ^ 24).
    change (2 ^ 23) with 8388608 in *. change (2 ^ 24) with 16777216 in *. nia. }
  assert (Hd47 : 46 < d).
  { apply (Z.pow_lt_mono_r_iff 2); lia. }
  assert (Hd48 : d - 1 < 48).
  { apply (Z.pow_lt_mono_r_iff 2); lia. }
  destruct (binary_round_aux_bound (mx * my) (ex + ey) d eq_refl)
    as (R & n & Heq & HR & Hn & Hb); try lia.
  exists R, n. rewrite Pos2Z.inj_mul in Hb. repeat split; try assumption; lia.
Qed.

(** Comparing two positive binary32 numbers with 24-digit mantissas
    compares their values. *)
Lemma float_le_canonical (m1 m2 : positive) (e1 e2 K : Z) :
  2 ^ 23 <= Z.pos m1 < 2 ^ 24 ->
  2 ^ 23 <= Z.pos m2 < 2 ^ 24 ->
  0 <= e1 + K -> 0 <= e2 + K ->
  float_le (S754_finite false m1 e1) (S754_finite false m2 e2)
  = (Z.pos m1 * 2 ^ (e1 + K) <=? Z.pos m2 * 2 ^ (e2 + K)).
Proof.
  intros H1 H2 HK1 HK2. unfold float_le, SFleb, SFcompare.
  change (2 ^ 23) with 8388608 in *. change (2 ^ 24) with 16777216 in *.
  destruct (Z.compare_spec e1 e2) as [E | E | E].
  - subst e2. change (PosDef.Pos.compare_cont Eq m1 m2) with (Z.pos m1 ?= Z.pos m2).
    assert (Hu : 0 < 2 ^ (e1 + K)) by (apply Z.pow_pos_nonneg; lia).
    destruct (Z.compare_spec (Z.pos m1) (Z.pos m2)) as [E | E | E];
      symmetry; [apply Z.leb_le | apply Z.leb_le | apply Z.leb_gt]; nia.
  - symmetry. apply Z.leb_le.
    replace (e2 + K) with ((e1 + K) + (e2 - e1)) by lia.
    rewrite (Z.pow_add_r 2 (e1 + K) (e2 - e1)) by lia.
    assert (Hu : 0 < 2 ^ (e1 + K)) by (apply Z.pow_pos_nonneg; lia).
    assert (Hv : 2 ^ 1 <= 2 ^ (e2 - e1)) by (apply Z.pow_le_mono_r; lia).
    change (2 ^ 1) with 2 in Hv. rewrite Z.mul_assoc.
    assert (H3 : Z.pos m1 * 2 ^ (e1 + K) <= Z.pos m2 * 2 ^ (e1 + K) * 2) by nia.
    assert (H4 : 0 < Z.pos m2 * 2 ^ (e1 + K)) by nia.
    nia.
  - symmetry. apply Z.leb_gt.
    replace (e1 + K) with ((e2 + K) + (e1 - e2)) by lia.
    rewrite (Z.pow_add_r 2 (e2 + K) (e1 - e2)) by lia.
    assert (Hu : 0 < 2 ^ (e2 + K)) by (apply Z.pow_pos_nonneg; lia).
    assert (Hv : 2 ^ 1 <= 2 ^ (e1 - e2)) by (apply Z.pow_le_mono_r; lia).
    change (2 ^ 1) with 2 in Hv. rewrite Z.mul_assoc.
    assert (H3 : Z.pos m2 * 2 ^ (e2 + K) < Z.pos m1 * 2 ^ (e2 + K) * 2) by nia.
    assert (H4 : 0 < Z.pos m1 * 2 ^ (e2 + K)) by nia.
    nia.
Qed.

(** Below [2 ^ 24] the expected duration converts to binary32 exactly, and
    the rounded product with [0.10f] lies between the whole number of
    microseconds within ten per cent and the next one. *)
Lemma percentage_boundary_exact (expected : Z) :
  10 <= expected < 2 ^ 24 ->
  isWithinPercentageTolerance (expected + expected / 10) expected
                              PERCENTAGE_TOLERANCE = true
  /\ isWithinPercentageTolerance (expected + expected / 10 + 1) expected
                                 PERCENTAGE_TOLERANCE = false.
Proof.
  intros He. change (2 ^ 24) with 16777216 in He.
  set (q := expected / 10).
  assert (Hq : 10 * q <= expected <= 10 * q + 9)
    by (subst q; Z.div_mod_to_equations; lia).
  assert (Hq1 : 1 <= q <= 1677721) by lia.
  unfold isWithinPercentageTolerance.
  destruct (Z.eqb_spec expected 0) as [|_]; [lia|].
  replace (expected + q - expected) with q by lia.
  replace (expected + q + 1 - expected) with (q + 1) by lia.
  rewrite !int_wrap_id by lia. unfold abs.
  destruct (Z.gtb_spec q 0); [|lia]. destruct (Z.gtb_spec (q + 1) 0); [|lia].
  destruct (float_of_int_canonical expected) as (me & ae & Ee & Hae & Hme & Hre);
    [change (2 ^ 24) with 16777216; lia|].
  destruct (float_of_int_canonical q) as (mq & aq & Eq0 & Haq & Hmq & Hrq);
    [change (2 ^ 24) with 16777216; lia|].
  destruct (float_of_int_canonical (q + 1))
    as (mq1 & aq1 & Eq1 & Haq1 & Hmq1 & Hrq1);
    [change (2 ^ 24) with 16777216; lia|].
  rewrite Ee, Eq0, Eq1. unfold PERCENTAGE_TOLERANCE.
  destruct (float_mul_bound me 13421773 (- ae) (-27)) as (R & n & Em & HR & Hn & Hb);
    [assumption | vm_compute; split; [discriminate | reflexivity] | lia |].
  rewrite Em.
  rewrite (float_le_canonical mq R (- aq) (- ae + -27 + n) 27),
          (float_le_canonical mq1 R (- aq1) (- ae + -27 + n) 27)
    by (assumption || lia).
  rewrite Hmq, Hmq1, <- !Z.mul_assoc, <- !Z.pow_add_r by lia.
  replace (aq + (- aq + 27)) with 27 by lia.
  replace (aq1 + (- aq1 + 27)) with 27 by lia.
  replace (- ae + -27 + n + 27) with (n - ae) by lia.
  (* the product against the unit of its last place *)
  set (U := 2 ^ (n - ae)).
  assert (HU0 : 0 < U) by (apply Z.pow_pos_nonneg; lia).
  assert (HA0 : 0 < 2 ^ ae) by (apply Z.pow_pos_nonneg; lia).
  assert (HUA : 2 ^ n = U * 2 ^ ae).
  { subst U. rewrite <- Z.pow_add_r by lia. f_equal. lia. }
  assert (HU : 2 * Z.abs (Z.pos R * U - expected * 13421773) <= U).
  { rewrite Hme, HUA in Hb.
    replace (Z.pos R * (U * 2 ^ ae) - expected * 2 ^ ae * 13421773)
      with ((Z.pos R * U - expected * 13421773) * 2 ^ ae) in Hb by ring.
    rewrite Z.abs_mul, (Z.abs_eq (2 ^ ae)), Z.mul_assoc in Hb by lia.
    now apply Z.mul_le_mono_pos_r in Hb. }
  change (2 ^ 23) with 8388608 in HR. change (2 ^ 24) with 16777216 in HR.
  assert (Ht : n - ae <= 24).
  { destruct (Z_le_gt_dec (n - ae) 24) as [|Hgt]; [assumption|exfalso].
    assert (H25 : 2 ^ 25 <= U) by (apply Z.pow_le_mono_r; lia).
    change (2 ^ 25) with 33554432 in H25.
    assert (16777215 * U <= (2 * Z.pos R - 1) * U)
      by (apply Z.mul_le_mono_nonneg_r; lia).
    lia. }
  assert (HU24 : U <= 2 ^ 24) by (apply Z.pow_le_mono_r; lia).
  change (2 ^ 24) with 16777216 in HU24.
  set (W := 2 ^ (27 - (n - ae))).
  assert (HW : 2 ^ 27 = W * U).
  { subst W U. rewrite <- Z.pow_add_r by lia. f_equal. lia. }
  assert (H27 : 2 ^ 27 = 134217728) by reflexivity.
  split.
  - apply Z.leb_le. rewrite HW, Z.mul_assoc.
    apply Z.mul_le_mono_nonneg_r; [lia|].
    assert (Hpos : 0 < (2 * (Z.pos R - q * W) + 1) * U).
    { replace ((2 * (Z.pos R - q * W) + 1) * U)
        with (2 * (Z.pos R * U) - 2 * q * (W * U) + U) by ring.
      rewrite <- HW, H27. lia. }
    apply Z.mul_pos_cancel_r in Hpos; lia.
  - apply Z.leb_gt. rewrite H27. lia.
Qed.

(** Where the boundaries fail.  The subtraction of the absolute check
    overflows for a tolerance of INT_MAX: with an expected value of -1 the
    value one beyond the boundary, INT_MAX, is accepted.  The percentage
    check compares in binary32: at 16777219 us, the first duration that
    does not convert exactly, the value one microsecond beyond ten per cent
    is accepted, as it is at 1000000000 us; at 33554450 us the value
    exactly ten per cent above is rejected. *)
Lemma tolerance_boundaries_fail_out_of_range :
  isWithinTolerance (-1 + INT_MAX + 1) (-1) INT_MAX = true
  /\ isWithinPercentageTolerance (16777219 + 16777219 / 10 + 1) 16777219
                                 PERCENTAGE_TOLERANCE = true
  /\ 33554450 / 10 * 10 = 33554450
  /\ isWithinPercentageTolerance (33554450 + 33554450 / 10) 33554450
                                 PERCENTAGE_TOLERANCE = false
  /\ isWithinPercentageTolerance (1000000000 + 1000000000 / 10 + 1) 1000000000
                                 PERCENTAGE_TOLERANCE = true.
Proof. vm_compute. repeat split; reflexivity. Qed.

(** C8 (amended).  On [int] values the absolute check accepts
    [expected + tolerance] for every tolerance from 0 to INT_MAX, and
    rejects [expected + tolerance + 1] for every tolerance from 0 to
    INT_MAX - 1.  With the ten per cent tolerance [0.10f] and an expected
    duration from 0 to 16777218 us, the percentage check accepts
    [expected + expected/10], rounded down to whole microseconds, and
    rejects the next microsecond. *)
Theorem tolerance_checks_are_tight_at_the_boundary :
  (forall expected tolerance : Z,
     is_int expected -> is_int (expected + tolerance) ->
     0 <= tolerance <= INT_MAX ->
     isWithinTolerance (expected + tolerance) expected tolerance = true)
  /\ (forall expected tolerance : Z,
        is_int expected -> is_int (expected + tolerance + 1) ->
        0 <= tolerance < INT_MAX ->
        isWithinTolerance (expected + tolerance + 1) expected tolerance = false)
  /\ (forall expected : Z,
        0 <= expected <= 16777218 ->
        isWithinPercentageTolerance (expected + expected / 10) expected
                                    PERCENTAGE_TOLERANCE = true
        /\ isWithinPercentageTolerance (expected + expected / 10 + 1) expected
                                       PERCENTAGE_TOLERANCE = false).
Proof.
  split; [|split].
  - intros expected tolerance _ _ Htol. unfold INT_MAX in Htol.
    apply isWithinTolerance_true; lia.
  - intros expected tolerance _ _ Htol. unfold INT_MAX in Htol.
    apply isWithinTolerance_false. lia.
  - intros expected Hexp.
    assert (Hchecked : forall p lo,
              forallFrom p lo percentageBoundaryHolds = true ->
              lo <= expected < lo + Z.pos p ->
              isWithinPercentageTolerance (expected + expected / 10) expected
                                          PERCENTAGE_TOLERANCE = true
              /\ isWithinPercentageTolerance (expected + expected / 10 + 1)
                                             expected PERCENTAGE_TOLERANCE
                 = false).
    { intros p lo Hall Hin.
      pose proof (forallFrom_spec percentageBoundaryHolds p lo Hall expected Hin)
        as H.
      unfold percentageBoundaryHolds in H.
      now rewrite andb_true_iff, negb_true_iff in H. }
    destruct (Z_lt_ge_dec expected 10) as [Hshort | Hlong].
    + apply (Hchecked 10%positive 0 percentageBoundary_short). lia.
    + destruct (Z_lt_ge_dec expected 16777216) as [Hexact | Hrounded].
      * apply percentage_boundary_exact. change (2 ^ 24) with 16777216. lia.
      * apply (Hchecked 3%positive 16777216 percentageBoundary_rounded). lia.
Qed.

(** The NEC bit pulse, 563 us: 763 is within 200 us and 764 is not; 619 is
    within ten per cent and 620 is not. *)
Lemma tolerance_boundary_example :
  isWithinTolerance (563 + 200) 563 200 = true
  /\ isWithinTolerance (563 + 200 + 1) 563 200 = false
  /\ (isWithinPercentageTolerance (563 + 563 / 10) 563 PERCENTAGE_TOLERANCE = true
      /\ isWithinPercentageTolerance (563 + 563 / 10 + 1) 563
                                     PERCENTAGE_TOLERANCE = false).
Proof.
  split; [|split].
  - apply (proj1 tolerance_checks_are_tight_at_the_boundary 563 200);
      unfold is_int, INT_MIN, INT_MAX; lia.
  - apply (proj1 (proj2 tolerance_checks_are_tight_at_the_boundary) 563 200);
      unfold is_int, INT_MIN, INT_MAX; lia.
  - apply (proj2 (proj2 tolerance_checks_are_tight_at_the_boundary) 563). lia.
Defined.

(** ** Button names *)

Lemma digitValue_digitChar (d : Z) :
  0 <= d < 36 -> digitValue (digitChar d) = d.
Proof.
  intros Hd.
  assert (Hcheck : forallb (fun n => digitValue (digitChar (Z.of_nat n))
                                     =? Z.of_nat n) (seq 0 36) = true)
    by (vm_compute; reflexivity).
  rewrite forallb_forall in Hcheck.
  specialize (Hcheck (Z.to_nat d)). rewrite Z2Nat.id in Hcheck by lia.
  apply Z.eqb_eq, Hcheck, in_seq. lia.
Qed.

Lemma utoaDigits_value (radix : Z) (fuel : nat) :
  2 <= radix <= 36 ->
  forall (value : Z) (acc : string) (before : Z),
  0 <= value < radix ^ Z.of_nat fuel ->
  (fuel <> 0)%nat ->
  digitsValue radix before (utoaDigits fuel radix value acc)
  = digitsValue radix (before * radix ^ Z.of_nat (String.length
        (utoaDigits fuel radix value "")) + value) acc
  /\ (1 <= String.length (utoaDigits fuel radix value "") <= fuel)%nat
  /\ String.length (utoaDigits fuel radix value acc)
     = (String.length (utoaDigits fuel radix value "") + String.length acc)%nat.
Proof.
  intros Hr. induction fuel as [|fuel IH]; intros value acc before Hv Hf;
    [contradiction|].
  cbn [utoaDigits].
  pose proof (Z.mod_pos_bound value radix ltac:(lia)) as Hmod.
  pose proof (Z.div_mod value radix ltac:(lia)) as Hdm.
  destruct (Z.eqb_spec (value / radix) 0) as [Hq | Hq].
  - cbn [digitsValue String.length]. rewrite digitValue_digitChar by lia.
    split; [|split; [lia | reflexivity]].
    f_equal. rewrite Z.pow_1_r. lia.
  - assert (Hq' : 0 <= value / radix < radix ^ Z.of_nat fuel).
    { split; [apply Z.div_pos; lia|].
      apply Z.div_lt_upper_bound; [lia|].
      rewrite Nat2Z.inj_succ, Z.pow_succ_r in Hv by lia. lia. }
    assert (Hfuel : (fuel <> 0)%nat).
    { intros ->. cbn in Hq'. lia. }
    destruct (IH (value / radix) (String (digitChar (value mod radix)) acc)
                 before Hq' Hfuel) as (E1 & L1 & L2).
    destruct (IH (value / radix) (String (digitChar (value mod radix)) "")
                 before Hq' Hfuel) as (_ & _ & L3).
    rewrite E1, L3. cbn [digitsValue String.length].
    rewrite digitValue_digitChar by lia.
    split; [|split; [lia | rewrite L2; cbn [String.length]; lia]].
    f_equal.
    replace (String.length (utoaDigits fuel radix (value / radix) "") + 1)%nat
      with (S (String.length (utoaDigits fuel radix (value / radix) ""))) by lia.
    rewrite Nat2Z.inj_succ, Z.pow_succ_r by lia. lia.
Qed.

Lemma utoa_length_radix6 (value : Z) :
  0 <= value < 2 ^ 32 -> (String.length (utoa value 6) <= 13)%nat.
Proof.
  intros Hv. unfold utoa.
  assert (H13 : forall (fuel : nat) (v : Z),
            0 <= v < 6 ^ Z.of_nat fuel ->
            forall big : nat, (fuel <= big)%nat ->
            (String.length (utoaDigits big 6 v "") <= Nat.max fuel 1)%nat).
  { induction fuel as [|fuel IH]; intros v Hlt big Hbig.
    - cbn in Hlt. assert (v = 0) as -> by lia.
      destruct big; [cbn; lia|]. cbn [utoaDigits].
      change (0 / 6 =? 0) with true. cbn. lia.
    - destruct big as [|big]; [lia|]. cbn [utoaDigits].
      destruct (Z.eqb_spec (v / 6) 0) as [Hq | Hq]; [cbn; lia|].
      assert (Hq' : 0 <= v / 6 < 6 ^ Z.of_nat fuel).
      { split; [apply Z.div_pos; lia|].
        apply Z.div_lt_upper_bound; [lia|].
        rewrite Nat2Z.inj_succ, Z.pow_succ_r in Hlt by lia. lia. }
      assert (Hbig' : (big <> 0)%nat).
      { intros ->. destruct fuel; [cbn in Hq'; lia | lia]. }
      destruct (utoaDigits_value 6 big ltac:(lia) (v / 6)
                  (String (digitChar (v mod 6)) "") 0) as (_ & _ & L).
      { split; [lia|]. apply Z.lt_le_trans with (6 ^ Z.of_nat fuel); [lia|].
        apply Z.pow_le_mono_r; lia. }
      { assumption. }
      rewrite L. cbn [String.length].
      specialize (IH (v / 6) Hq' big ltac:(lia)).
      destruct fuel; [cbn in Hq'; lia | lia]. }
  apply (H13 13%nat value); [|lia].
  change (6 ^ Z.of_nat 13) with 13060694016. lia.
Qed.

Lemma string_length_append (a b : string) :
  String.length (a +:+ b) = (String.length a + String.length b)%nat.
Proof.
  induction a as [|c a IH]; [reflexivity|].
  change (String c a +:+ b) with (String c (a +:+ b)).
  cbn [String.length]. now rewrite IH.
Qed.

(** X1.  Every button of a table is found under its command code: no two
    entries of a table share a code. *)
Theorem listed_buttons_are_found (brand : RemoteBrand) (b : IrButton) :
  b ∈ buttonTable brand ->
  getButtonName brand (commandCode b) = name b.
Proof.
  intros Hb.
  assert (Hcheck : forall br,
            forallb (fun x => String.eqb (getButtonName br (commandCode x))
                                         (name x))
                    (buttonTable br) = true).
  { intros []; vm_compute; reflexivity. }
  specialize (Hcheck brand). rewrite forallb_forall in Hcheck.
  apply String.eqb_eq, Hcheck, list_elem_of_In, Hb.
Qed.

Lemma listed_buttons_example :
  getButtonName SONY 21 = "sceptrePower".
Proof.
  apply (listed_buttons_are_found SONY
           {| commandCode := 21; name := "sceptrePower" |}).
  apply list_elem_of_In. vm_compute. tauto.
Defined.

Lemma utoa_value_radix6 (value : Z) :
  0 <= value < 2 ^ 32 -> digitsValue 6 0 (utoa value 6) = value.
Proof.
  intros Hv. unfold utoa.
  destruct (utoaDigits_value 6 32 ltac:(lia) value "" 0) as (E & _ & _);
    [|discriminate | rewrite E; cbn [digitsValue]; lia].
  split; [lia|]. change (6 ^ Z.of_nat 32) with 7958661109946400884391936. lia.
Qed.

Lemma itoa_radix6 (code : Z) : itoa code 6 = utoa (wrap32 code) 6.
Proof.
  unfold itoa.
  generalize (utoa (wrap32 code) 6), ("-" +:+ utoa (wrap32 (- code)) 6).
  intros a b. reflexivity.
Qed.

Lemma getButtonName_unlisted (brand : RemoteBrand) (code : Z) :
  findButton (buttonTable brand) code = None ->
  getButtonName brand code
  = (match brand with
     | UNKNOWN => "CMD_"
     | _ => brandToString brand +:+ "_CMD_"
     end) +:+ itoa code 6.
Proof.
  intros Hmiss. unfold getButtonName. fold (buttonTable brand). rewrite Hmiss.
  generalize (itoa code 6). intros digits. destruct brand; reflexivity.
Qed.

(** X2.  For a command code that is in no table the name is the brand prefix
    followed by the code written in radix 6 (not 10): read back in radix 6
    the digits give the code, taken as [unsigned].  The number needs at
    most 13 digits, so [numBuf] (15 bytes) and [unknownCmdBuf] (32 bytes)
    are never overrun. *)
Theorem unlisted_button_name_is_radix_6 (brand : RemoteBrand) (code : Z) :
  is_int code ->
  findButton (buttonTable brand) code = None ->
  exists digits : string,
    getButtonName brand code
    = (match brand with
       | UNKNOWN => "CMD_"
       | _ => brandToString brand +:+ "_CMD_"
       end) +:+ digits
    /\ digitsValue 6 0 digits = wrap32 code
    /\ (String.length digits + 1 <= 15)%nat
    /\ (String.length (getButtonName brand code) + 1 <= 32)%nat.
Proof.
  intros Hint Hmiss. unfold is_int, INT_MIN, INT_MAX in Hint.
  assert (Hw : 0 <= wrap32 code < 2 ^ 32).
  { unfold wrap32. apply Z.mod_pos_bound. lia. }
  pose proof (utoa_length_radix6 _ Hw) as Hlen.
  pose proof (utoa_value_radix6 _ Hw) as Hval.
  rewrite (getButtonName_unlisted brand code Hmiss), itoa_radix6.
  revert Hlen Hval. generalize (utoa (wrap32 code) 6). intros digits Hlen Hval.
  exists digits. split; [reflexivity|]. split; [exact Hval|]. split; [lia|].
  rewrite string_length_append.
  destruct brand; vm_compute (String.length (_ +:+ "_CMD_"));
    vm_compute (String.length "CMD_"); lia.
Qed.

Lemma unlisted_button_example :
  getButtonName SONY 10 = "SONY_CMD_14"
  /\ exists digits : string,
       getButtonName JVC (-1) = "JVC_CMD_" +:+ digits
       /\ digitsValue 6 0 digits = 4294967295.
Proof.
  split; [vm_compute; reflexivity|].
  destruct (unlisted_button_name_is_radix_6 JVC (-1)) as (d & E & V & _).
  - unfold is_int, INT_MIN, INT_MAX. lia.
  - vm_compute. reflexivity.
  - exists d. split; [exact E | exact V].
Defined.

(** ** The pair extractor *)

Lemma land_mask_mod (v : Z) : Z.land v TIME_VALUE_MASK = v mod 2 ^ 31.
Proof. change TIME_VALUE_MASK with (Z.ones 31). apply Z.land_ones. lia. Qed.

Lemma land_mask_range (v : Z) : 0 <= Z.land v TIME_VALUE_MASK < 2 ^ 31.
Proof. rewrite land_mask_mod. apply Z.mod_pos_bound. lia. Qed.

Lemma deltaTime_mod (a b : Z) :
  0 <= a < 2 ^ 31 -> 0 <= b < 2 ^ 31 ->
  deltaTime a b = (a - b) mod 2 ^ 31.
Proof.
  unfold deltaTime, wrap32, TIME_VALUE_MASK. intros Ha Hb.
  destruct (Z.geb_spec a b) as [Hge | Hlt].
  - rewrite (Z.mod_small (a - b) (2 ^ 32)) by lia.
    rewrite (Z.mod_small (a - b) (2 ^ 31)) by lia. reflexivity.
  - rewrite (Z.mod_small (2147483647 - b) (2 ^ 32)) by lia.
    rewrite (Z.mod_small (2147483647 - b + a) (2 ^ 32)) by lia.
    rewrite (Z.mod_small (2147483647 - b + a + 1) (2 ^ 32)) by lia.
    apply Z.mod_unique with (q := -1); lia.
Qed.

Lemma deltaTime_range (a b : Z) :
  0 <= a < 2 ^ 31 -> 0 <= b < 2 ^ 31 ->
  0 <= deltaTime a b < 2 ^ 31
  /\ int_of_uint32 (deltaTime a b) = deltaTime a b.
Proof.
  intros Ha Hb. rewrite deltaTime_mod by assumption.
  pose proof (Z.mod_pos_bound (a - b) (2 ^ 31) ltac:(lia)) as H.
  split; [exact H|]. unfold int_of_uint32.
  destruct (Z.ltb_spec ((a - b) mod 2 ^ 31) (2 ^ 31)); [reflexivity | lia].
Qed.

Lemma take_insert_snoc {A : Type} (l : list A) (n : nat) (x : A) :
  (n < length l)%nat -> take (S n) (<[n := x]> l) = take n l ++ [x].
Proof.
  intros Hn. rewrite (take_S_r _ _ x).
  - now rewrite take_insert_ge by lia.
  - now apply list_lookup_insert_eq.
Qed.

Lemma pairs_iter_inv (localTransitions : list Z) (st : PairState) (i : nat) :
  PairInv st ->
  (pairCount st < IR_LIB_MAX_TRANSITIONS / 2)%nat ->
  length (pairBuffer st) = (IR_LIB_MAX_TRANSITIONS / 2)%nat ->
  PairInv (pairs_iter localTransitions st i)
  /\ deltasConsumed (pairs_iter localTransitions st i) = deltasConsumed st + 1.
Proof.
  intros [Hprev Hpulse Hcount Hpairs] Hroom Hlen.
  pose proof (land_mask_range (localTransitions !!! i)) as Hcur.
  destruct (deltaTime_range _ _ Hcur Hprev) as [Hd Hint].
  unfold pairs_iter, deltasConsumed.
  destruct (Z.eqb_spec (currentPulse st) (-1)) as [Hnone | Hsome].
  - cbn [pairCount currentPulse]. rewrite Hint.
    destruct (Z.eqb_spec (deltaTime (Z.land (localTransitions !!! i) TIME_VALUE_MASK)
                                    (previousTimeVal st)) (-1)); [lia|].
    split; [|lia]. split; cbn; try assumption. right. exact Hd.
  - destruct Hpulse as [Hp | Hp]; [contradiction|]. rewrite Hint.
    destruct (Z.gtb_spec (deltaTime (Z.land (localTransitions !!! i) TIME_VALUE_MASK)
                                    (previousTimeVal st))
                         (IR_LIB_IDLE_TIMEOUT_MS * 1000)) as [Hgt | Hle];
      cbn [pairCount currentPulse previousTimeVal pairBuffer];
      (split; [|rewrite Z.eqb_refl; lia]);
      (split; cbn [pairCount currentPulse previousTimeVal pairBuffer];
       [assumption | now left | lia |]);
      rewrite take_insert_snoc by lia;
      (apply Forall_app; split; [assumption|]);
      apply Forall_singleton; split; cbn; try assumption.
    + now left.
    + right. lia.
Qed.

Lemma pairsLoop_inv (localTransitions : list Z) (indices : list nat) :
  forall st : PairState,
  PairInv st ->
  length (pairBuffer st) = (IR_LIB_MAX_TRANSITIONS / 2)%nat ->
  PairInv (pairsLoop localTransitions indices st)
  /\ (deltasConsumed st + Z.of_nat (length indices)
      < 2 * Z.of_nat (IR_LIB_MAX_TRANSITIONS / 2) ->
      deltasConsumed (pairsLoop localTransitions indices st)
      = deltasConsumed st + Z.of_nat (length indices)).
Proof.
  induction indices as [|i rest IH]; intros st Hinv Hlen; cbn [pairsLoop].
  - split; [assumption|]. cbn. lia.
  - destruct (Nat.leb_spec (IR_LIB_MAX_TRANSITIONS / 2) (pairCount st)) as [Hfull | Hroom].
    + split; [assumption|]. intros Hd. exfalso.
      unfold deltasConsumed in Hd. cbn [length] in Hd.
      destruct (currentPulse st =? -1); lia.
    + destruct (pairs_iter_inv localTransitions st i Hinv Hroom Hlen) as [Hinv' Hd'].
      destruct (IH (pairs_iter localTransitions st i) Hinv') as [Hinv'' Hd''].
      { unfold pairs_iter. repeat case_match; cbn; rewrite ?length_insert; assumption. }
      split; [assumption|]. intros Hd. cbn [length] in Hd |- *.
      rewrite Hd'', Hd'; lia.
Qed.

Lemma extracted_pairs_aux
    (buf : list PulseSpacePair) (localTransitions : list Z) (n : nat) :
  length buf = (IR_LIB_MAX_TRANSITIONS / 2)%nat ->
  let '(pairs, pairCount) :=
    _processRawTransitionsToPairs buf localTransitions n in
  (pairCount <= IR_LIB_MAX_TRANSITIONS / 2)%nat
  /\ ((n < 2)%nat -> pairCount = 0%nat)
  /\ ((2 <= n <= IR_LIB_MAX_TRANSITIONS)%nat -> pairCount = (n / 2)%nat)
  /\ Forall (fun p =>
               0 <= pulse p < 2 ^ 31
               /\ (space p = -1 \/ 0 <= space p <= 100000))
            (take pairCount pairs).
Proof.
  intros Hlen. unfold _processRawTransitionsToPairs.
  destruct (Nat.ltb_spec n 2) as [Hsmall | Hbig].
  { split; [|split; [|split]].
    - unfold IR_LIB_MAX_TRANSITIONS. change (300 / 2)%nat with 150%nat. lia.
    - reflexivity.
    - lia.
    - apply Forall_nil_2. }
  match goal with
  | |- context [pairsLoop ?l ?idx ?st0] =>
      destruct (pairsLoop_inv l idx st0) as [Hinv Hd]; [split; cbn | exact Hlen |];
      [apply land_mask_range | now left | lia | apply Forall_nil_2 |];
      pose proof (pairsLoop_length l idx st0) as Hlen';
      set (st := pairsLoop l idx st0) in *
  end.
  cbn [pairBuffer] in Hlen'. rewrite Hlen in Hlen'.
  destruct Hinv as [Hprev Hpulse Hcount Hpairs].
  unfold deltasConsumed in Hd. cbn [pairCount currentPulse] in Hd.
  rewrite length_seq in Hd. change (-1 =? -1) with true in Hd.
  destruct (Z.eqb_spec (currentPulse st) (-1)) as [Hnone | Hsome]; cbn [negb andb].
  - repeat split; try assumption; try lia.
    intros Hn. unfold IR_LIB_MAX_TRANSITIONS in *.
    change (300 / 2)%nat with 150%nat in *.
    specialize (Hd ltac:(lia)).
    apply Nat2Z.inj. rewrite Nat2Z.inj_div. change (Z.of_nat 2) with 2.
    apply Z.div_unique with (r := 1); lia.
  - destruct Hpulse as [Hp | Hp]; [contradiction|].
    destruct (Nat.ltb_spec (pairCount st) (IR_LIB_MAX_TRANSITIONS / 2)) as [Hroom | Hfull].
    + repeat split; try lia.
      * intros Hn. unfold IR_LIB_MAX_TRANSITIONS in *.
        change (300 / 2)%nat with 150%nat in *.
        specialize (Hd ltac:(lia)).
        apply Nat2Z.inj. rewrite Nat2Z.inj_div. change (Z.of_nat 2) with 2.
        apply Z.div_unique with (r := 0); lia.
      * rewrite take_insert_snoc by lia. apply Forall_app. split; [assumption|].
        apply Forall_singleton. split; cbn; [assumption | now left].
    + repeat split; try assumption; try lia.
      intros Hn. exfalso. unfold IR_LIB_MAX_TRANSITIONS in *.
      change (300 / 2)%nat with 150%nat in *.
      specialize (Hd ltac:(lia)). lia.
Qed.

(** X3.  The extractor never yields more than IR_LIB_MAX_TRANSITIONS / 2 pairs.
    From fewer than two transitions it yields none; from [n] transitions,
    [2 <= n <= IR_LIB_MAX_TRANSITIONS], it yields exactly [n / 2], so the
    overflow branches are not taken.  Every pair it yields has a pulse of
    31 bits and a space that is missing (-1) or at most the idle timeout in
    microseconds. *)
Theorem extracted_pairs_count_and_range
    (buf : list PulseSpacePair) (localTransitions : list Z) (n : nat) :
  length buf = (IR_LIB_MAX_TRANSITIONS / 2)%nat ->
  let '(pairs, pairCount) :=
    _processRawTransitionsToPairs buf localTransitions n in
  (pairCount <= IR_LIB_MAX_TRANSITIONS / 2)%nat
  /\ ((n < 2)%nat -> pairCount = 0%nat)
  /\ ((2 <= n <= IR_LIB_MAX_TRANSITIONS)%nat -> pairCount = (n / 2)%nat)
  /\ Forall (fun p =>
               0 <= pulse p < 2 ^ 31
               /\ (space p = -1 \/ 0 <= space p <= 100000))
            (take pairCount pairs).
Proof. apply extracted_pairs_aux. Qed.

Lemma extracted_pairs_example :
  let '(pairs, pairCount) :=
    _processRawTransitionsToPairs (m_pulseSpacePairs new)
                                  [5000; 7400; 8000; 9200; 9800] 5 in
  (pairCount <= IR_LIB_MAX_TRANSITIONS / 2)%nat
  /\ ((5 < 2)%nat -> pairCount = 0%nat)
  /\ ((2 <= 5 <= IR_LIB_MAX_TRANSITIONS)%nat -> pairCount = (5 / 2)%nat)
  /\ Forall (fun p =>
               0 <= pulse p < 2 ^ 31
               /\ (space p = -1 \/ 0 <= space p <= 100000))
            (take pairCount pairs).
Proof.
  apply (extracted_pairs_count_and_range (m_pulseSpacePairs new)
           [5000; 7400; 8000; 9200; 9800] 5).
  reflexivity.
Defined.

Lemma deltaTime_of_times (x y : Z) :
  deltaTime (x mod 2 ^ 31) (y mod 2 ^ 31) = (x - y) mod 2 ^ 31.
Proof.
  rewrite deltaTime_mod by (apply Z.mod_pos_bound; lia).
  now rewrite <- Zminus_mod.
Qed.

Lemma pairsLoop_app (localTransitions : list Z) (a b : list nat) :
  forall st : PairState,
  pairsLoop localTransitions (a ++ b) st
  = pairsLoop localTransitions b (pairsLoop localTransitions a st).
Proof.
  induction a as [|i a IH]; intros st; cbn [pairsLoop app]; [reflexivity|].
  destruct (Nat.leb_spec (IR_LIB_MAX_TRANSITIONS / 2) (pairCount st)) as [Hfull | Hroom].
  - destruct b as [|j b]; [reflexivity|]. cbn [pairsLoop].
    destruct (Nat.leb_spec (IR_LIB_MAX_TRANSITIONS / 2) (pairCount st));
      [reflexivity | lia].
  - apply IH.
Qed.

Lemma edgeTimesAfter_length (t : Z) (fullPairs : list PulseSpacePair) :
  length (edgeTimesAfter t fullPairs) = (2 * length fullPairs)%nat.
Proof.
  revert t. induction fullPairs as [|p rest IH]; intros t; cbn [edgeTimesAfter length];
    [reflexivity|]. rewrite IH. lia.
Qed.

(** The loop over the edges of complete pairs. *)
Lemma pairsLoop_fullPairs (raw : list Z) (fullPairs : list PulseSpacePair) :
  forall (i0 : nat) (T : Z) (st : PairState),
  Forall (fun p => 0 <= pulse p < 2 ^ 31
                   /\ 0 <= space p <= IR_LIB_IDLE_TIMEOUT_MS * 1000) fullPairs ->
  (forall j : nat, (j < 2 * length fullPairs)%nat ->
     carriesTime (raw !!! (i0 + j)%nat) (edgeTimesAfter T fullPairs !!! j)) ->
  previousTimeVal st = T mod 2 ^ 31 ->
  currentPulse st = -1 ->
  (pairCount st + length fullPairs <= IR_LIB_MAX_TRANSITIONS / 2)%nat ->
  length (pairBuffer st) = (IR_LIB_MAX_TRANSITIONS / 2)%nat ->
  let st' := pairsLoop raw (seq i0 (2 * length fullPairs)) st in
  previousTimeVal st' = lastEdgeTime T fullPairs mod 2 ^ 31
  /\ currentPulse st' = -1
  /\ pairCount st' = (pairCount st + length fullPairs)%nat
  /\ length (pairBuffer st') = (IR_LIB_MAX_TRANSITIONS / 2)%nat
  /\ take (pairCount st') (pairBuffer st')
     = take (pairCount st) (pairBuffer st) ++ fullPairs.
Proof.
  induction fullPairs as [|p rest IH]; intros i0 T st Hok Hraw Hprev Hcp Hroom Hlen.
  - cbn. rewrite Nat.add_0_r, app_nil_r. repeat split; assumption.
  - apply Forall_cons in Hok as [[Hp Hs] Hok].
    cbn [length] in *.
    replace (2 * S (length rest))%nat with (S (S (2 * length rest))) in * by lia.
    cbn [seq pairsLoop].
    destruct (Nat.leb_spec (IR_LIB_MAX_TRANSITIONS / 2) (pairCount st)); [lia|].
    pose proof (Hraw 0%nat ltac:(lia)) as H0.
    pose proof (Hraw 1%nat ltac:(lia)) as H1.
    rewrite Nat.add_0_r in H0. rewrite Nat.add_1_r in H1.
    change (carriesTime (raw !!! i0) (T + pulse p)) in H0.
    change (carriesTime (raw !!! S i0) (T + pulse p + space p)) in H1.
    unfold carriesTime in H0, H1.
    (* first edge: the end of the mark *)
    set (st1 := pairs_iter raw st i0).
    assert (E1 : st1 = {| previousTimeVal := (T + pulse p) mod 2 ^ 31;
                          currentPulse := pulse p;
                          pairBuffer := pairBuffer st;
                          pairCount := pairCount st |}).
    { subst st1. unfold pairs_iter. rewrite Hcp, H0, Hprev. cbn [Z.eqb].
      rewrite deltaTime_of_times.
      replace (T + pulse p - T) with (pulse p) by lia.
      rewrite (Z.mod_small (pulse p)) by lia. unfold int_of_uint32.
      destruct (Z.ltb_spec (pulse p) (2 ^ 31)); [reflexivity | lia]. }
    rewrite E1. cbn [pairCount].
    destruct (Nat.leb_spec (IR_LIB_MAX_TRANSITIONS / 2) (pairCount st)); [lia|].
    (* second edge: the end of the space *)
    match goal with
    | |- context [pairs_iter raw ?s (S i0)] => set (st2 := pairs_iter raw s (S i0))
    end.
    assert (E2 : st2 = {| previousTimeVal := (T + pulse p + space p) mod 2 ^ 31;
                          currentPulse := -1;
                          pairBuffer := <[pairCount st := p]> (pairBuffer st);
                          pairCount := S (pairCount st) |}).
    { subst st2. unfold pairs_iter.
      cbn [currentPulse previousTimeVal pairBuffer pairCount].
      rewrite H1, deltaTime_of_times.
      replace (T + pulse p + space p - (T + pulse p)) with (space p) by lia.
      assert (Hs31 : 0 <= space p < 2 ^ 31).
      { unfold IR_LIB_IDLE_TIMEOUT_MS in Hs. lia. }
      rewrite (Z.mod_small (space p)) by exact Hs31.
      destruct (Z.eqb_spec (pulse p) (-1)); [lia|].
      unfold int_of_uint32.
      destruct (Z.ltb_spec (space p) (2 ^ 31)); [|lia].
      destruct (Z.gtb_spec (space p) (IR_LIB_IDLE_TIMEOUT_MS * 1000)); [lia|].
      destruct p. reflexivity. }
    rewrite E2.
    destruct (IH (S (S i0)) (T + pulse p + space p)
                 {| previousTimeVal := (T + pulse p + space p) mod 2 ^ 31;
                    currentPulse := -1;
                    pairBuffer := <[pairCount st := p]> (pairBuffer st);
                    pairCount := S (pairCount st) |})
      as (R1 & R2 & R3 & R4 & R5); try assumption; try reflexivity.
    + intros j Hj. specialize (Hraw (S (S j)) ltac:(lia)).
      replace (i0 + S (S j))%nat with (S (S i0) + j)%nat in Hraw by lia.
      exact Hraw.
    + cbn [pairCount]. lia.
    + cbn [pairBuffer]. now rewrite length_insert.
    + cbn [pairCount pairBuffer lastEdgeTime] in *.
      split; [exact R1|]. split; [exact R2|]. split; [lia|]. split; [exact R4|].
      rewrite R5, take_insert_snoc by lia. now rewrite <- app_assoc.
Qed.

Lemma carriesTime_lookup (raw times : list Z) (i : nat) :
  Forall2 carriesTime raw times ->
  (i < length times)%nat ->
  carriesTime (raw !!! i) (times !!! i).
Proof.
  intros H Hi. pose proof (Forall2_length _ _ _ H) as Hlen.
  destruct (lookup_lt_is_Some_2 raw i ltac:(lia)) as [v Hv].
  destruct (lookup_lt_is_Some_2 times i Hi) as [T HT].
  rewrite (list_lookup_total_correct _ _ _ Hv),
          (list_lookup_total_correct _ _ _ HT).
  exact (Forall2_lookup_lr _ _ _ _ _ _ H Hv HT).
Qed.

Lemma extractor_recovers_durations_aux
    (buf : list PulseSpacePair) (raw : list Z)
    (fullPairs : list PulseSpacePair) (lastPulse t : Z) :
  length buf = (IR_LIB_MAX_TRANSITIONS / 2)%nat ->
  (length fullPairs < IR_LIB_MAX_TRANSITIONS / 2)%nat ->
  Forall (fun p => 0 <= pulse p < 2 ^ 31 /\ 0 <= space p <= 100000) fullPairs ->
  0 <= lastPulse < 2 ^ 31 ->
  Forall2 carriesTime raw (burstTimes t fullPairs lastPulse) ->
  let '(pairs, pairCount) :=
    _processRawTransitionsToPairs buf raw (length raw) in
  pairCount = S (length fullPairs)
  /\ take pairCount pairs
     = fullPairs ++ [ {| pulse := lastPulse; space := -1 |} ].
Proof.
  intros Hbuf Hlen Hok Hq Hraw.
  pose proof (Forall2_length _ _ _ Hraw) as Hn.
  unfold burstTimes in Hn. cbn [length] in Hn.
  rewrite length_app, edgeTimesAfter_length in Hn. cbn [length] in Hn.
  assert (Hat : forall i, (i < 2 * length fullPairs + 2)%nat ->
            carriesTime (raw !!! i) (burstTimes t fullPairs lastPulse !!! i)).
  { intros i Hi. apply carriesTime_lookup; [assumption|].
    unfold burstTimes. cbn [length].
    rewrite length_app, edgeTimesAfter_length. cbn [length]. lia. }
  unfold _processRawTransitionsToPairs.
  destruct (Nat.ltb_spec (length raw) 2); [lia|].
  replace (length raw - 1)%nat with (2 * length fullPairs + 1)%nat by lia.
  rewrite seq_app, pairsLoop_app. cbn [seq Nat.add].
  match goal with
  | |- context [pairsLoop raw (seq 1 _) ?st0] =>
      destruct (pairsLoop_fullPairs raw fullPairs 1 t st0)
        as (R1 & R2 & R3 & R4 & R5);
      [exact Hok | | | reflexivity | cbn [pairCount]; lia | exact Hbuf |];
      [| |set (st1 := pairsLoop raw (seq 1 (2 * length fullPairs)) st0) in *]
  end.
  - intros j Hj. specialize (Hat (S j) ltac:(lia)).
    unfold burstTimes in Hat.
    rewrite lookup_total_cons_ne_0 in Hat by lia. cbn [Nat.pred] in Hat.
    rewrite lookup_total_app_l in Hat by (rewrite edgeTimesAfter_length; lia).
    exact Hat.
  - cbn [previousTimeVal]. specialize (Hat 0%nat ltac:(lia)). exact Hat.
  - cbn [pairCount pairBuffer take app] in R3, R5.
    assert (Hlast : carriesTime (raw !!! S (2 * length fullPairs))
                                (lastEdgeTime t fullPairs + lastPulse)).
    { specialize (Hat (S (2 * length fullPairs)) ltac:(lia)).
      unfold burstTimes in Hat.
      rewrite lookup_total_cons_ne_0 in Hat by lia. cbn [Nat.pred] in Hat.
      rewrite lookup_total_app_r in Hat by (rewrite edgeTimesAfter_length; lia).
      rewrite edgeTimesAfter_length, Nat.sub_diag in Hat. exact Hat. }
    unfold carriesTime in Hlast.
    cbn [pairsLoop].
    destruct (Nat.leb_spec (IR_LIB_MAX_TRANSITIONS / 2) (pairCount st1)); [lia|].
    set (st2 := pairs_iter raw st1 _).
    assert (E2 : st2 = {| previousTimeVal :=
                            (lastEdgeTime t fullPairs + lastPulse) mod 2 ^ 31;
                          currentPulse := lastPulse;
                          pairBuffer := pairBuffer st1;
                          pairCount := pairCount st1 |}).
    { subst st2. unfold pairs_iter. rewrite R2, Hlast, R1. cbn [Z.eqb].
      rewrite deltaTime_of_times.
      replace (lastEdgeTime t fullPairs + lastPulse - lastEdgeTime t fullPairs)
        with lastPulse by lia.
      rewrite (Z.mod_small lastPulse) by lia. unfold int_of_uint32.
      destruct (Z.ltb_spec lastPulse (2 ^ 31)); [reflexivity | lia]. }
    rewrite E2. cbn [currentPulse pairCount pairBuffer].
    destruct (Z.eqb_spec lastPulse (-1)); [lia|].
    destruct (Nat.ltb_spec (pairCount st1) (IR_LIB_MAX_TRANSITIONS / 2)); [|lia].
    cbn [negb andb]. split; [now rewrite R3|].
    rewrite take_insert_snoc by lia. now rewrite R5.
Qed.

(** X4.  The extractor gives back the durations of a burst.  For a burst that
    starts at any time [t], shows fewer than IR_LIB_MAX_TRANSITIONS / 2
    complete pairs (spaces at most the idle timeout) and ends with a mark,
    the edge times, taken modulo 2^31 and with any direction flags, are
    turned into exactly those pairs followed by the last mark with a
    missing space. *)
Theorem extractor_recovers_durations
    (buf : list PulseSpacePair) (raw : list Z)
    (fullPairs : list PulseSpacePair) (lastPulse t : Z) :
  length buf = (IR_LIB_MAX_TRANSITIONS / 2)%nat ->
  (length fullPairs < IR_LIB_MAX_TRANSITIONS / 2)%nat ->
  Forall (fun p => 0 <= pulse p < 2 ^ 31 /\ 0 <= space p <= 100000) fullPairs ->
  0 <= lastPulse < 2 ^ 31 ->
  Forall2 carriesTime raw (burstTimes t fullPairs lastPulse) ->
  let '(pairs, pairCount) :=
    _processRawTransitionsToPairs buf raw (length raw) in
  pairCount = S (length fullPairs)
  /\ take pairCount pairs
     = fullPairs ++ [ {| pulse := lastPulse; space := -1 |} ].
Proof. apply extractor_recovers_durations_aux. Qed.

Lemma extractor_recovers_example :
  let '(pairs, pairCount) :=
    _processRawTransitionsToPairs (m_pulseSpacePairs new)
      [Z.lor 2147483000 DIRECTION_FLAG_H_TO_L; 1752;
       Z.lor 2352 DIRECTION_FLAG_H_TO_L; 3552] 4 in
  pairCount = 2%nat
  /\ take pairCount pairs
     = [ {| pulse := 2400; space := 600 |}; {| pulse := 1200; space := -1 |} ].
Proof.
  apply (extractor_recovers_durations (m_pulseSpacePairs new)
           [Z.lor 2147483000 DIRECTION_FLAG_H_TO_L; 1752;
            Z.lor 2352 DIRECTION_FLAG_H_TO_L; 3552]
           [ {| pulse := 2400; space := 600 |} ] 1200 2147483000).
  - reflexivity.
  - vm_compute. lia.
  - apply List.Forall_cons; [cbn; lia | apply List.Forall_nil].
  - lia.
  - unfold burstTimes. cbn [edgeTimesAfter lastEdgeTime app].
    repeat (apply List.Forall2_cons; [reflexivity|]). apply List.Forall2_nil.
Defined.

(** ** From edges to pairs *)

Lemma carriesTime_wrap32 (us : Z) : carriesTime (Z.land (wrap32 us) TIME_VALUE_MASK) us.
Proof.
  unfold carriesTime, wrap32. rewrite !land_mask_mod.
  rewrite Z.mod_mod by lia.
  apply Z.mod_mod_divide. exists 2. reflexivity.
Qed.

Lemma carriesTime_flag (v T : Z) :
  0 <= v < 2 ^ 31 ->
  carriesTime v T -> carriesTime (Z.lor v DIRECTION_FLAG_H_TO_L) T.
Proof.
  unfold carriesTime. intros Hv H. rewrite <- H, !land_mask_mod.
  change DIRECTION_FLAG_H_TO_L with (2 ^ 31).
  rewrite <- Z.add_nocarry_lor.
  - rewrite <- (Z.mul_1_l (2 ^ 31)) at 1. now rewrite Z.mod_add by lia.
  - apply Z.bits_inj'. intros n Hn. rewrite Z.land_spec, Z.bits_0.
    destruct (Z.eq_dec n 31) as [-> | Hne].
    + rewrite (Z.bits_above_log2 v 31); [reflexivity | lia |].
      destruct (Z.eq_dec v 0) as [-> | Hv0]; [cbn; lia|].
      apply Z.log2_lt_pow2; lia.
    + rewrite (Z.pow2_bits_false 31 n) by lia. apply andb_false_r.
Qed.

(** The interrupts of a burst fill the buffer in order. *)
Lemma burstCalls_record (stamps : list (Z * Z)) :
  forall (level : Z) (s : State),
  level = LOW \/ level = HIGH ->
  m_lastPinState s = otherLevel level ->
  (m_rawTransitionIndex s + length stamps <= IR_LIB_MAX_TRANSITIONS)%nat ->
  length (m_rawTransitions s) = IR_LIB_MAX_TRANSITIONS ->
  let s' := run (burstCalls level stamps) s in
  m_rawTransitionIndex s' = (m_rawTransitionIndex s + length stamps)%nat
  /\ length (m_rawTransitions s') = IR_LIB_MAX_TRANSITIONS
  /\ take (m_rawTransitionIndex s) (m_rawTransitions s')
     = take (m_rawTransitionIndex s) (m_rawTransitions s)
  /\ (forall (j : nat) (st : Z * Z),
        stamps !! j = Some st ->
        carriesTime (m_rawTransitions s' !!! (m_rawTransitionIndex s + j)%nat) st.2)
  /\ m_lastTransitionMillis s'
     = match last stamps with
       | Some st => wrap32 st.1
       | None => m_lastTransitionMillis s
       end
  /\ m_isInterruptAttached s' = m_isInterruptAttached s
  /\ m_codeResultIsReady s' = m_codeResultIsReady s
  /\ m_rawBurstCopied s' = m_rawBurstCopied s
  /\ m_pulseSpacePairs s' = m_pulseSpacePairs s.
Proof.
  induction stamps as [|[ms us] rest IH]; intros level s Hlevel Hlast Hroom Hlen.
  - cbn. rewrite Nat.add_0_r. repeat split; try reflexivity; try assumption.
    intros j st Hj. discriminate.
  - cbn [burstCalls run exec length] in *.
    set (s1 := handleIrInterrupt_priv (hwAt ms us level) s).
    assert (Hdiff : (level =? m_lastPinState s) = false).
    { rewrite Hlast. unfold otherLevel, LOW, HIGH.
      destruct Hlevel as [-> | ->]; reflexivity. }
    assert (E1 : s1 = {| m_irPin := m_irPin s;
         m_rawTransitions :=
           <[m_rawTransitionIndex s :=
               if (level =? LOW) && (m_lastPinState s =? HIGH)
               then Z.lor (Z.land (wrap32 us) TIME_VALUE_MASK) DIRECTION_FLAG_H_TO_L
               else Z.land (wrap32 us) TIME_VALUE_MASK]> (m_rawTransitions s);
         m_rawTransitionIndex := S (m_rawTransitionIndex s);
         m_lastTransitionMillis := wrap32 ms;
         m_lastPinState := level;
         m_rawBurstCopied := m_rawBurstCopied s;
         m_pulseSpacePairs := m_pulseSpacePairs s;
         m_pulseSpacePairCount := m_pulseSpacePairCount s;
         m_brandScores := m_brandScores s;
         m_decodedSegments := m_decodedSegments s;
         m_decodedSegmentCount := m_decodedSegmentCount s;
         m_finalResultCode := m_finalResultCode s;
         m_codeResultIsReady := m_codeResultIsReady s;
         m_isInterruptAttached := m_isInterruptAttached s |}).
    { subst s1. unfold handleIrInterrupt_priv, hwAt.
      cbn [digitalRead micros millis]. rewrite Hdiff. cbn [negb andb].
      destruct (Nat.ltb_spec (m_rawTransitionIndex s) IR_LIB_MAX_TRANSITIONS);
        [reflexivity | lia]. }
    destruct (IH (otherLevel level) s1) as (R1 & R2 & R3 & R4 & R5 & R6 & R7 & R8 & R9).
    + unfold otherLevel, LOW, HIGH. destruct Hlevel as [-> | ->]; [now right | now left].
    + rewrite E1. cbn [m_lastPinState]. unfold otherLevel, LOW, HIGH.
      destruct Hlevel as [-> | ->]; reflexivity.
    + rewrite E1. cbn [m_rawTransitionIndex]. lia.
    + rewrite E1. cbn [m_rawTransitions]. now rewrite length_insert.
    + assert (F1 : m_rawTransitionIndex s1 = S (m_rawTransitionIndex s))
        by (rewrite E1; reflexivity).
      assert (F2 : m_rawTransitions s1
                   = <[m_rawTransitionIndex s :=
                         if (level =? LOW) && (m_lastPinState s =? HIGH)
                         then Z.lor (Z.land (wrap32 us) TIME_VALUE_MASK)
                                    DIRECTION_FLAG_H_TO_L
                         else Z.land (wrap32 us) TIME_VALUE_MASK]>
                       (m_rawTransitions s))
        by (rewrite E1; reflexivity).
      assert (F3 : m_lastTransitionMillis s1 = wrap32 ms)
        by (rewrite E1; reflexivity).
      assert (F4 : m_isInterruptAttached s1 = m_isInterruptAttached s
                   /\ m_codeResultIsReady s1 = m_codeResultIsReady s
                   /\ m_rawBurstCopied s1 = m_rawBurstCopied s
                   /\ m_pulseSpacePairs s1 = m_pulseSpacePairs s)
        by (rewrite E1; repeat split).
      destruct F4 as (F4 & F5 & F6 & F7).
      rewrite F1 in R1, R3, R4. rewrite F2 in R3. rewrite F3 in R5.
      rewrite F4 in R6. rewrite F5 in R7. rewrite F6 in R8. rewrite F7 in R9.
      split; [lia|]. split; [exact R2|]. split; [|split; [|split]].
      * transitivity (take (m_rawTransitionIndex s)
                        (take (S (m_rawTransitionIndex s)) (m_rawTransitions
                           (run (burstCalls (otherLevel level) rest) s1)))).
        { now rewrite take_take, Nat.min_l by lia. }
        rewrite R3, take_take, Nat.min_l by lia. apply take_insert_ge. lia.
      * intros [|j] st Hj.
        -- cbn in Hj. injection Hj as <-. rewrite Nat.add_0_r. cbn [snd].
           assert (Hat : m_rawTransitions (run (burstCalls (otherLevel level) rest) s1)
                           !! m_rawTransitionIndex s
                         = Some (if (level =? LOW) && (m_lastPinState s =? HIGH)
                                 then Z.lor (Z.land (wrap32 us) TIME_VALUE_MASK)
                                            DIRECTION_FLAG_H_TO_L
                                 else Z.land (wrap32 us) TIME_VALUE_MASK)).
           { rewrite <- (lookup_take_lt _ (S (m_rawTransitionIndex s))) by lia.
             rewrite R3. rewrite lookup_take_lt by lia.
             apply list_lookup_insert_eq. lia. }
           rewrite (list_lookup_total_correct _ _ _ Hat).
           destruct ((level =? LOW) && (m_lastPinState s =? HIGH)).
           ++ apply carriesTime_flag; [apply land_mask_range | apply carriesTime_wrap32].
           ++ apply carriesTime_wrap32.
        -- cbn in Hj. specialize (R4 j st Hj).
           replace (m_rawTransitionIndex s + S j)%nat
             with (S (m_rawTransitionIndex s) + j)%nat by lia. exact R4.
      * rewrite R5. destruct rest as [|st' rest']; [reflexivity|].
        rewrite last_cons_cons.
        destruct (last (st' :: rest')) eqn:E; [reflexivity|].
        apply last_None in E. discriminate.
      * repeat split; assumption.
Qed.

Lemma feasible_burstCalls (stamps : list (Z * Z)) :
  forall (level : Z) (s : State),
  m_isInterruptAttached s = true -> feasible (burstCalls level stamps) s = true.
Proof.
  induction stamps as [|[ms us] rest IH]; intros level s Hatt; [reflexivity|].
  cbn [burstCalls feasible canOccur exec]. rewrite Hatt. cbn [andb].
  apply IH. unfold handleIrInterrupt_priv.
  destruct (negb _ && _); cbn [m_isInterruptAttached]; assumption.
Qed.

(** The unsigned difference of two [millis()] readings is the time between
    them, also across the roll-over of the counter. *)
Lemma elapsed_millis (now before : Z) :
  0 <= now - before < 2 ^ 32 ->
  wrap32 (wrap32 now - wrap32 before) = now - before.
Proof.
  intros H. unfold wrap32. rewrite <- Zminus_mod. now apply Z.mod_small.
Qed.

Lemma burstCalls_level (stamps : list (Z * Z)) :
  forall (level : Z) (s : State),
  level = LOW \/ level = HIGH ->
  m_lastPinState s = otherLevel level ->
  (m_rawTransitionIndex s + length stamps <= IR_LIB_MAX_TRANSITIONS)%nat ->
  m_lastPinState (run (burstCalls level stamps) s)
  = if Nat.even (length stamps) then otherLevel level else level.
Proof.
  induction stamps as [|[ms us] rest IH]; intros level s Hlevel Hlast Hroom;
    [exact Hlast|].
  cbn [burstCalls run exec length] in *.
  assert (Hother : otherLevel (otherLevel level) = level).
  { destruct Hlevel as [-> | ->]; reflexivity. }
  assert (Hdiff : (level =? m_lastPinState s) = false).
  { rewrite Hlast. destruct Hlevel as [-> | ->]; reflexivity. }
  assert (E : m_lastPinState (handleIrInterrupt_priv (hwAt ms us level) s) = level
              /\ m_rawTransitionIndex (handleIrInterrupt_priv (hwAt ms us level) s)
                 = S (m_rawTransitionIndex s)).
  { unfold handleIrInterrupt_priv. cbn [digitalRead hwAt].
    rewrite Hdiff. cbn [negb andb].
    destruct (Nat.ltb_spec (m_rawTransitionIndex s) IR_LIB_MAX_TRANSITIONS);
      [split; reflexivity | lia]. }
  destruct E as [E1 E2].
  rewrite (IH (otherLevel level)).
  - rewrite Hother. rewrite Nat.even_succ, <- Nat.negb_even.
    now destruct (Nat.even (length rest)).
  - destruct Hlevel as [-> | ->]; [now right | now left].
  - now rewrite E1, Hother.
  - rewrite E2. lia.
Qed.

Lemma analyze_keeps_capture (s : State) :
  m_rawTransitionIndex (_analyzeAndDecodeBurst s) = m_rawTransitionIndex s
  /\ m_pulseSpacePairs (_analyzeAndDecodeBurst s) = m_pulseSpacePairs s
  /\ m_pulseSpacePairCount (_analyzeAndDecodeBurst s) = m_pulseSpacePairCount s
  /\ m_rawBurstCopied (_analyzeAndDecodeBurst s) = m_rawBurstCopied s
  /\ m_isInterruptAttached (_analyzeAndDecodeBurst s) = m_isInterruptAttached s
  /\ m_rawTransitions (_analyzeAndDecodeBurst s) = m_rawTransitions s
  /\ m_lastPinState (_analyzeAndDecodeBurst s) = m_lastPinState s.
Proof.
  destruct (analyzeAndDecodeBurst_shape s)
    as (scores & segs & cnt & final & ready & -> & _).
  repeat split.
Qed.

(** A burst on an armed receiver, polled after the idle timeout: the poll
    runs the analysis on the durations of the burst. *)
Lemma captured_burst_analysis (s : State) (stamps : list (Z * Z))
    (fullPairs : list PulseSpacePair) (lastPulse t : Z) (hw : Hardware) :
  Armed s ->
  (length fullPairs < IR_LIB_MAX_TRANSITIONS / 2)%nat ->
  Forall (fun p => 0 <= pulse p < 2 ^ 31 /\ 0 <= space p <= 100000) fullPairs ->
  0 <= lastPulse < 2 ^ 31 ->
  Forall2 (fun st T => microsAt st.2 T) stamps (burstTimes t fullPairs lastPulse) ->
  (forall st, last stamps = Some st ->
     IR_LIB_IDLE_TIMEOUT_MS < millis hw - st.1 < 2 ^ 32) ->
  let s1 := run (burstCalls LOW stamps) s in
  feasible (burstCalls LOW stamps) s = true
  /\ m_rawTransitionIndex s1 = length stamps
  /\ m_isInterruptAttached s1 = true
  /\ m_lastPinState s1 = HIGH
  /\ length (m_rawTransitions s1) = IR_LIB_MAX_TRANSITIONS
  /\ exists pairs : list PulseSpacePair,
       length pairs = (IR_LIB_MAX_TRANSITIONS / 2)%nat
       /\ take (S (length fullPairs)) pairs
          = fullPairs ++ [ {| pulse := lastPulse; space := -1 |} ]
       /\ isCode hw s1
          = let s' := _analyzeAndDecodeBurst
                        (set_capture (m_rawTransitions s1) 0 true pairs
                                     (S (length fullPairs)) s1) in
            (m_codeResultIsReady s', s').
Proof.
  intros [Hatt Hidx Hlvl Hcop Hrdy Hraw Hpairs] Hlen Hok Hq Hstamps Hidle s1.
  pose proof (Forall2_length _ _ _ Hstamps) as Hn.
  unfold burstTimes in Hn. cbn [length] in Hn.
  rewrite length_app, edgeTimesAfter_length in Hn. cbn [length] in Hn.
  assert (Hmax : (length stamps <= IR_LIB_MAX_TRANSITIONS)%nat).
  { unfold IR_LIB_MAX_TRANSITIONS in *. change (300 / 2)%nat with 150%nat in Hlen. lia. }
  destruct (burstCalls_record stamps LOW s)
    as (R1 & R2 & R3 & R4 & R5 & R6 & R7 & R8 & R9);
    [now left | rewrite Hlvl; reflexivity | rewrite Hidx; exact Hmax | exact Hraw |].
  fold s1 in R1, R2, R3, R4, R5, R6, R7, R8, R9.
  assert (Rlevel : m_lastPinState s1 = HIGH).
  { subst s1. rewrite burstCalls_level;
      [|now left | rewrite Hlvl; reflexivity | rewrite Hidx; exact Hmax].
    assert (Heven : Nat.even (length stamps) = true).
    { apply Nat.even_spec. exists (S (length fullPairs)). lia. }
    now rewrite Heven. }
  rewrite Hidx in R1, R4. cbn [Nat.add] in R1, R4.
  split; [now apply feasible_burstCalls|]. split; [exact R1|].
  split; [now rewrite R6|]. split; [exact Rlevel|]. split; [exact R2|].
  (* the poll *)
  assert (Hlast : exists st, last stamps = Some st).
  { destruct (last stamps) eqn:E; [eauto|]. apply last_None in E.
    rewrite E in Hn. cbn in Hn. lia. }
  destruct Hlast as [stl Hstl]. rewrite Hstl in R5.
  specialize (Hidle stl Hstl).
  assert (He : wrap32 (wrap32 (millis hw) - wrap32 stl.1) = millis hw - stl.1).
  { apply elapsed_millis. unfold IR_LIB_IDLE_TIMEOUT_MS in Hidle. lia. }
  set (raw := take (length stamps) (m_rawTransitions s1)).
  assert (Hrawlen : length raw = length stamps).
  { subst raw. rewrite length_take. lia. }
  assert (Hcarries : Forall2 carriesTime raw (burstTimes t fullPairs lastPulse)).
  { apply Forall2_same_length_lookup_2.
    - rewrite Hrawlen. now apply Forall2_length in Hstamps.
    - intros i v T Hv HT. subst raw.
      apply lookup_take_Some in Hv as [Hv Hi].
      destruct (lookup_lt_is_Some_2 stamps i Hi) as [st Hst].
      specialize (R4 i st Hst).
      rewrite (list_lookup_total_correct _ _ _ Hv) in R4.
      pose proof (Forall2_lookup_lr _ _ _ _ _ _ Hstamps Hst HT) as Hm.
      unfold carriesTime in *. unfold microsAt in Hm. cbn in Hm. congruence. }
  pose proof (extractor_recovers_durations_aux (m_pulseSpacePairs s1) raw
                fullPairs lastPulse t) as Hext.
  rewrite R9 in Hext. specialize (Hext Hpairs Hlen Hok Hq Hcarries).
  rewrite Hrawlen in Hext.
  unfold isCode. rewrite R6, Hatt, R7, Hrdy, R8, Hcop, R1, R5. cbn [negb].
  destruct (Nat.ltb_spec 0 (length stamps)); [|lia].
  destruct (Z.gtb_spec (wrap32 (wrap32 (millis hw) - wrap32 stl.1))
                       IR_LIB_IDLE_TIMEOUT_MS); [|lia].
  cbn [andb].
  destruct (Nat.ltb_spec IR_LIB_MAX_TRANSITIONS (length stamps)); [lia|].
  fold raw. rewrite R9.
  pose proof (processRawTransitionsToPairs_length (m_pulseSpacePairs s) raw
                (length stamps)) as Hpl.
  destruct (_processRawTransitionsToPairs (m_pulseSpacePairs s) raw (length stamps))
    as [pairs pairCount].
  destruct Hext as [-> Htake]. cbn [fst] in Hpl.
  exists pairs. split; [now rewrite Hpl|]. split; [exact Htake|].
  cbn [m_pulseSpacePairCount set_capture Nat.ltb Nat.leb snd fst].
  reflexivity.
Qed.

Lemma captured_burst_aux (s : State) (stamps : list (Z * Z))
    (fullPairs : list PulseSpacePair) (lastPulse t : Z) (hw : Hardware) :
  Armed s ->
  (length fullPairs < IR_LIB_MAX_TRANSITIONS / 2)%nat ->
  Forall (fun p => 0 <= pulse p < 2 ^ 31 /\ 0 <= space p <= 100000) fullPairs ->
  0 <= lastPulse < 2 ^ 31 ->
  Forall2 (fun st T => microsAt st.2 T) stamps (burstTimes t fullPairs lastPulse) ->
  (forall st, last stamps = Some st ->
     IR_LIB_IDLE_TIMEOUT_MS < millis hw - st.1 < 2 ^ 32) ->
  let s1 := run (burstCalls LOW stamps) s in
  feasible (burstCalls LOW stamps) s = true
  /\ m_rawTransitionIndex s1 = length stamps
  /\ m_rawTransitionIndex (isCode hw s1).2 = 0%nat
  /\ m_pulseSpacePairCount (isCode hw s1).2 = S (length fullPairs)
  /\ take (S (length fullPairs)) (m_pulseSpacePairs (isCode hw s1).2)
     = fullPairs ++ [ {| pulse := lastPulse; space := -1 |} ]
  /\ (isCode hw s1).1 = m_codeResultIsReady (isCode hw s1).2
  /\ Idle (isCode hw s1).2.
Proof.
  intros Harmed Hlen Hok Hq Hstamps Hidle s1.
  destruct (captured_burst_analysis s stamps fullPairs lastPulse t hw
              Harmed Hlen Hok Hq Hstamps Hidle)
    as (Hf & Hi & Hatt & Hlvl & Hraw & pairs & Hpl & Htake & Hcode).
  fold s1 in Hi, Hatt, Hlvl, Hraw, Hcode. cbv zeta in Hcode. rewrite Hcode.
  cbn [fst snd].
  match goal with
  | |- context [_analyzeAndDecodeBurst ?s0] =>
      destruct (analyze_keeps_capture s0) as (A1 & A2 & A3 & _ & A5 & A6 & A7)
  end.
  split; [assumption|]. split; [assumption|].
  rewrite A1, A2, A3.
  cbn [set_capture m_rawTransitionIndex m_pulseSpacePairs m_pulseSpacePairCount].
  do 4 (split; [first [assumption | reflexivity]|]).
  split; rewrite ?A1, ?A2, ?A5, ?A6, ?A7;
    cbn [set_capture m_rawTransitionIndex m_pulseSpacePairs m_rawTransitions
         m_isInterruptAttached m_lastPinState]; first [assumption | reflexivity].
Qed.

(** X5.  A burst captured from an armed receiver.  The receiver is armed and the
    line idle; the edges of a burst of fewer than IR_LIB_MAX_TRANSITIONS / 2
    complete pairs and a last mark arrive, each interrupt reading the clock
    at the time of its edge; [isCode] is polled more than the idle timeout
    after the last edge.  Then every edge was recorded, the poll empties the
    edge buffer and leaves exactly the durations of the burst in the pair
    buffer, it returns the result-ready flag it sets, and the receiver
    listens again on an idle line. *)
Theorem armed_receiver_captures_burst (s : State) (stamps : list (Z * Z))
    (fullPairs : list PulseSpacePair) (lastPulse t : Z) (hw : Hardware) :
  Armed s ->
  (length fullPairs < IR_LIB_MAX_TRANSITIONS / 2)%nat ->
  Forall (fun p => 0 <= pulse p < 2 ^ 31 /\ 0 <= space p <= 100000) fullPairs ->
  0 <= lastPulse < 2 ^ 31 ->
  Forall2 (fun st T => microsAt st.2 T) stamps (burstTimes t fullPairs lastPulse) ->
  (forall st, last stamps = Some st ->
     IR_LIB_IDLE_TIMEOUT_MS < millis hw - st.1 < 2 ^ 32) ->
  let s1 := run (burstCalls LOW stamps) s in
  feasible (burstCalls LOW stamps) s = true
  /\ m_rawTransitionIndex s1 = length stamps
  /\ m_rawTransitionIndex (isCode hw s1).2 = 0%nat
  /\ m_pulseSpacePairCount (isCode hw s1).2 = S (length fullPairs)
  /\ take (S (length fullPairs)) (m_pulseSpacePairs (isCode hw s1).2)
     = fullPairs ++ [ {| pulse := lastPulse; space := -1 |} ]
  /\ (isCode hw s1).1 = m_codeResultIsReady (isCode hw s1).2
  /\ Idle (isCode hw s1).2.
Proof. apply captured_burst_aux. Qed.

Lemma armed_receiver_captures_example :
  let s := (begin (hwAt 0 0 HIGH) 2 new).2 in
  let stamps := [(5, 5000); (7, 7400); (8, 8000); (9, 9200)] in
  let s1 := run (burstCalls LOW stamps) s in
  let hw := hwAt 200 200000 HIGH in
  m_rawTransitionIndex s1 = 4%nat
  /\ m_rawTransitionIndex (isCode hw s1).2 = 0%nat
  /\ m_pulseSpacePairCount (isCode hw s1).2 = 2%nat
  /\ take 2 (m_pulseSpacePairs (isCode hw s1).2)
     = [ {| pulse := 2400; space := 600 |}; {| pulse := 1200; space := -1 |} ].
Proof.
  pose proof (armed_receiver_captures_burst
                (begin (hwAt 0 0 HIGH) 2 new).2
                [(5, 5000); (7, 7400); (8, 8000); (9, 9200)]
                [ {| pulse := 2400; space := 600 |} ] 1200 5000
                (hwAt 200 200000 HIGH)) as H.
  cbv zeta in H |- *.
  destruct H as (_ & H1 & H2 & H3 & H4 & _).
  - constructor; vm_compute; reflexivity.
  - vm_compute. lia.
  - apply List.Forall_cons; [cbn; lia | apply List.Forall_nil].
  - lia.
  - unfold burstTimes. cbn [edgeTimesAfter lastEdgeTime app].
    repeat (apply List.Forall2_cons; [reflexivity|]). apply List.Forall2_nil.
  - intros st Hst. vm_compute in Hst. injection Hst as <-.
    unfold IR_LIB_IDLE_TIMEOUT_MS. cbn. lia.
  - repeat split; assumption.
Defined.

(** ** Polling and arming *)

Lemma isCode_blocked (hw : Hardware) (s : State) :
  Blocked s -> isCode hw s = (false, s).
Proof.
  intros [Hc Hr Hi]. unfold isCode. rewrite Hr, Hc.
  destruct (m_isInterruptAttached s); cbn [negb]; [|reflexivity].
  rewrite andb_false_r.
  destruct (m_rawTransitionIndex s); [lia | reflexivity].
Qed.

Lemma interrupt_blocked (hw : Hardware) (s : State) :
  Blocked s -> Blocked (handleIrInterrupt_priv hw s).
Proof.
  intros [Hc Hr Hi]. unfold handleIrInterrupt_priv.
  destruct (negb _ && _); split; cbn; try assumption. lia.
Qed.

Lemma run_blocked (cs : list Call) :
  forall s : State,
  Blocked s -> forallb isPollOrEdge cs = true -> Blocked (run cs s).
Proof.
  induction cs as [|c rest IH]; intros s Hb Hcs; [assumption|].
  cbn [forallb] in Hcs. apply andb_true_iff in Hcs as [Hc Hrest].
  cbn [run]. apply IH; [|assumption].
  destruct c; try discriminate; cbn [exec].
  - now rewrite isCode_blocked.
  - unfold getCode. now rewrite (blocked_ready _ Hb).
  - now apply interrupt_blocked.
Qed.

(** X6.  Edges that arrive after a burst was copied and before a poll has seen
    the empty buffer are never analysed.  Once the copied flag is set, no
    result is pending and the buffer holds an edge, polls, reads and further
    edges leave the receiver in that condition: every later [isCode]
    returns false and every later [getCode] the empty value.  Only [begin],
    [enable] or [disable] end it. *)
Theorem late_edges_block_the_receiver (s : State) (cs : list Call)
    (hw : Hardware) :
  Blocked s ->
  forallb isPollOrEdge cs = true ->
  Blocked (run cs s)
  /\ isCode hw (run cs s) = (false, run cs s)
  /\ getCode (run cs s) = (DecodedIR_empty, run cs s).
Proof.
  intros Hb Hcs. pose proof (run_blocked cs s Hb Hcs) as Hb'.
  split; [assumption|]. split; [now apply isCode_blocked|].
  unfold getCode. now rewrite (blocked_ready _ Hb').
Qed.

(** A frame is decoded; the first edge of the next frame arrives before the
    result is read; from then on a complete second frame is ignored. *)
Lemma late_edges_example :
  let s := run (sonySession
                ++ [Interrupt (hwAt 0 700000 LOW); CallGetCode]) new in
  let cs := CallIsCode (hwAt 701 701000 LOW)
            :: tl (edges 700000 sonyFrame_21_1)
            ++ [CallIsCode (hwAt 900 900000 HIGH); CallGetCode] in
  feasible (sonySession
            ++ [Interrupt (hwAt 0 700000 LOW); CallGetCode]) new = true
  /\ feasible cs s = true
  /\ (m_rawTransitionIndex (run cs s) = 26)%nat
  /\ isCode (hwAt 5000 0 HIGH) (run cs s) = (false, run cs s).
Proof.
  cbv zeta.
  split; [vm_compute; reflexivity|]. split; [vm_compute; reflexivity|].
  split; [vm_compute; reflexivity|].
  apply late_edges_block_the_receiver.
  - split; vm_compute; [reflexivity | reflexivity | lia].
  - vm_compute. reflexivity.
Defined.

(** ** Bounds *)

Lemma InBounds_capture (s : State) (raw : list Z) (copied : bool) :
  InBounds s ->
  InBounds (set_capture raw 0 copied (m_pulseSpacePairs s)
                        (m_pulseSpacePairCount s) s).
Proof.
  intros [Hi Hp Hd]. split; cbn; [lia | assumption | assumption].
Qed.

Lemma InBounds_isCode (hw : Hardware) (s : State) :
  wellFormed s -> InBounds s -> InBounds (isCode hw s).2.
Proof.
  intros (Hw1 & Hw2 & _) Hb. pose proof Hb as [Hi Hp Hd]. unfold isCode.
  destruct (negb (m_isInterruptAttached s)).
  { destruct (m_codeResultIsReady s); assumption. }
  destruct (m_codeResultIsReady s); [assumption|].
  destruct (_ && _ && negb (m_rawBurstCopied s)).
  - destruct (Nat.ltb_spec IR_LIB_MAX_TRANSITIONS (m_rawTransitionIndex s)); [lia|].
    pose proof (extracted_pairs_aux (m_pulseSpacePairs s)
                  (take (m_rawTransitionIndex s) (m_rawTransitions s))
                  (m_rawTransitionIndex s) Hw2) as Hext.
    destruct (_processRawTransitionsToPairs _ _ _) as [pairs pairCount].
    destruct Hext as (Hc & _ & _ & Hr).
    cbn [set_capture m_pulseSpacePairCount m_rawTransitions m_rawTransitionIndex
         m_pulseSpacePairs snd].
    destruct (0 <? pairCount)%nat.
    + match goal with
      | |- InBounds (_analyzeAndDecodeBurst ?s0) =>
          destruct (analyze_keeps_capture s0) as (A1 & A2 & A3 & _)
      end.
      split; rewrite ?A1, ?A2, ?A3; cbn; [lia | assumption | assumption].
    + split; cbn; [lia | assumption | assumption].
  - destruct (_ && _); [|assumption].
    split; cbn; assumption.
Qed.

Lemma InBounds_step (s s' : State) :
  wellFormed s -> InBounds s -> step s s' -> InBounds s'.
Proof.
  intros Hw Hb Hstep. pose proof Hb as [Hi Hp Hd]. destruct Hstep.
  - unfold begin, enable, disable, set_irPin.
    repeat match goal with
           | |- context [if ?b then _ else _] => destruct b
           end; cbn; try assumption; split; cbn; try assumption; lia.
  - unfold enable. destruct (_ =? _); [assumption|].
    split; cbn; try assumption; lia.
  - unfold disable. destruct (_ || _); [assumption|].
    split; cbn; try assumption; lia.
  - now apply InBounds_isCode.
  - unfold getCode. destruct (m_codeResultIsReady s); [|assumption].
    split; cbn; assumption.
  - unfold handleIrInterrupt_priv.
    destruct (negb _) ; cbn [andb]; [|assumption].
    destruct (Nat.ltb_spec (m_rawTransitionIndex s) IR_LIB_MAX_TRANSITIONS);
      [|assumption].
    split; cbn; try assumption; lia.
Qed.

Lemma reachable_InBounds (s : State) : reachable s -> InBounds s.
Proof.
  induction 1 as [|s s' Hs IH Hstep].
  - split; cbn; [lia | lia | apply List.Forall_nil].
  - apply InBounds_step with s; try assumption.
    apply inv_wellFormed, reachable_Inv, Hs.
Qed.

(** X7.  In every state the receiver can reach, the edge index is at most
    IR_LIB_MAX_TRANSITIONS and the pair count at most half of that, so
    neither array is indexed out of range; and every stored pair has a pulse
    of 31 bits and a space that is missing (-1) or at most the idle timeout
    in microseconds. *)
Theorem reachable_buffers_stay_in_bounds (s : State) :
  reachable s ->
  (m_rawTransitionIndex s <= IR_LIB_MAX_TRANSITIONS)%nat
  /\ (m_pulseSpacePairCount s <= IR_LIB_MAX_TRANSITIONS / 2)%nat
  /\ Forall (fun p =>
               0 <= pulse p < 2 ^ 31
               /\ (space p = -1 \/ 0 <= space p <= 100000))
            (take (m_pulseSpacePairCount s) (m_pulseSpacePairs s)).
Proof.
  intros Hs. destruct (reachable_InBounds s Hs) as [Hi Hp Hd].
  repeat split; assumption.
Qed.

Lemma reachable_buffers_example :
  (m_rawTransitionIndex (run elevenFrames new) <= IR_LIB_MAX_TRANSITIONS)%nat
  /\ (m_pulseSpacePairCount (run elevenFrames new)
      <= IR_LIB_MAX_TRANSITIONS / 2)%nat
  /\ Forall (fun p =>
               0 <= pulse p < 2 ^ 31
               /\ (space p = -1 \/ 0 <= space p <= 100000))
            (take (m_pulseSpacePairCount (run elevenFrames new))
                  (m_pulseSpacePairs (run elevenFrames new))).
Proof.
  apply reachable_buffers_stay_in_bounds.
  apply reachable_run; [apply reachable_new | vm_compute; reflexivity].
Defined.

(** ** Starting the receiver *)

Lemma begin_cases (hw : Hardware) (pin : Z) (s : State) :
  pin <> -1 ->
  let s' := (begin hw pin s).2 in
  (begin hw pin s).1 = isInterruptPin hw pin
  /\ m_isInterruptAttached s' = isInterruptPin hw pin
  /\ m_irPin s' = pin
  /\ m_rawTransitionIndex s' = 0%nat
  /\ m_rawBurstCopied s' = false
  /\ m_codeResultIsReady s' = false
  /\ m_lastPinState s' = digitalRead hw pin
  /\ m_lastTransitionMillis s' = wrap32 (millis hw)
  /\ m_rawTransitions s' = m_rawTransitions s
  /\ m_pulseSpacePairs s' = m_pulseSpacePairs s.
Proof.
  intros Hpin. unfold begin.
  set (s1 := if m_isInterruptAttached s && negb (m_irPin s =? -1)
             then disable hw s else s).
  assert (H1 : m_rawTransitions s1 = m_rawTransitions s
               /\ m_pulseSpacePairs s1 = m_pulseSpacePairs s).
  { subst s1. destruct (_ && _); [|now split]. unfold disable.
    destruct (_ || _); now split. }
  destruct H1 as [H1 H2]. unfold enable.
  cbn [set_irPin m_irPin]. destruct (Z.eqb_spec pin (-1)) as [|_]; [contradiction|].
  cbn [m_isInterruptAttached m_irPin negb].
  destruct (Z.eqb_spec pin (-1)) as [|_]; [contradiction|].
  destruct (isInterruptPin hw pin); cbn; repeat split; assumption.
Qed.

(** X8.  [begin] on a pin succeeds exactly when the pin can raise interrupts.
    Whatever the receiver held before, it then waits with an empty edge
    buffer and no result pending, and on an idle (HIGH) line of a pin with
    an interrupt it is armed for the next burst.  [begin(-1)] attaches
    nothing and still reports success. *)
Theorem begin_succeeds_iff_interrupt_pin (hw : Hardware) (pin : Z) (s : State) :
  reachable s ->
  (pin <> -1 ->
   (begin hw pin s).1 = isInterruptPin hw pin
   /\ m_isInterruptAttached (begin hw pin s).2 = isInterruptPin hw pin
   /\ m_rawTransitionIndex (begin hw pin s).2 = 0%nat
   /\ m_codeResultIsReady (begin hw pin s).2 = false
   /\ (isInterruptPin hw pin = true -> digitalRead hw pin = HIGH ->
       Armed (begin hw pin s).2))
  /\ (begin hw (-1) s).1 = true
  /\ m_isInterruptAttached (begin hw (-1) s).2 = false.
Proof.
  intros Hs. pose proof (reachable_Inv s Hs) as Hinv.
  pose proof (inv_wellFormed _ Hinv) as (Hw1 & Hw2 & _).
  split.
  - intros Hpin.
    destruct (begin_cases hw pin s Hpin)
      as (B1 & B2 & B3 & B4 & B5 & B6 & B7 & B8 & B9 & B10).
    do 4 (split; [assumption|]).
    intros Hint Hhigh. split; try assumption; try congruence.
  - pose proof (inv_attached_pin _ Hinv) as Hap.
    unfold begin.
    set (s1 := if m_isInterruptAttached s && negb (m_irPin s =? -1)
               then disable hw s else s).
    assert (H1 : m_isInterruptAttached s1 = false).
    { subst s1. destruct (m_isInterruptAttached s) eqn:Hatt; [|assumption].
      specialize (Hap eq_refl).
      destruct (Z.eqb_spec (m_irPin s) (-1)); [contradiction|].
      cbn [andb negb]. unfold disable. rewrite Hatt.
      destruct (Z.eqb_spec (m_irPin s) (-1)); [contradiction|].
      cbn. now destruct (isInterruptPin hw (m_irPin s)). }
    assert (E : enable hw (set_irPin (-1) s1) = set_irPin (-1) s1)
      by reflexivity.
    rewrite E. cbn [set_irPin m_isInterruptAttached m_irPin]. rewrite H1.
    change (-1 =? -1) with true. cbn [negb andb fst snd].
    split; [reflexivity | exact H1].
Qed.

Lemma begin_example :
  (begin (hwAt 0 0 HIGH) 2 new).1 = true
  /\ Armed (begin (hwAt 0 0 HIGH) 2 new).2
  /\ (begin (hwAt 0 0 HIGH) (-1) (run sonySession new)).1 = true
  /\ m_isInterruptAttached
       (begin (hwAt 0 0 HIGH) (-1) (run sonySession new)).2 = false.
Proof.
  destruct (begin_succeeds_iff_interrupt_pin (hwAt 0 0 HIGH) 2 new reachable_new)
    as (H1 & _).
  destruct (begin_succeeds_iff_interrupt_pin (hwAt 0 0 HIGH) 2
              (run sonySession new) sonySession_reachable) as (_ & H2 & H3).
  destruct (H1 ltac:(lia)) as (B1 & _ & _ & _ & B5).
  split; [exact B1|]. split; [apply B5; reflexivity|]. split; assumption.
Defined.

(** ** Waiting for the end of a burst *)

(** X9.  While no result is pending and no burst has been copied, a poll does
    nothing and returns false as long as the edge buffer is empty or the
    last edge is at most IR_LIB_IDLE_TIMEOUT_MS milliseconds old, also when
    [millis()] has rolled over since that edge. *)
Theorem poll_waits_for_idle_line (hw : Hardware) (s : State) (lastEdge : Z) :
  m_codeResultIsReady s = false ->
  m_rawBurstCopied s = false ->
  m_lastTransitionMillis s = wrap32 lastEdge ->
  m_rawTransitionIndex s = 0%nat
  \/ 0 <= millis hw - lastEdge <= IR_LIB_IDLE_TIMEOUT_MS ->
  isCode hw s = (false, s).
Proof.
  intros Hr Hc Hl Hcase. unfold isCode. rewrite Hr, Hc, Hl.
  destruct (m_isInterruptAttached s); cbn [negb]; [|reflexivity].
  rewrite andb_false_r.
  destruct Hcase as [-> | Hfresh]; [reflexivity|].
  rewrite elapsed_millis by (unfold IR_LIB_IDLE_TIMEOUT_MS in Hfresh; lia).
  destruct (Z.gtb_spec (millis hw - lastEdge) IR_LIB_IDLE_TIMEOUT_MS); [lia|].
  now rewrite andb_false_r.
Qed.

Lemma poll_waits_example :
  let s := run (CallBegin (hwAt 4294967200 0 HIGH) 2
                :: burstCalls LOW [(4294967290, 0); (4294967295, 2400)]) new in
  isCode (hwAt (4294967296 + 90) 0 HIGH) s = (false, s).
Proof.
  cbv zeta.
  apply (poll_waits_for_idle_line _ _ 4294967295);
    [reflexivity | reflexivity | reflexivity |].
  right. cbn [millis hwAt]. unfold IR_LIB_IDLE_TIMEOUT_MS. lia.
Defined.

(** ** Between two bursts *)

(** X10.  Reading the result and polling once while the edge buffer is still
    empty arms the receiver for the next burst: the poll returns false and
    clears the copied flag. *)
Theorem read_and_poll_rearm (hw : Hardware) (s : State) :
  Idle s ->
  (isCode hw (getCode s).2).1 = false
  /\ Armed (isCode hw (getCode s).2).2.
Proof.
  intros [Hatt Hidx Hlvl Hraw Hpairs].
  assert (G : m_isInterruptAttached (getCode s).2 = true
              /\ m_rawTransitionIndex (getCode s).2 = 0%nat
              /\ m_lastPinState (getCode s).2 = HIGH
              /\ m_codeResultIsReady (getCode s).2 = false
              /\ m_rawTransitions (getCode s).2 = m_rawTransitions s
              /\ m_pulseSpacePairs (getCode s).2 = m_pulseSpacePairs s).
  { unfold getCode. destruct (m_codeResultIsReady s) eqn:Hr; cbn; repeat split;
      assumption. }
  destruct G as (G1 & G2 & G3 & G4 & G5 & G6).
  unfold isCode. rewrite G1, G2, G4. cbn [negb Nat.ltb Nat.leb andb Nat.eqb].
  destruct (m_rawBurstCopied (getCode s).2) eqn:Hc; cbn [fst snd].
  - split; [reflexivity|]. split; state_simpl; congruence.
  - split; [reflexivity|]. split; congruence.
Qed.

Lemma read_and_poll_example :
  (isCode (hwAt 600 0 HIGH) (getCode (run sonySession new)).2).1 = false
  /\ Armed (isCode (hwAt 600 0 HIGH) (getCode (run sonySession new)).2).2.
Proof.
  apply read_and_poll_rearm. split; vm_compute; reflexivity.
Defined.

(** ** Decoding what was sent *)

Lemma bitsFrom_S (k n : nat) (v : Z) :
  bitsFrom k (S n) v = Z.testbit v (Z.of_nat k) :: bitsFrom (S k) n v.
Proof. reflexivity. Qed.

(** Setting bit [k] of the low [k] bits of [v] gives its low [k+1] bits. *)
Lemma setBit_next (v : Z) (k : nat) :
  (k < 32)%nat ->
  setBit (v mod 2 ^ Z.of_nat k) (Z.b2z (Z.testbit v (Z.of_nat k))) (Z.of_nat k)
  = v mod 2 ^ Z.of_nat (S k).
Proof.
  intros Hk. unfold setBit, wrap32.
  assert (Hpow : 0 < 2 ^ Z.of_nat k) by (apply Z.pow_pos_nonneg; lia).
  assert (Hle : 2 ^ Z.of_nat (S k) <= 2 ^ 32) by (apply Z.pow_le_mono_r; lia).
  assert (Hsucc : 2 ^ Z.of_nat (S k) = 2 * 2 ^ Z.of_nat k).
  { rewrite Nat2Z.inj_succ, Z.pow_succ_r; lia. }
  pose proof (Z.mod_pos_bound v (2 ^ Z.of_nat k) Hpow) as Hr.
  set (b := Z.b2z (Z.testbit v (Z.of_nat k))).
  assert (Hb : 0 <= b <= 1) by (subst b; destruct (Z.testbit v (Z.of_nat k)); cbn; lia).
  rewrite Z.shiftl_mul_pow2 by lia.
  assert (Hsmall : 0 <= b * 2 ^ Z.of_nat k < 2 ^ 32) by nia.
  rewrite (Z.mod_small (b * 2 ^ Z.of_nat k)) by assumption.
  assert (Hdisj : Z.land (v mod 2 ^ Z.of_nat k) (b * 2 ^ Z.of_nat k) = 0).
  { apply Z.bits_inj'. intros n Hn. rewrite Z.land_spec, Z.bits_0.
    destruct (Z.lt_ge_cases n (Z.of_nat k)).
    - rewrite Z.mul_pow2_bits_low by lia. apply andb_false_r.
    - rewrite Z.mod_pow2_bits_high by lia. reflexivity. }
  rewrite <- Z.add_nocarry_lor by assumption.
  assert (Hval : v mod 2 ^ Z.of_nat (S k) = v mod 2 ^ Z.of_nat k + b * 2 ^ Z.of_nat k).
  { rewrite Hsucc, Z.mul_comm, Z.rem_mul_r by lia.
    subst b. rewrite Z.testbit_spec' by lia. lia. }
  rewrite <- Hval. apply Z.mod_small.
  pose proof (Z.mod_pos_bound v (2 ^ Z.of_nat (S k)) ltac:(lia)). lia.
Qed.

Lemma spaceBitLoop_full (e z o maxBits : Z) (rest : list PulseSpacePair)
    (r : Z) :
  spaceBitLoop e z o maxBits rest r maxBits = (r, maxBits).
Proof.
  destruct rest; cbn [spaceBitLoop]; [reflexivity|].
  now rewrite Z.ltb_irrefl.
Qed.

(** The bit loop of the space-coded protocols reads the bits it is given. *)
Lemma spaceBitLoop_bits (e z o maxBits v : Z) (rest : list PulseSpacePair) :
  TIMING_TOLERANCE <= z ->
  z + 2 * TIMING_TOLERANCE < o <= 2147483647 ->
  forall (n k : nat) (ps : list PulseSpacePair),
  (k + n <= 32)%nat ->
  Z.of_nat (k + n) <= maxBits ->
  Forall2 (spaceCodes e z o) ps (bitsFrom k n v) ->
  spaceBitLoop e z o maxBits (ps ++ rest) (v mod 2 ^ Z.of_nat k) (Z.of_nat k)
  = spaceBitLoop e z o maxBits rest (v mod 2 ^ Z.of_nat (k + n)) (Z.of_nat (k + n)).
Proof.
  intros Hz Ho. unfold TIMING_TOLERANCE in Hz, Ho.
  induction n as [|n IH]; intros k ps Hk Hmax Hps.
  - apply Forall2_nil_inv_r in Hps as ->. now rewrite Nat.add_0_r.
  - rewrite bitsFrom_S in Hps.
    apply Forall2_cons_inv_r in Hps as (p & ps' & [Hp Hs] & Hps' & ->).
    unfold TIMING_TOLERANCE in Hp, Hs.
    cbn [app spaceBitLoop].
    destruct (Z.ltb_spec (Z.of_nat k) maxBits); [|lia].
    assert (Hsp : (space p =? -1) = false).
    { apply Z.eqb_neq. destruct (Z.testbit v (Z.of_nat k)); lia. }
    rewrite Hsp, andb_false_r. cbv iota. rewrite ?Hsp. cbn [negb].
    assert (Hpulse : isWithinTolerance (pulse p) e TIMING_TOLERANCE = true).
    { apply isWithinTolerance_true; unfold TIMING_TOLERANCE; lia. }
    rewrite Hpulse.
    replace (Z.of_nat k + 1) with (Z.of_nat (S k)) by lia.
    replace (k + S n)%nat with (S k + n)%nat by lia.
    destruct (Z.testbit v (Z.of_nat k)) eqn:Hbit.
    + assert (H0 : isWithinTolerance (space p) z TIMING_TOLERANCE = false).
      { apply isWithinTolerance_false. unfold TIMING_TOLERANCE. lia. }
      assert (H1 : isWithinTolerance (space p) o TIMING_TOLERANCE = true).
      { apply isWithinTolerance_true; unfold TIMING_TOLERANCE; lia. }
      rewrite H0, H1.
      pose proof (setBit_next v k ltac:(lia)) as Hset. rewrite Hbit in Hset.
      cbn [Z.b2z] in Hset. rewrite Hset.
      apply IH; [lia | lia | assumption].
    + assert (H0 : isWithinTolerance (space p) z TIMING_TOLERANCE = true).
      { apply isWithinTolerance_true; unfold TIMING_TOLERANCE; lia. }
      rewrite H0.
      pose proof (setBit_next v k ltac:(lia)) as Hset. rewrite Hbit in Hset.
      cbn [Z.b2z] in Hset. rewrite Hset.
      apply IH; [lia | lia | assumption].
Qed.

Lemma sonyBitLoop_full (maxBits : Z) (rest : list PulseSpacePair) (r : Z) :
  sonyBitLoop maxBits rest r maxBits = (r, maxBits).
Proof.
  destruct rest; cbn [sonyBitLoop]; [reflexivity|].
  now rewrite Z.ltb_irrefl.
Qed.

(** The SONY bit loop reads the bits it is given, whatever the spaces. *)
Lemma sonyBitLoop_bits (v : Z) (maxBits : nat) (rest : list PulseSpacePair) :
  (maxBits <= 32)%nat ->
  forall (n k : nat) (ps : list PulseSpacePair),
  (k + n = maxBits)%nat ->
  Forall2 (pulseCodes SONY_ZERO_PULSE SONY_ONE_PULSE) ps (bitsFrom k n v) ->
  sonyBitLoop (Z.of_nat maxBits) (ps ++ rest) (v mod 2 ^ Z.of_nat k) (Z.of_nat k)
  = (v mod 2 ^ Z.of_nat maxBits, Z.of_nat maxBits).
Proof.
  intros Hmax. induction n as [|n IH]; intros k ps Hk Hps.
  - apply Forall2_nil_inv_r in Hps as ->. rewrite Nat.add_0_r in Hk. subst k.
    apply sonyBitLoop_full.
  - rewrite bitsFrom_S in Hps.
    apply Forall2_cons_inv_r in Hps as (p & ps' & Hp & Hps' & ->).
    unfold pulseCodes, TIMING_TOLERANCE, SONY_ZERO_PULSE, SONY_ONE_PULSE in Hp.
    cbn [app sonyBitLoop].
    destruct (Z.ltb_spec (Z.of_nat k) (Z.of_nat maxBits)); [|lia].
    assert (Hpulse : (pulse p =? -1) = false).
    { apply Z.eqb_neq. destruct (Z.testbit v (Z.of_nat k)); lia. }
    rewrite Hpulse. cbn [negb].
    replace (Z.of_nat k + 1) with (Z.of_nat (S k)) by lia.
    pose proof (setBit_next v k ltac:(lia)) as Hset.
    assert (Hdone : Z.of_nat (S k) = Z.of_nat maxBits ->
                    (setBit (v mod 2 ^ Z.of_nat k)
                            (Z.b2z (Z.testbit v (Z.of_nat k))) (Z.of_nat k),
                     Z.of_nat (S k))
                    = (v mod 2 ^ Z.of_nat maxBits, Z.of_nat maxBits)).
    { intros E. apply Nat2Z.inj in E. rewrite Hset, E. reflexivity. }
    specialize (IH (S k) ps' ltac:(lia) Hps'). rewrite <- Hset in IH.
    destruct (Z.testbit v (Z.of_nat k)) eqn:Hbit; cbn [Z.b2z] in *.
    + assert (H0 : isWithinTolerance (pulse p) SONY_ZERO_PULSE TIMING_TOLERANCE
                   = false).
      { apply isWithinTolerance_false.
        unfold TIMING_TOLERANCE, SONY_ZERO_PULSE. lia. }
      assert (H1 : isWithinTolerance (pulse p) SONY_ONE_PULSE TIMING_TOLERANCE
                   = true).
      { apply isWithinTolerance_true; unfold TIMING_TOLERANCE, SONY_ONE_PULSE; lia. }
      rewrite H0, H1.
      destruct (Z.eqb_spec (Z.of_nat (S k)) (Z.of_nat maxBits)) as [E | _];
        cbn [andb]; [|exact IH].
      repeat match goal with
             | |- (if ?b then _ else _) = _ => destruct b
             end; first [now apply Hdone | exact IH].
    + assert (H0 : isWithinTolerance (pulse p) SONY_ZERO_PULSE TIMING_TOLERANCE
                   = true).
      { apply isWithinTolerance_true; unfold TIMING_TOLERANCE, SONY_ZERO_PULSE; lia. }
      rewrite H0.
      destruct (Z.eqb_spec (Z.of_nat (S k)) (Z.of_nat maxBits)) as [E | _];
        cbn [andb]; [|exact IH].
      repeat match goal with
             | |- (if ?b then _ else _) = _ => destruct b
             end; first [now apply Hdone | exact IH].
Qed.

Lemma byte_field (v : Z) (k : Z) :
  0 <= k ->
  Z.land (Z.shiftr v k) 0xFF = (v / 2 ^ k) mod 256.
Proof.
  intros Hi. rewrite Z.shiftr_div_pow2 by lia.
  change 0xFF with (Z.ones 8). now rewrite Z.land_ones by lia.
Qed.

Lemma lor_high_low_byte (hi lo : Z) :
  0 <= lo < 256 -> Z.lor (Z.shiftl hi 8) lo = 256 * hi + lo.
Proof.
  intros Hlo. rewrite Z.shiftl_mul_pow2 by lia. change (2 ^ 8) with 256.
  rewrite <- Z.add_nocarry_lor; [lia|].
  apply Z.bits_inj'. intros n Hn. rewrite Z.land_spec, Z.bits_0.
  destruct (Z.lt_ge_cases n 8).
  - change 256 with (2 ^ 8). rewrite Z.mul_pow2_bits_low by lia. reflexivity.
  - rewrite <- (Z.mod_small lo (2 ^ 8)) by (change (2 ^ 8) with 256; lia).
    rewrite Z.mod_pow2_bits_high by lia. apply andb_false_r.
Qed.

Lemma necBits_round_trip (v : Z) (dataPairs rest : list PulseSpacePair) :
  0 <= v < 2 ^ 32 ->
  Forall2 (spaceCodes NEC_BIT_PULSE NEC_ZERO_SPACE NEC_ONE_SPACE)
          dataPairs (bitsFrom 0 32 v) ->
  necBits (dataPairs ++ rest) = (v, 32).
Proof.
  intros Hv Hbits. unfold necBits.
  pose proof (spaceBitLoop_bits NEC_BIT_PULSE NEC_ZERO_SPACE NEC_ONE_SPACE
                (NEC_INITIAL_BITS - 1) v rest) as E.
  specialize (E ltac:(vm_compute; discriminate)
                ltac:(vm_compute; split; [reflexivity | discriminate])
                32%nat 0%nat dataPairs ltac:(lia)
                ltac:(vm_compute; discriminate) Hbits).
  change (Z.of_nat 0) with 0 in E. change (Z.of_nat (0 + 32)) with 32 in E.
  rewrite Z.pow_0_r, Z.mod_1_r in E. rewrite E.
  change (NEC_INITIAL_BITS - 1) with 32. rewrite spaceBitLoop_full.
  f_equal. apply Z.mod_small. exact Hv.
Qed.

Lemma nec_round_trip_aux (a1 a2 c1 c2 : Z) (dataPairs rest : list PulseSpacePair) :
  0 <= a1 < 256 -> 0 <= a2 < 256 -> 0 <= c1 < 256 -> 0 <= c2 < 256 ->
  Forall2 (spaceCodes NEC_BIT_PULSE NEC_ZERO_SPACE NEC_ONE_SPACE) dataPairs
          (bitsFrom 0 32 (a1 + 256 * a2 + 65536 * c1 + 16777216 * c2)) ->
  decodeNECData (dataPairs ++ rest)
  = {| base := {| brand := NEC;
                  command := c1;
                  address := if a1 + a2 =? 255 then a1 else 256 * a2 + a1 |};
       checksumValid := (c1 + c2 =? 255) |}.
Proof.
  intros Ha1 Ha2 Hc1 Hc2 Hbits.
  set (v := a1 + 256 * a2 + 65536 * c1 + 16777216 * c2) in *.
  assert (Hv : 0 <= v < 2 ^ 32) by (subst v; lia).
  unfold decodeNECData. rewrite (necBits_round_trip v) by assumption.
  assert (B1 : Z.land (Z.shiftr v 0) 0xFF = a1).
  { rewrite (byte_field v 0) by lia. change (2 ^ 0) with 1.
    subst v. Z.div_mod_to_equations. lia. }
  assert (B2 : Z.land (Z.shiftr v 8) 0xFF = a2).
  { rewrite (byte_field v 8) by lia. change (2 ^ 8) with 256.
    subst v. Z.div_mod_to_equations. lia. }
  assert (B3 : Z.land (Z.shiftr v 16) 0xFF = c1).
  { rewrite (byte_field v 16) by lia. change (2 ^ 16) with 65536.
    subst v. Z.div_mod_to_equations. lia. }
  assert (B4 : Z.land (Z.shiftr v 24) 0xFF = c2).
  { rewrite (byte_field v 24) by lia. change (2 ^ 24) with 16777216.
    subst v. Z.div_mod_to_equations. lia. }
  rewrite B1, B2, B3, B4.
  change (32 >=? 8) with true. change (32 >=? 16) with true.
  change (32 >=? 24) with true. change (32 >=? 32) with true. cbv iota.
  destruct (Z.eqb_spec a1 (-1)); [lia|]. destruct (Z.eqb_spec a2 (-1)); [lia|].
  destruct (Z.eqb_spec c1 (-1)); [lia|]. destruct (Z.eqb_spec c2 (-1)); [lia|].
  cbn [negb andb]. unfold uint8_of_int.
  assert (Ha : (((a1 + a2) mod 256) =? 255) = (a1 + a2 =? 255)).
  { destruct (Z.eqb_spec (a1 + a2) 255) as [E | E].
    - rewrite E. reflexivity.
    - apply Z.eqb_neq. Z.div_mod_to_equations. lia. }
  assert (Hc : (((c1 + c2) mod 256) =? 255) = (c1 + c2 =? 255)).
  { destruct (Z.eqb_spec (c1 + c2) 255) as [E | E].
    - rewrite E. reflexivity.
    - apply Z.eqb_neq. Z.div_mod_to_equations. lia. }
  rewrite Ha, Hc, lor_high_low_byte by lia.
  destruct (a1 + a2 =? 255), (c1 + c2 =? 255); reflexivity.
Qed.

(** X11.  What an NEC transmitter sends is what [decodeNECData] returns.  Let the
    data pairs carry the 32 bits of the four bytes [a1], [a2], [c1], [c2],
    least significant bit first, every mark and space within
    TIMING_TOLERANCE of its nominal length, followed by any pairs (the stop
    mark).  Then the command is [c1] and the checksum flag tells whether
    [c2] is its complement; the address is [a1] when [a2] is its complement
    and the 16-bit value [a2:a1] otherwise. *)
Theorem nec_decode_round_trip (a1 a2 c1 c2 : Z)
    (dataPairs rest : list PulseSpacePair) :
  0 <= a1 < 256 -> 0 <= a2 < 256 -> 0 <= c1 < 256 -> 0 <= c2 < 256 ->
  Forall2 (spaceCodes NEC_BIT_PULSE NEC_ZERO_SPACE NEC_ONE_SPACE) dataPairs
          (bitsFrom 0 32 (a1 + 256 * a2 + 65536 * c1 + 16777216 * c2)) ->
  decodeNECData (dataPairs ++ rest)
  = {| base := {| brand := NEC;
                  command := c1;
                  address := if a1 + a2 =? 255 then a1 else 256 * a2 + a1 |};
       checksumValid := (c1 + c2 =? 255) |}.
Proof. apply nec_round_trip_aux. Qed.

Lemma spaceCoded_codes (e z o : Z) (bits : list bool) :
  Forall2 (spaceCodes e z o) (spaceCoded e z o bits) bits.
Proof.
  induction bits as [|b bits IH]; [apply List.Forall2_nil|].
  apply List.Forall2_cons; [|exact IH].
  unfold spaceCodes, TIMING_TOLERANCE. cbn [pulse space]. lia.
Qed.

Lemma pulseCoded_codes (z o sp : Z) (bits : list bool) :
  Forall2 (pulseCodes z o) (pulseCoded z o sp bits) bits.
Proof.
  induction bits as [|b bits IH]; [apply List.Forall2_nil|].
  apply List.Forall2_cons; [|exact IH].
  unfold pulseCodes, TIMING_TOLERANCE. cbn [pulse]. lia.
Qed.

Lemma nec_decode_example :
  decodeNECData
    (spaceCoded NEC_BIT_PULSE NEC_ZERO_SPACE NEC_ONE_SPACE
                (bitsFrom 0 32 (0 + 256 * 255 + 65536 * 16 + 16777216 * 239))
     ++ [ {| pulse := 563; space := -1 |} ])
  = {| base := {| brand := NEC; command := 16; address := 0 |};
       checksumValid := true |}.
Proof.
  apply (nec_decode_round_trip 0 255 16 239); try lia.
  apply spaceCoded_codes.
Defined.

Lemma jvc_round_trip_aux (a c : Z) (dataPairs rest : list PulseSpacePair) :
  0 <= a < 256 -> 0 <= c < 256 ->
  Forall2 (spaceCodes JVC_BIT_PULSE JVC_ZERO_SPACE JVC_ONE_SPACE) dataPairs
          (bitsFrom 0 16 (a + 256 * c)) ->
  decodeWinningSegment JVC (dataPairs ++ rest)
  = {| brand := JVC; command := c; address := a |}.
Proof.
  intros Ha Hc Hbits. set (v := a + 256 * c) in *.
  unfold decodeWinningSegment.
  assert (Hlen : length (dataPairs ++ rest) <> 0%nat).
  { rewrite length_app, (Forall2_length _ _ _ Hbits). cbn. lia. }
  destruct (Nat.eqb_spec (length (dataPairs ++ rest)) 0); [contradiction|].
  change (brand_eqb JVC UNKNOWN) with false. change (brand_eqb JVC SONY) with false.
  change (brand_eqb JVC JVC) with true. cbn [orb]. cbv iota.
  pose proof (spaceBitLoop_bits JVC_BIT_PULSE JVC_ZERO_SPACE JVC_ONE_SPACE
                16 v rest) as E.
  specialize (E ltac:(vm_compute; discriminate)
                ltac:(vm_compute; split; [reflexivity | discriminate])
                16%nat 0%nat dataPairs ltac:(lia)
                ltac:(vm_compute; discriminate) Hbits).
  change (Z.of_nat 0) with 0 in E. change (Z.of_nat (0 + 16)) with 16 in E.
  rewrite Z.pow_0_r, Z.mod_1_r in E. rewrite E, spaceBitLoop_full.
  rewrite (Z.mod_small v) by (subst v; lia).
  change (16 >=? 16) with true. change (16 >=? 8) with true. cbv iota.
  f_equal.
  - rewrite (byte_field v 8) by lia. change (2 ^ 8) with 256.
    subst v. Z.div_mod_to_equations. lia.
  - rewrite (byte_field v 0) by lia. change (2 ^ 0) with 1.
    subst v. Z.div_mod_to_equations. lia.
Qed.

(** X12.  What a JVC transmitter sends is what the decoder returns: 16 data pairs
    that carry an address byte and then a command byte, least significant
    bit first, with marks and spaces within TIMING_TOLERANCE, followed by
    any pairs (the stop mark), decode to that address and command. *)
Theorem jvc_decode_round_trip (a c : Z) (dataPairs rest : list PulseSpacePair) :
  0 <= a < 256 -> 0 <= c < 256 ->
  Forall2 (spaceCodes JVC_BIT_PULSE JVC_ZERO_SPACE JVC_ONE_SPACE) dataPairs
          (bitsFrom 0 16 (a + 256 * c)) ->
  decodeWinningSegment JVC (dataPairs ++ rest)
  = {| brand := JVC; command := c; address := a |}.
Proof. apply jvc_round_trip_aux. Qed.

Lemma jvc_decode_example :
  decodeWinningSegment JVC
    (spaceCoded JVC_BIT_PULSE JVC_ZERO_SPACE JVC_ONE_SPACE
                (bitsFrom 0 16 (3 + 256 * 13))
     ++ [ {| pulse := 526; space := -1 |} ])
  = {| brand := JVC; command := 13; address := 3 |}.
Proof.
  apply (jvc_decode_round_trip 3 13); try lia. apply spaceCoded_codes.
Defined.

Lemma sony_round_trip_aux (c a : Z) (dataPairs rest : list PulseSpacePair) :
  0 <= c < 128 -> 0 <= a < 32 ->
  Forall2 (pulseCodes SONY_ZERO_PULSE SONY_ONE_PULSE) dataPairs
          (bitsFrom 0 12 (c + 128 * a)) ->
  decodeWinningSegment SONY (dataPairs ++ rest)
  = {| brand := SONY; command := c; address := a |}.
Proof.
  intros Hc Ha Hbits. set (v := c + 128 * a) in *.
  unfold decodeWinningSegment.
  assert (Hlen : length (dataPairs ++ rest) <> 0%nat).
  { rewrite length_app, (Forall2_length _ _ _ Hbits). cbn. lia. }
  destruct (Nat.eqb_spec (length (dataPairs ++ rest)) 0); [contradiction|].
  change (brand_eqb SONY UNKNOWN) with false.
  change (brand_eqb SONY SONY) with true. cbn [orb]. cbv iota.
  pose proof (sonyBitLoop_bits v 12 rest ltac:(lia) 12%nat 0%nat dataPairs
                eq_refl Hbits) as E.
  change (Z.of_nat 0) with 0 in E. change (Z.of_nat 12) with 12 in E.
  rewrite Z.pow_0_r, Z.mod_1_r in E.
  change (SONY_INITIAL_BITS - 1) with 12. rewrite E.
  rewrite (Z.mod_small v) by (subst v; lia).
  change (12 >=? 7) with true. change (12 >=? 12) with true. cbv iota.
  f_equal.
  - rewrite Z.shiftr_div_pow2 by lia. change 0x7F with (Z.ones 7).
    rewrite Z.land_ones by lia. change (2 ^ 0) with 1. change (2 ^ 7) with 128.
    subst v. Z.div_mod_to_equations. lia.
  - rewrite Z.shiftr_div_pow2 by lia. change 0x1F with (Z.ones 5).
    rewrite Z.land_ones by lia. change (2 ^ 7) with 128. change (2 ^ 5) with 32.
    subst v. Z.div_mod_to_equations. lia.
Qed.

(** X13.  What a SONY (SIRC-12) transmitter sends is what the decoder returns: 12
    data pairs whose marks carry a 7-bit command and then a 5-bit address,
    least significant bit first, within TIMING_TOLERANCE, decode to that
    command and address.  The spaces play no part: they may be anything,
    also missing. *)
Theorem sony_decode_round_trip (c a : Z) (dataPairs rest : list PulseSpacePair) :
  0 <= c < 128 -> 0 <= a < 32 ->
  Forall2 (pulseCodes SONY_ZERO_PULSE SONY_ONE_PULSE) dataPairs
          (bitsFrom 0 12 (c + 128 * a)) ->
  decodeWinningSegment SONY (dataPairs ++ rest)
  = {| brand := SONY; command := c; address := a |}.
Proof. apply sony_round_trip_aux. Qed.

Lemma sony_decode_example :
  decodeWinningSegment SONY
    (pulseCoded SONY_ZERO_PULSE SONY_ONE_PULSE (-1)
                (bitsFrom 0 12 (21 + 128 * 1)) ++ [])
  = {| brand := SONY; command := 21; address := 1 |}.
Proof.
  apply (sony_decode_round_trip 21 1); try lia. apply pulseCoded_codes.
Defined.

(** ** Votes over segments that did not decode *)

Lemma countSegment_invalid (counts : list DecodedCount) (x : DecodedIR * bool) :
  isValidDecode x.1 = false -> countSegment counts x = counts.
Proof. destruct x as [seg chk]. cbn. now intros ->. Qed.

Lemma fold_countSegment_invalid (l : list (DecodedIR * bool)) :
  forall counts : list DecodedCount,
  Forall (fun x => isValidDecode x.1 = false) l ->
  fold_left countSegment l counts = counts.
Proof.
  induction l as [|x l IH]; intros counts Hall; [reflexivity|].
  apply List.Forall_cons_iff in Hall as [Hx Hl].
  cbn [fold_left]. rewrite countSegment_invalid by assumption. now apply IH.
Qed.

(** X14.  Segments without command or protocol take no part in the vote.  Over
    at most ten segments, [determineWinner] returns the empty value when no
    segment has both a protocol and a command; as soon as one has, it
    returns the frame of such a segment, and no such segment has more votes
    than the one returned. *)
Theorem vote_ignores_undecoded_segments (l : list (DecodedIR * bool)) :
  (length l <= IR_LIB_MAX_DECODED_SEGMENTS)%nat ->
  (Forall (fun x => isValidDecode x.1 = false) l ->
   determineWinner (l.*1) (length l) (l.*2) = DecodedIR_empty)
  /\ (Exists (fun x => isValidDecode x.1 = true) l ->
      exists w,
        w ∈ l /\ isValidDecode w.1 = true
        /\ determineWinner (l.*1) (length l) (l.*2) = w.1
        /\ forall x, x ∈ l -> isValidDecode x.1 = true ->
             (occurrences x l <= occurrences w l)%nat).
Proof.
  intros Hlen. split.
  - intros Hall. destruct l as [|x0 l0]; [reflexivity|].
    rewrite determineWinner_unfold by discriminate. cbv zeta.
    rewrite fold_countSegment_invalid by assumption. reflexivity.
  - intros Hex. assert (Hne : l <> []) by (intros ->; inversion Hex).
    rewrite determineWinner_unfold by assumption. cbv zeta.
    pose proof (GroupInv_fold l) as Hinv.
    set (counts := fold_left countSegment l []) in *.
    assert (Hcover : forall x, x ∈ l -> isValidDecode x.1 = true ->
              exists (m : nat) (g : DecodedCount),
                counts !! m = Some g /\ sameGroup x (rep g) = true).
    { intros x Hx Hv. apply (g_cover _ _ Hinv); [now right | assumption..]. }
    destruct (maxLoop counts 0 0 (-1)) as [m w] eqn:E.
    apply maxLoop_spec in E
      as [(-> & -> & Hall) | (cs1 & g & cs2 & Hcounts & -> & -> & Hlt & H1 & H2)].
    + exfalso. apply List.Exists_exists in Hex as (x & Hx & Hv).
      destruct (Hcover x) as (j & g & Hg & _);
        [now apply list_elem_of_In | assumption |].
      pose proof (group_count_positive _ _ _ _ Hinv Hg).
      pose proof (Hall g (list_elem_of_lookup_2 _ _ _ Hg)). lia.
    + assert (Hg : counts !! length cs1 = Some g).
      { rewrite Hcounts. now apply list_lookup_middle. }
      destruct (g_first _ _ Hinv _ _ Hg)
        as (pre & w0 & post & Hl & Hw0 & Hdata & _).
      exists w0. split; [|split; [|split]].
      * rewrite Hl. apply elem_of_app. right. apply elem_of_cons. now left.
      * rewrite Hdata. exact (g_valid _ _ Hinv _ _ Hg).
      * replace (negb (Z.of_nat (0 + length cs1) =? -1)) with true
          by (symmetry; apply negb_true_iff, Z.eqb_neq; lia).
        rewrite Nat2Z.id, Hcounts. cbn [Nat.add].
        rewrite list_lookup_total_middle by reflexivity. now symmetry.
      * intros x Hx Hv. destruct (Hcover x Hx Hv) as (j & gx & Hgx & Hxg).
        rewrite (occurrences_sameGroup _ _ l Hxg).
        rewrite (occurrences_sameGroup _ _ l Hw0).
        pose proof (g_count _ _ Hinv _ _ Hgx) as Hcx.
        pose proof (g_count _ _ Hinv _ _ Hg) as Hcg.
        assert (count gx <= count g); [|lia].
        apply list_elem_of_lookup_2 in Hgx. rewrite Hcounts in Hgx.
        apply elem_of_app in Hgx as [Hin | Hin].
        -- apply H1 in Hin. lia.
        -- apply elem_of_cons in Hin as [-> | Hin]; [lia | now apply H2].
Qed.

(** A SONY frame cut short after six bits has no command; it does not keep
    the complete frame after it from winning. *)
Lemma vote_ignores_undecoded_example :
  determineWinner
    [ {| brand := SONY; command := -1; address := -1 |}; sony_21 ] 2
    [false; false]
  = sony_21.
Proof.
  destruct (vote_ignores_undecoded_segments
              [ ({| brand := SONY; command := -1; address := -1 |}, false);
                (sony_21, false) ]) as [_ H].
  { cbn. unfold IR_LIB_MAX_DECODED_SEGMENTS. lia. }
  destruct H as (w & Hw & Hv & Hres & _).
  { apply List.Exists_cons_tl, List.Exists_cons_hd. reflexivity. }
  change (determineWinner
            [ {| brand := SONY; command := -1; address := -1 |}; sony_21 ] 2
            [false; false] = w.1) in Hres.
  rewrite Hres. rewrite !elem_of_cons in Hw.
  destruct Hw as [-> | [-> | Hw]]; [discriminate | reflexivity | inversion Hw].
Defined.

(** ** The protocol of a result *)

Lemma decodeWinningSegment_brand (w : RemoteBrand) (dataPairs : list PulseSpacePair) :
  brand (decodeWinningSegment w dataPairs) = w
  \/ brand (decodeWinningSegment w dataPairs) = UNKNOWN.
Proof.
  unfold decodeWinningSegment.
  destruct (_ || _); [now right|].
  destruct (brand_eqb w SONY); [destruct (sonyBitLoop _ _ _ _); now left|].
  destruct (brand_eqb w JVC); [destruct (spaceBitLoop _ _ _ _ _ _ _); now left|].
  now left.
Qed.

Lemma decodeNECData_brand (dataPairs : list PulseSpacePair) :
  brand (base (decodeNECData dataPairs)) = NEC.
Proof.
  unfold decodeNECData. destruct (necBits dataPairs) as [rawBits bitCount].
  repeat match goal with
         | |- context [let '(_, _) := ?e in _] => destruct e
         | |- context [if ?b then _ else _] => destruct b
         end; reflexivity.
Qed.

Lemma segment_iter_brand (w : RemoteBrand) (pairs : list PulseSpacePair)
    (pairCount : nat) (st : SegmentState) (i : nat) :
  (decodedSegmentCount st < length (decodedSegments st))%nat ->
  segmentsOfBrand w st ->
  segmentsOfBrand w (segment_iter w pairs pairCount st i).
Proof.
  intros Hroom Hinv. unfold segment_iter.
  destruct (if _ && _ && _ then true else _); [|assumption].
  destruct (_ >? 0); [|assumption].
  unfold segmentsOfBrand in *.
  destruct (brand_eqb w NEC) eqn:Hnec.
  - apply brand_eqb_eq in Hnec. subst w.
    cbn [decodedSegments decodedSegmentCount].
    rewrite list_lookup_total_insert_eq by assumption.
    rewrite decodeNECData_brand. cbn [brand_eqb brandIndex Nat.eqb negb].
    cbn [decodedSegments decodedSegmentCount].
    rewrite take_insert_snoc by assumption.
    apply Forall_app. split; [assumption|].
    apply List.Forall_cons; [apply decodeNECData_brand | apply List.Forall_nil].
  - cbn [decodedSegments decodedSegmentCount].
    rewrite list_lookup_total_insert_eq by assumption.
    match goal with
    | |- context [decodeWinningSegment w ?d] =>
        destruct (decodeWinningSegment_brand w d) as [Hb | Hb];
        set (seg := decodeWinningSegment w d) in *
    end.
    + destruct (brand_eqb (brand seg) UNKNOWN);
        cbn [negb decodedSegments decodedSegmentCount].
      * rewrite take_insert_ge by lia. assumption.
      * rewrite take_insert_snoc by assumption.
        apply Forall_app. split; [assumption|].
        apply List.Forall_cons; [assumption | apply List.Forall_nil].
    + rewrite Hb. cbn [brand_eqb brandIndex Nat.eqb negb].
      cbn [decodedSegments decodedSegmentCount].
      rewrite take_insert_ge by lia. assumption.
Qed.

Lemma segmentLoop_brand (w : RemoteBrand) (pairs : list PulseSpacePair)
    (pairCount : nat) (indices : list nat) :
  forall st : SegmentState,
  length (decodedSegments st) = IR_LIB_MAX_DECODED_SEGMENTS ->
  segmentsOfBrand w st ->
  segmentsOfBrand w (segmentLoop w pairs pairCount indices st).
Proof.
  induction indices as [|i rest IH]; intros st Hlen Hinv; cbn [segmentLoop];
    [assumption|].
  destruct (Nat.ltb_spec (decodedSegmentCount st) IR_LIB_MAX_DECODED_SEGMENTS)
    as [Hlt | Hge]; [|assumption].
  apply IH.
  - now rewrite (proj2 (segment_iter_count w pairs pairCount st i)).
  - apply segment_iter_brand; [lia | assumption].
Qed.

(** The vote returns the empty value or one of the segments it was given. *)
Lemma determineWinner_member (segments : list DecodedIR) (n : nat)
    (segmentChecksums : list bool) :
  determineWinner segments n segmentChecksums = DecodedIR_empty
  \/ determineWinner segments n segmentChecksums ∈ take n segments.
Proof.
  unfold determineWinner. destruct (Nat.eqb n 0); [now left|].
  unfold groupSegments.
  set (l := zip (take n segments) (take n segmentChecksums)).
  pose proof (GroupInv_fold l) as Hinv.
  set (counts := fold_left countSegment l []) in *.
  destruct (maxLoop counts 0 0 (-1)) as [m w] eqn:E.
  apply maxLoop_spec in E
    as [(-> & -> & Hall) | (cs1 & g & cs2 & Hcounts & -> & -> & Hlt & H1 & H2)].
  - now left.
  - right.
    replace (negb (Z.of_nat (0 + length cs1) =? -1)) with true
      by (symmetry; apply negb_true_iff, Z.eqb_neq; lia).
    rewrite Nat2Z.id, Hcounts. cbn [Nat.add].
    rewrite list_lookup_total_middle by reflexivity.
    assert (Hg : counts !! length cs1 = Some g).
    { rewrite Hcounts. now apply list_lookup_middle. }
    destruct (g_first _ _ Hinv _ _ Hg) as (pre & w0 & post & Hl & _ & Hdata & _).
    rewrite <- Hdata.
    assert (Hin : w0 ∈ l).
    { rewrite Hl. apply elem_of_app. right. apply elem_of_cons. now left. }
    destruct w0 as [d c]. subst l. now apply elem_of_zip_l in Hin.
Qed.

Lemma decodeSegmentsAndVote_brand (w : RemoteBrand) (s : State) :
  length (m_decodedSegments s) = IR_LIB_MAX_DECODED_SEGMENTS ->
  m_decodedSegmentCount s = 0%nat ->
  m_codeResultIsReady s = false ->
  m_codeResultIsReady (decodeSegmentsAndVote w s) = true ->
  brand (m_finalResultCode (decodeSegmentsAndVote w s)) = w.
Proof.
  intros Hlen Hcnt Hready. unfold decodeSegmentsAndVote.
  match goal with
  | |- context [segmentLoop ?a ?b ?c ?d ?e] =>
      pose proof (segmentLoop_brand a b c d e Hlen) as Hbrand;
      set (st := segmentLoop a b c d e) in *
  end.
  cbn [m_decodedSegmentCount m_decodedSegments m_finalResultCode
       m_codeResultIsReady m_brandScores set_analysis] in *.
  rewrite Hready.
  destruct (0 <? decodedSegmentCount st)%nat; [|discriminate].
  match goal with
  | |- context [determineWinner ?a ?b ?c] =>
      destruct (determineWinner_member a b c) as [He | Hin];
      set (final := determineWinner a b c) in *
  end.
  - rewrite He. cbn. discriminate.
  - intros _.
    assert (Hb : brand final = w).
    { assert (Hall : segmentsOfBrand w st).
      { apply Hbrand. unfold segmentsOfBrand. rewrite Hcnt. apply List.Forall_nil. }
      unfold segmentsOfBrand in Hall. rewrite Forall_forall in Hall.
      now apply Hall. }
    destruct (negb _ && negb _); exact Hb.
Qed.

(** The winner of the scoring has a positive score and no protocol scored
    more. *)
Lemma selectWinningBrand_max (z sJ sS sN : Z) :
  let '(w, m) := selectWinningBrand [z; sJ; sS; sN] in
  w <> UNKNOWN ->
  0 < m /\ [z; sJ; sS; sN] !!! brandIndex w = m
  /\ sJ <= m /\ sS <= m /\ sN <= m.
Proof.
  unfold selectWinningBrand. cbn.
  repeat match goal with
         | |- context [?a >? ?b] => destruct (Z.gtb_spec a b); cbn
         | |- context [?a =? ?b] => destruct (Z.eqb_spec a b); cbn
         end; intros Hw; try contradiction; cbn; lia.
Qed.

Lemma analyze_scores (s : State) :
  length (m_brandScores s) = NUM_BRANDS ->
  m_pulseSpacePairCount s <> 0%nat ->
  let scores :=
    [0; scoreJVC (m_pulseSpacePairs s) (m_pulseSpacePairCount s);
     scoreSonySIRC12 (m_pulseSpacePairs s) (m_pulseSpacePairCount s);
     scoreNEC (m_pulseSpacePairs s) (m_pulseSpacePairCount s)] in
  let s0 := set_analysis scores (m_decodedSegments s) 0 DecodedIR_empty false s in
  _analyzeAndDecodeBurst s
  = if brand_eqb (selectWinningBrand scores).1 UNKNOWN then s0
    else decodeSegmentsAndVote (selectWinningBrand scores).1 s0.
Proof.
  intros Hlen Hcount. unfold _analyzeAndDecodeBurst.
  destruct (Nat.eqb_spec (m_pulseSpacePairCount s) 0); [contradiction|].
  destruct (m_brandScores s) as [|a [|b [|c [|d [|]]]]]; try discriminate.
  set (sJ := scoreJVC _ _). set (sS := scoreSonySIRC12 _ _). set (sN := scoreNEC _ _).
  cbn [fold_left seq NUM_BRANDS brandIndex insert list_insert set_analysis
       m_brandScores m_decodedSegments].
  destruct (selectWinningBrand [0; sJ; sS; sN]) as [w m]. reflexivity.
Qed.

(** The scores that [_analyzeAndDecodeBurst] leaves in the state. *)
Lemma analyze_brandScores (s : State) :
  length (m_brandScores s) = NUM_BRANDS ->
  m_pulseSpacePairCount s <> 0%nat ->
  m_brandScores (_analyzeAndDecodeBurst s)
  = [0; scoreJVC (m_pulseSpacePairs s) (m_pulseSpacePairCount s);
     scoreSonySIRC12 (m_pulseSpacePairs s) (m_pulseSpacePairCount s);
     scoreNEC (m_pulseSpacePairs s) (m_pulseSpacePairCount s)].
Proof.
  intros Hlen Hcount. rewrite (analyze_scores s Hlen Hcount). cbv zeta.
  destruct (brand_eqb _ UNKNOWN); [reflexivity|].
  match goal with
  | |- context [decodeSegmentsAndVote ?w ?s0] =>
      destruct (decodeSegmentsAndVote_shape w s0)
        as (segs & cnt & final & ready & -> & _);
      [ cbn; unfold IR_LIB_MAX_DECODED_SEGMENTS; lia
      | reflexivity | reflexivity | reflexivity ]
  end.
Qed.

Lemma reported_protocol_aux (s : State) :
  wellFormed s ->
  let s' := _analyzeAndDecodeBurst s in
  m_codeResultIsReady s' = true ->
  let '(w, m) := selectWinningBrand (m_brandScores s') in
  brand (m_finalResultCode s') = w
  /\ w <> UNKNOWN
  /\ 0 < m
  /\ m_brandScores s' !!! brandIndex w = m
  /\ forall b : RemoteBrand, m_brandScores s' !!! brandIndex b <= m.
Proof.
  intros (_ & _ & Hscores & Hsegs) s' Hready. subst s'.
  destruct (Nat.eq_dec (m_pulseSpacePairCount s) 0%nat) as [Hzero | Hcount].
  { exfalso. revert Hready. unfold _analyzeAndDecodeBurst. rewrite Hzero.
    cbn. discriminate. }
  rewrite (analyze_scores s Hscores Hcount) in Hready |- *. cbv zeta in *.
  set (scores := [0; scoreJVC _ _; scoreSonySIRC12 _ _; scoreNEC _ _]) in *.
  pose proof (selectWinningBrand_max 0 (scoreJVC (m_pulseSpacePairs s) (m_pulseSpacePairCount s))
                (scoreSonySIRC12 (m_pulseSpacePairs s) (m_pulseSpacePairCount s))
                (scoreNEC (m_pulseSpacePairs s) (m_pulseSpacePairCount s))) as Hmax.
  fold scores in Hmax.
  destruct (selectWinningBrand scores) as [w m] eqn:Hsel. cbn [fst] in *.
  destruct (brand_eqb w UNKNOWN) eqn:Hw; [discriminate Hready|].
  assert (Hne : w <> UNKNOWN).
  { intros ->. discriminate. }
  set (s0 := set_analysis scores (m_decodedSegments s) 0 DecodedIR_empty false s) in *.
  assert (Hkeep : m_brandScores (decodeSegmentsAndVote w s0) = scores).
  { destruct (decodeSegmentsAndVote_shape w s0)
      as (segs & cnt & final & ready & -> & _); try reflexivity.
    cbn. unfold IR_LIB_MAX_DECODED_SEGMENTS. lia. }
  rewrite Hkeep, Hsel.
  destruct (Hmax Hne) as (Hpos & Hm & HJ & HS & HN).
  split; [|split; [assumption|split; [assumption|split; [assumption|]]]].
  - apply decodeSegmentsAndVote_brand; [assumption | reflexivity..| assumption].
  - intros []; cbn; lia.
Qed.

(** X15.  A reported result carries the protocol that won the scoring.  When the
    analysis of a burst ends with the result-ready flag set, the protocol of
    the stored result is the one selected from the stored scores; that
    protocol has a positive score and no protocol has a greater one. *)
Theorem reported_protocol_won_the_scoring (s : State) :
  wellFormed s ->
  let s' := _analyzeAndDecodeBurst s in
  m_codeResultIsReady s' = true ->
  let '(w, m) := selectWinningBrand (m_brandScores s') in
  brand (m_finalResultCode s') = w
  /\ w <> UNKNOWN
  /\ 0 < m
  /\ m_brandScores s' !!! brandIndex w = m
  /\ forall b : RemoteBrand, m_brandScores s' !!! brandIndex b <= m.
Proof. apply reported_protocol_aux. Qed.

Lemma reported_protocol_example :
  brand (m_finalResultCode (_analyzeAndDecodeBurst (run sonySession new))) = SONY
  /\ m_brandScores (_analyzeAndDecodeBurst (run sonySession new)) !!! 2%nat = 3.
Proof.
  pose proof (reported_protocol_won_the_scoring (run sonySession new)) as H.
  cbv zeta in H.
  replace (selectWinningBrand
             (m_brandScores (_analyzeAndDecodeBurst (run sonySession new))))
    with (SONY, 3) in H by (vm_compute; reflexivity).
  destruct H as (H1 & _ & _ & H4 & _).
  - apply inv_wellFormed, reachable_Inv, sonySession_reachable.
  - vm_compute. reflexivity.
  - split; assumption.
Defined.

(** ** Preambles *)

Lemma matchPreamble_initial (p sp : Z) :
  INT_MIN + 9000 < p <= INT_MAX -> INT_MIN + 9000 < sp <= INT_MAX ->
  (matchPreamble p sp false = JVC
   <-> 8200 <= p <= 8600 /\ 4000 <= sp <= 4400)
  /\ (matchPreamble p sp false = SONY
      <-> 2200 <= p <= 2600 /\ 400 <= sp <= 800)
  /\ (matchPreamble p sp false = NEC
      <-> 8800 <= p <= 9200 /\ 4300 <= sp <= 4700).
Proof.
  unfold INT_MIN, INT_MAX. intros Hp Hsp.
  unfold matchPreamble, TIMING_TOLERANCE, JVC_PREAMBLE_PULSE, JVC_PREAMBLE_SPACE,
    SONY_PREAMBLE_PULSE, SONY_PREAMBLE_SPACE, NEC_PREAMBLE_PULSE,
    NEC_PREAMBLE_SPACE.
  repeat match goal with
         | |- context [isWithinTolerance ?a ?b ?c] =>
             let H := fresh "H" in
             destruct (isWithinTolerance a b c) eqn:H;
             [ apply isWithinTolerance_spec in H; [|lia]
             | apply not_true_iff_false in H;
               rewrite isWithinTolerance_spec in H by lia ]
         end;
  cbn [andb];
    (split; [|split]); (split; [intros E; try discriminate E; lia | intros E]);
    first [reflexivity | exfalso; lia].
Qed.

Lemma matchPreamble_repeat (p sp : Z) :
  INT_MIN + 9000 < p <= INT_MAX -> INT_MIN + 9000 < sp <= INT_MAX ->
  (matchPreamble p sp true = JVC
   <-> -200 <= p <= 200 /\ -200 <= sp <= 200)
  /\ (matchPreamble p sp true = SONY
      <-> 2200 <= p <= 2600 /\ 400 <= sp <= 800)
  /\ (matchPreamble p sp true = NEC
      <-> 8700 <= p <= 9100 /\ 2000 <= sp <= 2400).
Proof.
  unfold INT_MIN, INT_MAX. intros Hp Hsp.
  unfold matchPreamble, TIMING_TOLERANCE, JVC_REPEAT_PREAMBLE_PULSE,
    JVC_REPEAT_PREAMBLE_SPACE, SONY_REPEAT_PREAMBLE_PULSE,
    SONY_REPEAT_PREAMBLE_SPACE, NEC_REPEAT_PREAMBLE_PULSE,
    NEC_REPEAT_PREAMBLE_SPACE.
  repeat match goal with
         | |- context [isWithinTolerance ?a ?b ?c] =>
             let H := fresh "H" in
             destruct (isWithinTolerance a b c) eqn:H;
             [ apply isWithinTolerance_spec in H; [|lia]
             | apply not_true_iff_false in H;
               rewrite isWithinTolerance_spec in H by lia ]
         end;
  cbn [andb];
    (split; [|split]); (split; [intros E; try discriminate E; lia | intros E]);
    first [reflexivity | exfalso; lia].
Qed.

Lemma matchPreamble_initial_in (p sp : Z) :
  (8200 <= p <= 8600 /\ 4000 <= sp <= 4400 -> matchPreamble p sp false = JVC)
  /\ (2200 <= p <= 2600 /\ 400 <= sp <= 800 -> matchPreamble p sp false = SONY)
  /\ (8800 <= p <= 9200 /\ 4300 <= sp <= 4700 -> matchPreamble p sp false = NEC).
Proof.
  repeat split; intros [Hp Hsp];
    apply (matchPreamble_initial p sp); unfold INT_MIN, INT_MAX; lia.
Qed.

Lemma matchPreamble_repeat_in (p sp : Z) :
  (-200 <= p <= 200 /\ -200 <= sp <= 200 -> matchPreamble p sp true = JVC)
  /\ (2200 <= p <= 2600 /\ 400 <= sp <= 800 -> matchPreamble p sp true = SONY)
  /\ (8700 <= p <= 9100 /\ 2000 <= sp <= 2400 -> matchPreamble p sp true = NEC).
Proof.
  repeat split; intros [Hp Hsp];
    apply (matchPreamble_repeat p sp); unfold INT_MIN, INT_MAX; lia.
Qed.

Lemma preamble_present (p sp : Z) (w : RemoteBrand) :
  w <> UNKNOWN -> matchPreamble p sp false = w -> p <> -1 /\ sp <> -1.
Proof.
  intros Hw Hm. split; intros ->; apply Hw; rewrite <- Hm; unfold matchPreamble.
  - change (isWithinTolerance (-1) JVC_PREAMBLE_PULSE TIMING_TOLERANCE) with false.
    change (isWithinTolerance (-1) SONY_PREAMBLE_PULSE TIMING_TOLERANCE) with false.
    change (isWithinTolerance (-1) NEC_PREAMBLE_PULSE TIMING_TOLERANCE) with false.
    reflexivity.
  - change (isWithinTolerance (-1) JVC_PREAMBLE_SPACE TIMING_TOLERANCE) with false.
    change (isWithinTolerance (-1) SONY_PREAMBLE_SPACE TIMING_TOLERANCE) with false.
    change (isWithinTolerance (-1) NEC_PREAMBLE_SPACE TIMING_TOLERANCE) with false.
    rewrite !andb_false_r. reflexivity.
Qed.

(** X16.  For durations above INT_MIN + 9000, where no subtraction of a nominal
    preamble overflows, [matchPreamble] names a protocol exactly when mark
    and space lie in the window of that protocol, TIMING_TOLERANCE around
    its nominal preamble.  The windows of the three protocols do not meet,
    so the order of the tests plays no part.  For the repeat preamble of
    JVC the nominal mark and space are 0: any pair of durations up to
    200 us matches it. *)
Theorem preamble_windows (p sp : Z) :
  INT_MIN + 9000 < p <= INT_MAX -> INT_MIN + 9000 < sp <= INT_MAX ->
  ((matchPreamble p sp false = JVC
    <-> 8200 <= p <= 8600 /\ 4000 <= sp <= 4400)
   /\ (matchPreamble p sp false = SONY
       <-> 2200 <= p <= 2600 /\ 400 <= sp <= 800)
   /\ (matchPreamble p sp false = NEC
       <-> 8800 <= p <= 9200 /\ 4300 <= sp <= 4700))
  /\ ((matchPreamble p sp true = JVC
       <-> -200 <= p <= 200 /\ -200 <= sp <= 200)
      /\ (matchPreamble p sp true = SONY
          <-> 2200 <= p <= 2600 /\ 400 <= sp <= 800)
      /\ (matchPreamble p sp true = NEC
          <-> 8700 <= p <= 9100 /\ 2000 <= sp <= 2400)).
Proof.
  intros Hp Hsp.
  split; [now apply matchPreamble_initial | now apply matchPreamble_repeat].
Qed.

(** The nominal NEC preamble, 9000 us and 4500 us. *)
Lemma preamble_windows_example :
  ((matchPreamble 9000 4500 false = JVC
    <-> 8200 <= 9000 <= 8600 /\ 4000 <= 4500 <= 4400)
   /\ (matchPreamble 9000 4500 false = SONY
       <-> 2200 <= 9000 <= 2600 /\ 400 <= 4500 <= 800)
   /\ (matchPreamble 9000 4500 false = NEC
       <-> 8800 <= 9000 <= 9200 /\ 4300 <= 4500 <= 4700))
  /\ ((matchPreamble 9000 4500 true = JVC
       <-> -200 <= 9000 <= 200 /\ -200 <= 4500 <= 200)
      /\ (matchPreamble 9000 4500 true = SONY
          <-> 2200 <= 9000 <= 2600 /\ 400 <= 4500 <= 800)
      /\ (matchPreamble 9000 4500 true = NEC
          <-> 8700 <= 9000 <= 9100 /\ 2000 <= 4500 <= 2400)).
Proof. apply (preamble_windows 9000 4500); unfold INT_MIN, INT_MAX; lia. Defined.

(** ** Scores of a burst of one frame *)

Lemma fold_left_fixed {A B : Type} (f : A -> B -> A) (l : list B) (a : A) :
  (forall x, In x l -> f a x = a) -> fold_left f l a = a.
Proof.
  induction l as [|x l IH]; intros H; [reflexivity|].
  cbn [fold_left]. rewrite (H x) by now left.
  apply IH. intros y Hy. apply H. now right.
Qed.

Lemma fold_left_last_only {A : Type} (f : A -> nat -> A) (n : nat) (a : A) :
  (forall i, (i < n)%nat -> f a i = a) ->
  fold_left f (seq 0 (S n)) a = f a n.
Proof.
  intros H. rewrite seq_S, fold_left_app. cbn [fold_left Nat.add].
  rewrite fold_left_fixed; [reflexivity|].
  intros i Hi. apply in_seq in Hi. apply H. lia.
Qed.

Lemma forallb_false_at {A : Type} (f : A -> bool) (l : list A) (x : A) :
  In x l -> f x = false -> forallb f l = false.
Proof.
  intros Hin Hx. destruct (forallb f l) eqn:E; [|reflexivity].
  rewrite forallb_forall in E. rewrite (E x Hin) in Hx. discriminate.
Qed.

Lemma in_fromTo (a e j : nat) : (a <= j <= e)%nat -> In j (fromTo a e).
Proof. intros H. unfold fromTo. apply in_seq. lia. Qed.

Lemma last_index_eqb (n : nat) : (Z.of_nat n =? Z.of_nat (S n) - 1) = true.
Proof. apply Z.eqb_eq. lia. Qed.

Lemma other_index_eqb (i n : nat) :
  (i < n)%nat -> (Z.of_nat i =? Z.of_nat (S n) - 1) = false.
Proof. intros H. apply Z.eqb_neq. lia. Qed.

Lemma marksFixed_false (pairs : list PulseSpacePair) (e : nat) :
  marksDiffer pairs e ->
  forallb (fun j => (pulse (pairs !!! j) =? -1)
                    || isWithinTolerance (pulse (pairs !!! j))
                                         (pulse (pairs !!! 0%nat))
                                         TIMING_TOLERANCE)
          (fromTo 0 e) = false.
Proof.
  intros (j & Hj & Hp & Hd). apply forallb_false_at with j.
  - apply in_fromTo. lia.
  - apply orb_false_iff. split; [now apply Z.eqb_neq|].
    apply isWithinTolerance_false. unfold INT_MAX in Hd. lia.
Qed.

Lemma scoreJVC_single_zero (pairs : list PulseSpacePair) (n : nat) :
  singleSegment pairs (S n) JVC_REPEAT_DELAY ->
  matchPreamble (pulse (pairs !!! 0%nat)) (space (pairs !!! 0%nat)) false <> JVC ->
  2 < Z.abs (Z.of_nat (S n) - (JVC_INITIAL_BITS - 1)) <= INT_MAX ->
  marksDiffer pairs n ->
  scoreJVC pairs (S n) = 0.
Proof.
  intros Hseg Hpre Hcount Hmarks. unfold scoreJVC. cbn [Nat.eqb].
  rewrite fold_left_last_only.
  2: { intros i Hi. unfold scoreJVC_iter.
       rewrite (Hseg i) by lia. now rewrite other_index_eqb. }
  unfold scoreJVC_iter. rewrite last_index_eqb, orb_true_r.
  cbn [currentSegmentStartPairIndex segmentCount score].
  replace (Z.of_nat n - Z.of_nat 0 + 1) with (Z.of_nat (S n)) by lia.
  destruct (Z.gtb_spec (Z.of_nat (S n)) 0); [|lia].
  change (0 + 1 =? 1) with true. cbn [andb negb].
  assert (Hb : brand_eqb (matchPreamble (pulse (pairs !!! 0%nat))
                                        (space (pairs !!! 0%nat)) false) JVC
               = false).
  { apply not_true_iff_false. now rewrite brand_eqb_eq. }
  rewrite Hb.
  assert (Hc : isWithinTolerance (Z.of_nat (S n)) (JVC_INITIAL_BITS - 1) 2 = false).
  { apply isWithinTolerance_false. unfold INT_MAX in Hcount. lia. }
  destruct (negb (pulse (pairs !!! 0%nat) =? -1)
            && negb (space (pairs !!! 0%nat) =? -1));
    cbv beta iota zeta;
    replace (Z.of_nat n - Z.of_nat 0 + 1) with (Z.of_nat (S n)) by lia;
    rewrite Hc, (marksFixed_false pairs n Hmarks); cbn [andb];
    destruct (Z.of_nat (S n) >? 1); reflexivity.
Qed.

Lemma scoreNEC_single_zero (pairs : list PulseSpacePair) (n : nat) :
  singleSegment pairs (S n) NEC_REPEAT_DELAY ->
  matchPreamble (pulse (pairs !!! 0%nat)) (space (pairs !!! 0%nat)) false <> NEC ->
  2 < Z.abs (Z.of_nat (S n) - (NEC_INITIAL_BITS - 1)) <= INT_MAX ->
  marksDiffer pairs n ->
  scoreNEC pairs (S n) = 0.
Proof.
  intros Hseg Hpre Hcount Hmarks. unfold scoreNEC. cbn [Nat.eqb].
  rewrite fold_left_last_only.
  2: { intros i Hi. unfold scoreNEC_iter.
       rewrite (Hseg i) by lia. now rewrite other_index_eqb. }
  unfold scoreNEC_iter. rewrite last_index_eqb, orb_true_r.
  cbn [currentSegmentStartPairIndex segmentCount score].
  replace (Z.of_nat n - Z.of_nat 0 + 1) with (Z.of_nat (S n)) by lia.
  destruct (Z.gtb_spec (Z.of_nat (S n)) 0); [|lia].
  change (0 + 1 =? 1) with true. cbn [andb negb orb].
  assert (Hb : brand_eqb (matchPreamble (pulse (pairs !!! 0%nat))
                                        (space (pairs !!! 0%nat)) false) NEC
               = false).
  { apply not_true_iff_false. now rewrite brand_eqb_eq. }
  rewrite Hb.
  assert (Hc : isWithinTolerance (Z.of_nat (S n)) (NEC_INITIAL_BITS - 1) 2 = false).
  { apply isWithinTolerance_false. unfold INT_MAX in Hcount. lia. }
  destruct (negb (pulse (pairs !!! 0%nat) =? -1)
            && negb (space (pairs !!! 0%nat) =? -1));
    cbv beta iota zeta;
    replace (Z.of_nat n - Z.of_nat 0 + 1) with (Z.of_nat (S n)) by lia;
    rewrite Hc, (marksFixed_false pairs n Hmarks); cbn [andb orb];
    destruct (Z.gtb_spec (Z.of_nat (S n)) 0); try lia;
    destruct (Z.of_nat (S n) >? 1); reflexivity.
Qed.

Lemma firstValidDataSpace_first (pairs : list PulseSpacePair) (e : nat)
    (delay : Z) :
  space (pairs !!! 0%nat) <> -1 ->
  isWithinTolerance (space (pairs !!! 0%nat)) delay 5000 = false ->
  firstValidDataSpaceFrom pairs 0 e delay = space (pairs !!! 0%nat).
Proof.
  intros Hsp Hgap. unfold firstValidDataSpaceFrom, fromTo.
  rewrite Nat.sub_0_r. cbn [seq find].
  apply Z.eqb_neq in Hsp. now rewrite Hsp, Hgap.
Qed.

Lemma scoreSony_single_zero (pairs : list PulseSpacePair) (n : nat) :
  singleSegment pairs (S n) SONY_REPEAT_DELAY ->
  matchPreamble (pulse (pairs !!! 0%nat)) (space (pairs !!! 0%nat)) false <> SONY ->
  2 < Z.abs (Z.of_nat (S n) - (SONY_INITIAL_BITS - 1)) <= INT_MAX ->
  spacesDiffer pairs n SONY_REPEAT_DELAY ->
  scoreSonySIRC12 pairs (S n) = 0.
Proof.
  intros Hseg Hpre Hcount (Hsp & Hgap & j & Hj & Hspj & Hgapj & Hd).
  unfold scoreSonySIRC12. cbn [Nat.eqb].
  rewrite fold_left_last_only.
  2: { intros i Hi. unfold scoreSony_iter.
       rewrite (Hseg i) by lia. now rewrite other_index_eqb. }
  unfold scoreSony_iter. rewrite last_index_eqb, orb_true_r.
  cbn [currentSegmentStartPairIndex segmentCount score].
  replace (Z.of_nat n - Z.of_nat 0 + 1) with (Z.of_nat (S n)) by lia.
  destruct (Z.gtb_spec (Z.of_nat (S n)) 0); [|lia].
  change (0 + 1 =? 1) with true. cbn [andb negb orb].
  assert (Hb : brand_eqb (matchPreamble (pulse (pairs !!! 0%nat))
                                        (space (pairs !!! 0%nat)) false) SONY
               = false).
  { apply not_true_iff_false. now rewrite brand_eqb_eq. }
  rewrite Hb.
  assert (Hc : isWithinTolerance (Z.of_nat (S n)) (SONY_INITIAL_BITS - 1) 2 = false).
  { apply isWithinTolerance_false. unfold INT_MAX in Hcount. lia. }
  assert (Hfixed :
    forallb (fun j0 : nat =>
               if negb (space (pairs !!! j0) =? -1)
                  && negb (isWithinTolerance (space (pairs !!! j0))
                                             SONY_REPEAT_DELAY 5000)
               then isWithinTolerance (space (pairs !!! j0))
                                      (space (pairs !!! 0%nat)) TIMING_TOLERANCE
               else if negb (space (pairs !!! j0) =? -1)
                       && isWithinTolerance (space (pairs !!! j0))
                                            SONY_REPEAT_DELAY 5000
                       && negb (Nat.eqb j0 n)
               then false else true)
            (fromTo 0 n) = false).
  { apply forallb_false_at with j; [apply in_fromTo; lia|].
    apply Z.eqb_neq in Hspj. rewrite Hspj, Hgapj. cbn [negb andb].
    apply isWithinTolerance_false. unfold INT_MAX in Hd. lia. }
  apply Z.eqb_neq in Hsp.
  destruct (negb (space (pairs !!! 0%nat) =? -1));
    cbv beta iota zeta;
    replace (Z.of_nat n - Z.of_nat 0 + 1) with (Z.of_nat (S n)) by lia;
    rewrite Hc, firstValidDataSpace_first, Hsp, Hfixed
      by (first [now apply Z.eqb_neq | assumption]);
    cbn [negb andb]; rewrite andb_false_r;
    destruct (Z.gtb_spec (Z.of_nat (S n)) 0); try lia;
    destruct (Z.of_nat (S n) >? 1); reflexivity.
Qed.

Lemma scoreSony_single_pos (pairs : list PulseSpacePair) (n : nat) :
  singleSegment pairs (S n) SONY_REPEAT_DELAY ->
  matchPreamble (pulse (pairs !!! 0%nat)) (space (pairs !!! 0%nat)) false = SONY ->
  1 <= scoreSonySIRC12 pairs (S n).
Proof.
  intros Hseg Hpre. unfold scoreSonySIRC12. cbn [Nat.eqb].
  rewrite fold_left_last_only.
  2: { intros i Hi. unfold scoreSony_iter.
       rewrite (Hseg i) by lia. now rewrite other_index_eqb. }
  unfold scoreSony_iter. rewrite last_index_eqb, orb_true_r.
  cbn [currentSegmentStartPairIndex segmentCount score].
  replace (Z.of_nat n - Z.of_nat 0 + 1) with (Z.of_nat (S n)) by lia.
  destruct (Z.gtb_spec (Z.of_nat (S n)) 0); [|lia].
  change (0 + 1 =? 1) with true. cbn [andb negb orb].
  rewrite Hpre. change (brand_eqb SONY SONY) with true.
  apply preamble_present in Hpre; [|discriminate].
  destruct (Z.eqb_spec (space (pairs !!! 0%nat)) (-1)); [lia|].
  cbn [negb]. cbv beta iota zeta.
  repeat match goal with
         | |- context [if ?c then _ else _] => destruct c
         end; cbn [score]; lia.
Qed.

Lemma scoreJVC_single_pos (pairs : list PulseSpacePair) (n : nat) :
  singleSegment pairs (S n) JVC_REPEAT_DELAY ->
  matchPreamble (pulse (pairs !!! 0%nat)) (space (pairs !!! 0%nat)) false = JVC ->
  1 <= scoreJVC pairs (S n).
Proof.
  intros Hseg Hpre. unfold scoreJVC. cbn [Nat.eqb].
  rewrite fold_left_last_only.
  2: { intros i Hi. unfold scoreJVC_iter.
       rewrite (Hseg i) by lia. now rewrite other_index_eqb. }
  unfold scoreJVC_iter. rewrite last_index_eqb, orb_true_r.
  cbn [currentSegmentStartPairIndex segmentCount score].
  replace (Z.of_nat n - Z.of_nat 0 + 1) with (Z.of_nat (S n)) by lia.
  destruct (Z.gtb_spec (Z.of_nat (S n)) 0); [|lia].
  change (0 + 1 =? 1) with true. cbn [andb negb orb].
  rewrite Hpre. change (brand_eqb JVC JVC) with true.
  apply preamble_present in Hpre; [|discriminate].
  destruct (Z.eqb_spec (pulse (pairs !!! 0%nat)) (-1)); [lia|].
  destruct (Z.eqb_spec (space (pairs !!! 0%nat)) (-1)); [lia|].
  cbn [negb andb]. cbv beta iota zeta.
  repeat match goal with
         | |- context [if ?c then _ else _] => destruct c
         end; cbn [score]; lia.
Qed.

Lemma scoreNEC_single_pos (pairs : list PulseSpacePair) (n : nat) :
  singleSegment pairs (S n) NEC_REPEAT_DELAY ->
  matchPreamble (pulse (pairs !!! 0%nat)) (space (pairs !!! 0%nat)) false = NEC ->
  1 <= scoreNEC pairs (S n).
Proof.
  intros Hseg Hpre. unfold scoreNEC. cbn [Nat.eqb].
  rewrite fold_left_last_only.
  2: { intros i Hi. unfold scoreNEC_iter.
       rewrite (Hseg i) by lia. now rewrite other_index_eqb. }
  unfold scoreNEC_iter. rewrite last_index_eqb, orb_true_r.
  cbn [currentSegmentStartPairIndex segmentCount score].
  replace (Z.of_nat n - Z.of_nat 0 + 1) with (Z.of_nat (S n)) by lia.
  destruct (Z.gtb_spec (Z.of_nat (S n)) 0); [|lia].
  change (0 + 1 =? 1) with true. cbn [andb negb orb].
  rewrite Hpre. change (brand_eqb NEC NEC) with true.
  apply preamble_present in Hpre; [|discriminate].
  destruct (Z.eqb_spec (pulse (pairs !!! 0%nat)) (-1)); [lia|].
  destruct (Z.eqb_spec (space (pairs !!! 0%nat)) (-1)); [lia|].
  cbn [negb andb]. cbv beta iota zeta.
  repeat match goal with
         | |- context [if ?c then _ else _] => destruct c
         end; cbn [score]; lia.
Qed.

(** ** Segmentation and vote for a burst of one frame *)

Lemma determineWinner_single (d : DecodedIR) (c : bool)
    (segs : list DecodedIR) (checks : list bool) :
  isValidDecode d = true ->
  determineWinner (d :: segs) 1 (c :: checks) = d.
Proof.
  intros Hv. unfold determineWinner, groupSegments.
  cbn [Nat.eqb take zip zip_with fold_left countSegment].
  rewrite Hv. cbn [incrementMatching length Nat.ltb Nat.leb app].
  change (0 <? IR_LIB_MAX_DECODED_SEGMENTS)%nat with true. cbv iota.
  cbn [app maxLoop count]. change (1 >? 0) with true. cbv iota.
  cbn [maxLoop]. reflexivity.
Qed.

Lemma segment_iter_skip (w : RemoteBrand) (pairs : list PulseSpacePair)
    (count : nat) (st : SegmentState) (i : nat) :
  isRepeatGap (space (pairs !!! i)) (repeatDelay w) = false ->
  Z.of_nat i <> Z.of_nat count - 1 ->
  segment_iter w pairs count st i = st.
Proof.
  intros Hgap Hi. unfold segment_iter.
  assert (Hd : (if brand_eqb w SONY then SONY_REPEAT_DELAY
                else if brand_eqb w NEC then NEC_REPEAT_DELAY
                else if brand_eqb w JVC then JVC_REPEAT_DELAY else 0)
               = repeatDelay w) by (destruct w; reflexivity).
  rewrite Hd. unfold isRepeatGap in Hgap. rewrite <- andb_assoc, Hgap.
  rewrite andb_false_r. apply Z.eqb_neq in Hi. now rewrite Hi.
Qed.

Lemma segmentLoop_skip (w : RemoteBrand) (pairs : list PulseSpacePair)
    (count : nat) (st : SegmentState) (indices : list nat) (n : nat) :
  (forall i, In i indices -> segment_iter w pairs count st i = st) ->
  (decodedSegmentCount st < IR_LIB_MAX_DECODED_SEGMENTS)%nat ->
  segmentLoop w pairs count (indices ++ [n]) st = segment_iter w pairs count st n.
Proof.
  intros Hskip Hroom. induction indices as [|i rest IH]; cbn [app segmentLoop].
  - destruct (Nat.ltb_spec (decodedSegmentCount st) IR_LIB_MAX_DECODED_SEGMENTS);
      [|lia].
    reflexivity.
  - destruct (Nat.ltb_spec (decodedSegmentCount st) IR_LIB_MAX_DECODED_SEGMENTS);
      [|lia].
    rewrite (Hskip i) by now left.
    apply IH. intros j Hj. apply Hskip. now right.
Qed.

Lemma decodeSegmentsAndVote_single (w : RemoteBrand) (s : State) (n : nat) :
  w <> UNKNOWN ->
  m_pulseSpacePairCount s = S n ->
  (0 < n)%nat ->
  singleSegment (m_pulseSpacePairs s) (S n) (repeatDelay w) ->
  matchPreamble (pulse (m_pulseSpacePairs s !!! 0%nat))
                (space (m_pulseSpacePairs s !!! 0%nat)) false = w ->
  isValidDecode (decodeFor w (take n (drop 1 (m_pulseSpacePairs s)))) = true ->
  length (m_decodedSegments s) = IR_LIB_MAX_DECODED_SEGMENTS ->
  m_decodedSegmentCount s = 0%nat ->
  m_codeResultIsReady s = false ->
  m_finalResultCode (decodeSegmentsAndVote w s)
  = decodeFor w (take n (drop 1 (m_pulseSpacePairs s)))
  /\ m_codeResultIsReady (decodeSegmentsAndVote w s) = true.
Proof.
  intros Hw Hcount Hn Hseg Hpre Hvalid Hlen Hcnt Hready.
  set (d := decodeFor w (take n (drop 1 (m_pulseSpacePairs s)))) in *.
  destruct (preamble_present _ _ _ Hw Hpre) as [Hp Hsp].
  apply Z.eqb_neq in Hp, Hsp.
  unfold decodeSegmentsAndVote. rewrite Hcount, Hcnt, Hp, Hsp, Hpre.
  change (0 <? S n)%nat with true. cbn [andb negb].
  assert (Hww : brand_eqb w w = true) by now apply brand_eqb_eq.
  assert (Hwu : brand_eqb w UNKNOWN = false).
  { apply not_true_iff_false. now rewrite brand_eqb_eq. }
  rewrite Hww, Hwu. cbn [negb andb].
  rewrite seq_S. cbn [Nat.add].
  rewrite segmentLoop_skip.
  2: { intros i Hi. apply in_seq in Hi. apply segment_iter_skip.
       - apply Hseg. lia.
       - lia. }
  2: { cbn. unfold IR_LIB_MAX_DECODED_SEGMENTS. lia. }
  (* the last pair ends the segment *)
  unfold segment_iter.
  replace (Z.of_nat n =? Z.of_nat (S n) - 1) with true
    by (symmetry; apply Z.eqb_eq; lia).
  assert (Hend : forall b : bool,
            (if b then true else if true then true else false) = true)
    by (intros []; reflexivity).
  rewrite Hend.
  cbn [segmentStart dataStartForCurrentSegment decodedSegments
       segmentChecksums decodedSegmentCount Nat.add].
  replace (Z.of_nat n - Z.of_nat 1 + 1) with (Z.of_nat n) by lia.
  destruct (Z.gtb_spec (Z.of_nat n) 0); [|lia].
  rewrite Nat2Z.id.
  destruct (m_decodedSegments s) as [|seg0 segs] eqn:Hsegs; [discriminate|].
  assert (Hvb : negb (brand_eqb (brand d) UNKNOWN) = true).
  { unfold isValidDecode in Hvalid. now apply andb_true_iff in Hvalid as [H1 _]. }
  unfold decodeFor in d.
  destruct (brand_eqb w NEC) eqn:Hnec.
  - fold d. cbn [insert list_insert lookup_total list_lookup_total].
    rewrite Hvb. cbv beta iota zeta.
    cbn [set_analysis m_decodedSegmentCount m_decodedSegments m_finalResultCode
         m_codeResultIsReady m_brandScores decodedSegments decodedSegmentCount
         segmentChecksums Nat.ltb Nat.leb].
    change (replicate IR_LIB_MAX_DECODED_SEGMENTS false)
      with (false :: replicate 9 false).
    cbn [insert list_insert].
    rewrite determineWinner_single by assumption.
    unfold isValidDecode in Hvalid. rewrite Hvalid. cbn. split; reflexivity.
  - fold d. cbn [insert list_insert lookup_total list_lookup_total].
    rewrite Hvb. cbv beta iota zeta.
    cbn [set_analysis m_decodedSegmentCount m_decodedSegments m_finalResultCode
         m_codeResultIsReady m_brandScores decodedSegments decodedSegmentCount
         segmentChecksums Nat.ltb Nat.leb].
    change (replicate IR_LIB_MAX_DECODED_SEGMENTS false)
      with (false :: replicate 9 false).
    rewrite determineWinner_single by assumption.
    unfold isValidDecode in Hvalid. rewrite Hvalid. cbn. split; reflexivity.
Qed.

(** ** A burst of one frame, from scores to result *)

Lemma single_frame_analysis (w : RemoteBrand) (s : State) (n : nat) :
  wellFormed s ->
  m_pulseSpacePairCount s = S n ->
  (0 < n)%nat ->
  (forall b, b <> UNKNOWN ->
     singleSegment (m_pulseSpacePairs s) (S n) (repeatDelay b)) ->
  w <> UNKNOWN ->
  matchPreamble (pulse (m_pulseSpacePairs s !!! 0%nat))
                (space (m_pulseSpacePairs s !!! 0%nat)) false = w ->
  (forall b, b <> UNKNOWN -> b <> w ->
     2 < Z.abs (Z.of_nat (S n) - expectedDataPairs b) <= INT_MAX) ->
  marksDiffer (m_pulseSpacePairs s) n ->
  (w <> SONY -> spacesDiffer (m_pulseSpacePairs s) n SONY_REPEAT_DELAY) ->
  isValidDecode (decodeFor w (take n (drop 1 (m_pulseSpacePairs s)))) = true ->
  m_codeResultIsReady (_analyzeAndDecodeBurst s) = true
  /\ m_finalResultCode (_analyzeAndDecodeBurst s)
     = decodeFor w (take n (drop 1 (m_pulseSpacePairs s)))
  /\ 0 < m_brandScores (_analyzeAndDecodeBurst s) !!! brandIndex w
  /\ (forall b : RemoteBrand,
        b <> w -> m_brandScores (_analyzeAndDecodeBurst s) !!! brandIndex b = 0).
Proof.
  intros (_ & _ & Hscores & Hsegs) Hcount Hn Hseg Hw Hpre Hcounts Hmarks Hspaces
         Hvalid.
  rewrite (analyze_brandScores s Hscores) by (rewrite Hcount; discriminate).
  rewrite (analyze_scores s Hscores) by (rewrite Hcount; discriminate).
  cbv zeta. rewrite Hcount.
  set (pairs := m_pulseSpacePairs s) in *.
  assert (ZJ : w <> JVC -> scoreJVC pairs (S n) = 0).
  { intros Hne. apply scoreJVC_single_zero;
      [ apply (Hseg JVC); discriminate
      | now rewrite Hpre
      | apply (Hcounts JVC); [discriminate | now apply not_eq_sym]
      | assumption ]. }
  assert (ZS : w <> SONY -> scoreSonySIRC12 pairs (S n) = 0).
  { intros Hne. apply scoreSony_single_zero;
      [ apply (Hseg SONY); discriminate
      | now rewrite Hpre
      | apply (Hcounts SONY); [discriminate | now apply not_eq_sym]
      | now apply Hspaces ]. }
  assert (ZN : w <> NEC -> scoreNEC pairs (S n) = 0).
  { intros Hne. apply scoreNEC_single_zero;
      [ apply (Hseg NEC); discriminate
      | now rewrite Hpre
      | apply (Hcounts NEC); [discriminate | now apply not_eq_sym]
      | assumption ]. }
  assert (Hpos : 0 < [0; scoreJVC pairs (S n); scoreSonySIRC12 pairs (S n);
                      scoreNEC pairs (S n)] !!! brandIndex w).
  { destruct w; [contradiction | | |];
      cbn [brandIndex lookup_total list_lookup_total].
    - pose proof (scoreJVC_single_pos pairs n (Hseg JVC ltac:(discriminate)) Hpre).
      lia.
    - pose proof (scoreSony_single_pos pairs n (Hseg SONY ltac:(discriminate)) Hpre).
      lia.
    - pose proof (scoreNEC_single_pos pairs n (Hseg NEC ltac:(discriminate)) Hpre).
      lia. }
  assert (Hzero : forall b : RemoteBrand,
            b <> w ->
            [0; scoreJVC pairs (S n); scoreSonySIRC12 pairs (S n);
             scoreNEC pairs (S n)] !!! brandIndex b = 0).
  { intros b Hb.
    destruct b; cbn [brandIndex lookup_total list_lookup_total];
      [reflexivity | apply ZJ | apply ZS | apply ZN]; now apply not_eq_sym. }
  assert (Hwin : (selectWinningBrand
                    [0; scoreJVC pairs (S n); scoreSonySIRC12 pairs (S n);
                     scoreNEC pairs (S n)]).1 = w).
  { destruct (selectWinningBrand_cases 0 (scoreJVC pairs (S n))
                (scoreSonySIRC12 pairs (S n)) (scoreNEC pairs (S n)))
      as (_ & HJ & HS & HN).
    destruct w; [contradiction | | |].
    - pose proof (scoreJVC_single_pos pairs n (Hseg JVC ltac:(discriminate)) Hpre).
      apply HJ; rewrite ?ZS, ?ZN by discriminate; lia.
    - pose proof (scoreSony_single_pos pairs n (Hseg SONY ltac:(discriminate)) Hpre).
      apply HS; rewrite ?ZJ, ?ZN by discriminate; lia.
    - pose proof (scoreNEC_single_pos pairs n (Hseg NEC ltac:(discriminate)) Hpre).
      apply HN; rewrite ?ZJ, ?ZS by discriminate; lia. }
  rewrite Hwin.
  replace (brand_eqb w UNKNOWN) with false
    by (symmetry; apply not_true_iff_false; now rewrite brand_eqb_eq).
  match goal with
  | |- context [decodeSegmentsAndVote w ?s0] =>
      destruct (decodeSegmentsAndVote_single w s0 n) as [Hfinal Hready];
      [ exact Hw | exact Hcount | exact Hn | exact (Hseg w Hw) | exact Hpre
      | exact Hvalid | exact Hsegs | reflexivity | reflexivity | ]
  end.
  repeat split; assumption.
Qed.

Lemma frame_parts (pairs : list PulseSpacePair) (n : nat)
    (pre : PulseSpacePair) (body : list PulseSpacePair) :
  take (S n) pairs = pre :: body ->
  length body = n ->
  pairs !!! 0%nat = pre
  /\ (forall j, (j < n)%nat -> pairs !!! S j = body !!! j)
  /\ take n (drop 1 pairs) = body.
Proof.
  intros Htake Hlen. destruct pairs as [|p0 pairs']; [discriminate|].
  cbn [take] in Htake. injection Htake as -> Hbody.
  split; [reflexivity|]. split; [|exact Hbody].
  intros j Hj. cbn [lookup_total list_lookup_total].
  rewrite <- Hbody. symmetry. now apply lookup_total_take_lt.
Qed.

Lemma shortSpace_no_gap (sp delay : Z) :
  shortSpace sp -> 10000 < delay <= 100000 -> isRepeatGap sp delay = false.
Proof.
  intros [-> | Hs] Hd; unfold isRepeatGap; [reflexivity|].
  apply andb_false_iff. right.
  apply isWithinTolerance_false. lia.
Qed.

Lemma frame_singleSegment (pairs : list PulseSpacePair) (n : nat)
    (pre : PulseSpacePair) (body : list PulseSpacePair) (b : RemoteBrand) :
  take (S n) pairs = pre :: body ->
  length body = n ->
  shortSpace (space pre) ->
  (forall j, (S j < n)%nat -> shortSpace (space (body !!! j))) ->
  b <> UNKNOWN ->
  singleSegment pairs (S n) (repeatDelay b).
Proof.
  intros Htake Hlen Hpre Hbody Hb i Hi.
  destruct (frame_parts pairs n pre body Htake Hlen) as (H0 & HS & _).
  assert (Hdelay : 10000 < repeatDelay b <= 100000).
  { destruct b; [contradiction | | |]; vm_compute;
      (split; [reflexivity | discriminate]). }
  apply shortSpace_no_gap; [|assumption].
  destruct i as [|j]; [now rewrite H0|].
  rewrite HS by lia. apply Hbody. lia.
Qed.

Lemma sony_frame_full (s : State) (pre : PulseSpacePair)
    (data : list PulseSpacePair) (c a : Z) :
  wellFormed s ->
  m_pulseSpacePairCount s = 13%nat ->
  take 13 (m_pulseSpacePairs s) = pre :: data ->
  Z.abs (pulse pre - SONY_PREAMBLE_PULSE) <= TIMING_TOLERANCE ->
  Z.abs (space pre - SONY_PREAMBLE_SPACE) <= TIMING_TOLERANCE ->
  0 <= c < 128 -> 0 <= a < 32 ->
  Forall2 (pulseCodes SONY_ZERO_PULSE SONY_ONE_PULSE) data
          (bitsFrom 0 12 (c + 128 * a)) ->
  Forall (fun p => space p = -1
                   \/ Z.abs (space p - SONY_BIT_SPACE) <= TIMING_TOLERANCE) data ->
  m_codeResultIsReady (_analyzeAndDecodeBurst s) = true
  /\ m_finalResultCode (_analyzeAndDecodeBurst s)
     = {| brand := SONY; command := c; address := a |}
  /\ 0 < m_brandScores (_analyzeAndDecodeBurst s) !!! brandIndex SONY
  /\ m_brandScores (_analyzeAndDecodeBurst s) !!! brandIndex JVC = 0
  /\ m_brandScores (_analyzeAndDecodeBurst s) !!! brandIndex NEC = 0.
Proof.
  intros Hwf Hcount Htake Hpp Hps Hc Ha Hbits Hspaces.
  unfold TIMING_TOLERANCE, SONY_PREAMBLE_PULSE, SONY_PREAMBLE_SPACE,
    SONY_BIT_SPACE in *.
  assert (Hlen : length data = 12%nat).
  { now rewrite (Forall2_length _ _ _ Hbits). }
  destruct (frame_parts _ 12 pre data Htake Hlen) as (H0 & HS & Hdata).
  assert (Hdec : decodeFor SONY (take 12 (drop 1 (m_pulseSpacePairs s)))
                 = {| brand := SONY; command := c; address := a |}).
  { rewrite Hdata. unfold decodeFor. change (brand_eqb SONY NEC) with false.
    cbv iota. rewrite <- (app_nil_r data). now apply sony_round_trip_aux. }
  rewrite <- Hdec.
  cut (m_codeResultIsReady (_analyzeAndDecodeBurst s) = true
       /\ m_finalResultCode (_analyzeAndDecodeBurst s)
          = decodeFor SONY (take 12 (drop 1 (m_pulseSpacePairs s)))
       /\ 0 < m_brandScores (_analyzeAndDecodeBurst s) !!! brandIndex SONY
       /\ (forall b : RemoteBrand,
             b <> SONY ->
             m_brandScores (_analyzeAndDecodeBurst s) !!! brandIndex b = 0)).
  { intros (H1 & H2 & H3 & H4).
    repeat split; try assumption; apply H4; discriminate. }
  apply single_frame_analysis; try assumption.
  - lia.
  - intros b Hb. apply (frame_singleSegment _ 12 pre data); try assumption.
    + right. lia.
    + intros j Hj. rewrite Forall_forall in Hspaces.
      destruct (Hspaces (data !!! j)) as [-> | Hsp];
        [apply list_elem_of_lookup_total_2; lia | now left | right; lia].
  - discriminate.
  - rewrite H0. apply (proj1 (proj2 (matchPreamble_initial_in _ _))). lia.
  - intros [] Hb Hw; try contradiction; vm_compute;
      (split; [reflexivity | discriminate]).
  - destruct data as [|d0 data']; [discriminate|].
    apply Forall2_cons_inv_l in Hbits as (b0 & bits & Hd0 & _ & _).
    unfold pulseCodes, TIMING_TOLERANCE, SONY_ZERO_PULSE, SONY_ONE_PULSE in Hd0.
    exists 1%nat. rewrite H0, (HS 0%nat) by lia. cbn [lookup_total list_lookup_total].
    unfold TIMING_TOLERANCE, INT_MAX. destruct b0; lia.
  - intros Hw. contradiction.
  - rewrite Hdec. apply isValidDecode_spec. cbn. split; [discriminate | lia].
Qed.

Lemma sony_frame_aux (s : State) (pre : PulseSpacePair)
    (data : list PulseSpacePair) (c a : Z) :
  wellFormed s ->
  m_pulseSpacePairCount s = 13%nat ->
  take 13 (m_pulseSpacePairs s) = pre :: data ->
  Z.abs (pulse pre - SONY_PREAMBLE_PULSE) <= TIMING_TOLERANCE ->
  Z.abs (space pre - SONY_PREAMBLE_SPACE) <= TIMING_TOLERANCE ->
  0 <= c < 128 -> 0 <= a < 32 ->
  Forall2 (pulseCodes SONY_ZERO_PULSE SONY_ONE_PULSE) data
          (bitsFrom 0 12 (c + 128 * a)) ->
  Forall (fun p => space p = -1
                   \/ Z.abs (space p - SONY_BIT_SPACE) <= TIMING_TOLERANCE) data ->
  m_codeResultIsReady (_analyzeAndDecodeBurst s) = true
  /\ m_finalResultCode (_analyzeAndDecodeBurst s)
     = {| brand := SONY; command := c; address := a |}.
Proof.
  intros Hwf Hcount Htake Hpp Hps Hc Ha Hbits Hspaces.
  destruct (sony_frame_full s pre data c a) as (H1 & H2 & _); try assumption.
  now split.
Qed.

(** X17.  A burst that is one SONY frame is reported as that frame.  When the
    pair buffer holds a preamble and twelve data pairs within
    TIMING_TOLERANCE of the SONY timing, with spaces that are nominal or
    missing, the analysis sets the result-ready flag over the command and
    address that were sent; it leaves a positive score for SONY and a
    score of 0 for JVC and for NEC. *)
Theorem sony_frame_is_reported (s : State) (pre : PulseSpacePair)
    (data : list PulseSpacePair) (c a : Z) :
  wellFormed s ->
  m_pulseSpacePairCount s = 13%nat ->
  take 13 (m_pulseSpacePairs s) = pre :: data ->
  Z.abs (pulse pre - SONY_PREAMBLE_PULSE) <= TIMING_TOLERANCE ->
  Z.abs (space pre - SONY_PREAMBLE_SPACE) <= TIMING_TOLERANCE ->
  0 <= c < 128 -> 0 <= a < 32 ->
  Forall2 (pulseCodes SONY_ZERO_PULSE SONY_ONE_PULSE) data
          (bitsFrom 0 12 (c + 128 * a)) ->
  Forall (fun p => space p = -1
                   \/ Z.abs (space p - SONY_BIT_SPACE) <= TIMING_TOLERANCE) data ->
  m_codeResultIsReady (_analyzeAndDecodeBurst s) = true
  /\ m_finalResultCode (_analyzeAndDecodeBurst s)
     = {| brand := SONY; command := c; address := a |}
  /\ 0 < m_brandScores (_analyzeAndDecodeBurst s) !!! brandIndex SONY
  /\ m_brandScores (_analyzeAndDecodeBurst s) !!! brandIndex JVC = 0
  /\ m_brandScores (_analyzeAndDecodeBurst s) !!! brandIndex NEC = 0.
Proof. apply sony_frame_full. Qed.

Lemma sony_frame_example :
  m_codeResultIsReady (_analyzeAndDecodeBurst (run sonySession new)) = true
  /\ m_finalResultCode (_analyzeAndDecodeBurst (run sonySession new))
     = {| brand := SONY; command := 21; address := 1 |}
  /\ 0 < m_brandScores (_analyzeAndDecodeBurst (run sonySession new)) !!! brandIndex SONY
  /\ m_brandScores (_analyzeAndDecodeBurst (run sonySession new)) !!! brandIndex JVC = 0
  /\ m_brandScores (_analyzeAndDecodeBurst (run sonySession new)) !!! brandIndex NEC = 0.
Proof.
  apply (sony_frame_is_reported (run sonySession new)
           {| pulse := 2400; space := 600 |}
           (pulseCoded SONY_ZERO_PULSE SONY_ONE_PULSE 600
                       (bitsFrom 0 11 (21 + 128 * 1))
            ++ [ {| pulse := 600; space := -1 |} ])
           21 1).
  - apply inv_wellFormed, reachable_Inv, sonySession_reachable.
  - vm_compute. reflexivity.
  - vm_compute. reflexivity.
  - vm_compute. discriminate.
  - vm_compute. discriminate.
  - lia.
  - lia.
  - unfold pulseCoded, bitsFrom. cbn [seq map app].
    repeat (apply List.Forall2_cons; [vm_compute; discriminate|]).
    apply List.Forall2_nil.
  - apply Forall_forall. intros p Hp. apply list_elem_of_In in Hp.
    vm_compute in Hp.
    repeat (destruct Hp as [<- | Hp]; [first [now left | right; vm_compute; discriminate]|]).
    contradiction.
Defined.

(** The facts about a frame of a space-coded protocol that the scorers
    use. *)
Lemma spaceCoded_frame_facts (e z o : Z) (pairs : list PulseSpacePair)
    (n : nat) (pre stop : PulseSpacePair) (data : list PulseSpacePair)
    (bits : list bool) :
  take (S n) pairs = pre :: data ++ [stop] ->
  length data = (n - 1)%nat ->
  (1 < n)%nat ->
  Forall2 (spaceCodes e z o) data bits ->
  TIMING_TOLERANCE <= z -> z <= o -> o + TIMING_TOLERANCE <= 2000 ->
  TIMING_TOLERANCE <= e -> e + TIMING_TOLERANCE <= 2000 ->
  8000 <= pulse pre <= 10000 -> 4000 <= space pre <= 5000 ->
  (forall b, b <> UNKNOWN -> singleSegment pairs (S n) (repeatDelay b))
  /\ marksDiffer pairs n
  /\ spacesDiffer pairs n SONY_REPEAT_DELAY
  /\ pairs !!! 0%nat = pre
  /\ take n (drop 1 pairs) = data ++ [stop].
Proof.
  intros Htake Hlen Hn Hbits Hz Hzo Ho He He' Hpp Hps.
  unfold TIMING_TOLERANCE in *.
  assert (Hbody : length (data ++ [stop]) = n).
  { rewrite length_app. cbn. lia. }
  destruct (frame_parts pairs n pre (data ++ [stop]) Htake Hbody)
    as (H0 & HS & Hdata).
  assert (Hcodes : forall j, (j < n - 1)%nat ->
            Z.abs (pulse (data !!! j) - e) <= 200
            /\ z - 200 <= space (data !!! j) <= o + 200).
  { intros j Hj.
    destruct (lookup_lt_is_Some_2 data j ltac:(lia)) as [p Hp].
    destruct (Forall2_lookup_l _ _ _ _ _ Hbits Hp) as (b & _ & [H1 H2]).
    rewrite (list_lookup_total_correct _ _ _ Hp).
    unfold TIMING_TOLERANCE in *. destruct b; lia. }
  assert (Hfirst : pairs !!! 1%nat = data !!! 0%nat).
  { rewrite (HS 0%nat) by lia. apply lookup_total_app_l. lia. }
  destruct (Hcodes 0%nat ltac:(lia)) as [Hp0 Hs0].
  split; [|split; [|split; [|split]]]; try assumption.
  - intros b Hb. apply (frame_singleSegment _ n pre (data ++ [stop]));
      try assumption.
    + right. lia.
    + intros j Hj. rewrite lookup_total_app_l by lia.
      destruct (Hcodes j ltac:(lia)) as [_ Hs]. right. lia.
  - exists 1%nat. rewrite Hfirst, H0. unfold TIMING_TOLERANCE, INT_MAX. lia.
  - unfold spacesDiffer. rewrite H0. split; [lia|]. split.
    + apply isWithinTolerance_false. unfold SONY_REPEAT_DELAY. lia.
    + exists 1%nat. rewrite Hfirst. split; [lia|]. split; [lia|]. split.
      * apply isWithinTolerance_false. unfold SONY_REPEAT_DELAY. lia.
      * unfold TIMING_TOLERANCE, INT_MAX. lia.
Qed.

Lemma nec_frame_full (s : State) (pre stop : PulseSpacePair)
    (data : list PulseSpacePair) (a1 a2 c1 c2 : Z) :
  wellFormed s ->
  m_pulseSpacePairCount s = 34%nat ->
  take 34 (m_pulseSpacePairs s) = pre :: data ++ [stop] ->
  Z.abs (pulse pre - NEC_PREAMBLE_PULSE) <= TIMING_TOLERANCE ->
  Z.abs (space pre - NEC_PREAMBLE_SPACE) <= TIMING_TOLERANCE ->
  0 <= a1 < 256 -> 0 <= a2 < 256 -> 0 <= c1 < 256 -> 0 <= c2 < 256 ->
  Forall2 (spaceCodes NEC_BIT_PULSE NEC_ZERO_SPACE NEC_ONE_SPACE) data
          (bitsFrom 0 32 (a1 + 256 * a2 + 65536 * c1 + 16777216 * c2)) ->
  m_codeResultIsReady (_analyzeAndDecodeBurst s) = true
  /\ m_finalResultCode (_analyzeAndDecodeBurst s)
     = {| brand := NEC; command := c1;
          address := if a1 + a2 =? 255 then a1 else 256 * a2 + a1 |}
  /\ 0 < m_brandScores (_analyzeAndDecodeBurst s) !!! brandIndex NEC
  /\ m_brandScores (_analyzeAndDecodeBurst s) !!! brandIndex JVC = 0
  /\ m_brandScores (_analyzeAndDecodeBurst s) !!! brandIndex SONY = 0.
Proof.
  intros Hwf Hcount Htake Hpp Hps Ha1 Ha2 Hc1 Hc2 Hbits.
  unfold TIMING_TOLERANCE, NEC_PREAMBLE_PULSE, NEC_PREAMBLE_SPACE in Hpp, Hps.
  assert (Hlen : length data = 32%nat).
  { now rewrite (Forall2_length _ _ _ Hbits). }
  destruct (spaceCoded_frame_facts NEC_BIT_PULSE NEC_ZERO_SPACE NEC_ONE_SPACE
              (m_pulseSpacePairs s) 33 pre stop data _ Htake Hlen
              ltac:(lia) Hbits)
    as (Hseg & Hmarks & Hspaces & H0 & Hdata);
    [ vm_compute; discriminate | vm_compute; discriminate
    | vm_compute; discriminate | vm_compute; discriminate
    | vm_compute; discriminate | lia | lia | ].
  assert (Hdec : decodeFor NEC (take 33 (drop 1 (m_pulseSpacePairs s)))
                 = {| brand := NEC; command := c1;
                      address := if a1 + a2 =? 255 then a1
                                 else 256 * a2 + a1 |}).
  { rewrite Hdata. unfold decodeFor. change (brand_eqb NEC NEC) with true.
    cbv iota. now rewrite (nec_round_trip_aux a1 a2 c1 c2). }
  rewrite <- Hdec.
  cut (m_codeResultIsReady (_analyzeAndDecodeBurst s) = true
       /\ m_finalResultCode (_analyzeAndDecodeBurst s)
          = decodeFor NEC (take 33 (drop 1 (m_pulseSpacePairs s)))
       /\ 0 < m_brandScores (_analyzeAndDecodeBurst s) !!! brandIndex NEC
       /\ (forall b : RemoteBrand,
             b <> NEC ->
             m_brandScores (_analyzeAndDecodeBurst s) !!! brandIndex b = 0)).
  { intros (H1 & H2 & H3 & H4).
    repeat split; try assumption; apply H4; discriminate. }
  apply single_frame_analysis; try assumption.
  - lia.
  - discriminate.
  - rewrite H0. apply (proj2 (proj2 (matchPreamble_initial_in _ _))). lia.
  - intros [] Hb Hw; try contradiction; vm_compute;
      (split; [reflexivity | discriminate]).
  - intros _. assumption.
  - rewrite Hdec. apply isValidDecode_spec. cbn. split; [discriminate | lia].
Qed.

Lemma nec_frame_aux (s : State) (pre stop : PulseSpacePair)
    (data : list PulseSpacePair) (a1 a2 c1 c2 : Z) :
  wellFormed s ->
  m_pulseSpacePairCount s = 34%nat ->
  take 34 (m_pulseSpacePairs s) = pre :: data ++ [stop] ->
  Z.abs (pulse pre - NEC_PREAMBLE_PULSE) <= TIMING_TOLERANCE ->
  Z.abs (space pre - NEC_PREAMBLE_SPACE) <= TIMING_TOLERANCE ->
  0 <= a1 < 256 -> 0 <= a2 < 256 -> 0 <= c1 < 256 -> 0 <= c2 < 256 ->
  Forall2 (spaceCodes NEC_BIT_PULSE NEC_ZERO_SPACE NEC_ONE_SPACE) data
          (bitsFrom 0 32 (a1 + 256 * a2 + 65536 * c1 + 16777216 * c2)) ->
  m_codeResultIsReady (_analyzeAndDecodeBurst s) = true
  /\ m_finalResultCode (_analyzeAndDecodeBurst s)
     = {| brand := NEC; command := c1;
          address := if a1 + a2 =? 255 then a1 else 256 * a2 + a1 |}.
Proof.
  intros Hwf Hcount Htake Hpp Hps Ha1 Ha2 Hc1 Hc2 Hbits.
  destruct (nec_frame_full s pre stop data a1 a2 c1 c2) as (H1 & H2 & _); try assumption.
  now split.
Qed.

(** X18.  A burst that is one NEC frame is reported as that frame.  When the pair
    buffer holds a preamble, 32 data pairs and a stop pair within
    TIMING_TOLERANCE of the NEC timing, the analysis sets the result-ready
    flag over the command byte that was sent, with the address read as in
    [decodeNECData]; it leaves a positive score for NEC and a score of 0
    for JVC and for SONY.  The second command byte is not constrained: one
    frame whose checksum fails is reported all the same. *)
Theorem nec_frame_is_reported (s : State) (pre stop : PulseSpacePair)
    (data : list PulseSpacePair) (a1 a2 c1 c2 : Z) :
  wellFormed s ->
  m_pulseSpacePairCount s = 34%nat ->
  take 34 (m_pulseSpacePairs s) = pre :: data ++ [stop] ->
  Z.abs (pulse pre - NEC_PREAMBLE_PULSE) <= TIMING_TOLERANCE ->
  Z.abs (space pre - NEC_PREAMBLE_SPACE) <= TIMING_TOLERANCE ->
  0 <= a1 < 256 -> 0 <= a2 < 256 -> 0 <= c1 < 256 -> 0 <= c2 < 256 ->
  Forall2 (spaceCodes NEC_BIT_PULSE NEC_ZERO_SPACE NEC_ONE_SPACE) data
          (bitsFrom 0 32 (a1 + 256 * a2 + 65536 * c1 + 16777216 * c2)) ->
  m_codeResultIsReady (_analyzeAndDecodeBurst s) = true
  /\ m_finalResultCode (_analyzeAndDecodeBurst s)
     = {| brand := NEC; command := c1;
          address := if a1 + a2 =? 255 then a1 else 256 * a2 + a1 |}
  /\ 0 < m_brandScores (_analyzeAndDecodeBurst s) !!! brandIndex NEC
  /\ m_brandScores (_analyzeAndDecodeBurst s) !!! brandIndex JVC = 0
  /\ m_brandScores (_analyzeAndDecodeBurst s) !!! brandIndex SONY = 0.
Proof. apply nec_frame_full. Qed.

Lemma jvc_frame_full (s : State) (pre stop : PulseSpacePair)
    (data : list PulseSpacePair) (a c : Z) :
  wellFormed s ->
  m_pulseSpacePairCount s = 18%nat ->
  take 18 (m_pulseSpacePairs s) = pre :: data ++ [stop] ->
  Z.abs (pulse pre - JVC_PREAMBLE_PULSE) <= TIMING_TOLERANCE ->
  Z.abs (space pre - JVC_PREAMBLE_SPACE) <= TIMING_TOLERANCE ->
  0 <= a < 256 -> 0 <= c < 256 ->
  Forall2 (spaceCodes JVC_BIT_PULSE JVC_ZERO_SPACE JVC_ONE_SPACE) data
          (bitsFrom 0 16 (a + 256 * c)) ->
  m_codeResultIsReady (_analyzeAndDecodeBurst s) = true
  /\ m_finalResultCode (_analyzeAndDecodeBurst s)
     = {| brand := JVC; command := c; address := a |}
  /\ 0 < m_brandScores (_analyzeAndDecodeBurst s) !!! brandIndex JVC
  /\ m_brandScores (_analyzeAndDecodeBurst s) !!! brandIndex SONY = 0
  /\ m_brandScores (_analyzeAndDecodeBurst s) !!! brandIndex NEC = 0.
Proof.
  intros Hwf Hcount Htake Hpp Hps Ha Hc Hbits.
  unfold TIMING_TOLERANCE, JVC_PREAMBLE_PULSE, JVC_PREAMBLE_SPACE in Hpp, Hps.
  assert (Hlen : length data = 16%nat).
  { now rewrite (Forall2_length _ _ _ Hbits). }
  destruct (spaceCoded_frame_facts JVC_BIT_PULSE JVC_ZERO_SPACE JVC_ONE_SPACE
              (m_pulseSpacePairs s) 17 pre stop data _ Htake Hlen
              ltac:(lia) Hbits)
    as (Hseg & Hmarks & Hspaces & H0 & Hdata);
    [ vm_compute; discriminate | vm_compute; discriminate
    | vm_compute; discriminate | vm_compute; discriminate
    | vm_compute; discriminate | lia | lia | ].
  assert (Hdec : decodeFor JVC (take 17 (drop 1 (m_pulseSpacePairs s)))
                 = {| brand := JVC; command := c; address := a |}).
  { rewrite Hdata. unfold decodeFor. change (brand_eqb JVC NEC) with false.
    cbv iota. now apply jvc_round_trip_aux. }
  rewrite <- Hdec.
  cut (m_codeResultIsReady (_analyzeAndDecodeBurst s) = true
       /\ m_finalResultCode (_analyzeAndDecodeBurst s)
          = decodeFor JVC (take 17 (drop 1 (m_pulseSpacePairs s)))
       /\ 0 < m_brandScores (_analyzeAndDecodeBurst s) !!! brandIndex JVC
       /\ (forall b : RemoteBrand,
             b <> JVC ->
             m_brandScores (_analyzeAndDecodeBurst s) !!! brandIndex b = 0)).
  { intros (H1 & H2 & H3 & H4).
    repeat split; try assumption; apply H4; discriminate. }
  apply single_frame_analysis; try assumption.
  - lia.
  - discriminate.
  - rewrite H0. apply (proj1 (matchPreamble_initial_in _ _)). lia.
  - intros [] Hb Hw; try contradiction; vm_compute;
      (split; [reflexivity | discriminate]).
  - intros _. assumption.
  - rewrite Hdec. apply isValidDecode_spec. cbn. split; [discriminate | lia].
Qed.

Lemma jvc_frame_aux (s : State) (pre stop : PulseSpacePair)
    (data : list PulseSpacePair) (a c : Z) :
  wellFormed s ->
  m_pulseSpacePairCount s = 18%nat ->
  take 18 (m_pulseSpacePairs s) = pre :: data ++ [stop] ->
  Z.abs (pulse pre - JVC_PREAMBLE_PULSE) <= TIMING_TOLERANCE ->
  Z.abs (space pre - JVC_PREAMBLE_SPACE) <= TIMING_TOLERANCE ->
  0 <= a < 256 -> 0 <= c < 256 ->
  Forall2 (spaceCodes JVC_BIT_PULSE JVC_ZERO_SPACE JVC_ONE_SPACE) data
          (bitsFrom 0 16 (a + 256 * c)) ->
  m_codeResultIsReady (_analyzeAndDecodeBurst s) = true
  /\ m_finalResultCode (_analyzeAndDecodeBurst s)
     = {| brand := JVC; command := c; address := a |}.
Proof.
  intros Hwf Hcount Htake Hpp Hps Ha Hc Hbits.
  destruct (jvc_frame_full s pre stop data a c) as (H1 & H2 & _); try assumption.
  now split.
Qed.

(** X19.  A burst that is one JVC frame is reported as that frame.  When the pair
    buffer holds a preamble, 16 data pairs and a stop pair within
    TIMING_TOLERANCE of the JVC timing, the analysis sets the result-ready
    flag over the address and command that were sent; it leaves a positive
    score for JVC and a score of 0 for SONY and for NEC. *)
Theorem jvc_frame_is_reported (s : State) (pre stop : PulseSpacePair)
    (data : list PulseSpacePair) (a c : Z) :
  wellFormed s ->
  m_pulseSpacePairCount s = 18%nat ->
  take 18 (m_pulseSpacePairs s) = pre :: data ++ [stop] ->
  Z.abs (pulse pre - JVC_PREAMBLE_PULSE) <= TIMING_TOLERANCE ->
  Z.abs (space pre - JVC_PREAMBLE_SPACE) <= TIMING_TOLERANCE ->
  0 <= a < 256 -> 0 <= c < 256 ->
  Forall2 (spaceCodes JVC_BIT_PULSE JVC_ZERO_SPACE JVC_ONE_SPACE) data
          (bitsFrom 0 16 (a + 256 * c)) ->
  m_codeResultIsReady (_analyzeAndDecodeBurst s) = true
  /\ m_finalResultCode (_analyzeAndDecodeBurst s)
     = {| brand := JVC; command := c; address := a |}
  /\ 0 < m_brandScores (_analyzeAndDecodeBurst s) !!! brandIndex JVC
  /\ m_brandScores (_analyzeAndDecodeBurst s) !!! brandIndex SONY = 0
  /\ m_brandScores (_analyzeAndDecodeBurst s) !!! brandIndex NEC = 0.
Proof. apply jvc_frame_full. Qed.

(** ** From edges to the reported frame *)

Lemma interrupt_keeps_analysis (hw : Hardware) (s : State) :
  m_brandScores (handleIrInterrupt_priv hw s) = m_brandScores s
  /\ m_decodedSegments (handleIrInterrupt_priv hw s) = m_decodedSegments s.
Proof.
  unfold handleIrInterrupt_priv. destruct (negb _ && _); now split.
Qed.

Lemma burstCalls_keeps_analysis (stamps : list (Z * Z)) :
  forall (level : Z) (s : State),
  m_brandScores (run (burstCalls level stamps) s) = m_brandScores s
  /\ m_decodedSegments (run (burstCalls level stamps) s) = m_decodedSegments s.
Proof.
  induction stamps as [|[ms us] rest IH]; intros level s; [now split|].
  cbn [burstCalls run exec].
  destruct (IH (otherLevel level) (handleIrInterrupt_priv (hwAt ms us level) s))
    as [-> ->].
  apply interrupt_keeps_analysis.
Qed.

Lemma stampsAt_carry (times : list Z) :
  Forall2 (fun (st : Z * Z) T => microsAt st.2 T) (stampsAt times) times.
Proof.
  induction times as [|T times IH]; [apply List.Forall2_nil|].
  apply List.Forall2_cons; [reflexivity | exact IH].
Qed.

(** The poll that ends a burst reports what the analysis makes of the
    durations of the burst. *)
Lemma burst_result (s : State) (stamps : list (Z * Z))
    (fullPairs : list PulseSpacePair) (lastPulse t : Z) (hw : Hardware)
    (d : DecodedIR) :
  Armed s ->
  wellFormed s ->
  (length fullPairs < IR_LIB_MAX_TRANSITIONS / 2)%nat ->
  Forall (fun p => 0 <= pulse p < 2 ^ 31 /\ 0 <= space p <= 100000) fullPairs ->
  0 <= lastPulse < 2 ^ 31 ->
  Forall2 (fun st T => microsAt st.2 T) stamps (burstTimes t fullPairs lastPulse) ->
  (forall st, last stamps = Some st ->
     IR_LIB_IDLE_TIMEOUT_MS < millis hw - st.1 < 2 ^ 32) ->
  (forall s0 : State,
     wellFormed s0 ->
     m_pulseSpacePairCount s0 = S (length fullPairs) ->
     take (S (length fullPairs)) (m_pulseSpacePairs s0)
     = fullPairs ++ [ {| pulse := lastPulse; space := -1 |} ] ->
     m_codeResultIsReady (_analyzeAndDecodeBurst s0) = true
     /\ m_finalResultCode (_analyzeAndDecodeBurst s0) = d) ->
  let s1 := run (burstCalls LOW stamps) s in
  feasible (burstCalls LOW stamps) s = true
  /\ (isCode hw s1).1 = true
  /\ (getCode (isCode hw s1).2).1 = d
  /\ (getCode (getCode (isCode hw s1).2).2).1 = DecodedIR_empty.
Proof.
  intros Harmed Hwf Hlen Hok Hq Hstamps Hidle Hanalysis s1.
  destruct (captured_burst_analysis s stamps fullPairs lastPulse t hw
              Harmed Hlen Hok Hq Hstamps Hidle)
    as (Hf & _ & _ & _ & Hraw & pairs & Hpl & Htake & Hcode).
  fold s1 in Hraw, Hcode. cbv zeta in Hcode. rewrite Hcode. cbn [fst snd].
  destruct Hwf as (_ & _ & Hw3 & Hw4).
  destruct (burstCalls_keeps_analysis stamps LOW s) as [Hsc Hsg].
  fold s1 in Hsc, Hsg.
  match goal with
  | |- context [_analyzeAndDecodeBurst ?s0] =>
      destruct (Hanalysis s0) as [Hready Hfinal];
      [ repeat split; cbn [set_capture m_rawTransitions m_pulseSpacePairs
                           m_brandScores m_decodedSegments]; congruence
      | reflexivity | exact Htake | ];
      set (s2 := _analyzeAndDecodeBurst s0) in *
  end.
  split; [assumption|]. split; [assumption|].
  assert (G : getCode s2
              = (d, set_analysis (m_brandScores s2) (m_decodedSegments s2)
                                 (m_decodedSegmentCount s2) d false s2)).
  { unfold getCode. now rewrite Hready, Hfinal. }
  rewrite G. cbn [fst snd]. split; reflexivity.
Qed.

Lemma sony_press_aux (s : State) (stamps : list (Z * Z))
    (pre : PulseSpacePair) (data : list PulseSpacePair) (lastPulse c a t : Z)
    (hw : Hardware) :
  Armed s ->
  wellFormed s ->
  Z.abs (pulse pre - SONY_PREAMBLE_PULSE) <= TIMING_TOLERANCE ->
  Z.abs (space pre - SONY_PREAMBLE_SPACE) <= TIMING_TOLERANCE ->
  0 <= c < 128 -> 0 <= a < 32 ->
  Forall2 (pulseCodes SONY_ZERO_PULSE SONY_ONE_PULSE)
          (data ++ [ {| pulse := lastPulse; space := -1 |} ])
          (bitsFrom 0 12 (c + 128 * a)) ->
  Forall (fun p => Z.abs (space p - SONY_BIT_SPACE) <= TIMING_TOLERANCE) data ->
  Forall2 (fun st T => microsAt st.2 T) stamps
          (burstTimes t (pre :: data) lastPulse) ->
  (forall st, last stamps = Some st ->
     IR_LIB_IDLE_TIMEOUT_MS < millis hw - st.1 < 2 ^ 32) ->
  let s1 := run (burstCalls LOW stamps) s in
  feasible (burstCalls LOW stamps) s = true
  /\ (isCode hw s1).1 = true
  /\ (getCode (isCode hw s1).2).1
     = {| brand := SONY; command := c; address := a |}
  /\ (getCode (getCode (isCode hw s1).2).2).1 = DecodedIR_empty.
Proof.
  intros Harmed Hwf Hpp Hps Hc Ha Hbits Hspaces Hstamps Hidle.
  assert (Hlen : length data = 11%nat).
  { apply Forall2_length in Hbits. rewrite length_app in Hbits.
    cbn in Hbits. lia. }
  assert (Hpulses : Forall (fun p => Z.abs (pulse p - 900) <= 500)
                           (data ++ [ {| pulse := lastPulse; space := -1 |} ])).
  { apply Forall_forall. intros p Hp.
    apply list_elem_of_lookup_1 in Hp as [i Hi].
    destruct (Forall2_lookup_l _ _ _ _ _ Hbits Hi) as (b & _ & Hb).
    unfold pulseCodes, TIMING_TOLERANCE, SONY_ZERO_PULSE, SONY_ONE_PULSE in Hb.
    destruct b; lia. }
  apply Forall_app in Hpulses as [Hdp Hlp].
  apply List.Forall_cons_iff in Hlp as [Hlp _]. cbn [pulse] in Hlp.
  unfold TIMING_TOLERANCE, SONY_PREAMBLE_PULSE, SONY_PREAMBLE_SPACE,
    SONY_BIT_SPACE in *.
  apply burst_result with (fullPairs := pre :: data) (lastPulse := lastPulse)
                          (t := t); try assumption.
  - cbn [length]. rewrite Hlen. vm_compute. lia.
  - apply List.Forall_cons; [lia|].
    apply Forall_forall. intros p Hp.
    rewrite Forall_forall in Hdp, Hspaces.
    specialize (Hdp p Hp). specialize (Hspaces p Hp). lia.
  - lia.
  - intros s0 Hwf0 Hcount0 Htake0. cbn [length] in Hcount0, Htake0.
    rewrite Hlen in Hcount0, Htake0.
    apply (sony_frame_aux s0 pre
             (data ++ [ {| pulse := lastPulse; space := -1 |} ]));
      try assumption.
    apply Forall_app. split.
    + eapply Forall_impl; [exact Hspaces|]. intros p Hp. now right.
    + apply List.Forall_cons; [now left | apply List.Forall_nil].
Qed.

(** X20.  A SONY button press, from the edges on the pin to [getCode].  The
    receiver is armed; the edges of one SONY frame (preamble and twelve
    bits, every mark and space within TIMING_TOLERANCE of its nominal
    length) arrive, each interrupt reading [micros()] at its edge; [isCode]
    is polled more than the idle timeout after the last edge.  Then that
    poll returns true, [getCode] returns the SONY frame with the command and
    address that were sent, and a second [getCode] returns the empty
    value. *)
Theorem sony_press_is_received (s : State) (stamps : list (Z * Z))
    (pre : PulseSpacePair) (data : list PulseSpacePair) (lastPulse c a t : Z)
    (hw : Hardware) :
  Armed s ->
  wellFormed s ->
  Z.abs (pulse pre - SONY_PREAMBLE_PULSE) <= TIMING_TOLERANCE ->
  Z.abs (space pre - SONY_PREAMBLE_SPACE) <= TIMING_TOLERANCE ->
  0 <= c < 128 -> 0 <= a < 32 ->
  Forall2 (pulseCodes SONY_ZERO_PULSE SONY_ONE_PULSE)
          (data ++ [ {| pulse := lastPulse; space := -1 |} ])
          (bitsFrom 0 12 (c + 128 * a)) ->
  Forall (fun p => Z.abs (space p - SONY_BIT_SPACE) <= TIMING_TOLERANCE) data ->
  Forall2 (fun st T => microsAt st.2 T) stamps
          (burstTimes t (pre :: data) lastPulse) ->
  (forall st, last stamps = Some st ->
     IR_LIB_IDLE_TIMEOUT_MS < millis hw - st.1 < 2 ^ 32) ->
  let s1 := run (burstCalls LOW stamps) s in
  feasible (burstCalls LOW stamps) s = true
  /\ (isCode hw s1).1 = true
  /\ (getCode (isCode hw s1).2).1
     = {| brand := SONY; command := c; address := a |}
  /\ (getCode (getCode (isCode hw s1).2).2).1 = DecodedIR_empty.
Proof. apply sony_press_aux. Qed.

Lemma spaceCoded_press (e z o : Z) (s : State) (stamps : list (Z * Z))
    (pre : PulseSpacePair) (data : list PulseSpacePair) (bits : list bool)
    (stopMark t : Z) (hw : Hardware) (d : DecodedIR) (n : nat) :
  Armed s ->
  wellFormed s ->
  0 <= pulse pre <= 10000 -> 0 <= space pre <= 10000 ->
  TIMING_TOLERANCE <= e <= 2000 -> TIMING_TOLERANCE <= z -> z <= o <= 2000 ->
  length bits = n -> (n < 100)%nat ->
  Forall2 (spaceCodes e z o) data bits ->
  0 <= stopMark < 2 ^ 31 ->
  Forall2 (fun st T => microsAt st.2 T) stamps
          (burstTimes t (pre :: data) stopMark) ->
  (forall st, last stamps = Some st ->
     IR_LIB_IDLE_TIMEOUT_MS < millis hw - st.1 < 2 ^ 32) ->
  (forall s0 : State,
     wellFormed s0 ->
     m_pulseSpacePairCount s0 = S (S n) ->
     take (S (S n)) (m_pulseSpacePairs s0)
     = pre :: data ++ [ {| pulse := stopMark; space := -1 |} ] ->
     m_codeResultIsReady (_analyzeAndDecodeBurst s0) = true
     /\ m_finalResultCode (_analyzeAndDecodeBurst s0) = d) ->
  let s1 := run (burstCalls LOW stamps) s in
  feasible (burstCalls LOW stamps) s = true
  /\ (isCode hw s1).1 = true
  /\ (getCode (isCode hw s1).2).1 = d
  /\ (getCode (getCode (isCode hw s1).2).2).1 = DecodedIR_empty.
Proof.
  intros Harmed Hwf Hpp Hps He Hz Ho Hbits Hn Hcodes Hstop Hstamps Hidle
         Hanalysis.
  unfold TIMING_TOLERANCE in *.
  assert (Hlen : length data = n).
  { now rewrite (Forall2_length _ _ _ Hcodes). }
  apply burst_result with (fullPairs := pre :: data) (lastPulse := stopMark)
                          (t := t); try assumption.
  - cbn [length]. rewrite Hlen. vm_compute. lia.
  - apply List.Forall_cons; [lia|].
    apply Forall_forall. intros p Hp.
    apply list_elem_of_lookup_1 in Hp as [i Hi].
    destruct (Forall2_lookup_l _ _ _ _ _ Hcodes Hi) as (b & _ & [H1 H2]).
    unfold TIMING_TOLERANCE in *. destruct b; lia.
  - intros s0 Hwf0 Hcount0 Htake0. cbn [length] in Hcount0, Htake0.
    rewrite Hlen in Hcount0, Htake0. now apply Hanalysis.
Qed.

Lemma nec_press_aux (s : State) (stamps : list (Z * Z))
    (pre : PulseSpacePair) (data : list PulseSpacePair)
    (stopMark a1 a2 c1 c2 t : Z) (hw : Hardware) :
  Armed s ->
  wellFormed s ->
  Z.abs (pulse pre - NEC_PREAMBLE_PULSE) <= TIMING_TOLERANCE ->
  Z.abs (space pre - NEC_PREAMBLE_SPACE) <= TIMING_TOLERANCE ->
  0 <= a1 < 256 -> 0 <= a2 < 256 -> 0 <= c1 < 256 -> 0 <= c2 < 256 ->
  Forall2 (spaceCodes NEC_BIT_PULSE NEC_ZERO_SPACE NEC_ONE_SPACE) data
          (bitsFrom 0 32 (a1 + 256 * a2 + 65536 * c1 + 16777216 * c2)) ->
  0 <= stopMark < 2 ^ 31 ->
  Forall2 (fun st T => microsAt st.2 T) stamps
          (burstTimes t (pre :: data) stopMark) ->
  (forall st, last stamps = Some st ->
     IR_LIB_IDLE_TIMEOUT_MS < millis hw - st.1 < 2 ^ 32) ->
  let s1 := run (burstCalls LOW stamps) s in
  feasible (burstCalls LOW stamps) s = true
  /\ (isCode hw s1).1 = true
  /\ (getCode (isCode hw s1).2).1
     = {| brand := NEC; command := c1;
          address := if a1 + a2 =? 255 then a1 else 256 * a2 + a1 |}
  /\ (getCode (getCode (isCode hw s1).2).2).1 = DecodedIR_empty.
Proof.
  intros Harmed Hwf Hpp Hps Ha1 Ha2 Hc1 Hc2 Hbits Hstop Hstamps Hidle.
  apply (spaceCoded_press NEC_BIT_PULSE NEC_ZERO_SPACE NEC_ONE_SPACE s stamps
           pre data
           (bitsFrom 0 32 (a1 + 256 * a2 + 65536 * c1 + 16777216 * c2))
           stopMark t hw _ 32 Harmed Hwf); try assumption;
    try (unfold TIMING_TOLERANCE, NEC_PREAMBLE_PULSE, NEC_PREAMBLE_SPACE,
           NEC_BIT_PULSE, NEC_ZERO_SPACE, NEC_ONE_SPACE in *; lia).
  - reflexivity.
  - intros s0 Hwf0 Hcount0 Htake0.
    now apply (nec_frame_aux s0 pre {| pulse := stopMark; space := -1 |} data
                 a1 a2 c1 c2).
Qed.

(** X21.  An NEC button press, from the edges on the pin to [getCode].  The
    receiver is armed; the edges of one NEC frame (preamble, 32 bits and
    stop mark, every mark and space of preamble and bits within
    TIMING_TOLERANCE of its nominal length) arrive; [isCode] is polled more
    than the idle timeout after the last edge.  Then that poll returns true
    and [getCode] returns the NEC frame with the command byte that was
    sent, whether or not the second command byte is its complement. *)
Theorem nec_press_is_received (s : State) (stamps : list (Z * Z))
    (pre : PulseSpacePair) (data : list PulseSpacePair)
    (stopMark a1 a2 c1 c2 t : Z) (hw : Hardware) :
  Armed s ->
  wellFormed s ->
  Z.abs (pulse pre - NEC_PREAMBLE_PULSE) <= TIMING_TOLERANCE ->
  Z.abs (space pre - NEC_PREAMBLE_SPACE) <= TIMING_TOLERANCE ->
  0 <= a1 < 256 -> 0 <= a2 < 256 -> 0 <= c1 < 256 -> 0 <= c2 < 256 ->
  Forall2 (spaceCodes NEC_BIT_PULSE NEC_ZERO_SPACE NEC_ONE_SPACE) data
          (bitsFrom 0 32 (a1 + 256 * a2 + 65536 * c1 + 16777216 * c2)) ->
  0 <= stopMark < 2 ^ 31 ->
  Forall2 (fun st T => microsAt st.2 T) stamps
          (burstTimes t (pre :: data) stopMark) ->
  (forall st, last stamps = Some st ->
     IR_LIB_IDLE_TIMEOUT_MS < millis hw - st.1 < 2 ^ 32) ->
  let s1 := run (burstCalls LOW stamps) s in
  feasible (burstCalls LOW stamps) s = true
  /\ (isCode hw s1).1 = true
  /\ (getCode (isCode hw s1).2).1
     = {| brand := NEC; command := c1;
          address := if a1 + a2 =? 255 then a1 else 256 * a2 + a1 |}
  /\ (getCode (getCode (isCode hw s1).2).2).1 = DecodedIR_empty.
Proof. apply nec_press_aux. Qed.

Lemma jvc_press_aux (s : State) (stamps : list (Z * Z))
    (pre : PulseSpacePair) (data : list PulseSpacePair)
    (stopMark a c t : Z) (hw : Hardware) :
  Armed s ->
  wellFormed s ->
  Z.abs (pulse pre - JVC_PREAMBLE_PULSE) <= TIMING_TOLERANCE ->
  Z.abs (space pre - JVC_PREAMBLE_SPACE) <= TIMING_TOLERANCE ->
  0 <= a < 256 -> 0 <= c < 256 ->
  Forall2 (spaceCodes JVC_BIT_PULSE JVC_ZERO_SPACE JVC_ONE_SPACE) data
          (bitsFrom 0 16 (a + 256 * c)) ->
  0 <= stopMark < 2 ^ 31 ->
  Forall2 (fun st T => microsAt st.2 T) stamps
          (burstTimes t (pre :: data) stopMark) ->
  (forall st, last stamps = Some st ->
     IR_LIB_IDLE_TIMEOUT_MS < millis hw - st.1 < 2 ^ 32) ->
  let s1 := run (burstCalls LOW stamps) s in
  feasible (burstCalls LOW stamps) s = true
  /\ (isCode hw s1).1 = true
  /\ (getCode (isCode hw s1).2).1
     = {| brand := JVC; command := c; address := a |}
  /\ (getCode (getCode (isCode hw s1).2).2).1 = DecodedIR_empty.
Proof.
  intros Harmed Hwf Hpp Hps Ha Hc Hbits Hstop Hstamps Hidle.
  apply (spaceCoded_press JVC_BIT_PULSE JVC_ZERO_SPACE JVC_ONE_SPACE s stamps
           pre data (bitsFrom 0 16 (a + 256 * c))
           stopMark t hw _ 16 Harmed Hwf); try assumption;
    try (unfold TIMING_TOLERANCE, JVC_PREAMBLE_PULSE, JVC_PREAMBLE_SPACE,
           JVC_BIT_PULSE, JVC_ZERO_SPACE, JVC_ONE_SPACE in *; lia).
  - reflexivity.
  - intros s0 Hwf0 Hcount0 Htake0.
    now apply (jvc_frame_aux s0 pre {| pulse := stopMark; space := -1 |} data
                 a c).
Qed.

(** X22.  A JVC button press, from the edges on the pin to [getCode].  The
    receiver is armed; the edges of one JVC frame (preamble, 16 bits and
    stop mark, every mark and space of preamble and bits within
    TIMING_TOLERANCE of its nominal length) arrive; [isCode] is polled more
    than the idle timeout after the last edge.  Then that poll returns true
    and [getCode] returns the JVC frame with the address and command that
    were sent. *)
Theorem jvc_press_is_received (s : State) (stamps : list (Z * Z))
    (pre : PulseSpacePair) (data : list PulseSpacePair)
    (stopMark a c t : Z) (hw : Hardware) :
  Armed s ->
  wellFormed s ->
  Z.abs (pulse pre - JVC_PREAMBLE_PULSE) <= TIMING_TOLERANCE ->
  Z.abs (space pre - JVC_PREAMBLE_SPACE) <= TIMING_TOLERANCE ->
  0 <= a < 256 -> 0 <= c < 256 ->
  Forall2 (spaceCodes JVC_BIT_PULSE JVC_ZERO_SPACE JVC_ONE_SPACE) data
          (bitsFrom 0 16 (a + 256 * c)) ->
  0 <= stopMark < 2 ^ 31 ->
  Forall2 (fun st T => microsAt st.2 T) stamps
          (burstTimes t (pre :: data) stopMark) ->
  (forall st, last stamps = Some st ->
     IR_LIB_IDLE_TIMEOUT_MS < millis hw - st.1 < 2 ^ 32) ->
  let s1 := run (burstCalls LOW stamps) s in
  feasible (burstCalls LOW stamps) s = true
  /\ (isCode hw s1).1 = true
  /\ (getCode (isCode hw s1).2).1
     = {| brand := JVC; command := c; address := a |}
  /\ (getCode (getCode (isCode hw s1).2).2).1 = DecodedIR_empty.
Proof. apply jvc_press_aux. Qed.

Lemma necSession_reachable : reachable (run necSession new).
Proof.
  apply reachable_run; [apply reachable_new | vm_compute; reflexivity].
Qed.

Lemma jvcSession_reachable : reachable (run jvcSession new).
Proof.
  apply reachable_run; [apply reachable_new | vm_compute; reflexivity].
Qed.

Lemma nec_frame_example :
  m_codeResultIsReady (_analyzeAndDecodeBurst (run necSession new)) = true
  /\ m_finalResultCode (_analyzeAndDecodeBurst (run necSession new))
     = {| brand := NEC; command := 16; address := 0 |}
  /\ 0 < m_brandScores (_analyzeAndDecodeBurst (run necSession new)) !!! brandIndex NEC
  /\ m_brandScores (_analyzeAndDecodeBurst (run necSession new)) !!! brandIndex JVC = 0
  /\ m_brandScores (_analyzeAndDecodeBurst (run necSession new)) !!! brandIndex SONY = 0.
Proof.
  apply (nec_frame_is_reported (run necSession new)
           {| pulse := 9000; space := 4500 |}
           {| pulse := 563; space := -1 |}
           (spaceCoded NEC_BIT_PULSE NEC_ZERO_SPACE NEC_ONE_SPACE
              (bitsFrom 0 32 (0 + 256 * 255 + 65536 * 16 + 16777216 * 239)))
           0 255 16 239).
  - apply inv_wellFormed, reachable_Inv, necSession_reachable.
  - vm_compute. reflexivity.
  - vm_compute. reflexivity.
  - vm_compute. discriminate.
  - vm_compute. discriminate.
  - lia.
  - lia.
  - lia.
  - lia.
  - apply spaceCoded_codes.
Defined.

Lemma jvc_frame_example :
  m_codeResultIsReady (_analyzeAndDecodeBurst (run jvcSession new)) = true
  /\ m_finalResultCode (_analyzeAndDecodeBurst (run jvcSession new))
     = {| brand := JVC; command := 13; address := 3 |}
  /\ 0 < m_brandScores (_analyzeAndDecodeBurst (run jvcSession new)) !!! brandIndex JVC
  /\ m_brandScores (_analyzeAndDecodeBurst (run jvcSession new)) !!! brandIndex SONY = 0
  /\ m_brandScores (_analyzeAndDecodeBurst (run jvcSession new)) !!! brandIndex NEC = 0.
Proof.
  apply (jvc_frame_is_reported (run jvcSession new)
           {| pulse := 8400; space := 4200 |}
           {| pulse := 526; space := -1 |}
           (spaceCoded JVC_BIT_PULSE JVC_ZERO_SPACE JVC_ONE_SPACE
              (bitsFrom 0 16 (3 + 256 * 13)))
           3 13).
  - apply inv_wellFormed, reachable_Inv, jvcSession_reachable.
  - vm_compute. reflexivity.
  - vm_compute. reflexivity.
  - vm_compute. discriminate.
  - vm_compute. discriminate.
  - lia.
  - lia.
  - apply spaceCoded_codes.
Defined.

Lemma armedOnPin2_armed : Armed armedOnPin2 /\ wellFormed armedOnPin2.
Proof. split; [split; reflexivity | repeat split]. Qed.

Lemma last_stampsAt (times : list Z) :
  last (stampsAt times)
  = match last times with
    | Some T => Some (T / 1000, T)
    | None => None
    end.
Proof.
  induction times as [|T times IH]; [reflexivity|].
  destruct times as [|T' rest]; [reflexivity|].
  change (stampsAt (T :: T' :: rest))
    with ((T / 1000, T) :: stampsAt (T' :: rest)).
  change (stampsAt (T' :: rest))
    with ((T' / 1000, T') :: stampsAt rest) in *.
  now rewrite !last_cons_cons in *.
Qed.

Lemma last_stamp_idle (times : list Z) (T : Z) (hw : Hardware) :
  last times = Some T ->
  IR_LIB_IDLE_TIMEOUT_MS < millis hw - T / 1000 < 2 ^ 32 ->
  forall st, last (stampsAt times) = Some st ->
    IR_LIB_IDLE_TIMEOUT_MS < millis hw - st.1 < 2 ^ 32.
Proof.
  intros Hlast Hidle st Hst. rewrite last_stampsAt, Hlast in Hst.
  injection Hst as <-. exact Hidle.
Qed.

Lemma sony_press_example :
  let s1 := run (pressCalls (sonyFramePairs (21 + 128 * 1)) 600) armedOnPin2 in
  (isCode (hwAt 1000 0 HIGH) s1).1 = true
  /\ (getCode (isCode (hwAt 1000 0 HIGH) s1).2).1
     = {| brand := SONY; command := 21; address := 1 |}.
Proof.
  destruct (sony_press_is_received armedOnPin2
              (stampsAt (burstTimes 5000 (sonyFramePairs (21 + 128 * 1)) 600))
              {| pulse := 2400; space := 600 |}
              (pulseCoded SONY_ZERO_PULSE SONY_ONE_PULSE SONY_BIT_SPACE
                          (bitsFrom 0 11 (21 + 128 * 1)))
              600 21 1 5000 (hwAt 1000 0 HIGH))
    as (_ & H1 & H2 & _).
  - apply armedOnPin2_armed.
  - apply armedOnPin2_armed.
  - vm_compute. discriminate.
  - vm_compute. discriminate.
  - lia.
  - lia.
  - unfold pulseCoded, bitsFrom. cbn [seq map app].
    repeat (apply List.Forall2_cons; [vm_compute; discriminate|]).
    apply List.Forall2_nil.
  - unfold pulseCoded, bitsFrom. cbn [seq map].
    repeat (apply List.Forall_cons; [vm_compute; discriminate|]).
    apply List.Forall_nil.
  - apply stampsAt_carry.
  - eapply last_stamp_idle; [vm_compute; reflexivity|].
    vm_compute. split; reflexivity.
  - split; assumption.
Defined.

Lemma nec_press_example :
  let s1 := run (pressCalls
                   (necFramePairs (0 + 256 * 255 + 65536 * 16 + 16777216 * 0))
                   NEC_BIT_PULSE) armedOnPin2 in
  (isCode (hwAt 1000 0 HIGH) s1).1 = true
  /\ (getCode (isCode (hwAt 1000 0 HIGH) s1).2).1
     = {| brand := NEC; command := 16; address := 0 |}.
Proof.
  destruct (nec_press_is_received armedOnPin2
              (stampsAt (burstTimes 5000
                 (necFramePairs (0 + 256 * 255 + 65536 * 16 + 16777216 * 0))
                 NEC_BIT_PULSE))
              {| pulse := 9000; space := 4500 |}
              (spaceCoded NEC_BIT_PULSE NEC_ZERO_SPACE NEC_ONE_SPACE
                 (bitsFrom 0 32 (0 + 256 * 255 + 65536 * 16 + 16777216 * 0)))
              NEC_BIT_PULSE 0 255 16 0 5000 (hwAt 1000 0 HIGH))
    as (_ & H1 & H2 & _).
  - apply armedOnPin2_armed.
  - apply armedOnPin2_armed.
  - vm_compute. discriminate.
  - vm_compute. discriminate.
  - lia.
  - lia.
  - lia.
  - lia.
  - apply spaceCoded_codes.
  - vm_compute. split; [discriminate | reflexivity].
  - apply stampsAt_carry.
  - eapply last_stamp_idle; [vm_compute; reflexivity|].
    vm_compute. split; reflexivity.
  - split; assumption.
Defined.

Lemma jvc_press_example :
  let s1 := run (pressCalls (jvcFramePairs (3 + 256 * 13)) JVC_BIT_PULSE)
                armedOnPin2 in
  (isCode (hwAt 1000 0 HIGH) s1).1 = true
  /\ (getCode (isCode (hwAt 1000 0 HIGH) s1).2).1
     = {| brand := JVC; command := 13; address := 3 |}.
Proof.
  destruct (jvc_press_is_received armedOnPin2
              (stampsAt (burstTimes 5000 (jvcFramePairs (3 + 256 * 13))
                                    JVC_BIT_PULSE))
              {| pulse := 8400; space := 4200 |}
              (spaceCoded JVC_BIT_PULSE JVC_ZERO_SPACE JVC_ONE_SPACE
                 (bitsFrom 0 16 (3 + 256 * 13)))
              JVC_BIT_PULSE 3 13 5000 (hwAt 1000 0 HIGH))
    as (_ & H1 & H2 & _).
  - apply armedOnPin2_armed.
  - apply armedOnPin2_armed.
  - vm_compute. discriminate.
  - vm_compute. discriminate.
  - lia.
  - lia.
  - apply spaceCoded_codes.
  - vm_compute. split; [discriminate | reflexivity].
  - apply stampsAt_carry.
  - eapply last_stamp_idle; [vm_compute; reflexivity|].
    vm_compute. split; reflexivity.
  - split; assumption.
Defined.

(** ** Ranges of a reported frame *)

Lemma land_ones_range (x : Z) (n : Z) :
  0 <= n -> 0 <= Z.land x (Z.ones n) < 2 ^ n.
Proof.
  intros Hn. rewrite Z.land_ones by assumption.
  apply Z.mod_pos_bound. now apply Z.pow_pos_nonneg.
Qed.

Lemma decodeWinningSegment_range (w : RemoteBrand)
    (dataPairs : list PulseSpacePair) :
  w <> NEC -> fieldsInRange (decodeWinningSegment w dataPairs).
Proof.
  intros Hw. unfold decodeWinningSegment.
  destruct (_ || _); [cbn; now split|].
  destruct w; [ | | | contradiction].
  - cbn. now split.
  - cbn [brand_eqb brandIndex Nat.eqb].
    destruct (spaceBitLoop _ _ _ _ _ _ _) as [rawBits bitCount].
    unfold fieldsInRange. cbn [brand command address].
    pose proof (land_ones_range (Z.shiftr rawBits 8) 8 ltac:(lia)) as H1.
    pose proof (land_ones_range (Z.shiftr rawBits 0) 8 ltac:(lia)) as H2.
    change (Z.ones 8) with 255 in *. change (2 ^ 8) with 256 in *.
    destruct (Z.geb_spec bitCount 16), (Z.geb_spec bitCount 8); lia.
  - cbn [brand_eqb brandIndex Nat.eqb].
    destruct (sonyBitLoop _ _ _ _) as [rawBits bitCount].
    unfold fieldsInRange. cbn [brand command address].
    pose proof (land_ones_range (Z.shiftr rawBits 0) 7 ltac:(lia)) as H1.
    pose proof (land_ones_range (Z.shiftr rawBits 7) 5 ltac:(lia)) as H2.
    change (Z.ones 7) with 127 in *. change (2 ^ 7) with 128 in *.
    change (Z.ones 5) with 31 in *. change (2 ^ 5) with 32 in *.
    destruct (Z.geb_spec bitCount 7), (Z.geb_spec bitCount 12); lia.
Qed.

Lemma decodeNECData_range (dataPairs : list PulseSpacePair) :
  fieldsInRange (base (decodeNECData dataPairs)).
Proof.
  unfold decodeNECData. destruct (necBits dataPairs) as [rawBits bitCount].
  pose proof (land_ones_range (Z.shiftr rawBits 0) 8 ltac:(lia)) as H1.
  pose proof (land_ones_range (Z.shiftr rawBits 8) 8 ltac:(lia)) as H2.
  pose proof (land_ones_range (Z.shiftr rawBits 16) 8 ltac:(lia)) as H3.
  pose proof (land_ones_range (Z.shiftr rawBits 24) 8 ltac:(lia)) as H4.
  change (Z.ones 8) with 255 in *. change (2 ^ 8) with 256 in *.
  set (b1 := Z.land (Z.shiftr rawBits 0) 255) in *.
  set (b2 := Z.land (Z.shiftr rawBits 8) 255) in *.
  set (b3 := Z.land (Z.shiftr rawBits 16) 255) in *.
  set (b4 := Z.land (Z.shiftr rawBits 24) 255) in *.
  assert (Hlor : Z.lor (Z.shiftl b2 8) b1 = 256 * b2 + b1)
    by (apply lor_high_low_byte; lia).
  destruct (Z.geb_spec bitCount 8), (Z.geb_spec bitCount 16),
    (Z.geb_spec bitCount 24), (Z.geb_spec bitCount 32); try lia;
    repeat match goal with
           | |- context [?a =? ?b] => destruct (Z.eqb_spec a b)
           end;
    cbn [negb andb]; unfold fieldsInRange; cbn [base brand command address];
    rewrite ?Hlor; lia.
Qed.

Lemma segment_iter_range (w : RemoteBrand) (pairs : list PulseSpacePair)
    (pairCount : nat) (st : SegmentState) (i : nat) :
  (decodedSegmentCount st < length (decodedSegments st))%nat ->
  Forall fieldsInRange (take (decodedSegmentCount st) (decodedSegments st)) ->
  Forall fieldsInRange
         (take (decodedSegmentCount (segment_iter w pairs pairCount st i))
               (decodedSegments (segment_iter w pairs pairCount st i))).
Proof.
  intros Hroom Hinv. unfold segment_iter.
  destruct (if _ && _ && _ then true else _); [|assumption].
  destruct (_ >? 0); [|assumption].
  destruct (brand_eqb w NEC) eqn:Hnec.
  - cbn [decodedSegments decodedSegmentCount].
    rewrite list_lookup_total_insert_eq by assumption.
    match goal with
    | |- context [decodeNECData ?d] =>
        pose proof (decodeNECData_range d) as Hr;
        set (seg := base (decodeNECData d)) in *
    end.
    destruct (brand_eqb (brand seg) UNKNOWN);
      cbn [negb decodedSegments decodedSegmentCount].
    + rewrite take_insert_ge by lia. assumption.
    + rewrite take_insert_snoc by assumption.
      apply Forall_app. split; [assumption|].
      apply List.Forall_cons; [assumption | apply List.Forall_nil].
  - cbn [decodedSegments decodedSegmentCount].
    rewrite list_lookup_total_insert_eq by assumption.
    match goal with
    | |- context [decodeWinningSegment w ?d] =>
        pose proof (decodeWinningSegment_range w d) as Hr;
        set (seg := decodeWinningSegment w d) in *
    end.
    assert (Hr' : fieldsInRange seg).
    { apply Hr. intros ->. discriminate. }
    destruct (brand_eqb (brand seg) UNKNOWN);
      cbn [negb decodedSegments decodedSegmentCount].
    + rewrite take_insert_ge by lia. assumption.
    + rewrite take_insert_snoc by assumption.
      apply Forall_app. split; [assumption|].
      apply List.Forall_cons; [assumption | apply List.Forall_nil].
Qed.

Lemma segmentLoop_range (w : RemoteBrand) (pairs : list PulseSpacePair)
    (pairCount : nat) (indices : list nat) :
  forall st : SegmentState,
  length (decodedSegments st) = IR_LIB_MAX_DECODED_SEGMENTS ->
  Forall fieldsInRange (take (decodedSegmentCount st) (decodedSegments st)) ->
  Forall fieldsInRange
         (take (decodedSegmentCount (segmentLoop w pairs pairCount indices st))
               (decodedSegments (segmentLoop w pairs pairCount indices st))).
Proof.
  induction indices as [|i rest IH]; intros st Hlen Hinv; cbn [segmentLoop];
    [assumption|].
  destruct (Nat.ltb_spec (decodedSegmentCount st) IR_LIB_MAX_DECODED_SEGMENTS)
    as [Hlt | Hge]; [|assumption].
  apply IH.
  - now rewrite (proj2 (segment_iter_count w pairs pairCount st i)).
  - apply segment_iter_range; [lia | assumption].
Qed.

Lemma analyze_range (s : State) :
  wellFormed s -> fieldsInRange (m_finalResultCode (_analyzeAndDecodeBurst s)).
Proof.
  intros (_ & _ & Hscores & Hsegs).
  destruct (Nat.eq_dec (m_pulseSpacePairCount s) 0%nat) as [Hzero | Hcount].
  { unfold _analyzeAndDecodeBurst. rewrite Hzero. cbn. now split. }
  rewrite (analyze_scores s Hscores Hcount). cbv zeta.
  destruct (brand_eqb _ UNKNOWN); [cbn; now split|].
  set (w := (selectWinningBrand _).1).
  unfold decodeSegmentsAndVote.
  match goal with
  | |- context [segmentLoop ?a ?b ?c ?d ?e] =>
      pose proof (segmentLoop_range a b c d e Hsegs) as Hrange;
      set (st := segmentLoop a b c d e) in *
  end.
  cbn [m_decodedSegmentCount m_decodedSegments m_finalResultCode
       m_codeResultIsReady m_brandScores set_analysis] in *.
  specialize (Hrange ltac:(apply List.Forall_nil)).
  destruct (0 <? decodedSegmentCount st)%nat; [|cbn; now split].
  match goal with
  | |- context [determineWinner ?a ?b ?c] =>
      destruct (determineWinner_member a b c) as [He | Hin];
      set (final := determineWinner a b c) in *
  end.
  - rewrite He. cbn. now split.
  - assert (Hf : fieldsInRange final).
    { rewrite Forall_forall in Hrange. now apply Hrange. }
    destruct (negb _ && negb _); exact Hf.
Qed.

Lemma step_range (s s' : State) :
  wellFormed s -> fieldsInRange (m_finalResultCode s) -> step s s' ->
  fieldsInRange (m_finalResultCode s').
Proof.
  intros Hwf Hr Hstep. destruct Hstep.
  - unfold begin, enable, disable, set_irPin.
    repeat match goal with
           | |- context [if ?b then _ else _] => destruct b
           end; cbn; assumption.
  - unfold enable. destruct (_ =? _); assumption.
  - unfold disable. destruct (_ || _); assumption.
  - destruct Hwf as (Hw1 & Hw2 & Hw3 & Hw4). unfold isCode.
    destruct (negb _); [destruct (m_codeResultIsReady s); assumption|].
    destruct (m_codeResultIsReady s); [assumption|].
    destruct (_ && _ && negb _).
    + pose proof (processRawTransitionsToPairs_length (m_pulseSpacePairs s)
                    (take (if (IR_LIB_MAX_TRANSITIONS <? m_rawTransitionIndex s)%nat
                           then IR_LIB_MAX_TRANSITIONS
                           else m_rawTransitionIndex s) (m_rawTransitions s))
                    (if (IR_LIB_MAX_TRANSITIONS <? m_rawTransitionIndex s)%nat
                     then IR_LIB_MAX_TRANSITIONS
                     else m_rawTransitionIndex s)) as Hpl.
      destruct (_processRawTransitionsToPairs _ _ _) as [pairs pairCount].
      cbn [fst] in Hpl.
      cbn [set_capture m_pulseSpacePairCount snd].
      destruct (0 <? pairCount)%nat; [|assumption].
      apply analyze_range. state_simpl. repeat split; congruence.
    + destruct (_ && _); assumption.
  - unfold getCode. destruct (m_codeResultIsReady s); assumption.
  - unfold handleIrInterrupt_priv. destruct (negb _ && _); assumption.
Qed.

Lemma reachable_range (s : State) :
  reachable s -> fieldsInRange (m_finalResultCode s).
Proof.
  induction 1 as [|s s' Hs IH Hstep]; [cbn; now split|].
  apply step_range with s; try assumption.
  apply inv_wellFormed, reachable_Inv, Hs.
Qed.

(** X23.  The fields of a reported frame fit their protocol.  Whenever the
    result-ready flag is set, the stored frame has a command between 0 and
    127 and an address between -1 and 31 for SONY, command and address
    between 0 and 255 for JVC, and a command between 0 and 255 with an
    address between 0 and 65535 for NEC; [getCode] returns that frame. *)
Theorem reported_fields_fit_the_protocol (s : State) :
  reachable s ->
  m_codeResultIsReady s = true ->
  (getCode s).1 = m_finalResultCode s
  /\ match brand (m_finalResultCode s) with
     | SONY => 0 <= command (m_finalResultCode s) <= 127
               /\ -1 <= address (m_finalResultCode s) <= 31
     | JVC => 0 <= command (m_finalResultCode s) <= 255
              /\ 0 <= address (m_finalResultCode s) <= 255
     | NEC => 0 <= command (m_finalResultCode s) <= 255
              /\ 0 <= address (m_finalResultCode s) <= 65535
     | UNKNOWN => False
     end.
Proof.
  intros Hs Hready. split; [unfold getCode; now rewrite Hready|].
  pose proof (reachable_range s Hs) as Hr.
  pose proof (inv_ready_valid _ (reachable_Inv s Hs) Hready) as Hv.
  apply isValidDecode_spec in Hv as [Hb Hc].
  unfold fieldsInRange in Hr.
  destruct (brand (m_finalResultCode s)); [contradiction | lia..].
Qed.

Lemma reported_fields_example :
  (getCode (run necSession new)).1 = m_finalResultCode (run necSession new)
  /\ 0 <= command (m_finalResultCode (run necSession new)) <= 255
  /\ 0 <= address (m_finalResultCode (run necSession new)) <= 65535.
Proof.
  destruct (reported_fields_fit_the_protocol (run necSession new)) as [H1 H2].
  - apply necSession_reachable.
  - vm_compute. reflexivity.
  - split; [exact H1|].
    replace (brand (m_finalResultCode (run necSession new))) with NEC in H2
      by (vm_compute; reflexivity).
    exact H2.
Defined.

(** ** A repeated SONY frame *)

Lemma index_in_frame (i : nat) :
  i = (13 * (i / 13) + i mod 13)%nat /\ (i mod 13 < 13)%nat.
Proof.
  split; [apply Nat.div_mod_eq | apply Nat.mod_upper_bound; lia].
Qed.

Lemma frame_of_index (i k : nat) : (i < 13 * k)%nat -> (i / 13 < k)%nat.
Proof. intros H. apply Nat.Div0.div_lt_upper_bound. lia. Qed.

(** The durations at the places of a repeated SONY frame. *)
Lemma sony_repeats_facts (pairs : list PulseSpacePair) (v : Z) (k : nat) :
  SonyRepeats pairs v k ->
  forall m : nat, (m < k)%nat ->
  (2200 <= pulse (pairs !!! (13 * m)%nat) <= 2600
   /\ 400 <= space (pairs !!! (13 * m)%nat) <= 800)
  /\ (forall r, (1 <= r <= 12)%nat ->
        400 <= pulse (pairs !!! (13 * m + r)%nat) <= 1400)
  /\ (forall r, (r <= 11)%nat ->
        space (pairs !!! (13 * m + r)%nat) = -1
        \/ 400 <= space (pairs !!! (13 * m + r)%nat) <= 800)
  /\ ((S m < k)%nat ->
        20000 <= space (pairs !!! (13 * m + 12)%nat) <= 30000).
Proof.
  intros [Hframes Hgaps] m Hm. destruct (Hframes m Hm) as [Hpp Hps Hmarks Hsp].
  unfold pulseCodes in Hmarks.
  unfold TIMING_TOLERANCE, SONY_PREAMBLE_PULSE, SONY_PREAMBLE_SPACE,
    SONY_BIT_SPACE, SONY_REPEAT_DELAY, SONY_ZERO_PULSE, SONY_ONE_PULSE in *.
  split; [lia|]. split; [|split].
  - intros r Hr. specialize (Hmarks (r - 1)%nat ltac:(lia)).
    replace (13 * m + 1 + (r - 1))%nat with (13 * m + r)%nat in Hmarks by lia.
    destruct (Z.testbit v (Z.of_nat (r - 1))); lia.
  - intros r Hr. destruct r as [|r].
    + rewrite Nat.add_0_r. right. lia.
    + specialize (Hsp r ltac:(lia)).
      replace (13 * m + 1 + r)%nat with (13 * m + S r)%nat in Hsp by lia.
      destruct Hsp; [now left | right; lia].
  - intros Hnext. specialize (Hgaps m Hnext). lia.
Qed.

Lemma sony_repeats_space (pairs : list PulseSpacePair) (v : Z) (k i : nat) :
  SonyRepeats pairs v k ->
  (i < 13 * k)%nat ->
  (i mod 13 <> 12)%nat ->
  shortSpace (space (pairs !!! i)).
Proof.
  intros Hrep Hi Hr.
  destruct (index_in_frame i) as [Hdiv Hmod].
  destruct (sony_repeats_facts pairs v k Hrep (i / 13) (frame_of_index i k Hi))
    as (_ & _ & Hsp & _).
  rewrite Hdiv. destruct (Hsp (i mod 13)%nat ltac:(lia)); [now left | right; lia].
Qed.

Lemma sony_repeats_preamble (pairs : list PulseSpacePair) (v : Z) (k m : nat)
    (isRepeat : bool) :
  SonyRepeats pairs v k ->
  (m < k)%nat ->
  matchPreamble (pulse (pairs !!! (13 * m)%nat))
                (space (pairs !!! (13 * m)%nat)) isRepeat = SONY.
Proof.
  intros Hrep Hm.
  destruct (sony_repeats_facts pairs v k Hrep m Hm) as (Hpre & _).
  destruct isRepeat.
  - now apply (proj1 (proj2 (matchPreamble_repeat_in _ _))).
  - now apply (proj1 (proj2 (matchPreamble_initial_in _ _))).
Qed.

Lemma sony_repeats_first_preamble (pairs : list PulseSpacePair) (v : Z)
    (k : nat) :
  SonyRepeats pairs v k ->
  (1 <= k)%nat ->
  matchPreamble (pulse (pairs !!! 0%nat)) (space (pairs !!! 0%nat)) false = SONY.
Proof.
  intros Hrep Hk.
  exact (sony_repeats_preamble pairs v k 0 false Hrep ltac:(lia)).
Qed.

Lemma sony_repeats_no_end (pairs : list PulseSpacePair) (v : Z) (k i : nat)
    (b : RemoteBrand) :
  SonyRepeats pairs v k ->
  (i < 13 * k)%nat ->
  (i mod 13 <> 12)%nat ->
  b <> UNKNOWN ->
  isRepeatGap (space (pairs !!! i)) (repeatDelay b) = false
  /\ Z.of_nat i <> Z.of_nat (13 * k) - 1.
Proof.
  intros Hrep Hi Hr Hb. split.
  - apply shortSpace_no_gap; [now apply (sony_repeats_space pairs v k)|].
    destruct b; [contradiction | | |]; vm_compute;
      (split; [reflexivity | discriminate]).
  - intros E. apply Hr.
    replace i with (12 + (k - 1) * 13)%nat by lia.
    now rewrite Nat.Div0.mod_add.
Qed.

Lemma scoreNEC_repeats_zero (pairs : list PulseSpacePair) (v : Z) (k : nat) :
  SonyRepeats pairs v k -> (1 <= k)%nat -> Z.of_nat (13 * k) <= INT_MAX ->
  scoreNEC pairs (13 * k) = 0.
Proof.
  intros Hrep Hk Hint. unfold INT_MAX in Hint.
  destruct (sony_repeats_facts pairs v k Hrep 0%nat ltac:(lia))
    as (Hpre & Hmarks & _).
  change (13 * 0)%nat with 0%nat in *. cbn [Nat.add] in Hmarks.
  replace (13 * k)%nat with (S (13 * k - 1)) by lia.
  apply scoreNEC_single_zero.
  - intros i Hi.
    destruct (Nat.eq_dec (i mod 13)%nat 12%nat) as [Hend | Hmid].
    + destruct (index_in_frame i) as [Hdiv _]. rewrite Hend in Hdiv.
      destruct (sony_repeats_facts pairs v k Hrep (i / 13)%nat)
        as (_ & _ & _ & Hgap); [apply frame_of_index; lia|].
      rewrite Hdiv. unfold isRepeatGap. apply andb_false_iff. right.
      apply isWithinTolerance_false.
      unfold NEC_REPEAT_DELAY. specialize (Hgap ltac:(lia)). lia.
    + apply (sony_repeats_no_end pairs v k i NEC); try assumption;
        [lia | discriminate].
  - rewrite (sony_repeats_first_preamble pairs v k Hrep Hk). discriminate.
  - unfold NEC_INITIAL_BITS, INT_MAX. lia.
  - exists 1%nat. unfold TIMING_TOLERANCE, INT_MAX.
    specialize (Hmarks 1%nat ltac:(lia)). lia.
Qed.

(** The first segment of a burst earns the SONY point for its preamble. *)
Lemma scoreSony_first_pos (pairs : list PulseSpacePair) (count e : nat) :
  (e < count)%nat ->
  (forall i, (i < e)%nat ->
     isRepeatGap (space (pairs !!! i)) SONY_REPEAT_DELAY = false
     /\ Z.of_nat i <> Z.of_nat count - 1) ->
  isRepeatGap (space (pairs !!! e)) SONY_REPEAT_DELAY = true
  \/ Z.of_nat e = Z.of_nat count - 1 ->
  matchPreamble (pulse (pairs !!! 0%nat)) (space (pairs !!! 0%nat)) false = SONY ->
  1 <= scoreSonySIRC12 pairs count.
Proof.
  intros He Hskip Hend Hpre. unfold scoreSonySIRC12.
  destruct (Nat.eqb_spec count 0); [lia|].
  replace count with (S e + (count - S e))%nat at 2 by lia.
  rewrite seq_app, fold_left_app, seq_S, fold_left_app. cbn [Nat.add fold_left].
  rewrite (fold_left_fixed (scoreSony_iter pairs count) (seq 0 e)).
  2: { intros i Hi. apply in_seq in Hi. unfold scoreSony_iter.
       destruct (Hskip i ltac:(lia)) as [-> Hne].
       apply Z.eqb_neq in Hne. now rewrite Hne. }
  match goal with
  | |- 1 <= score (fold_left ?f ?l ?st) =>
      apply Z.le_trans with (score st);
      [| apply fold_score_mono; apply scoreSony_iter_mono]
  end.
  unfold scoreSony_iter.
  assert (Hisend : isRepeatGap (space (pairs !!! e)) SONY_REPEAT_DELAY
                   || (Z.of_nat e =? Z.of_nat count - 1) = true).
  { destruct Hend as [-> | E]; [reflexivity|].
    apply Z.eqb_eq in E. rewrite E. apply orb_true_r. }
  rewrite Hisend.
  cbn [currentSegmentStartPairIndex segmentCount score].
  replace (Z.of_nat e - Z.of_nat 0 + 1) with (Z.of_nat (S e)) by lia.
  destruct (Z.gtb_spec (Z.of_nat (S e)) 0); [|lia].
  change (0 + 1 =? 1) with true. cbn [andb negb orb].
  rewrite Hpre. change (brand_eqb SONY SONY) with true.
  apply preamble_present in Hpre; [|discriminate].
  destruct (Z.eqb_spec (space (pairs !!! 0%nat)) (-1)); [lia|].
  cbn [negb]. cbv beta iota zeta.
  repeat match goal with
         | |- context [if ?c then _ else _] => destruct c
         end; cbn [score]; lia.
Qed.

Lemma scoreSony_repeats_pos (pairs : list PulseSpacePair) (v : Z) (k : nat) :
  SonyRepeats pairs v k -> (1 <= k)%nat -> 1 <= scoreSonySIRC12 pairs (13 * k).
Proof.
  intros Hrep Hk. apply scoreSony_first_pos with (e := 12%nat).
  - lia.
  - intros i Hi.
    apply (sony_repeats_no_end pairs v k i SONY); try assumption;
      [lia | | discriminate].
    rewrite Nat.mod_small by lia. lia.
  - destruct (Nat.eq_dec k 1%nat) as [-> | Hmore]; [now right|]. left.
    destruct (sony_repeats_facts pairs v k Hrep 0%nat ltac:(lia))
      as (_ & _ & _ & Hgap).
    specialize (Hgap ltac:(lia)). cbn [Nat.mul Nat.add] in Hgap.
    unfold isRepeatGap. apply andb_true_iff. split.
    + apply negb_true_iff, Z.eqb_neq. lia.
    + apply isWithinTolerance_true; unfold SONY_REPEAT_DELAY; lia.
  - now apply (sony_repeats_first_preamble pairs v k).
Qed.

Lemma fold_left_seq_inv {A : Type} (P : nat -> A -> Prop) (f : A -> nat -> A)
    (n : nat) :
  forall (a : nat) (st : A),
  P a st ->
  (forall i st', (a <= i < a + n)%nat -> P i st' -> P (S i) (f st' i)) ->
  P (a + n)%nat (fold_left f (seq a n) st).
Proof.
  induction n as [|n IH]; intros a st Hst Hstep.
  - now rewrite Nat.add_0_r.
  - cbn [seq fold_left]. replace (a + S n)%nat with (S a + n)%nat by lia.
    apply IH.
    + apply Hstep; [lia | assumption].
    + intros i st' Hi. apply Hstep. lia.
Qed.

Lemma marksFixed_false_from (pairs : list PulseSpacePair) (a e j : nat) :
  (a <= j <= e)%nat ->
  pulse (pairs !!! j) <> -1 ->
  TIMING_TOLERANCE
  < Z.abs (pulse (pairs !!! j) - pulse (pairs !!! a)) <= INT_MAX ->
  forallb (fun j0 => (pulse (pairs !!! j0) =? -1)
                     || isWithinTolerance (pulse (pairs !!! j0))
                                          (pulse (pairs !!! a))
                                          TIMING_TOLERANCE)
          (fromTo a e) = false.
Proof.
  intros Hj Hp Hd. apply forallb_false_at with j.
  - apply in_fromTo. lia.
  - apply orb_false_iff. split; [now apply Z.eqb_neq|].
    apply isWithinTolerance_false. unfold INT_MAX in Hd. lia.
Qed.

Lemma scoreJVC_iter_repeats (pairs : list PulseSpacePair) (v : Z) (k : nat)
    (st : ScoreState) (i : nat) :
  SonyRepeats pairs v k ->
  Z.of_nat (13 * k) <= INT_MAX ->
  (i < 13 * k)%nat ->
  NoJvcPoints i st ->
  NoJvcPoints (S i) (scoreJVC_iter pairs (13 * k) st i).
Proof.
  intros Hrep Hint Hi [Hscore (m & Hstart & Hm) Hcnt]. unfold INT_MAX in Hint.
  assert (Hkeep : NoJvcPoints (S i) st).
  { split; [assumption | exists m; split; [assumption | lia] | assumption]. }
  unfold scoreJVC_iter.
  destruct (isRepeatGap (space (pairs !!! i)) JVC_REPEAT_DELAY
            || (Z.of_nat i =? Z.of_nat (13 * k) - 1)) eqn:Hend;
    [|assumption].
  assert (Hmod : (i mod 13 = 12)%nat).
  { destruct (Nat.eq_dec (i mod 13)%nat 12%nat) as [E | Hmid]; [assumption|].
    destruct (sony_repeats_no_end pairs v k i JVC Hrep Hi Hmid ltac:(discriminate))
      as [Hgap Hne].
    cbn [repeatDelay] in Hgap. apply Z.eqb_neq in Hne.
    rewrite Hgap, Hne in Hend. discriminate. }
  destruct (index_in_frame i) as [Hdiv _]. rewrite Hmod in Hdiv.
  set (j := (i / 13)%nat) in *.
  assert (Hmk : (m < k)%nat) by lia.
  assert (Hmj : (m <= j)%nat) by lia.
  destruct (sony_repeats_facts pairs v k Hrep m Hmk) as (Hpre & Hmarks & _).
  pose proof (sony_repeats_preamble pairs v k m false Hrep Hmk) as Hmatch.
  rewrite Hstart.
  set (q := Z.of_nat i - Z.of_nat (13 * m) + 1).
  assert (Hq : q = 13 * (Z.of_nat j - Z.of_nat m + 1)) by (subst q; lia).
  destruct (Z.gtb_spec q 0); [|lia].
  rewrite Hmatch. change (brand_eqb SONY JVC) with false.
  assert (H16 : isWithinTolerance q (JVC_INITIAL_BITS - 1) 2 = false).
  { apply isWithinTolerance_false. unfold JVC_INITIAL_BITS. lia. }
  assert (H17 : isWithinTolerance q JVC_INITIAL_BITS 2 = false).
  { apply isWithinTolerance_false. unfold JVC_INITIAL_BITS. lia. }
  assert (Hfixed :
    forallb (fun j0 => (pulse (pairs !!! j0) =? -1)
                       || isWithinTolerance (pulse (pairs !!! j0))
                                            (pulse (pairs !!! (13 * m)%nat))
                                            TIMING_TOLERANCE)
            (fromTo (13 * m) i) = false).
  { apply marksFixed_false_from with (13 * m + 1)%nat.
    - lia.
    - specialize (Hmarks 1%nat ltac:(lia)). lia.
    - specialize (Hmarks 1%nat ltac:(lia)). unfold TIMING_TOLERANCE, INT_MAX.
      lia. }
  assert (Hq1 : (q >? 1) = true) by (apply Z.gtb_lt; lia).
  destruct (segmentCount st + 1 =? 1) eqn:Hinit; cbn [andb negb].
  - destruct (negb (pulse (pairs !!! (13 * m)%nat) =? -1)
              && negb (space (pairs !!! (13 * m)%nat) =? -1));
      cbv beta iota zeta; fold q; rewrite H16, Hq1, Hfixed; cbn [andb];
      (split; cbn [score currentSegmentStartPairIndex segmentCount];
       [assumption | exists (S j); split; lia | lia]).
  - cbv beta iota zeta. fold q. rewrite H17. cbv beta iota zeta.
    rewrite Hq1, Hfixed. cbn [andb].
    split; cbn [score currentSegmentStartPairIndex segmentCount];
      [assumption | exists (S j); split; lia | lia].
Qed.

Lemma scoreJVC_repeats_zero (pairs : list PulseSpacePair) (v : Z) (k : nat) :
  SonyRepeats pairs v k -> (1 <= k)%nat -> Z.of_nat (13 * k) <= INT_MAX ->
  scoreJVC pairs (13 * k) = 0.
Proof.
  intros Hrep Hk Hint. unfold scoreJVC.
  destruct (Nat.eqb_spec (13 * k) 0); [lia|].
  apply (nj_score (0 + 13 * k)).
  apply fold_left_seq_inv.
  - split; cbn; [reflexivity | exists 0%nat; split; lia | lia].
  - intros i st' Hi Hinv. now apply (scoreJVC_iter_repeats pairs v k).
Qed.

Lemma next_index_same_frame (i : nat) :
  (i mod 13 <> 12)%nat -> (S i / 13 = i / 13)%nat.
Proof.
  intros Hr. destruct (index_in_frame i) as [Hdiv Hmod].
  symmetry. apply (Nat.div_unique (S i) 13 (i / 13) (S (i mod 13))); lia.
Qed.

Lemma next_index_next_frame (i : nat) :
  (i mod 13 = 12)%nat -> (S i / 13 = S (i / 13))%nat.
Proof.
  intros Hr. destruct (index_in_frame i) as [Hdiv Hmod].
  symmetry. apply (Nat.div_unique (S i) 13 (S (i / 13)) 0); lia.
Qed.

(** The data pairs of frame [m] of a repeated SONY frame decode to the
    frame that was sent. *)
Lemma sony_repeats_decode (pairs : list PulseSpacePair) (c a : Z) (k m : nat) :
  SonyRepeats pairs (c + 128 * a) k ->
  0 <= c < 128 -> 0 <= a < 32 ->
  (13 * k <= length pairs)%nat ->
  (m < k)%nat ->
  decodeWinningSegment SONY (take 12 (drop (13 * m + 1) pairs))
  = {| brand := SONY; command := c; address := a |}.
Proof.
  intros Hrep Hc Ha Hlen Hm.
  rewrite <- (app_nil_r (take 12 _)).
  apply sony_round_trip_aux; try assumption.
  destruct (sr_frames _ _ _ Hrep m Hm) as [_ _ Hmarks _].
  apply Forall2_same_length_lookup_2.
  - rewrite length_take, length_drop. unfold bitsFrom.
    rewrite length_map, length_seq. lia.
  - intros r p b Hp Hb.
    apply lookup_take_Some in Hp as [Hp Hr].
    rewrite lookup_drop in Hp.
    unfold bitsFrom in Hb. rewrite list_lookup_fmap in Hb.
    rewrite lookup_seq_lt in Hb by assumption. cbn in Hb.
    injection Hb as <-.
    specialize (Hmarks r Hr).
    now rewrite (list_lookup_total_correct _ _ _ Hp) in Hmarks.
Qed.

Lemma segment_iter_repeats (pairs : list PulseSpacePair) (c a : Z) (k : nat)
    (st : SegmentState) (i : nat) :
  SonyRepeats pairs (c + 128 * a) k ->
  0 <= c < 128 -> 0 <= a < 32 ->
  (13 * k <= length pairs)%nat ->
  (i < 13 * k)%nat ->
  (decodedSegmentCount st < IR_LIB_MAX_DECODED_SEGMENTS)%nat ->
  SegmentsAt {| brand := SONY; command := c; address := a |} k i st ->
  SegmentsAt {| brand := SONY; command := c; address := a |} k (S i)
             (segment_iter SONY pairs (13 * k) st i).
Proof.
  intros Hrep Hc Ha Hlen Hi Hroom [Hstart Hdata Hall Hsegs Hchecks Hcount Hsome].
  specialize (Hdata Hi).
  destruct (Nat.eq_dec (i mod 13)%nat 12%nat) as [Hmod | Hmid].
  - (* the last pair of a frame *)
    destruct (index_in_frame i) as [Hdiv _]. rewrite Hmod in Hdiv.
    set (m := (i / 13)%nat) in *.
    assert (Hm : (m < k)%nat) by lia.
    unfold segment_iter.
    change (brand_eqb SONY SONY) with true. change (brand_eqb SONY NEC) with false.
    cbv iota.
    assert (Hend : (if (SONY_REPEAT_DELAY >? 0)
                       && negb (space (pairs !!! i) =? -1)
                       && isWithinTolerance (space (pairs !!! i))
                                            SONY_REPEAT_DELAY 5000
                    then true
                    else if Z.of_nat i =? Z.of_nat (13 * k) - 1 then true
                    else false) = true).
    { destruct (Nat.eq_dec (S m) k) as [Hlast | Hmore].
      - replace (Z.of_nat i =? Z.of_nat (13 * k) - 1) with true
          by (symmetry; apply Z.eqb_eq; lia).
        now destruct (_ && _ && _).
      - destruct (sony_repeats_facts pairs _ k Hrep m Hm) as (_ & _ & _ & Hgap).
        specialize (Hgap ltac:(lia)). rewrite <- Hdiv in Hgap.
        replace (negb (space (pairs !!! i) =? -1)) with true
          by (symmetry; apply negb_true_iff, Z.eqb_neq; lia).
        replace (isWithinTolerance (space (pairs !!! i)) SONY_REPEAT_DELAY 5000)
          with true
          by (symmetry; apply isWithinTolerance_true;
              unfold SONY_REPEAT_DELAY; lia).
        reflexivity. }
    rewrite Hend, Hstart, Hdata.
    replace (Z.of_nat i - Z.of_nat (13 * m + 1) + 1) with 12 by lia.
    change (12 >? 0) with true. cbv iota. change (Z.to_nat 12) with 12%nat.
    rewrite (sony_repeats_decode pairs c a k m) by assumption.
    rewrite list_lookup_total_insert_eq by lia.
    cbn [brand brand_eqb brandIndex Nat.eqb negb]. cbv beta iota zeta.
    split; cbn [segmentStart dataStartForCurrentSegment decodedSegments
                segmentChecksums decodedSegmentCount].
    + rewrite next_index_next_frame by assumption. fold m. lia.
    + intros Hnext.
      destruct (Nat.ltb_spec (S i) (13 * k)); [|lia].
      destruct (sony_repeats_facts pairs _ k Hrep (S m) ltac:(lia))
        as (Hpre & _).
      pose proof (sony_repeats_preamble pairs _ k (S m) true Hrep ltac:(lia))
        as Hmatch.
      replace (13 * S m)%nat with (S i) in Hpre, Hmatch by lia.
      rewrite Hmatch.
      destruct (Z.eqb_spec (pulse (pairs !!! S i)) (-1)); [lia|].
      destruct (Z.eqb_spec (space (pairs !!! S i)) (-1)); [lia|].
      reflexivity.
    + rewrite take_insert_snoc by lia.
      apply Forall_app. split; [assumption|].
      apply List.Forall_cons; [reflexivity | apply List.Forall_nil].
    + now rewrite length_insert.
    + assumption.
    + lia.
    + intros _. lia.
  - (* inside a frame *)
    destruct (sony_repeats_no_end pairs _ k i SONY Hrep Hi Hmid
                ltac:(discriminate)) as [Hgap Hne].
    rewrite segment_iter_skip by assumption.
    split; try assumption.
    + now rewrite next_index_same_frame.
    + intros _. assumption.
    + intros Hge. apply Hsome.
      destruct (Nat.eq_dec i 12%nat) as [-> | Hne12]; [|lia].
      exfalso. apply Hmid. reflexivity.
Qed.

Lemma segmentLoop_repeats (pairs : list PulseSpacePair) (c a : Z) (k : nat) :
  SonyRepeats pairs (c + 128 * a) k ->
  0 <= c < 128 -> 0 <= a < 32 ->
  (13 * k <= length pairs)%nat ->
  (1 <= k)%nat ->
  forall (n i : nat) (st : SegmentState),
  (i + n = 13 * k)%nat ->
  SegmentsAt {| brand := SONY; command := c; address := a |} k i st ->
  let st' := segmentLoop SONY pairs (13 * k) (seq i n) st in
  (1 <= decodedSegmentCount st' <= IR_LIB_MAX_DECODED_SEGMENTS)%nat
  /\ Forall (fun x => x = {| brand := SONY; command := c; address := a |})
            (take (decodedSegmentCount st') (decodedSegments st'))
  /\ length (decodedSegments st') = IR_LIB_MAX_DECODED_SEGMENTS
  /\ segmentChecksums st' = replicate IR_LIB_MAX_DECODED_SEGMENTS false.
Proof.
  intros Hrep Hc Ha Hlen Hk.
  induction n as [|n IH]; intros i st Hin Hinv; cbn [seq segmentLoop].
  - destruct Hinv as [_ _ Hall Hsegs Hchecks Hcount Hsome].
    split; [|repeat split; assumption].
    split; [apply Hsome; lia | assumption].
  - destruct (Nat.ltb_spec (decodedSegmentCount st) IR_LIB_MAX_DECODED_SEGMENTS)
      as [Hroom | Hfull].
    + apply IH; [lia|].
      apply segment_iter_repeats; try assumption. lia.
    + destruct Hinv as [_ _ Hall Hsegs Hchecks Hcount Hsome].
      repeat split; try assumption.
      unfold IR_LIB_MAX_DECODED_SEGMENTS in *. lia.
Qed.

Lemma countSegment_same (d : DecodedIR) (chk : bool) (n : Z) :
  isValidDecode d = true ->
  brand d <> NEC ->
  countSegment [ {| data := d; count := n; checksumValidForNEC := false |} ]
               (d, chk)
  = [ {| data := d; count := n + 1; checksumValidForNEC := false |} ].
Proof.
  intros Hv Hb. cbn [countSegment]. rewrite Hv.
  cbn [incrementMatching]. unfold segmentMatches. cbn [data checksumValidForNEC].
  rewrite brand_eqb_refl, !Z.eqb_refl. cbn [andb].
  replace (brand_eqb (brand d) NEC) with false
    by (symmetry; apply not_true_iff_false; now rewrite brand_eqb_eq).
  reflexivity.
Qed.

Lemma fold_countSegment_same (d : DecodedIR) (l : list (DecodedIR * bool)) :
  isValidDecode d = true ->
  brand d <> NEC ->
  Forall (fun x => x.1 = d) l ->
  forall n : Z,
  fold_left countSegment l
            [ {| data := d; count := n; checksumValidForNEC := false |} ]
  = [ {| data := d; count := n + Z.of_nat (length l);
         checksumValidForNEC := false |} ].
Proof.
  intros Hv Hb. induction l as [|[x chk] l IH]; intros Hall n.
  - cbn. now rewrite Z.add_0_r.
  - apply List.Forall_cons_iff in Hall as [Hx Hl]. cbn in Hx. subst x.
    cbn [fold_left]. rewrite countSegment_same by assumption.
    rewrite IH by assumption. cbn [length]. do 2 f_equal. lia.
Qed.

(** Segments that all decoded to the same frame vote for it. *)
Lemma determineWinner_unanimous (d : DecodedIR) (segments : list DecodedIR)
    (n : nat) (segmentChecksums : list bool) :
  isValidDecode d = true ->
  brand d <> NEC ->
  (1 <= n)%nat ->
  (n <= length segments)%nat ->
  (n <= length segmentChecksums)%nat ->
  Forall (fun x => x = d) (take n segments) ->
  determineWinner segments n segmentChecksums = d.
Proof.
  intros Hv Hb Hn Hsegs Hchecks Hall. unfold determineWinner.
  destruct (Nat.eqb_spec n 0); [lia|]. unfold groupSegments.
  set (l := zip (take n segments) (take n segmentChecksums)).
  assert (Hl : Forall (fun x => x.1 = d) l).
  { apply Forall_forall. intros [x chk] Hx. subst l.
    apply elem_of_zip_l in Hx. rewrite Forall_forall in Hall.
    now apply Hall. }
  assert (Hlen : length l = n).
  { subst l. rewrite length_zip, !length_take. lia. }
  destruct l as [|[x chk] l']; [cbn in Hlen; lia|].
  apply List.Forall_cons_iff in Hl as [Hx Hl']. cbn in Hx. subst x.
  cbn [fold_left countSegment]. rewrite Hv.
  cbn [incrementMatching length Nat.ltb Nat.leb app].
  change (0 <? IR_LIB_MAX_DECODED_SEGMENTS)%nat with true. cbv iota.
  replace (brand_eqb (brand d) NEC) with false
    by (symmetry; apply not_true_iff_false; now rewrite brand_eqb_eq).
  cbv iota. cbn [app]. unfold IR_LIB_MAX_DECODED_SEGMENTS. cbv iota.
  rewrite fold_countSegment_same by assumption.
  cbn [maxLoop count].
  destruct (Z.gtb_spec (1 + Z.of_nat (length l')) 0); [|lia].
  cbn [maxLoop]. reflexivity.
Qed.

Lemma sony_repeats_full (s : State) (c a : Z) (k : nat) :
  wellFormed s ->
  (1 <= k)%nat ->
  m_pulseSpacePairCount s = (13 * k)%nat ->
  (13 * k <= IR_LIB_MAX_TRANSITIONS / 2)%nat ->
  0 <= c < 128 -> 0 <= a < 32 ->
  SonyRepeats (m_pulseSpacePairs s) (c + 128 * a) k ->
  let s' := _analyzeAndDecodeBurst s in
  m_codeResultIsReady s' = true
  /\ m_finalResultCode s' = {| brand := SONY; command := c; address := a |}
  /\ 0 < m_brandScores s' !!! brandIndex SONY
  /\ m_brandScores s' !!! brandIndex JVC = 0
  /\ m_brandScores s' !!! brandIndex NEC = 0
  /\ (1 <= m_decodedSegmentCount s' <= IR_LIB_MAX_DECODED_SEGMENTS)%nat
  /\ Forall (fun x => x = {| brand := SONY; command := c; address := a |})
            (take (m_decodedSegmentCount s') (m_decodedSegments s')).
Proof.
  intros (_ & Hpairs & Hscores & Hsegs) Hk Hcount Hfit Hc Ha Hrep. cbv zeta.
  set (d := {| brand := SONY; command := c; address := a |}).
  assert (Hvalid : isValidDecode d = true).
  { apply isValidDecode_spec. cbn. split; [discriminate | lia]. }
  rewrite (analyze_brandScores s Hscores) by (rewrite Hcount; lia).
  rewrite (analyze_scores s Hscores) by (rewrite Hcount; lia).
  cbv zeta. rewrite Hcount.
  set (pairs := m_pulseSpacePairs s) in *.
  assert (Hint : Z.of_nat (13 * k) <= INT_MAX).
  { change (IR_LIB_MAX_TRANSITIONS / 2)%nat with 150%nat in Hfit.
    unfold INT_MAX. lia. }
  pose proof (scoreSony_repeats_pos pairs _ k Hrep Hk) as Hpos.
  pose proof (scoreJVC_repeats_zero pairs _ k Hrep Hk Hint) as HzJ.
  pose proof (scoreNEC_repeats_zero pairs _ k Hrep Hk Hint) as HzN.
  assert (Hwin : (selectWinningBrand
                    [0; scoreJVC pairs (13 * k); scoreSonySIRC12 pairs (13 * k);
                     scoreNEC pairs (13 * k)]).1 = SONY).
  { destruct (selectWinningBrand_cases 0 (scoreJVC pairs (13 * k))
                (scoreSonySIRC12 pairs (13 * k)) (scoreNEC pairs (13 * k)))
      as (_ & _ & HS & _).
    apply HS; rewrite ?HzJ, ?HzN; lia. }
  cbn [brandIndex lookup_total list_lookup_total].
  rewrite Hwin. change (brand_eqb SONY UNKNOWN) with false. cbv iota.
  unfold decodeSegmentsAndVote.
  cbn [set_analysis m_pulseSpacePairs m_pulseSpacePairCount m_decodedSegments
       m_decodedSegmentCount m_finalResultCode m_codeResultIsReady
       m_brandScores].
  fold pairs. rewrite Hcount.
  pose proof (sony_repeats_first_preamble pairs _ k Hrep Hk) as Hpre.
  destruct (preamble_present _ _ SONY ltac:(discriminate) Hpre) as [Hp Hsp].
  apply Z.eqb_neq in Hp, Hsp. rewrite Hp, Hsp, Hpre.
  destruct (Nat.ltb_spec 0 (13 * k)); [|lia].
  change (brand_eqb SONY UNKNOWN) with false.
  change (brand_eqb SONY SONY) with true. cbn [andb negb].
  match goal with
  | |- context [segmentLoop SONY pairs (13 * k) (seq 0 (13 * k)) ?st0] =>
      destruct (segmentLoop_repeats pairs c a k Hrep Hc Ha
                  ltac:(rewrite Hpairs; exact Hfit) Hk (13 * k)%nat 0%nat st0)
        as (Hcnt & Hall & Hlen & Hchecks);
      [ lia
      | split; cbn [segmentStart dataStartForCurrentSegment decodedSegments
                    segmentChecksums decodedSegmentCount take];
        [ reflexivity | reflexivity | apply List.Forall_nil | assumption
        | reflexivity | unfold IR_LIB_MAX_DECODED_SEGMENTS; lia | lia ]
      | ];
      set (st := segmentLoop SONY pairs (13 * k) (seq 0 (13 * k)) st0) in *
  end.
  cbv zeta in Hcnt, Hall, Hlen, Hchecks.
  destruct (Nat.ltb_spec 0 (decodedSegmentCount st)); [|lia].
  rewrite (determineWinner_unanimous d);
    [ | assumption | discriminate | lia | lia
      | rewrite Hchecks, length_replicate; lia | assumption ].
  fold d. unfold isValidDecode in Hvalid. rewrite Hvalid.
  cbn [set_analysis m_decodedSegmentCount m_decodedSegments m_finalResultCode
       m_codeResultIsReady m_brandScores].
  repeat split; try assumption; lia.
Qed.

Lemma sony_repeats_aux (s : State) (c a : Z) (k : nat) :
  wellFormed s ->
  (1 <= k)%nat ->
  m_pulseSpacePairCount s = (13 * k)%nat ->
  (13 * k <= IR_LIB_MAX_TRANSITIONS / 2)%nat ->
  0 <= c < 128 -> 0 <= a < 32 ->
  SonyRepeats (m_pulseSpacePairs s) (c + 128 * a) k ->
  m_codeResultIsReady (_analyzeAndDecodeBurst s) = true
  /\ m_finalResultCode (_analyzeAndDecodeBurst s)
     = {| brand := SONY; command := c; address := a |}.
Proof.
  intros Hwf Hk Hcount Hfit Hc Ha Hrep.
  destruct (sony_repeats_full s c a k) as (H1 & H2 & _); try assumption.
  now split.
Qed.

(** X24.  A repeated SONY frame is reported once.  When the pair buffer holds the
    same SONY frame [k] times (every preamble and mark within
    TIMING_TOLERANCE of the nominal timing, a repeat gap after each frame
    but the last), the analysis sets the result-ready flag over the command
    and address that were sent.  It leaves a positive score for SONY and a
    score of 0 for JVC and for NEC, and between one and ten decoded
    segments, every one of them the frame that was sent. *)
Theorem sony_repeats_are_reported (s : State) (c a : Z) (k : nat) :
  wellFormed s ->
  (1 <= k)%nat ->
  m_pulseSpacePairCount s = (13 * k)%nat ->
  (13 * k <= IR_LIB_MAX_TRANSITIONS / 2)%nat ->
  0 <= c < 128 -> 0 <= a < 32 ->
  SonyRepeats (m_pulseSpacePairs s) (c + 128 * a) k ->
  let s' := _analyzeAndDecodeBurst s in
  m_codeResultIsReady s' = true
  /\ m_finalResultCode s' = {| brand := SONY; command := c; address := a |}
  /\ 0 < m_brandScores s' !!! brandIndex SONY
  /\ m_brandScores s' !!! brandIndex JVC = 0
  /\ m_brandScores s' !!! brandIndex NEC = 0
  /\ (1 <= m_decodedSegmentCount s' <= IR_LIB_MAX_DECODED_SEGMENTS)%nat
  /\ Forall (fun x => x = {| brand := SONY; command := c; address := a |})
            (take (m_decodedSegmentCount s') (m_decodedSegments s')).
Proof. apply sony_repeats_full. Qed.

Lemma twoFrames_reachable : reachable (run twoFrames new).
Proof.
  apply reachable_run; [apply reachable_new | vm_compute; reflexivity].
Qed.

Lemma sony_repeats_example :
  let s' := _analyzeAndDecodeBurst (run twoFrames new) in
  m_codeResultIsReady s' = true
  /\ m_finalResultCode s' = {| brand := SONY; command := 21; address := 1 |}
  /\ 0 < m_brandScores s' !!! brandIndex SONY
  /\ m_brandScores s' !!! brandIndex JVC = 0
  /\ m_brandScores s' !!! brandIndex NEC = 0
  /\ (1 <= m_decodedSegmentCount s' <= IR_LIB_MAX_DECODED_SEGMENTS)%nat
  /\ Forall (fun x => x = {| brand := SONY; command := 21; address := 1 |})
            (take (m_decodedSegmentCount s') (m_decodedSegments s')).
Proof.
  apply (sony_repeats_are_reported (run twoFrames new) 21 1 2).
  - apply inv_wellFormed, reachable_Inv, twoFrames_reachable.
  - lia.
  - vm_compute. reflexivity.
  - vm_compute. lia.
  - lia.
  - lia.
  - split.
    + intros m Hm.
      do 2 (destruct m as [|m];
            [ split;
              [ vm_compute; discriminate
              | vm_compute; discriminate
              | intros r Hr;
                do 12 (destruct r as [|r]; [vm_compute; discriminate|]); lia
              | intros r Hr; right;
                do 11 (destruct r as [|r]; [vm_compute; discriminate|]); lia ]
            | ]).
      lia.
    + intros m Hm. destruct m as [|m]; [vm_compute; discriminate | lia].
Defined.

Lemma SonyRepeats_ext (p1 p2 : list PulseSpacePair) (v : Z) (k : nat) :
  (forall i, (i < 13 * k)%nat -> p2 !!! i = p1 !!! i) ->
  SonyRepeats p1 v k -> SonyRepeats p2 v k.
Proof.
  intros Hext [Hframes Hgaps]. split.
  - intros m Hm. destruct (Hframes m Hm) as [H1 H2 H3 H4].
    split.
    + now rewrite Hext by lia.
    + now rewrite Hext by lia.
    + intros r Hr. rewrite Hext by lia. now apply H3.
    + intros r Hr. rewrite Hext by lia. now apply H4.
  - intros m Hm. rewrite Hext by lia. now apply Hgaps.
Qed.

Lemma sony_held_aux (s : State) (stamps : list (Z * Z))
    (fullPairs : list PulseSpacePair) (lastPulse c a t : Z) (k : nat)
    (hw : Hardware) :
  Armed s ->
  wellFormed s ->
  (1 <= k)%nat ->
  (13 * k <= IR_LIB_MAX_TRANSITIONS / 2)%nat ->
  S (length fullPairs) = (13 * k)%nat ->
  0 <= c < 128 -> 0 <= a < 32 ->
  SonyRepeats (fullPairs ++ [ {| pulse := lastPulse; space := -1 |} ])
              (c + 128 * a) k ->
  Forall (fun p => 0 <= space p) fullPairs ->
  Forall2 (fun st T => microsAt st.2 T) stamps
          (burstTimes t fullPairs lastPulse) ->
  (forall st, last stamps = Some st ->
     IR_LIB_IDLE_TIMEOUT_MS < millis hw - st.1 < 2 ^ 32) ->
  let s1 := run (burstCalls LOW stamps) s in
  feasible (burstCalls LOW stamps) s = true
  /\ (isCode hw s1).1 = true
  /\ (getCode (isCode hw s1).2).1
     = {| brand := SONY; command := c; address := a |}
  /\ (getCode (getCode (isCode hw s1).2).2).1 = DecodedIR_empty.
Proof.
  intros Harmed Hwf Hk Hfit Hlen Hc Ha Hrep Hspaces Hstamps Hidle.
  set (frame := fullPairs ++ [ {| pulse := lastPulse; space := -1 |} ]) in *.
  assert (Hflen : length frame = (13 * k)%nat).
  { subst frame. rewrite length_app. cbn. lia. }
  (* the durations of the burst *)
  assert (Hdur : forall i, (i < 13 * k)%nat ->
            400 <= pulse (frame !!! i) <= 2600
            /\ space (frame !!! i) <= 30000).
  { intros i Hi. destruct (index_in_frame i) as [Hdiv Hmod].
    destruct (sony_repeats_facts frame _ k Hrep (i / 13)%nat
                (frame_of_index i k Hi)) as ((Hpp & Hps) & Hmarks & Hsp & Hgap).
    rewrite Hdiv.
    destruct (Nat.eq_dec (i mod 13)%nat 0%nat) as [E0 | Hne0].
    { rewrite E0, Nat.add_0_r. lia. }
    specialize (Hmarks (i mod 13)%nat ltac:(lia)).
    destruct (Nat.eq_dec (i mod 13)%nat 12%nat) as [E12 | Hne12].
    - rewrite E12 in *.
      destruct (Nat.eq_dec (S (i / 13)) k) as [Hlast | Hmore].
      + split; [lia|].
        replace (13 * (i / 13) + 12)%nat with (length fullPairs) by lia.
        subst frame. rewrite list_lookup_total_middle by reflexivity.
        cbn. lia.
      + specialize (Hgap ltac:(lia)). lia.
    - destruct (Hsp (i mod 13)%nat ltac:(lia)); lia. }
  apply burst_result with (fullPairs := fullPairs) (lastPulse := lastPulse)
                          (t := t); try assumption.
  - lia.
  - apply Forall_forall. intros p Hp.
    apply list_elem_of_lookup_1 in Hp as [i Hi].
    pose proof (lookup_lt_Some _ _ _ Hi) as Hlt.
    destruct (Hdur i ltac:(lia)) as [H1 H2].
    assert (Hfi : frame !!! i = p).
    { subst frame. rewrite lookup_total_app_l by assumption.
      now apply list_lookup_total_correct. }
    rewrite Hfi in H1, H2.
    rewrite Forall_forall in Hspaces.
    specialize (Hspaces p (list_elem_of_lookup_2 _ _ _ Hi)). lia.
  - destruct (Hdur (length fullPairs) ltac:(lia)) as [H1 _].
    subst frame. rewrite list_lookup_total_middle in H1 by reflexivity.
    cbn in H1. lia.
  - intros s0 Hwf0 Hcount0 Htake0. rewrite Hlen in Hcount0, Htake0.
    apply (sony_repeats_aux s0 c a k); try assumption.
    apply (SonyRepeats_ext frame); [|assumption].
    intros i Hi. unfold frame. rewrite <- Htake0. symmetry.
    now apply lookup_total_take_lt.
Qed.

(** X25.  A held SONY button, from the edges on the pin to [getCode].  The
    receiver is armed; the edges of [k] copies of one SONY frame arrive in
    one burst (at most 150 pairs, every preamble and mark within
    TIMING_TOLERANCE, a repeat gap between two frames); [isCode] is polled
    more than the idle timeout after the last edge.  Then that poll returns
    true, [getCode] returns the SONY frame once, with the command and
    address that were sent, and a second [getCode] returns the empty
    value. *)
Theorem sony_held_button_is_received (s : State) (stamps : list (Z * Z))
    (fullPairs : list PulseSpacePair) (lastPulse c a t : Z) (k : nat)
    (hw : Hardware) :
  Armed s ->
  wellFormed s ->
  (1 <= k)%nat ->
  (13 * k <= IR_LIB_MAX_TRANSITIONS / 2)%nat ->
  S (length fullPairs) = (13 * k)%nat ->
  0 <= c < 128 -> 0 <= a < 32 ->
  SonyRepeats (fullPairs ++ [ {| pulse := lastPulse; space := -1 |} ])
              (c + 128 * a) k ->
  Forall (fun p => 0 <= space p) fullPairs ->
  Forall2 (fun st T => microsAt st.2 T) stamps
          (burstTimes t fullPairs lastPulse) ->
  (forall st, last stamps = Some st ->
     IR_LIB_IDLE_TIMEOUT_MS < millis hw - st.1 < 2 ^ 32) ->
  let s1 := run (burstCalls LOW stamps) s in
  feasible (burstCalls LOW stamps) s = true
  /\ (isCode hw s1).1 = true
  /\ (getCode (isCode hw s1).2).1
     = {| brand := SONY; command := c; address := a |}
  /\ (getCode (getCode (isCode hw s1).2).2).1 = DecodedIR_empty.
Proof. apply sony_held_aux. Qed.

Lemma sony_held_button_example :
  let s1 := run (pressCalls (sonyHeldTwice (21 + 128 * 1)) 600) armedOnPin2 in
  (isCode (hwAt 1000 0 HIGH) s1).1 = true
  /\ (getCode (isCode (hwAt 1000 0 HIGH) s1).2).1
     = {| brand := SONY; command := 21; address := 1 |}
  /\ (getCode (getCode (isCode (hwAt 1000 0 HIGH) s1).2).2).1 = DecodedIR_empty.
Proof.
  destruct (sony_held_button_is_received armedOnPin2
              (stampsAt (burstTimes 5000 (sonyHeldTwice (21 + 128 * 1)) 600))
              (sonyHeldTwice (21 + 128 * 1)) 600 21 1 5000 2
              (hwAt 1000 0 HIGH))
    as (_ & H1 & H2 & H3).
  - apply armedOnPin2_armed.
  - apply armedOnPin2_armed.
  - lia.
  - vm_compute. lia.
  - reflexivity.
  - lia.
  - lia.
  - split.
    + intros m Hm.
      do 2 (destruct m as [|m];
            [ split;
              [ vm_compute; discriminate
              | vm_compute; discriminate
              | intros r Hr;
                do 12 (destruct r as [|r]; [vm_compute; discriminate|]); lia
              | intros r Hr; right;
                do 11 (destruct r as [|r]; [vm_compute; discriminate|]); lia ]
            | ]).
      lia.
    + intros m Hm. destruct m as [|m]; [vm_compute; discriminate | lia].
  - apply Forall_forall. intros p Hp. apply list_elem_of_In in Hp.
    vm_compute in Hp.
    repeat (destruct Hp as [<- | Hp]; [vm_compute; discriminate|]).
    contradiction.
  - apply stampsAt_carry.
  - eapply last_stamp_idle; [vm_compute; reflexivity|].
    vm_compute. split; reflexivity.
  - repeat split; assumption.
Defined.
